(** * void-dex-api: quote routing core

    A shallow embedding of the routing core of the aggregator backend
    (liquidity graph, pathfinder, route and venue quoting, split
    optimisation, exact-output search) together with the properties the
    specification states about it.

    Conventions of the embedding:
    - a JavaScript [bigint] is a [Z]; bigint division truncates ([Z.quot]);
    - a JavaScript [number] is an IEEE 754 binary64 value, taken from the
      standard library's executable specification [spec_float] with
      [prec = 53] and [emax = 1024];
    - strings are [string]; a [Map] with string keys is a [gmap], a [Set]
      a [gset]; arrays are lists;
    - a promise that may reject, or a call that may throw, returns a
      [result]; calls to the chain go through a [Provider] record of
      functions. *)

From Stdlib Require Import ZArith Lia Bool Ascii String List.
From Stdlib Require Import Floats.SpecFloat.
From Stdlib Require Import Reals Lra Psatz.
From stdpp Require Import gmap strings list sorting.

Open Scope Z_scope.

(* ===================================================================== *)
(** * JavaScript values *)
(* ===================================================================== *)

Module JS.

(** ** Numbers: IEEE 754 binary64 *)

Definition prec : Z := 53.
Definition emax : Z := 1024.

Abbreviation number := spec_float.

Definition add : number -> number -> number := SFadd prec emax.
Definition sub : number -> number -> number := SFsub prec emax.
Definition mul : number -> number -> number := SFmul prec emax.
Definition div : number -> number -> number := SFdiv prec emax.
Definition lt (x y : number) : bool := SFltb x y.
Definition gt (x y : number) : bool := SFltb y x.
Definition ge (x y : number) : bool := SFleb y x.
Definition le (x y : number) : bool := SFleb x y.
(** [x !== y] on numbers: true as soon as one side is NaN. *)
Definition strict_ne (x y : number) : bool := negb (SFeqb x y).

(** [Number(z)] for a bigint [z]: the nearest binary64, ties to even. *)
Definition Number_of_bigint (z : Z) : number :=
  binary_normalize prec emax z 0 false.

(** The binary64 nearest to the rational [p / q]. This is what a decimal
    literal of the source denotes, and what [parseFloat] or [Number]
    return on the decimal text of [p / q]. *)
Definition of_ratio (p : Z) (q : positive) : number :=
  match p with
  | Z0 => S754_zero false
  | Zpos a =>
      let '(mz, ez, lz) := SFdiv_core_binary prec emax (Zpos a) 0 (Zpos q) 0 in
      binary_round_aux prec emax false mz ez lz
  | Zneg a =>
      let '(mz, ez, lz) := SFdiv_core_binary prec emax (Zpos a) 0 (Zpos q) 0 in
      binary_round_aux prec emax true mz ez lz
  end.

Definition of_Z (z : Z) : number := Number_of_bigint z.

Definition zero : number := S754_zero false.

(** [Math.abs] *)
Definition Math_abs (x : number) : number := SFabs x.

(** The signed mantissa of a finite number. *)
Definition signed (s : bool) (m : positive) : Z :=
  if s then Zneg m else Zpos m.

(** [Math.round]: the integer nearest to [x], ties towards +infinity;
    zeros, infinities and NaN are returned unchanged and a result of
    zero keeps the sign of [x]. *)
Definition Math_round (x : number) : number :=
  match x with
  | S754_finite s m e =>
      if 0 <=? e then x
      else
        let k := Z.opp e in
        let n := Z.div (2 * signed s m + 2 ^ k) (2 ^ (k + 1)) in
        if n =? 0 then S754_zero s else Number_of_bigint n
  | _ => x
  end.

(** [Math.floor] *)
Definition Math_floor (x : number) : number :=
  match x with
  | S754_finite s m e =>
      if 0 <=? e then x
      else
        let n := Z.div (signed s m) (2 ^ (Z.opp e)) in
        if n =? 0 then S754_zero s else Number_of_bigint n
  | _ => x
  end.

(** ** Outcome of a call that may throw *)

Inductive result (A : Type) : Type :=
| Value (a : A)
| Thrown.
Arguments Value {A} a.
Arguments Thrown {A}.

(** [BigInt(x)] for a number [x]: throws a RangeError unless [x] is an
    integer. *)
Definition BigInt_of_number (x : number) : result Z :=
  match x with
  | S754_zero _ => Value 0
  | S754_finite s m e =>
      if 0 <=? e then Value (signed s m * 2 ^ e)
      else
        let d := 2 ^ (Z.opp e) in
        if Z.rem (Zpos m) d =? 0 then Value (Z.quot (signed s m) d)
        else Thrown
  | _ => Thrown
  end.

(** ** Strings *)

Definition lower_ascii (c : ascii) : ascii :=
  let n := N_of_ascii c in
  if ((65 <=? n) && (n <=? 90))%N then ascii_of_N (n + 32) else c.

Fixpoint toLowerCase (s : string) : string :=
  match s with
  | EmptyString => EmptyString
  | String c r => String (lower_ascii c) (toLowerCase r)
  end.

Fixpoint startsWith (p s : string) : bool :=
  match p, s with
  | EmptyString, _ => true
  | String a p', String b s' => Ascii.eqb a b && startsWith p' s'
  | String _ _, EmptyString => false
  end.

(** [s.includes(p)] *)
Fixpoint includes (p s : string) : bool :=
  startsWith p s ||
  match s with
  | EmptyString => false
  | String _ s' => includes p s'
  end.

(** ** Arrays *)

Section Sort.
Context {A : Type}.
(** The comparator answers with a number; only its sign is used. *)
Variable cmp : A -> A -> Z.

Fixpoint insert_sorted (x : A) (l : list A) : list A :=
  match l with
  | [] => [x]
  | y :: l' => if cmp x y <=? 0 then x :: y :: l' else y :: insert_sorted x l'
  end.

(** [Array.prototype.sort]: a stable sort. An element stays in front of
    the later elements it does not compare greater than. *)
Definition sort (l : list A) : list A := foldr insert_sorted [] l.
End Sort.

(** [a.slice(0, n)] *)
Definition slice0 {A : Type} (n : nat) (l : list A) : list A := take n l.

End JS.

Export JS(result, Value, Thrown).

#[global] Arguments JS.add : simpl never.
#[global] Arguments JS.sub : simpl never.
#[global] Arguments JS.mul : simpl never.
#[global] Arguments JS.div : simpl never.
#[global] Arguments JS.of_ratio : simpl never.
#[global] Arguments JS.of_Z : simpl never.
#[global] Arguments JS.Number_of_bigint : simpl never.
#[global] Arguments JS.Math_round : simpl never.
#[global] Arguments JS.Math_floor : simpl never.
#[global] Arguments JS.BigInt_of_number : simpl never.

(* ===================================================================== *)
(** * Liquidity graph (liquidity-graph.service.ts) *)
(* ===================================================================== *)

Module LiquidityGraph.

(** The pool entity, restricted to the columns the graph reads. A
    nullable column is an [option]. *)
Record Pool : Type := {
  dexId : string;
  poolAddress : string;
  token0 : string;
  token1 : string;
  fee : option Z;
  liquidity : option Z
}.

Record GraphEdge : Type := {
  edge_pool : Pool;
  edge_tokenIn : string;
  edge_tokenOut : string;
  edge_dexId : string;
  edge_fee : JS.number;
  edge_liquidity : Z
}.

Record Graph : Type := {
  adjacencyList : gmap string (list GraphEdge);
  tokens : gset string;
  poolCount : nat
}.

(** Truthiness of a nullable integer column: [null] and [0] are falsy. *)
Definition truthy (f : option Z) : bool :=
  match f with
  | Some z => negb (z =? 0)
  | None => false
  end.

(** [pool.fee ? pool.fee / 1_000_000 : 0.003] *)
Definition feeDecimal (pool : Pool) : JS.number :=
  if truthy (fee pool)
  then JS.div (JS.of_Z (default 0 (fee pool))) (JS.of_Z 1000000)
  else JS.of_ratio 3 1000.

Definition pushEdge (adj : gmap string (list GraphEdge)) (t : string)
    (e : GraphEdge) : gmap string (list GraphEdge) :=
  <[t := default [] (adj !! t) ++ [e]]> adj.

Definition addPool (acc : gmap string (list GraphEdge) * gset string)
    (pool : Pool) : gmap string (list GraphEdge) * gset string :=
  let '(adj, toks) := acc in
  let t0 := JS.toLowerCase (token0 pool) in
  let t1 := JS.toLowerCase (token1 pool) in
  let toks := {[t1]} ∪ ({[t0]} ∪ toks) in
  let f := feeDecimal pool in
  let liq := match liquidity pool with Some l => l | None => 0 end in
  let edge0to1 := {| edge_pool := pool; edge_tokenIn := t0; edge_tokenOut := t1;
                     edge_dexId := dexId pool; edge_fee := f; edge_liquidity := liq |} in
  let edge1to0 := {| edge_pool := pool; edge_tokenIn := t1; edge_tokenOut := t0;
                     edge_dexId := dexId pool; edge_fee := f; edge_liquidity := liq |} in
  (pushEdge (pushEdge adj t0 edge0to1) t1 edge1to0, toks).

Definition buildGraph (pools : list Pool) : Graph :=
  let '(adj, toks) := foldl addPool (∅, ∅) pools in
  {| adjacencyList := adj; tokens := toks; poolCount := length pools |}.

Definition getEdgesFrom (graph : Graph) (token : string) : list GraphEdge :=
  default [] (adjacencyList graph !! JS.toLowerCase token).

Definition hasToken (graph : Graph) (token : string) : bool :=
  bool_decide (JS.toLowerCase token ∈ tokens graph).

End LiquidityGraph.

(* ===================================================================== *)
(** * Pathfinder (pathfinder.service.ts) *)
(* ===================================================================== *)

Module Pathfinder.
Import LiquidityGraph.

Record RouteHop : Type := {
  hop_edge : GraphEdge;
  hop_tokenIn : string;
  hop_tokenOut : string;
  hop_poolAddress : string;
  hop_dexId : string;
  hop_fee : JS.number
}.

Record DiscoveredRoute : Type := {
  hops : list RouteHop;
  route_tokenIn : string;
  route_tokenOut : string;
  path : list string;
  totalHops : nat;
  estimatedGas : Z
}.

Definition GAS_v3_single : Z := 150000.
Definition GAS_v3_multi : Z := 100000.
Definition GAS_v2_single : Z := 120000.
Definition GAS_v2_multi : Z := 80000.

Definition MAX_HOPS : nat := 3.
Definition MAX_ROUTES : nat := 10.

Definition hopGas (first : bool) (hop : RouteHop) : Z :=
  let isV3 := JS.includes "v3" (hop_dexId hop) in
  if first then (if isV3 then GAS_v3_single else GAS_v2_single)
  else (if isV3 then GAS_v3_multi else GAS_v2_multi).

Definition gasOfHops (hs : list RouteHop) : Z :=
  match hs with
  | [] => 0
  | h :: rest => foldl (fun g h' => g + hopGas false h') (hopGas true h) rest
  end.

(** [createRoute]: reading [hops[0]] of an empty array throws. *)
Definition createRoute (hs : list RouteHop) (p : list string)
    : result DiscoveredRoute :=
  match head hs, last hs with
  | Some h0, Some hl =>
      Value {| hops := hs;
               route_tokenIn := hop_tokenIn h0;
               route_tokenOut := hop_tokenOut hl;
               path := p;
               totalHops := length hs;
               estimatedGas := gasOfHops hs |}
  | _, _ => Thrown
  end.

Definition mkHop (edge : GraphEdge) : RouteHop :=
  {| hop_edge := edge;
     hop_tokenIn := edge_tokenIn edge;
     hop_tokenOut := edge_tokenOut edge;
     hop_poolAddress := poolAddress (edge_pool edge);
     hop_dexId := edge_dexId edge;
     hop_fee := edge_fee edge |}.

(** [findRoutesRecursive]. The array [results] is threaded through the
    calls; a thrown [createRoute] aborts the search. [fuel] bounds the
    recursion depth for the termination checker; the depth test of the
    source is the [MAX_HOPS] comparison. *)
Fixpoint findRoutesRecursive (fuel : nat) (graph : Graph)
    (currentToken targetToken : string) (currentHops : list RouteHop)
    (currentPath : list string) (visitedInPath : gset string)
    (results : result (list DiscoveredRoute))
    : result (list DiscoveredRoute) :=
  match fuel with
  | O => Thrown
  | S fuel' =>
      if bool_decide (MAX_HOPS ≤ length currentHops)%nat then results
      else
        foldl
          (fun results edge =>
             match results with
             | Thrown => Thrown
             | Value rs =>
                 let nextToken := JS.toLowerCase (edge_tokenOut edge) in
                 if bool_decide (nextToken ∈ visitedInPath)
                    && negb (String.eqb nextToken targetToken)
                 then Value rs
                 else
                   let hop := mkHop edge in
                   let newHops := currentHops ++ [hop] in
                   let newPath := currentPath ++ [nextToken] in
                   if String.eqb nextToken targetToken then
                     match createRoute newHops newPath with
                     | Value route => Value (rs ++ [route])
                     | Thrown => Thrown
                     end
                   else
                     findRoutesRecursive fuel' graph nextToken targetToken
                       newHops newPath ({[nextToken]} ∪ visitedInPath)
                       (Value rs)
             end)
          results (getEdgesFrom graph currentToken)
  end.

(** [findRoutes], from the point where the graph has been fetched. *)
Definition findRoutes (graph : Graph) (tokenIn tokenOut : string)
    : result (list DiscoveredRoute) :=
  let tokenInLower := JS.toLowerCase tokenIn in
  let tokenOutLower := JS.toLowerCase tokenOut in
  if negb (hasToken graph tokenInLower) then Value []
  else if negb (hasToken graph tokenOutLower) then Value []
  else
    match findRoutesRecursive (S MAX_HOPS) graph tokenInLower tokenOutLower
            [] [tokenInLower] ∅ (Value []) with
    | Thrown => Thrown
    | Value routes =>
        let routes :=
          JS.sort (fun a b => estimatedGas a - estimatedGas b) routes in
        Value (JS.slice0 MAX_ROUTES routes)
    end.

End Pathfinder.

(* ===================================================================== *)
(** * Constants (constants/dex-contracts.ts) *)
(* ===================================================================== *)

Module Constants.

Inductive DexType : Type := amm_v2 | amm_v3 | curve | balancer.

Record DexInfo : Type := { name : string; type : DexType }.

Definition DEX_INFO_table : list (string * DexInfo) :=
  [ ("uniswap_v3", {| name := "Uniswap V3"; type := amm_v3 |});
    ("pancakeswap_v3", {| name := "PancakeSwap V3"; type := amm_v3 |});
    ("sushiswap_v3", {| name := "SushiSwap V3"; type := amm_v3 |});
    ("quickswap_v3", {| name := "QuickSwap V3"; type := amm_v3 |});
    ("uniswap_v2", {| name := "Uniswap V2"; type := amm_v2 |});
    ("sushiswap", {| name := "SushiSwap"; type := amm_v2 |});
    ("pancakeswap_v2", {| name := "PancakeSwap V2"; type := amm_v2 |});
    ("quickswap", {| name := "QuickSwap"; type := amm_v2 |});
    ("camelot", {| name := "Camelot"; type := amm_v2 |});
    ("traderjoe", {| name := "Trader Joe"; type := amm_v2 |});
    ("biswap", {| name := "Biswap"; type := amm_v2 |});
    ("apeswap", {| name := "ApeSwap"; type := amm_v2 |});
    ("spookyswap", {| name := "SpookySwap"; type := amm_v2 |});
    ("pangolin", {| name := "Pangolin"; type := amm_v2 |});
    ("curve", {| name := "Curve"; type := curve |});
    ("balancer", {| name := "Balancer"; type := balancer |}) ]%string.

Fixpoint assoc {V : Type} (k : string) (l : list (string * V)) : option V :=
  match l with
  | [] => None
  | (k', v) :: l' => if String.eqb k k' then Some v else assoc k l'
  end.

Definition DEX_INFO (dexId : string) : option DexInfo :=
  assoc dexId DEX_INFO_table.

Record Contracts : Type := { router : string; quoter : option string }.

Definition v3c (q r : string) : Contracts := {| router := r; quoter := Some q |}.
Definition v2c (r : string) : Contracts := {| router := r; quoter := None |}.

(** Router and quoter addresses per chain (the factory address is not
    read by the quoting services). *)
Definition DEX_CONTRACTS_table : list (Z * list (string * Contracts)) :=
  [ (1, [ ("uniswap_v3", v3c "0x61fFE014bA17989E743c5F6cB21bF9697530B21e"
                             "0xE592427A0AEce92De3Edee1F18E0157C05861564");
          ("uniswap_v2", v2c "0x7a250d5630B4cF539739dF2C5dAcb4c659F2488D");
          ("sushiswap", v2c "0xd9e1cE17f2641f24aE83637ab66a2cca9C378B9F");
          ("sushiswap_v3", v3c "0x64e8802FE490fa7cc61d3463958199161Bb608A7"
                               "0x2E6cd2d30aa43f40aa81619ff4b6E0a41479B13F") ]);
    (42161, [ ("uniswap_v3", v3c "0x61fFE014bA17989E743c5F6cB21bF9697530B21e"
                                 "0xE592427A0AEce92De3Edee1F18E0157C05861564");
              ("sushiswap", v2c "0x1b02dA8Cb0d097eB8D57A175b88c7D8b47997506");
              ("sushiswap_v3", v3c "0x0524E833cCD057e4d7A296e3aaAb9f7675964Ce1"
                                   "0x8A21F6768C1f8075791D08546Dadf6daA0bE820c");
              ("camelot", v2c "0xc873fEcbd354f5A56E00E710B90EF4201db2448d");
              ("traderjoe", v2c "0xbeE5c10Cf6E4F68f831E11C1D9E59B43560B3571") ]);
    (137, [ ("uniswap_v3", v3c "0x61fFE014bA17989E743c5F6cB21bF9697530B21e"
                               "0xE592427A0AEce92De3Edee1F18E0157C05861564");
            ("quickswap", v2c "0xa5E0829CaCEd8fFDD4De3c43696c57F7D7A678ff");
            ("quickswap_v3", v3c "0xa15F0D7377B2A0C0c10db057f641beD21028FC89"
                                 "0xf5b509bB0909a69B1c207E495f687a596C168E12");
            ("sushiswap", v2c "0x1b02dA8Cb0d097eB8D57A175b88c7D8b47997506");
            ("apeswap", v2c "0xC0788A3aD43d79aa53B09c2EaCc313A787d1d607") ]);
    (56, [ ("pancakeswap_v3", v3c "0xB048Bbc1Ee6b733FFfCFb9e9CeF7375518e25997"
                                  "0x1b81D678ffb9C0263b24A97847620C99d213eB14");
           ("pancakeswap_v2", v2c "0x10ED43C718714eb63d5aA57B78B54704E256024E");
           ("sushiswap", v2c "0x1b02dA8Cb0d097eB8D57A175b88c7D8b47997506");
           ("biswap", v2c "0x3a6d8cA21D1CF76F653A67577FA0D27453350dD8");
           ("apeswap", v2c "0xcF0feBd3f17CEf5b47b0cD257aCf6025c5BFf3b7") ]);
    (11155111, [ ("uniswap_v3", v3c "0xEd1f6473345F45b75F8179591dd5bA1888cf2FB3"
                                    "0x3bFA4769FB09eefC5a80d6E87c3B9C650f7Ae48E") ]) ]%string.

Fixpoint assocZ {V : Type} (k : Z) (l : list (Z * V)) : option V :=
  match l with
  | [] => None
  | (k', v) :: l' => if k =? k' then Some v else assocZ k l'
  end.

(** [DEX_CONTRACTS[chainId]?.[dexId]] *)
Definition DEX_CONTRACTS (chainId : Z) (dexId : string) : option Contracts :=
  match assocZ chainId DEX_CONTRACTS_table with
  | Some t => assoc dexId t
  | None => None
  end.

Definition V3_FEE_TIERS : list Z := [500; 3000; 10000].

End Constants.

(* ===================================================================== *)
(** * Chain access *)
(* ===================================================================== *)

(** The three contract reads the quoting services issue through
    [provider.readContract]. A read either decodes to a value or rejects
    (revert, transport error, malformed address). The chain state is fixed
    for the duration of one quoting request, so a read is a function of its
    arguments. *)
Record Provider : Type := {
  (** QuoterV2 [quoteExactInputSingle]: quoter, tokenIn, tokenOut, amountIn, fee *)
  quoteExactInputSingle : string -> string -> string -> Z -> Z -> result Z;
  (** QuoterV2 [quoteExactInput]: quoter, packed path, amountIn *)
  quoteExactInput : string -> string -> Z -> result Z;
  (** V2 router [getAmountsOut]: router, amountIn, path *)
  getAmountsOut : string -> Z -> list string -> result (list Z)
}.

(** The decimal text [formatUnits(value, decimals)] renders: it denotes
    [value / 10^decimals] exactly. *)
Record DecimalText : Type := { units : Z; scale : nat }.

Definition formatUnits (value : Z) (decimals : nat) : DecimalText :=
  {| units := value; scale := decimals |}.

(** [parseFloat] and [Number] on such a text. *)
Definition parseFloat (t : DecimalText) : JS.number :=
  JS.of_ratio (units t) (Z.to_pos (10 ^ Z.of_nat (scale t))).

(** [try { body } catch { return fallback }] *)
Definition try_catch {A : Type} (body : result A) (fallback : A) : result A :=
  match body with
  | Value a => Value a
  | Thrown => Value fallback
  end.

#[global] Instance result_bind : MBind result :=
  fun A B k r => match r with Value a => k a | Thrown => Thrown end.

(** [Promise.all] over an array of promises: rejects as soon as one does. *)
Fixpoint Promise_all {A : Type} (l : list (result A)) : result (list A) :=
  match l with
  | [] => Value []
  | r :: l' => a ← r; rest ← Promise_all l'; Value (a :: rest)
  end.

(* ===================================================================== *)
(** * Route quoting (route-quote.service.ts) *)
(* ===================================================================== *)

Module RouteQuoteService.
Import LiquidityGraph Pathfinder Constants.

Record HopQuoteData : Type := {
  hq_poolAddress : string;
  hq_dexId : string;
  hq_tokenIn : string;
  hq_tokenOut : string;
  hq_amountIn : Z;
  hq_amountOut : Z;
  hq_fee : option Z
}.

Record RouteQuote : Type := {
  route : DiscoveredRoute;
  amountIn : Z;
  amountOut : Z;
  amountOutFormatted : DecimalText;
  priceImpact : JS.number;
  rq_estimatedGas : Z;
  hopsData : list HopQuoteData
}.

(** [hop.edge.pool.fee || 3000] *)
Definition poolFeeOrDefault (hop : RouteHop) : Z :=
  match fee (edge_pool (hop_edge hop)) with
  | Some f => if f =? 0 then 3000 else f
  | None => 3000
  end.

(** [getV3HopQuote]. A missing quoter address makes the read reject. *)
Definition getV3HopQuote (provider : Provider) (quoterAddress : option string)
    (hop : RouteHop) (amountIn : Z) : result (option HopQuoteData) :=
  let fee := poolFeeOrDefault hop in
  try_catch
    (amountOut ←
       match quoterAddress with
       | Some q => quoteExactInputSingle provider q (hop_tokenIn hop)
                     (hop_tokenOut hop) amountIn fee
       | None => Thrown
       end;
     Value (Some {| hq_poolAddress := hop_poolAddress hop;
                    hq_dexId := hop_dexId hop;
                    hq_tokenIn := hop_tokenIn hop;
                    hq_tokenOut := hop_tokenOut hop;
                    hq_amountIn := amountIn;
                    hq_amountOut := amountOut;
                    hq_fee := Some fee |}))
    None.

(** [getV2HopQuote]. [amounts[amounts.length - 1]] of an empty array is
    [undefined]; every later use of that amount (the next hop's read,
    or [formatUnits] after the last hop) throws and is caught as a failed
    route, so the hop is reported as failed here. *)
Definition getV2HopQuote (provider : Provider) (routerAddress : string)
    (hop : RouteHop) (amountIn : Z) : result (option HopQuoteData) :=
  try_catch
    (amounts ← getAmountsOut provider routerAddress amountIn
                  [hop_tokenIn hop; hop_tokenOut hop];
     match last amounts with
     | Some amountOut =>
         Value (Some {| hq_poolAddress := hop_poolAddress hop;
                        hq_dexId := hop_dexId hop;
                        hq_tokenIn := hop_tokenIn hop;
                        hq_tokenOut := hop_tokenOut hop;
                        hq_amountIn := amountIn;
                        hq_amountOut := amountOut;
                        hq_fee := None |})
     | None => Thrown
     end)
    None.

Definition getHopQuote (chainId : Z) (provider : Provider) (hop : RouteHop)
    (amountIn : Z) : result (option HopQuoteData) :=
  match DEX_INFO (hop_dexId hop) with
  | None => Value None
  | Some dexInfo =>
      match DEX_CONTRACTS chainId (hop_dexId hop) with
      | None => Value None
      | Some dexContracts =>
          try_catch
            (match type dexInfo with
             | amm_v3 => getV3HopQuote provider (quoter dexContracts) hop amountIn
             | amm_v2 => getV2HopQuote provider (router dexContracts) hop amountIn
             | _ => Value None
             end)
            None
      end
  end.

(** [Math.min] on two numbers. *)
Definition Math_min (a b : JS.number) : JS.number :=
  match a, b with
  | S754_nan, _ | _, S754_nan => S754_nan
  | S754_zero sa, S754_zero sb => S754_zero (sa || sb)
  | _, _ => if JS.lt b a then b else a
  end.

Definition estimatePriceImpact (hops : nat) (amountIn : Z) : JS.number :=
  let baseImpact := JS.of_ratio 3 10 in
  let amountFactor := JS.div (JS.of_Z amountIn) (JS.of_Z (10 ^ 18)) in
  let amountImpact :=
    Math_min (JS.mul amountFactor (JS.of_ratio 1 1000)) (JS.of_Z 1) in
  JS.add (JS.mul baseImpact (JS.of_Z (Z.of_nat hops))) amountImpact.

(** The hop loop of [getQuoteForRoute]: [None] is the early
    [return null] on a failed hop. *)
Fixpoint quoteHops (chainId : Z) (provider : Provider) (hs : list RouteHop)
    (currentAmount : Z) (hopsData : list HopQuoteData)
    : result (option (list HopQuoteData * Z)) :=
  match hs with
  | [] => Value (Some (hopsData, currentAmount))
  | hop :: hs' =>
      hopQuote ← getHopQuote chainId provider hop currentAmount;
      match hopQuote with
      | None => Value None
      | Some hq =>
          quoteHops chainId provider hs' (hq_amountOut hq) (hopsData ++ [hq])
      end
  end.

Definition getQuoteForRoute (chainId : Z) (provider : Provider)
    (r : DiscoveredRoute) (amountIn : Z) (toDecimals : nat)
    : result (option RouteQuote) :=
  try_catch
    (looped ← quoteHops chainId provider (hops r) amountIn [];
     match looped with
     | None => Value None
     | Some (hopsData, amountOut) =>
         Value (Some {| route := r;
                        amountIn := amountIn;
                        amountOut := amountOut;
                        amountOutFormatted := formatUnits amountOut toDecimals;
                        priceImpact := estimatePriceImpact (totalHops r) amountIn;
                        rq_estimatedGas := estimatedGas r;
                        hopsData := hopsData |})
     end)
    None.

(** The comparator of [getQuotesForRoutes]: it never answers 0. *)
Definition byOutputDesc (a b : RouteQuote) : Z :=
  if amountOut a <? amountOut b then 1 else -1.

Definition getQuotesForRoutes (chainId : Z) (provider : Provider)
    (routes : list DiscoveredRoute) (amountIn : Z) (toDecimals : nat)
    : result (list RouteQuote) :=
  results ← Promise_all
               (map (fun r => getQuoteForRoute chainId provider r amountIn toDecimals)
                    routes);
  Value (JS.sort byOutputDesc (omap Datatypes.id results)).

End RouteQuoteService.

(* ===================================================================== *)
(** * Direct venue quoting (dex-quote.service.ts) *)
(* ===================================================================== *)

Module DexQuoteService.
Import Constants.

(** [DexQuoteResult], which is also the [DexQuote] the route optimizer
    takes. An optional property is an [option]. *)
Record DexQuote : Type := {
  dexId : string;
  dexName : string;
  amountOut : Z;
  amountOutFormatted : DecimalText;
  estimatedGas : Z;
  feeTier : option Z;
  feeTiers : option (list Z);
  path : option (list string);
  pathEncoded : option string;
  isMultiHop : option bool;
  priceImpact : JS.number
}.

(** One round of the fee-tier loop of [getV3SingleHopQuote]; a rejected
    read is the [catch { continue }]. *)
Definition tryTier (provider : Provider) (quoterAddress tokenIn tokenOut : string)
    (amountIn : Z) (best : Z * Z) (fee : Z) : Z * Z :=
  let '(bestAmountOut, bestFee) := best in
  match quoteExactInputSingle provider quoterAddress tokenIn tokenOut amountIn fee with
  | Value amountOut =>
      if bestAmountOut <? amountOut then (amountOut, fee) else (bestAmountOut, bestFee)
  | Thrown => (bestAmountOut, bestFee)
  end.

Definition bestTier (provider : Provider) (quoterAddress tokenIn tokenOut : string)
    (amountIn : Z) : Z * Z :=
  foldl (tryTier provider quoterAddress tokenIn tokenOut amountIn)
        (0, nth 1 V3_FEE_TIERS 0) V3_FEE_TIERS.

Definition getV3SingleHopQuote (dexId : string) (provider : Provider)
    (quoterAddress tokenIn tokenOut : string) (amountIn : Z) (toDecimals : nat)
    : result (option DexQuote) :=
  try_catch
    (let '(bestAmountOut, bestFee) :=
       bestTier provider quoterAddress tokenIn tokenOut amountIn in
     if bestAmountOut =? 0 then Value None
     else
       info ← match DEX_INFO dexId with
              | Some i => Value i
              | None => Thrown
              end;
       Value (Some {| dexId := dexId;
                      dexName := name info;
                      amountOut := bestAmountOut;
                      amountOutFormatted := formatUnits bestAmountOut toDecimals;
                      estimatedGas := 150000;
                      feeTier := Some bestFee;
                      feeTiers := None;
                      path := Some [tokenIn; tokenOut];
                      pathEncoded := None;
                      isMultiHop := Some false;
                      priceImpact := JS.of_ratio 1 2 |}))
    None.

(** ** Packed path encoding *)

Definition hexDigit (d : Z) : ascii :=
  if d <? 10 then ascii_of_N (Z.to_N (48 + d)) else ascii_of_N (Z.to_N (87 + d)).

Fixpoint toHex (fuel : nat) (n : Z) (acc : string) : string :=
  match fuel with
  | O => acc
  | S fuel' =>
      let acc' := String (hexDigit (n mod 16)) acc in
      if n / 16 =? 0 then acc' else toHex fuel' (n / 16) acc'
  end.

(** [n.toString(16)] for an integer [n] *)
Definition toString16 (n : Z) : string :=
  if n <? 0
  then String "-"%char (toHex (S (Z.to_nat (Z.log2 (- n)))) (- n) EmptyString)
  else toHex (S (Z.to_nat (Z.log2 n))) n EmptyString.

Fixpoint repeatChar (n : nat) (c : ascii) : string :=
  match n with
  | O => EmptyString
  | S n' => String c (repeatChar n' c)
  end.

(** [s.padStart(n, c)] for a one-character pad *)
Definition padStart (n : nat) (c : ascii) (s : string) : string :=
  (repeatChar (n - String.length s) c ++ s)%string.

(** [s.slice(n)] *)
Fixpoint sliceFrom (n : nat) (s : string) : string :=
  match n, s with
  | O, _ => s
  | S n', String _ s' => sliceFrom n' s'
  | S _, EmptyString => EmptyString
  end.

(** The loop of [encodeV3Path]; [tokens] holds [tokens[i + 1]] onwards.
    Reading past the end of [tokens] gives [undefined], on which
    [toLowerCase] throws. *)
Fixpoint encodeLoop (encoded : string) (tokens : list string) (fees : list Z)
    {struct fees} : result string :=
  match fees with
  | [] => Value encoded
  | f :: fees' =>
      match tokens with
      | [] => Thrown
      | t :: tokens' =>
          let feeHex := padStart 6 "0"%char (toString16 f) in
          let nextToken := sliceFrom 2 (JS.toLowerCase t) in
          encodeLoop (encoded ++ feeHex ++ nextToken)%string tokens' fees'
      end
  end.

Definition encodeV3Path (tokens : list string) (fees : list Z) : result string :=
  if negb (length tokens =? length fees + 1)%nat then Thrown
  else
    match tokens with
    | [] => Thrown
    | t0 :: rest => encodeLoop (JS.toLowerCase t0) rest fees
    end.

End DexQuoteService.

(* ===================================================================== *)
(** * Per-venue split optimizer (route-optimizer.service.ts) *)
(* ===================================================================== *)

Module RouteOptimizerService.
Import DexQuoteService.

Record RouteStep : Type := {
  step_dexId : string;
  step_dexName : string;
  percentage : JS.number;
  fromAmount : DecimalText;
  toAmount : DecimalText;
  step_estimatedGas : Z;
  step_feeTier : option Z;
  step_feeTiers : option (list Z);
  step_isMultiHop : option bool;
  step_path : option (list string);
  dexData : option string
}.

Record OptimalRoute : Type := {
  steps : list RouteStep;
  totalOutput : DecimalText;
  totalGas : Z;
  avgPriceImpact : JS.number;
  isSplit : bool
}.

Definition MIN_SPLIT_PERCENTAGE : JS.number := JS.of_Z 1.
Definition MAX_SPLITS : nat := 3.

Definition n100 : JS.number := JS.of_Z 100.
Definition splitThreshold : JS.number := JS.of_ratio 1001 1000.

(** The comparator of both optimizers: larger output first. *)
Definition byAmountOutDesc {Q : Type} (out : Q -> Z) (a b : Q) : Z :=
  if out a <? out b then 1 else if out b <? out a then -1 else 0.

(** [xs.reduce((sum, x) => sum + x, 0)] *)
Definition sumNumbers (xs : list JS.number) : JS.number :=
  foldl JS.add JS.zero xs.

(** [Math.round(x * 100) / 100] *)
Definition round2 (x : JS.number) : JS.number :=
  JS.div (JS.Math_round (JS.mul x n100)) n100.

Definition normalizePercentages (raw : list JS.number) : list JS.number :=
  let total := sumNumbers raw in
  map (fun p => JS.mul (JS.div p total) n100) raw.

Definition adjustFirst {Q : Type} (f : JS.number -> JS.number)
    (l : list (Q * JS.number)) : list (Q * JS.number) :=
  match l with
  | [] => []
  | (q, p) :: rest => (q, f p) :: rest
  end.

Definition calculateDynamicSplit (quotes : list DexQuote)
    : list (DexQuote * JS.number) :=
  let topQuotes := JS.slice0 MAX_SPLITS quotes in
  let outputs := map (fun q => JS.Number_of_bigint (amountOut q)) topQuotes in
  let totalPotentialOutput := sumNumbers outputs in
  let rawPercentages :=
    map (fun output => JS.mul (JS.div output totalPotentialOutput) n100) outputs in
  let percentages := normalizePercentages rawPercentages in
  let validSplits :=
    filter (fun s => JS.ge (snd s) MIN_SPLIT_PERCENTAGE = true)
           (zip topQuotes percentages) in
  match validSplits with
  | [(q, _)] => [(q, n100)]
  | _ =>
      let totalPercentage := sumNumbers (map snd validSplits) in
      let validSplits :=
        map (fun s => (fst s, JS.mul (JS.div (snd s) totalPercentage) n100))
            validSplits in
      let validSplits := map (fun s => (fst s, round2 (snd s))) validSplits in
      let sum := sumNumbers (map snd validSplits) in
      if JS.strict_ne sum n100 && (0 <? length validSplits)%nat
      then adjustFirst (fun p => round2 (JS.add p (JS.sub n100 sum))) validSplits
      else validSplits
  end.

(** ** ABI encoding of [dexData] (viem's [encodeAbiParameters])

    The texts are hexadecimal with the prefix 0x; a word is 32 bytes, 64
    digits. *)

(** [numberToHex(n, { size: 32 })] without the prefix, for [0 <= n]. *)
Definition abiWord (n : Z) : string :=
  padStart 64 "0"%char (toString16 n).

(** [s.replace('0x', '')]: the first occurrence is removed. *)
Fixpoint remove0x (s : string) : string :=
  match s with
  | EmptyString => EmptyString
  | String c s' =>
      if JS.startsWith "0x" s then sliceFrom 2 s else String c (remove0x s')
  end.

(** [s.padEnd(n, '0')] *)
Definition padEnd0 (n : nat) (s : string) : string :=
  (s ++ repeatChar (n - String.length s) "0"%char)%string.

(** [size(value)]: the bytes of a text that starts with 0x, else the
    length of the text. *)
Definition byteSize (value : string) : nat :=
  if JS.startsWith "0x" value then Nat.div (String.length value - 2 + 1) 2
  else String.length value.

(** The encoding of one [uint24]: an [IntegerOutOfRangeError] is thrown
    outside 0 .. 2^24 - 1. *)
Definition encodeUint24 (value : Z) : result string :=
  if (0 <=? value) && (value <=? 2 ^ 24 - 1)
  then Value ("0x" ++ abiWord value)%string
  else Thrown.

(** The encoding of one [bytes]: the length word, then the text padded
    on the right to whole words. [padHex] throws when the text is longer
    than the size it is padded to. *)
Definition encodeBytes (value : string) : result string :=
  let bytesSize := byteSize value in
  value_ ← (if (Nat.modulo bytesSize 32 =? 0)%nat then Value value
            else
              let size := (Nat.div (String.length value - 2 + 63) 64 * 32)%nat in
              let hex := remove0x value in
              if (size * 2 <? String.length hex)%nat then Thrown
              else Value ("0x" ++ padEnd0 (size * 2) hex)%string);
  Value ("0x" ++ abiWord (Z.of_nat bytesSize) ++ remove0x value_)%string.

(** [encodeAbiParameters([{ type: 'bool' }, { type: 'bytes' }], [b, value])]:
    the flag, the offset 64 of the dynamic part, and the bytes. *)
Definition encodeBoolBytes (b : bool) (value : string) : result string :=
  encoded ← encodeBytes value;
  Value ("0x" ++ abiWord (if b then 1 else 0) ++ abiWord 64 ++ remove0x encoded)%string.

Definition encodeV3DexData (feeTier : Z) : result string :=
  feeEncoded ← encodeUint24 feeTier;
  encodeBoolBytes false feeEncoded.

Definition encodeV3MultiHopDexData (pathEncoded : string) : result string :=
  encodeBoolBytes true pathEncoded.

(** [quote.isMultiHop && quote.pathEncoded]: an empty text is falsy. *)
Definition multiHopPath (quote : DexQuote) : option string :=
  match isMultiHop quote, pathEncoded quote with
  | Some true, Some p => if String.eqb p "" then None else Some p
  | _, _ => None
  end.

(** [quote.feeTier] when it is truthy: neither missing nor 0. *)
Definition truthyFeeTier (quote : DexQuote) : option Z :=
  match feeTier quote with
  | Some f => if f =? 0 then None else Some f
  | None => None
  end.

(** [quote.feeTier ? this.encodeV3DexData(quote.feeTier) : undefined] *)
Definition feeTierDexData (quote : DexQuote) : result (option string) :=
  match truthyFeeTier quote with
  | Some f => d ← encodeV3DexData f; Value (Some d)
  | None => Value None
  end.

Definition createSingleRoute (quote : DexQuote) (amountIn : Z)
    (fromDecimals toDecimals : nat) : result OptimalRoute :=
  dexData ← match multiHopPath quote with
            | Some p => d ← encodeV3MultiHopDexData p; Value (Some d)
            | None => feeTierDexData quote
            end;
  Value
    {| steps := [ {| step_dexId := dexId quote;
                     step_dexName := dexName quote;
                     percentage := n100;
                     fromAmount := formatUnits amountIn fromDecimals;
                     toAmount := formatUnits (amountOut quote) toDecimals;
                     step_estimatedGas := estimatedGas quote;
                     step_feeTier := feeTier quote;
                     step_feeTiers := feeTiers quote;
                     step_isMultiHop := isMultiHop quote;
                     step_path := path quote;
                     dexData := dexData |} ];
       totalOutput := formatUnits (amountOut quote) toDecimals;
       totalGas := estimatedGas quote;
       avgPriceImpact := priceImpact quote;
       isSplit := false |}.

(** [BigInt(Math.round(percentage * 100))] *)
Definition basisPoints (percentage : JS.number) : result Z :=
  JS.BigInt_of_number (JS.Math_round (JS.mul percentage n100)).

(** The loop of [createSplitRoute] over the legs; the accumulator holds
    [steps], [totalOutput], [totalGas] and [weightedPriceImpact]. *)
Definition splitLeg (amountIn : Z) (fromDecimals toDecimals : nat)
    (acc : result (list RouteStep * Z * Z * JS.number))
    (leg : DexQuote * JS.number)
    : result (list RouteStep * Z * Z * JS.number) :=
  '(steps, totalOutput, totalGas, weightedPriceImpact) ← acc;
  let '(quote, percentage) := leg in
  bp ← basisPoints percentage;
  let splitAmountIn := Z.quot (amountIn * bp) 10000 in
  let splitAmountOut := Z.quot (amountOut quote * bp) 10000 in
  dexData ← feeTierDexData quote;
  Value (steps ++ [ {| step_dexId := dexId quote;
                       step_dexName := dexName quote;
                       percentage := percentage;
                       fromAmount := formatUnits splitAmountIn fromDecimals;
                       toAmount := formatUnits splitAmountOut toDecimals;
                       step_estimatedGas := estimatedGas quote;
                       step_feeTier := feeTier quote;
                       step_feeTiers := None;
                       step_isMultiHop := None;
                       step_path := None;
                       dexData := dexData |} ],
         totalOutput + splitAmountOut,
         totalGas + estimatedGas quote,
         JS.add weightedPriceImpact
           (JS.mul (priceImpact quote) (JS.div percentage n100))).

Definition createSplitRoute (splits : list (DexQuote * JS.number)) (amountIn : Z)
    (fromDecimals toDecimals : nat) : result OptimalRoute :=
  '(steps, totalOutput, totalGas, weightedPriceImpact) ←
    foldl (splitLeg amountIn fromDecimals toDecimals)
          (Value ([], 0, 0, JS.zero)) splits;
  Value {| steps := steps;
           totalOutput := formatUnits totalOutput toDecimals;
           totalGas := totalGas;
           avgPriceImpact := weightedPriceImpact;
           isSplit := true |}.

(** The profitability gate: [splitOutput > singleOutput * splitThreshold]. *)
Definition splitGate (splitOutput singleOutput : DecimalText) : bool :=
  JS.gt (parseFloat splitOutput) (JS.mul (parseFloat singleOutput) splitThreshold).

(** [a[0]] followed by a property read: throws on an empty array. *)
Definition first {A : Type} (a : list A) : result A :=
  match a with
  | [] => Thrown
  | x :: _ => Value x
  end.

Definition findOptimalRoute (quotes : list DexQuote) (amountIn : Z)
    (fromDecimals toDecimals : nat) : result OptimalRoute :=
  if (length quotes =? 0)%nat then Thrown
  else
    let sortedQuotes := JS.sort (byAmountOutDesc amountOut) quotes in
    let amountInNum := parseFloat (formatUnits amountIn fromDecimals) in
    if (length sortedQuotes =? 1)%nat || JS.lt amountInNum n100
    then
      best ← first sortedQuotes;
      createSingleRoute best amountIn fromDecimals toDecimals
    else
      let dynamicSplit := calculateDynamicSplit sortedQuotes in
      best ← first sortedQuotes;
      singleRoute ← createSingleRoute best amountIn fromDecimals toDecimals;
      splitRoute ← createSplitRoute dynamicSplit amountIn fromDecimals toDecimals;
      if splitGate (totalOutput splitRoute) (totalOutput singleRoute)
      then Value splitRoute
      else Value singleRoute.

End RouteOptimizerService.

(* ===================================================================== *)
(** * Quote service (quote.service.ts) *)
(* ===================================================================== *)

Module QuoteService.
Import RouteQuoteService.
Import RouteOptimizerService(n100, splitThreshold, byAmountOutDesc, sumNumbers,
                             adjustFirst, first, splitGate).

Definition MAX_ROUTE_SPLITS : nat := 3.
Definition MIN_ROUTE_PERCENTAGE : JS.number := JS.of_Z 5.

Definition n10000 : JS.number := JS.of_Z 10000.

Record SplitResult : Type := {
  routes : list (RouteQuote * JS.number);
  totalOutput : DecimalText;
  totalGas : JS.number;
  avgPriceImpact : JS.number;
  isSplit : bool
}.

(** The single-route answer, returned at three places of
    [optimizeRouteSplit]. *)
Definition singleBest (sortedQuotes : list RouteQuote) : result (option SplitResult) :=
  best ← first sortedQuotes;
  Value (Some {| routes := [(best, n100)];
                 totalOutput := amountOutFormatted best;
                 totalGas := JS.of_Z (rq_estimatedGas best);
                 avgPriceImpact := priceImpact best;
                 isSplit := false |}).

(** [Math.round((p / totalPercentage) * 10000) / 100] *)
Definition normalized (totalPercentage p : JS.number) : JS.number :=
  JS.div (JS.Math_round (JS.mul (JS.div p totalPercentage) n10000)) n100.

(** The legs that survive the minimum and their percentages after
    normalisation and the adjustment of the first leg. *)
Definition routeSplits (sortedQuotes : list RouteQuote)
    : list (RouteQuote * JS.number) :=
  let topQuotes := JS.slice0 MAX_ROUTE_SPLITS sortedQuotes in
  let outputs := map (fun q => JS.Number_of_bigint (amountOut q)) topQuotes in
  let totalPotentialOutput := sumNumbers outputs in
  let percentages :=
    map (fun output => JS.mul (JS.div output totalPotentialOutput) n100) outputs in
  filter (fun s => JS.ge (snd s) MIN_ROUTE_PERCENTAGE = true)
         (zip topQuotes percentages).

Definition normalizeSplits (validSplits : list (RouteQuote * JS.number))
    : list (RouteQuote * JS.number) :=
  let totalPercentage := sumNumbers (map snd validSplits) in
  let validSplits :=
    map (fun s => (fst s, normalized totalPercentage (snd s))) validSplits in
  let sum := sumNumbers (map snd validSplits) in
  if JS.strict_ne sum n100 && (0 <? length validSplits)%nat
  then adjustFirst
         (fun p => JS.add p (JS.div (JS.Math_round (JS.mul (JS.sub n100 sum) n100)) n100))
         validSplits
  else validSplits.

(** The loop over the legs; the accumulator holds [totalSplitOutput],
    [totalSplitGas] and [weightedPriceImpact]. *)
Definition splitLeg (acc : result (Z * JS.number * JS.number))
    (split : RouteQuote * JS.number) : result (Z * JS.number * JS.number) :=
  '(totalSplitOutput, totalSplitGas, weightedPriceImpact) ← acc;
  let proportion := JS.div (snd split) n100 in
  w ← JS.BigInt_of_number (JS.Math_round (JS.mul proportion n10000));
  let splitOutput := Z.quot (amountOut (fst split) * w) 10000 in
  Value (totalSplitOutput + splitOutput,
         JS.add totalSplitGas
           (JS.Math_floor (JS.mul (JS.of_Z (rq_estimatedGas (fst split))) proportion)),
         JS.add weightedPriceImpact (JS.mul (priceImpact (fst split)) proportion)).

Definition optimizeRouteSplit (quotes : list RouteQuote) (amountIn : Z)
    (fromDecimals toDecimals : nat) : result (option SplitResult) :=
  if (length quotes =? 0)%nat then Value None
  else
    let sortedQuotes := JS.sort (byAmountOutDesc amountOut) quotes in
    let amountInNum := parseFloat (formatUnits amountIn fromDecimals) in
    if (length sortedQuotes =? 1)%nat || JS.lt amountInNum n100
    then singleBest sortedQuotes
    else
      let validSplits := routeSplits sortedQuotes in
      if (length validSplits <=? 1)%nat then singleBest sortedQuotes
      else
        let validSplits := normalizeSplits validSplits in
        '(totalSplitOutput, totalSplitGas, weightedPriceImpact) ←
          foldl splitLeg (Value (0, JS.zero, JS.zero)) validSplits;
        let totalSplitOutputFormatted := formatUnits totalSplitOutput toDecimals in
        best ← first sortedQuotes;
        if splitGate totalSplitOutputFormatted (amountOutFormatted best)
        then Value (Some {| routes := validSplits;
                            totalOutput := totalSplitOutputFormatted;
                            totalGas := totalSplitGas;
                            avgPriceImpact := weightedPriceImpact;
                            isSplit := true |})
        else singleBest sortedQuotes.

(** ** Exact-output search *)

Import DexQuoteService RouteOptimizerService.

(** [parseUnits(x.toFixed(decimals), decimals)]. [toFixed] throws for more
    than 100 digits; from 1e21 on, and for NaN and the infinities, it
    renders a text [parseUnits] rejects. Otherwise the text has exactly
    [decimals] digits after the point: the integer nearest to
    [x * 10^decimals], the larger one on a tie of magnitudes. *)
Definition toFixed_parseUnits (x : JS.number) (decimals : nat) : result Z :=
  if (100 <? decimals)%nat then Thrown
  else
    match x with
    | S754_zero _ => Value 0
    | S754_finite s m e =>
        if JS.ge (JS.Math_abs x) (JS.of_Z (10 ^ 21)) then Thrown
        else
          let scale := 10 ^ Z.of_nat decimals in
          let n :=
            if 0 <=? e then Zpos m * 2 ^ e * scale
            else (2 * (Zpos m * scale) + 2 ^ (- e)) / 2 ^ (- e + 1) in
          Value (if s then - n else n)
    | _ => Thrown
    end.

Record BestQuote : Type := {
  input : JS.number;
  output : JS.number;
  bq_route : OptimalRoute
}.

Record SearchState : Type := {
  low : JS.number;
  high : JS.number;
  bestQuote : option BestQuote
}.

(** What one round of the search loop did with its midpoint. *)
Inductive Outcome : Type :=
| Quoted (amountIn : Z) (route : OptimalRoute)
| NoQuotes (amountIn : Z)
| QuoteThrew (amountIn : Z)
| Unparsed.

(** One round of the search loop: the bracket it started from, its
    midpoint and what became of it. *)
Record Iteration : Type := {
  it_low : JS.number;
  it_high : JS.number;
  it_mid : JS.number;
  it_outcome : Outcome
}.

Inductive Solved : Type :=
| Found (b : BestQuote)
| NoLiquidity
| Crashed.

Section ExactOutput.
(** [dexQuoteService.fetchAllQuotes] for the request's chain, provider
    and token pair, as a function of the input amount. *)
Variable fetchAllQuotes : Z -> result (list DexQuote).
Variables fromDecimals toDecimals : nat.
Variable targetOutput : JS.number.

(** [parseUnits('0.01', fromDecimals)] *)
Definition sampleAmount : Z := 10 ^ Z.of_nat fromDecimals / 100.

Definition betterSample (best q : DexQuote) : DexQuote :=
  if DexQuoteService.amountOut best <? DexQuoteService.amountOut q then q else best.

(** The sampling step that seeds the bracket. *)
Definition estimateInput : JS.number :=
  match fetchAllQuotes sampleAmount with
  | Value (q0 :: qs) =>
      let bestSample := foldl betterSample q0 qs in
      let sampleIn := parseFloat (formatUnits sampleAmount fromDecimals) in
      let sampleOut :=
        parseFloat (formatUnits (DexQuoteService.amountOut bestSample) toDecimals) in
      let sampleRate := JS.div sampleOut sampleIn in
      if JS.gt sampleRate JS.zero then JS.div targetOutput sampleRate
      else targetOutput
  | _ => targetOutput
  end.

Definition closer (out : JS.number) (b : option BestQuote) : bool :=
  match b with
  | None => true
  | Some b =>
      JS.lt (JS.Math_abs (JS.sub out targetOutput))
            (JS.Math_abs (JS.sub (output b) targetOutput))
  end.

(** The body of the [try] block; [Value None] is the [continue] on an
    empty quote list. *)
Definition attempt (amountIn : Z) : result (option OptimalRoute) :=
  dexQuotes ← fetchAllQuotes amountIn;
  if (length dexQuotes =? 0)%nat then Value None
  else
    r ← findOptimalRoute dexQuotes amountIn fromDecimals toDecimals;
    Value (Some r).

(** The search loop, [n] rounds left. It returns the rounds it ran, and
    the final state or, when [toFixed] or [parseUnits] threw outside the
    [try] block, [Thrown]. *)
Fixpoint search (estimatedInput : JS.number) (n : nat) (st : SearchState)
    : list Iteration * result SearchState :=
  match n with
  | O => ([], Value st)
  | S n' =>
      let mid := JS.div (JS.add (low st) (high st)) (JS.of_Z 2) in
      let round := fun outcome =>
        {| it_low := low st; it_high := high st; it_mid := mid;
           it_outcome := outcome |} in
      match toFixed_parseUnits mid fromDecimals with
      | Thrown => ([round Unparsed], Thrown)
      | Value amountIn =>
          match attempt amountIn with
          | Value None =>
              let '(its, final) := search estimatedInput n' st in
              (round (NoQuotes amountIn) :: its, final)
          | Value (Some r) =>
              let out := parseFloat (RouteOptimizerService.totalOutput r) in
              let best :=
                if closer out (bestQuote st)
                then Some {| input := mid; output := out; bq_route := r |}
                else bestQuote st in
              let st1 :=
                if JS.lt out targetOutput
                then {| low := mid; high := high st; bestQuote := best |}
                else {| low := low st; high := mid; bestQuote := best |} in
              if JS.lt (JS.div (JS.Math_abs (JS.sub out targetOutput)) targetOutput)
                       (JS.of_ratio 1 1000)
              then ([round (Quoted amountIn r)], Value st1)
              else
                let '(its, final) := search estimatedInput n' st1 in
                (round (Quoted amountIn r) :: its, final)
          | Thrown =>
              let st1 :=
                if JS.lt mid estimatedInput
                then {| low := mid; high := high st; bestQuote := bestQuote st |}
                else {| low := low st; high := mid; bestQuote := bestQuote st |} in
              let '(its, final) := search estimatedInput n' st1 in
              (round (QuoteThrew amountIn) :: its, final)
          end
      end
  end.

Definition initialState (estimatedInput : JS.number) : SearchState :=
  {| low := JS.mul estimatedInput (JS.of_ratio 1 2);
     high := JS.mul estimatedInput (JS.of_Z 2);
     bestQuote := None |}.

Definition runSearch : list Iteration * result SearchState :=
  search estimateInput 5 (initialState estimateInput).

(** [getExactOutputQuote], up to the choice of the best quote. *)
Definition getExactOutputQuote : Solved :=
  match snd runSearch with
  | Thrown => Crashed
  | Value st =>
      match bestQuote st with
      | None => NoLiquidity
      | Some b => Found b
      end
  end.

End ExactOutput.

End QuoteService.

(* ===================================================================== *)
(** * Liquidity graph: queries (liquidity-graph.service.ts) *)
(* ===================================================================== *)

Module LiquidityGraphQueries.
Import LiquidityGraph.

(** [getDirectEdges]: the edges from [tokenIn] that arrive at [tokenOut]. *)
Definition getDirectEdges (graph : Graph) (tokenIn tokenOut : string)
    : list GraphEdge :=
  filter (fun e => JS.toLowerCase (edge_tokenOut e) = JS.toLowerCase tokenOut)
         (getEdgesFrom graph tokenIn).

End LiquidityGraphQueries.

(* ===================================================================== *)
(** * Route quoting: ranking the quotes (route-quote.service.ts) *)
(* ===================================================================== *)

Module RouteQuoteRanking.
Import RouteQuoteService.

(** [getBestQuote]: the first quote, [null] on an empty array. *)
Definition getBestQuote (quotes : list RouteQuote) : option RouteQuote :=
  head quotes.

(** [getTopQuotes], for a [count] that is a natural number. The gas cost
    in dollars is computed for every quote and then not read. *)
Definition getTopQuotes (quotes : list RouteQuote) (count : nat)
    (ethPrice : JS.number) (gasPrice : Z) : list RouteQuote :=
  let withNetOutput :=
    map (fun q =>
           let gasCostWei := gasPrice * rq_estimatedGas q in
           let gasCostEth :=
             JS.div (JS.Number_of_bigint gasCostWei) (JS.of_Z (10 ^ 18)) in
           let gasCostUsd := JS.mul gasCostEth ethPrice in
           (q, gasCostUsd))
        quotes in
  let sorted :=
    JS.sort (fun a b => if amountOut (fst a) <? amountOut (fst b) then 1 else -1)
            withNetOutput in
  map fst (JS.slice0 count sorted).

End RouteQuoteRanking.

(* ===================================================================== *)
(** * Token tables (constants/token-decimals.ts, quote.service.ts) *)
(* ===================================================================== *)

Module Tokens.
Import Constants.

Definition upper_ascii (c : ascii) : ascii :=
  let n := N_of_ascii c in
  if ((97 <=? n) && (n <=? 122))%N then ascii_of_N (n - 32) else c.

(** [s.toUpperCase()], on ASCII text. *)
Fixpoint toUpperCase (s : string) : string :=
  match s with
  | EmptyString => EmptyString
  | String c r => String (upper_ascii c) (toUpperCase r)
  end.

Definition TOKEN_DECIMALS : list (string * nat) :=
  [ ("ETH", 18%nat); ("WETH", 18%nat); ("USDC", 6%nat); ("USDC.e", 6%nat); ("USDT", 6%nat);
    ("DAI", 18%nat); ("WBTC", 8%nat); ("LINK", 18%nat); ("UNI", 18%nat); ("AAVE", 18%nat);
    ("MKR", 18%nat); ("SNX", 18%nat); ("CRV", 18%nat); ("COMP", 18%nat); ("LDO", 18%nat);
    ("APE", 18%nat); ("SHIB", 18%nat); ("PEPE", 18%nat); ("stETH", 18%nat); ("rETH", 18%nat);
    ("FRAX", 18%nat);
    ("BNB", 18%nat); ("WBNB", 18%nat); ("BUSD", 18%nat); ("CAKE", 18%nat); ("BTCB", 18%nat);
    ("XRP", 18%nat); ("ADA", 18%nat); ("DOGE", 8%nat);
    ("MATIC", 18%nat); ("WMATIC", 18%nat); ("QUICK", 18%nat);
    ("ARB", 18%nat); ("GMX", 18%nat); ("MAGIC", 18%nat); ("PENDLE", 18%nat);
    ("OP", 18%nat); ("VELO", 18%nat);
    ("USDbC", 6%nat); ("cbETH", 18%nat); ("AERO", 18%nat); ("BRETT", 18%nat); ("DEGEN", 18%nat);
    ("AVAX", 18%nat); ("WAVAX", 18%nat); ("USDT.e", 6%nat); ("JOE", 18%nat);
    ("FTM", 18%nat); ("WFTM", 18%nat); ("fUSDT", 6%nat); ("BOO", 18%nat);
    ("ZK", 18%nat);
    ("MNT", 18%nat); ("WMNT", 18%nat);
    ("xDAI", 18%nat); ("WXDAI", 18%nat); ("GNO", 18%nat);
    ("CELO", 18%nat); ("cUSD", 18%nat); ("cEUR", 18%nat);
    ("GLMR", 18%nat); ("WGLMR", 18%nat);
    ("CRO", 18%nat); ("WCRO", 18%nat);
    ("USDB", 18%nat); ("BLAST", 18%nat);
    ("MODE", 18%nat) ]%string.

(** The property names every object inherits: a lookup by one of these
    names answers the inherited property, not an entry of the table. *)
Definition inheritedNames : list string :=
  [ "constructor"; "hasOwnProperty"; "isPrototypeOf"; "propertyIsEnumerable";
    "toLocaleString"; "toString"; "valueOf"; "__proto__";
    "__defineGetter__"; "__defineSetter__"; "__lookupGetter__";
    "__lookupSetter__" ]%string.

(** [getTokenDecimals]: [TOKEN_DECIMALS[symbol] ?? 18]. [None] stands for
    the inherited property a lookup by an inherited name answers, which is
    not a number. *)
Definition getTokenDecimals (symbol : string) : option nat :=
  if bool_decide (symbol ∈ inheritedNames) then None
  else Some (default 18%nat (assoc symbol TOKEN_DECIMALS)).

Section Addresses.
(** [TOKEN_ADDRESSES]: per chain, the entries symbol, address of the
    chain's table, in the order [Object.entries] lists them: the order
    they are written in, for symbols that are not array indices. *)
Variable TOKEN_ADDRESSES : Z -> option (list (string * string)).

(** [resolveTokenAddress]: an empty address counts as missing. *)
Definition resolveTokenAddress (chainId : Z) (tokenOrAddress : string)
    : result string :=
  if JS.startsWith "0x" tokenOrAddress then Value tokenOrAddress
  else
    match TOKEN_ADDRESSES chainId with
    | None => Thrown
    | Some addresses =>
        match assoc (toUpperCase tokenOrAddress) addresses with
        | Some address => if String.eqb address "" then Thrown else Value address
        | None => Thrown
        end
    end.

(** [getSymbolByAddress]: the first symbol, in the order of the table,
    whose address is [address] up to case. *)
Definition getSymbolByAddress (chainId : Z) (address : string) : option string :=
  match TOKEN_ADDRESSES chainId with
  | None => None
  | Some addresses =>
      let lowerAddress := JS.toLowerCase address in
      fst <$> find (fun entry => String.eqb (JS.toLowerCase (snd entry)) lowerAddress)
                   addresses
  end.

(** [chainTokens[symbol]] with [chainTokens = TOKEN_ADDRESSES[chainId] || {}],
    as its truthiness is tested: a missing or empty address is [None]. *)
Definition tokenAddress (chainId : Z) (symbol : string) : option string :=
  match assoc symbol (default [] (TOKEN_ADDRESSES chainId)) with
  | Some address => if String.eqb address "" then None else Some address
  | None => None
  end.

End Addresses.

End Tokens.

(* ===================================================================== *)
(** * Direct venue quoting: every venue of a chain (dex-quote.service.ts) *)
(* ===================================================================== *)

Module DexQuoteVenues.
Import Constants DexQuoteService Tokens.

(** [BRIDGE_TOKENS[chainId] || []] *)
Definition BRIDGE_TOKENS (chainId : Z) : list string :=
  if chainId =? 1 then ["WETH"; "USDC"; "USDT"; "DAI"; "WBTC"]%string
  else if chainId =? 56 then ["WBNB"; "USDC"; "USDT"; "BUSD"]%string
  else if chainId =? 42161 then ["WETH"; "USDC"; "USDT"; "DAI"]%string
  else if chainId =? 137 then ["WMATIC"; "WETH"; "USDC"; "USDT"]%string
  else if chainId =? 11155111 then ["WETH"; "USDC"]%string
  else [].

(** [DEX_INFO[dexId].name]: reading [name] of a missing entry throws. *)
Definition dexNameOf (dexId : string) : result string :=
  match DEX_INFO dexId with
  | Some info => Value (name info)
  | None => Thrown
  end.

(** [!bestResult || amountOut > bestResult.amountOut] *)
Definition improves (bestResult : option DexQuote) (out : Z) : bool :=
  match bestResult with
  | None => true
  | Some best => amountOut best <? out
  end.

Section Venues.
Variable TOKEN_ADDRESSES : Z -> option (list (string * string)).

(** [bridgeAddress.toLowerCase() === tokenIn.toLowerCase() || ... tokenOut ...] *)
Definition sameAsEnd (bridgeAddress tokenIn tokenOut : string) : bool :=
  String.eqb (JS.toLowerCase bridgeAddress) (JS.toLowerCase tokenIn)
  || String.eqb (JS.toLowerCase bridgeAddress) (JS.toLowerCase tokenOut).

(** One round of the innermost loop of [getV3MultiHopQuote]: the body of
    the [try] block, and [continue] when it throws. *)
Definition tryFeePair (dexId : string) (provider : Provider)
    (quoterAddress tokenIn bridgeAddress tokenOut : string) (amountIn : Z)
    (toDecimals : nat) (fee1 : Z) (bestResult : option DexQuote) (fee2 : Z)
    : option DexQuote :=
  match
    (path ← encodeV3Path [tokenIn; bridgeAddress; tokenOut] [fee1; fee2];
     out ← quoteExactInput provider quoterAddress path amountIn;
     if improves bestResult out
     then
       dexName ← dexNameOf dexId;
       Value (Some {| dexId := dexId;
                      dexName := dexName;
                      amountOut := out;
                      amountOutFormatted := formatUnits out toDecimals;
                      estimatedGas := 250000;
                      feeTier := None;
                      feeTiers := Some [fee1; fee2];
                      path := Some [tokenIn; bridgeAddress; tokenOut];
                      pathEncoded := Some path;
                      isMultiHop := Some true;
                      priceImpact := JS.of_ratio 8 10 |})
     else Value bestResult)
  with
  | Value r => r
  | Thrown => bestResult
  end.

(** The two loops over the fee tiers, for one bridge token. *)
Definition tryBridgeV3 (dexId : string) (provider : Provider)
    (quoterAddress tokenIn bridgeAddress tokenOut : string) (amountIn : Z)
    (toDecimals : nat) (bestResult : option DexQuote) : option DexQuote :=
  foldl (fun best fee1 =>
           foldl (tryFeePair dexId provider quoterAddress tokenIn bridgeAddress
                             tokenOut amountIn toDecimals fee1)
                 best V3_FEE_TIERS)
        bestResult V3_FEE_TIERS.

Definition getV3MultiHopQuote (dexId : string) (chainId : Z) (provider : Provider)
    (quoterAddress tokenIn tokenOut : string) (amountIn : Z) (toDecimals : nat)
    : result (option DexQuote) :=
  try_catch
    (Value
       (foldl (fun bestResult bridgeSymbol =>
                 match tokenAddress TOKEN_ADDRESSES chainId bridgeSymbol with
                 | None => bestResult
                 | Some bridgeAddress =>
                     if sameAsEnd bridgeAddress tokenIn tokenOut then bestResult
                     else tryBridgeV3 dexId provider quoterAddress tokenIn
                            bridgeAddress tokenOut amountIn toDecimals bestResult
                 end)
              None (BRIDGE_TOKENS chainId)))
    None.

(** The choice between the single-hop and the multi-hop answer. *)
Definition betterOf (singleHopResult multiHopResult : option DexQuote)
    : option DexQuote :=
  match singleHopResult, multiHopResult with
  | None, None => None
  | None, Some m => Some m
  | Some s, None => Some s
  | Some s, Some m => if amountOut s <? amountOut m then Some m else Some s
  end.

Definition getUniswapV3Quote (dexId : string) (chainId : Z) (provider : Provider)
    (quoterAddress tokenIn tokenOut : string) (amountIn : Z) (toDecimals : nat)
    : result (option DexQuote) :=
  try_catch
    (singleHopResult ← getV3SingleHopQuote dexId provider quoterAddress tokenIn
                          tokenOut amountIn toDecimals;
     multiHopResult ← getV3MultiHopQuote dexId chainId provider quoterAddress
                         tokenIn tokenOut amountIn toDecimals;
     Value (betterOf singleHopResult multiHopResult))
    None.

(** [getV2SingleHopQuote]. [amounts[amounts.length - 1]] of an empty array
    is [undefined], on which [formatUnits] throws. *)
Definition getV2SingleHopQuote (dexId : string) (provider : Provider)
    (routerAddress tokenIn tokenOut : string) (amountIn : Z) (toDecimals : nat)
    : result (option DexQuote) :=
  try_catch
    (amounts ← getAmountsOut provider routerAddress amountIn [tokenIn; tokenOut];
     dexName ← dexNameOf dexId;
     match last amounts with
     | Some out =>
         Value (Some {| dexId := dexId;
                        dexName := dexName;
                        amountOut := out;
                        amountOutFormatted := formatUnits out toDecimals;
                        estimatedGas := 120000;
                        feeTier := None;
                        feeTiers := None;
                        path := Some [tokenIn; tokenOut];
                        pathEncoded := None;
                        isMultiHop := Some false;
                        priceImpact := JS.of_ratio 3 10 |})
     | None => Thrown
     end)
    None.

(** One round of the loop of [getV2MultiHopQuote] for a bridge token that
    is not skipped. An [undefined] amount never becomes the best: it
    compares false to a best amount, and with no best yet [formatUnits]
    throws on it. *)
Definition tryBridgeV2 (dexId : string) (provider : Provider)
    (routerAddress tokenIn bridgeAddress tokenOut : string) (amountIn : Z)
    (toDecimals : nat) (bestResult : option DexQuote) : option DexQuote :=
  match
    (amounts ← getAmountsOut provider routerAddress amountIn
                  [tokenIn; bridgeAddress; tokenOut];
     match last amounts with
     | Some out =>
         if improves bestResult out
         then
           dexName ← dexNameOf dexId;
           Value (Some {| dexId := dexId;
                          dexName := dexName;
                          amountOut := out;
                          amountOutFormatted := formatUnits out toDecimals;
                          estimatedGas := 180000;
                          feeTier := None;
                          feeTiers := None;
                          path := Some [tokenIn; bridgeAddress; tokenOut];
                          pathEncoded := None;
                          isMultiHop := Some true;
                          priceImpact := JS.of_ratio 5 10 |})
         else Value bestResult
     | None => match bestResult with Some _ => Value bestResult | None => Thrown end
     end)
  with
  | Value r => r
  | Thrown => bestResult
  end.

Definition getV2MultiHopQuote (dexId : string) (chainId : Z) (provider : Provider)
    (routerAddress tokenIn tokenOut : string) (amountIn : Z) (toDecimals : nat)
    : result (option DexQuote) :=
  try_catch
    (Value
       (foldl (fun bestResult bridgeSymbol =>
                 match tokenAddress TOKEN_ADDRESSES chainId bridgeSymbol with
                 | None => bestResult
                 | Some bridgeAddress =>
                     if sameAsEnd bridgeAddress tokenIn tokenOut then bestResult
                     else tryBridgeV2 dexId provider routerAddress tokenIn
                            bridgeAddress tokenOut amountIn toDecimals bestResult
                 end)
              None (BRIDGE_TOKENS chainId)))
    None.

Definition getUniswapV2Quote (dexId : string) (chainId : Z) (provider : Provider)
    (routerAddress tokenIn tokenOut : string) (amountIn : Z) (toDecimals : nat)
    : result (option DexQuote) :=
  try_catch
    (singleHopResult ← getV2SingleHopQuote dexId provider routerAddress tokenIn
                          tokenOut amountIn toDecimals;
     multiHopResult ← getV2MultiHopQuote dexId chainId provider routerAddress
                         tokenIn tokenOut amountIn toDecimals;
     Value (betterOf singleHopResult multiHopResult))
    None.

(** [getQuoteForDex]. A venue of the concentrated-liquidity kind that has
    no quoter address passes [undefined] to every read, which rejects, so
    both attempts answer [null]. *)
Definition getQuoteForDex (dexId : string) (chainId : Z) (provider : Provider)
    (contracts : Contracts) (tokenIn tokenOut : string) (amountIn : Z)
    (toDecimals : nat) : result (option DexQuote) :=
  try_catch
    (match DEX_INFO dexId with
     | None => Value None
     | Some dexInfo =>
         match type dexInfo with
         | amm_v3 =>
             match quoter contracts with
             | Some quoterAddress =>
                 getUniswapV3Quote dexId chainId provider quoterAddress tokenIn
                   tokenOut amountIn toDecimals
             | None => Value None
             end
         | amm_v2 =>
             getUniswapV2Quote dexId chainId provider (router contracts) tokenIn
               tokenOut amountIn toDecimals
         | curve | balancer => Value None
         end
     end)
    None.

Definition fetchAllQuotes (chainId : Z) (provider : Provider)
    (tokenIn tokenOut : string) (amountIn : Z) (fromDecimals toDecimals : nat)
    : result (list DexQuote) :=
  match assocZ chainId DEX_CONTRACTS_table with
  | None => Value []
  | Some dexContracts =>
      results ← Promise_all
                   (map (fun entry : string * Contracts =>
                           getQuoteForDex (fst entry) chainId provider (snd entry)
                             tokenIn tokenOut amountIn toDecimals)
                        dexContracts);
      Value (omap Datatypes.id (results : list (option DexQuote)))
  end.

End Venues.

End DexQuoteVenues.

(* ===================================================================== *)
(** * Prices (price.service.ts) *)
(* ===================================================================== *)

Module PriceService.
Import Constants.

(** [CHAINLINK_PRICE_FEEDS]: the native token's dollar feed of a chain. *)
Definition CHAINLINK_PRICE_FEEDS : list (Z * string) :=
  [ (1, "0x5f4eC3Df9cbd43714FE2740f5E3616155c5b8419");
    (56, "0x0567F2323251f0Aab15c8dFb1967E4e8A7D42aeE");
    (42161, "0x639Fe6ab55C921f74e7fac1ee960C0B6293ba612");
    (137, "0xF9680D99D6C9589e2a93a78A04A279e509205945");
    (11155111, "0x694AA1769357215DE4FAC081bf1f309aDC325306") ]%string.

(** [ethPriceCache], when it is not [null]. *)
Record PriceCache : Type := { price : JS.number; timestamp : Z }.

Definition CACHE_TTL : Z := 60000.

(** The feed's [latestRoundData] read: round, answer, start, update and
    answering round. *)
Definition RoundData : Type := (Z * Z * Z * Z * Z)%type.

Section Service.
(** The read of a feed through [provider.readContract], by feed address. *)
Variable latestRoundData : string -> result RoundData.

(** [getNativeTokenPrice], as a function of the cache it finds and of
    the two readings of the clock, [now] when the cache is consulted and
    [stored] when the answer is stored: the price and the cache it
    leaves. *)
Definition getNativeTokenPrice (ethPriceCache : option PriceCache)
    (now stored : Z) (chainId : Z) : JS.number * option PriceCache :=
  let fetch :=
    match assocZ chainId CHAINLINK_PRICE_FEEDS with
    | None => (JS.zero, ethPriceCache)
    | Some priceFeedAddress =>
        match latestRoundData priceFeedAddress with
        | Value (_, answer, _, _, _) =>
            let price := JS.div (JS.Number_of_bigint answer) (JS.of_Z (10 ^ 8)) in
            (price, Some {| price := price; timestamp := stored |})
        | Thrown => (JS.zero, ethPriceCache)
        end
    end in
  match ethPriceCache with
  | Some cache =>
      if now - timestamp cache <? CACHE_TTL then (price cache, ethPriceCache)
      else fetch
  | None => fetch
  end.

(** [getTokenPrice]. *)
Definition getTokenPrice (ethPriceCache : option PriceCache) (now stored : Z)
    (chainId : Z) (tokenSymbol : string) : JS.number * option PriceCache :=
  if bool_decide (tokenSymbol ∈ ["ETH"; "WETH"; "BNB"; "WBNB"; "MATIC"; "WMATIC"]%string)
  then getNativeTokenPrice ethPriceCache now stored chainId
  else if bool_decide (tokenSymbol ∈ ["USDC"; "USDT"; "DAI"; "BUSD"; "FRAX"; "GHO";
                                      "sDAI"; "EURS"]%string)
  then (JS.of_Z 1, ethPriceCache)
  else (JS.zero, ethPriceCache).

End Service.

End PriceService.

(* ===================================================================== *)
(** * Fees (fee-calculator.service.ts) *)
(* ===================================================================== *)

Module FeeCalculatorService.

(** The protocol fee, 0.05 percent, and the broadcaster's margin. *)
Definition VOIDDEX_FEE_BPS : JS.number := JS.of_ratio 5 10000.
Definition BROADCASTER_PROFIT_MARGIN : JS.number := JS.of_ratio 15 100.
Definition MINIMUM_RAILGUN_SWAP_GAS : JS.number := JS.of_Z 1000000.

(** [!x] on a number: true for the zeros and NaN. *)
Definition falsy (x : JS.number) : bool :=
  match x with
  | S754_zero _ | S754_nan => true
  | _ => false
  end.

(** The gas the fee is computed for: the estimate, or the minimum when
    the estimate is missing, not positive or below 100000. *)
Definition effectiveGas (estimatedGas : JS.number) : JS.number :=
  if falsy estimatedGas || JS.le estimatedGas JS.zero
  then MINIMUM_RAILGUN_SWAP_GAS
  else if JS.lt estimatedGas (JS.of_Z 100000) then MINIMUM_RAILGUN_SWAP_GAS
  else estimatedGas.

(** A number as the fee texts show it: [0], below the smallest amount
    shown, or [value.toFixed(digits)]. *)
Inductive Shown : Type :=
| ShownZero
| ShownBelow
| ShownFixed (digits : nat) (value : JS.number).

(** [value === 0] *)
Definition isZero (value : JS.number) : bool :=
  match value with S754_zero _ => true | _ => false end.

Definition formatFee (value : JS.number) : Shown :=
  if isZero value then ShownZero
  else if JS.lt value (JS.of_ratio 1 100000000) then ShownBelow
  else if JS.lt value (JS.of_ratio 1 10000) then ShownFixed 8 value
  else ShownFixed 6 value.

Definition formatUsd (value : JS.number) : Shown :=
  if isZero value then ShownZero
  else if JS.lt value (JS.of_ratio 1 100) then ShownBelow
  else ShownFixed 2 value.

Record FeeBreakdown : Type := {
  broadcasterFee : Shown;
  broadcasterFeeWei : Z;
  broadcasterFeeUsd : Shown;
  voidDexFee : Shown;
  voidDexFeeUsd : Shown;
  totalFeeWeth : Shown;
  totalFeeUsd : Shown;
  gasCost : Shown;
  gasCostUsd : Shown
}.

Definition e9 : JS.number := JS.of_Z (10 ^ 9).
Definition e18 : JS.number := JS.of_Z (10 ^ 18).

(** [calculateFees]. [getGasPrice] is the provider's answer, a rejection
    of which is thrown on; [ethPrice] and [fromTokenPrice] are what the
    price service answered, which never rejects. *)
Definition calculateFees (getGasPrice : result Z) (ethPrice fromTokenPrice : JS.number)
    (amountIn estimatedGas : JS.number) : result FeeBreakdown :=
  gasPrice ← getGasPrice;
  let gasPriceGwei := JS.div (JS.Number_of_bigint gasPrice) e9 in
  let effectiveGas := effectiveGas estimatedGas in
  gasPriceWei ← JS.BigInt_of_number (JS.Math_round (JS.mul gasPriceGwei e9));
  gas ← JS.BigInt_of_number effectiveGas;
  let gasCostWei := gas * gasPriceWei in
  let gasCostEth := JS.div (JS.Number_of_bigint gasCostWei) e18 in
  margin ← JS.BigInt_of_number
              (JS.Math_round (JS.mul BROADCASTER_PROFIT_MARGIN (JS.of_Z 100)));
  let broadcasterFeeWei := gasCostWei + Z.quot (gasCostWei * margin) 100 in
  let broadcasterFeeEth := JS.div (JS.Number_of_bigint broadcasterFeeWei) e18 in
  let gasCostUsd := JS.mul gasCostEth ethPrice in
  let broadcasterFeeUsd := JS.mul broadcasterFeeEth ethPrice in
  let voidDexFeeInToken := JS.mul amountIn VOIDDEX_FEE_BPS in
  let voidDexFeeUsd := JS.mul voidDexFeeInToken fromTokenPrice in
  let voidDexFeeWeth :=
    if JS.gt ethPrice JS.zero then JS.div voidDexFeeUsd ethPrice else JS.zero in
  let totalFeeWeth := JS.add broadcasterFeeEth voidDexFeeWeth in
  let totalFeeUsd := JS.add broadcasterFeeUsd voidDexFeeUsd in
  Value {| broadcasterFee := formatFee broadcasterFeeEth;
           broadcasterFeeWei := broadcasterFeeWei;
           broadcasterFeeUsd := formatUsd broadcasterFeeUsd;
           voidDexFee := formatFee voidDexFeeWeth;
           voidDexFeeUsd := formatUsd voidDexFeeUsd;
           totalFeeWeth := formatFee totalFeeWeth;
           totalFeeUsd := formatUsd totalFeeUsd;
           gasCost := ShownFixed 6 gasCostEth;
           gasCostUsd := formatUsd gasCostUsd |}.

(** [calculateVoidDexFee] *)
Definition calculateVoidDexFee (amount : JS.number) : JS.number :=
  JS.mul amount VOIDDEX_FEE_BPS.

End FeeCalculatorService.

(* ===================================================================== *)
(** * Price impact by trade size (route-optimizer.service.ts) *)
(* ===================================================================== *)

Module PriceImpact.

(** [estimatePriceImpact] of the route optimizer, on the trade size in
    dollars. *)
Definition estimatePriceImpact (amountUsd : JS.number) : JS.number :=
  if JS.lt amountUsd (JS.of_Z 1000) then JS.of_ratio 1 10
  else if JS.lt amountUsd (JS.of_Z 10000)
  then JS.add (JS.of_ratio 2 10)
         (JS.mul (JS.sub amountUsd (JS.of_Z 1000)) (JS.of_ratio 1 100000))
  else if JS.lt amountUsd (JS.of_Z 100000)
  then JS.add (JS.of_ratio 3 10)
         (JS.mul (JS.sub amountUsd (JS.of_Z 10000)) (JS.of_ratio 5 1000000))
  else if JS.lt amountUsd (JS.of_Z 1000000)
  then JS.add (JS.of_ratio 8 10)
         (JS.mul (JS.sub amountUsd (JS.of_Z 100000)) (JS.of_ratio 2 1000000))
  else JS.of_Z 3.

End PriceImpact.

(* ===================================================================== *)
(** * Pathfinder: the pairs to discover (pathfinder.service.ts) *)
(* ===================================================================== *)

Module PathfinderDiscovery.
Import Constants Tokens.

(** [PRIORITY_BRIDGES[chainId] || PRIORITY_BRIDGES[1]] *)
Definition PRIORITY_BRIDGES (chainId : Z) : list string :=
  if chainId =? 1 then ["WETH"; "USDC"; "USDT"; "DAI"; "WBTC"]%string
  else if chainId =? 11155111 then ["WETH"; "USDC"; "DAI"; "LINK"; "UNI"]%string
  else if chainId =? 42161 then ["WETH"; "USDC"; "USDT"; "DAI"; "ARB"]%string
  else if chainId =? 137 then ["WMATIC"; "WETH"; "USDC"; "USDT"; "DAI"]%string
  else if chainId =? 56 then ["WBNB"; "USDC"; "USDT"; "BUSD"; "WETH"]%string
  else ["WETH"; "USDC"; "USDT"; "DAI"; "WBTC"]%string.

(** The placeholder address of the native token. *)
Definition NATIVE : string := "0xEeeeeEeeeEeEeeEeEeEeeEEEeeeeEeeeeeeeEEeE".

Section Bridges.
Variable TOKEN_ADDRESSES : Z -> option (list (string * string)).

(** [getBridgeTokens]; [dbTokens] is what the pool service answered with
    for the chain's tokens. *)
Definition getBridgeTokens (chainId : Z) (tokenIn tokenOut : string)
    (dbTokens : list string) : list string :=
  let bridgeSymbols := PRIORITY_BRIDGES chainId in
  let bridgeAddresses :=
    foldl (fun bridgeAddresses symbol =>
             match tokenAddress TOKEN_ADDRESSES chainId symbol with
             | Some address =>
                 if negb (String.eqb address NATIVE)
                 then
                   let lower := JS.toLowerCase address in
                   if negb (String.eqb lower (JS.toLowerCase tokenIn))
                      && negb (String.eqb lower (JS.toLowerCase tokenOut))
                   then bridgeAddresses ++ [lower]
                   else bridgeAddresses
                 else bridgeAddresses
             | None => bridgeAddresses
             end)
          [] bridgeSymbols in
  let bridgeAddresses :=
    foldl (fun bridgeAddresses token =>
             let lower := JS.toLowerCase token in
             if negb (bool_decide (lower ∈ bridgeAddresses))
                && negb (String.eqb lower (JS.toLowerCase tokenIn))
                && negb (String.eqb lower (JS.toLowerCase tokenOut))
             then bridgeAddresses ++ [lower]
             else bridgeAddresses)
          bridgeAddresses (JS.slice0 5 dbTokens) in
  JS.slice0 8 bridgeAddresses.

End Bridges.

(** The pairs of the two nested loops over the top bridges: every pair
    of positions [i < j]. *)
Fixpoint pairsAmong (l : list string) : list (string * string) :=
  match l with
  | [] => []
  | x :: rest => map (fun y => (x, y)) rest ++ pairsAmong rest
  end.

(** The pairs [discoverRelevantPools] asks the pool discovery for. *)
Definition pairsToCheck (tokenIn tokenOut : string) (bridgeAddresses : list string)
    : list (string * string) :=
  [(tokenIn, tokenOut)]
  ++ flat_map (fun bridge =>
                 if negb (String.eqb bridge tokenIn) && negb (String.eqb bridge tokenOut)
                 then [(tokenIn, bridge); (bridge, tokenOut)]
                 else [])
              bridgeAddresses
  ++ pairsAmong (JS.slice0 3 bridgeAddresses).

End PathfinderDiscovery.

(* ===================================================================== *)
(** * The exact-input flow (quote.service.ts) *)
(* ===================================================================== *)

Module QuoteFlow.
Import LiquidityGraph Pathfinder RouteQuoteService DexQuoteVenues.

(** What the response of an exact-input request is built from. *)
Inductive Plan : Type :=
| FromRoutes (splitResult : QuoteService.SplitResult)
| FromVenues (optimalRoute : RouteOptimizerService.OptimalRoute)
| NotFound
| Failed.

Section Flow.
Variable TOKEN_ADDRESSES : Z -> option (list (string * string)).

(** The fallback of [getQuote]: the direct quotes of the chain's venues. *)
Definition legacyPlan (chainId : Z) (provider : Provider)
    (fromTokenAddress toTokenAddress : string) (amountIn : Z)
    (fromDecimals toDecimals : nat) : Plan :=
  match fetchAllQuotes TOKEN_ADDRESSES chainId provider fromTokenAddress
          toTokenAddress amountIn fromDecimals toDecimals with
  | Thrown => Failed
  | Value dexQuotes =>
      if (length dexQuotes =? 0)%nat then NotFound
      else
        match RouteOptimizerService.findOptimalRoute dexQuotes amountIn
                fromDecimals toDecimals with
        | Value optimalRoute => FromVenues optimalRoute
        | Thrown => Failed
        end
  end.

(** [getQuote] for an exact-input request up to the choice of the plan: from the resolved addresses,
    the parsed amount and the fetched graph to the plan the response is
    built from; the fees and the texts of the response are computed
    from the plan afterwards. [Failed] is a thrown exception other than
    the not-found answer. *)
Definition getQuotePlan (graph : Graph) (chainId : Z) (provider : Provider)
    (fromTokenAddress toTokenAddress : string) (amountIn : Z)
    (fromDecimals toDecimals : nat) : Plan :=
  match findRoutes graph fromTokenAddress toTokenAddress with
  | Thrown => Failed
  | Value discoveredRoutes =>
      if (0 <? length discoveredRoutes)%nat
      then
        match getQuotesForRoutes chainId provider discoveredRoutes amountIn
                toDecimals with
        | Thrown => Failed
        | Value routeQuotes =>
            if (0 <? length routeQuotes)%nat
            then
              match QuoteService.optimizeRouteSplit routeQuotes amountIn
                      fromDecimals toDecimals with
              | Thrown => Failed
              | Value (Some splitResult) => FromRoutes splitResult
              | Value None =>
                  legacyPlan chainId provider fromTokenAddress toTokenAddress
                    amountIn fromDecimals toDecimals
              end
            else legacyPlan chainId provider fromTokenAddress toTokenAddress
                   amountIn fromDecimals toDecimals
        end
      else legacyPlan chainId provider fromTokenAddress toTokenAddress
             amountIn fromDecimals toDecimals
  end.

End Flow.

End QuoteFlow.

(* ===================================================================== *)
(** * Properties *)
(* ===================================================================== *)

(** ** Sorting *)

Section SortFacts.
Context {A : Type}.
Variable cmp : A -> A -> Z.

Lemma insert_sorted_perm x l : JS.insert_sorted cmp x l ≡ₚ x :: l.
Proof.
  induction l as [|y l IH]; simpl; [done|].
  destruct (cmp x y <=? 0); [done|].
  rewrite IH. apply Permutation_swap.
Qed.

Lemma sort_perm l : JS.sort cmp l ≡ₚ l.
Proof.
  induction l as [|x l IH]; simpl; [done|].
  rewrite insert_sorted_perm. by rewrite IH.
Qed.

Lemma sort_length l : length (JS.sort cmp l) = length l.
Proof. apply Permutation_length, sort_perm. Qed.

Lemma sort_elem x l : x ∈ JS.sort cmp l ↔ x ∈ l.
Proof. by rewrite sort_perm. Qed.

(** A comparator that orders by a key, larger keys first. *)
Variable key : A -> Z.
Hypothesis cmp_key : forall x y, (cmp x y <=? 0) = (key y <=? key x).

Definition descending (x y : A) : Prop := key y <= key x.

Lemma insert_sorted_sorted x l :
  StronglySorted descending l -> StronglySorted descending (JS.insert_sorted cmp x l).
Proof.
  induction 1 as [|y l Hs IH Hy]; simpl.
  - repeat constructor.
  - rewrite cmp_key. destruct (Z.leb_spec (key y) (key x)) as [Hle|Hlt].
    + constructor; [by constructor|].
      constructor; [done|].
      eapply Forall_impl; [exact Hy|]. unfold descending. intros; lia.
    + constructor; [done|].
      rewrite insert_sorted_perm. constructor; [|done].
      unfold descending. lia.
Qed.

Lemma sort_sorted l : StronglySorted descending (JS.sort cmp l).
Proof.
  induction l as [|x l IH]; simpl; [constructor|].
  by apply insert_sorted_sorted.
Qed.

(** The first element of a sorted array has the largest key. *)
Lemma sort_head_max l best rest :
  JS.sort cmp l = best :: rest -> forall x, x ∈ l -> key x <= key best.
Proof.
  intros Hs x Hx. pose proof (sort_sorted l) as Hsorted. rewrite Hs in Hsorted.
  apply sort_elem in Hx. rewrite Hs in Hx.
  apply StronglySorted_inv in Hsorted as [_ Hall].
  apply elem_of_cons in Hx as [->|Hx]; [lia|].
  rewrite Forall_forall in Hall. by apply Hall.
Qed.
End SortFacts.

(** Sorting commutes with a projection the comparator factors through. *)
Lemma sort_map {A B : Type} (f : A -> B) (cmpA : A -> A -> Z) (cmpB : B -> B -> Z) l :
  (forall x y, cmpA x y = cmpB (f x) (f y)) ->
  map f (JS.sort cmpA l) = JS.sort cmpB (map f l).
Proof.
  intros Hc. induction l as [|x l IH]; simpl; [done|].
  rewrite <- IH. generalize (JS.sort cmpA l). intros s.
  induction s as [|y s IHs]; simpl; [done|].
  rewrite Hc. destruct (cmpB (f x) (f y) <=? 0); simpl; [done|]. by rewrite IHs.
Qed.

(** ** Liquidity graph: the fee of an edge *)

Module GraphFacts.
Import LiquidityGraph.

(** The fee the specification gives an edge: the tier over a million when
    the pool carries a fee, 0.003 when it carries none. *)
Definition specFee (pool : Pool) : JS.number :=
  match fee pool with
  | Some f => JS.div (JS.of_Z f) (JS.of_Z 1000000)
  | None => JS.of_ratio 3 1000
  end.

(** The fee the graph builder gives an edge: a fee of zero counts as absent. *)
Definition builtFee (pool : Pool) : JS.number :=
  match fee pool with
  | Some f => if f =? 0 then JS.of_ratio 3 1000 else JS.div (JS.of_Z f) (JS.of_Z 1000000)
  | None => JS.of_ratio 3 1000
  end.

Definition zeroFeePool : Pool :=
  {| dexId := "uniswap_v2";
     poolAddress := "0x00000000000000000000000000000000000000f0";
     token0 := "0xaaaaaaaaaaaaaaaaaaaaaaaaaaaaaaaaaaaaaaaa";
     token1 := "0xbbbbbbbbbbbbbbbbbbbbbbbbbbbbbbbbbbbbbbbb";
     fee := Some 0;
     liquidity := Some 1000 |}.

(** Every edge in the adjacency list comes from a pool of [seen] and
    carries the fee computed from that pool. *)
Definition edgesFrom (seen : list Pool) (adj : gmap string (list GraphEdge)) : Prop :=
  forall t l e, adj !! t = Some l -> e ∈ l ->
    edge_pool e ∈ seen /\ edge_fee e = feeDecimal (edge_pool e).

Lemma feeDecimal_builtFee pool : feeDecimal pool = builtFee pool.
Proof.
  unfold feeDecimal, builtFee, truthy. destruct (fee pool) as [f|]; simpl; [|done].
  by destruct (f =? 0).
Qed.

Lemma pushEdge_lookup adj t e t' l :
  pushEdge adj t e !! t' = Some l ->
  (t' = t /\ l = default [] (adj !! t) ++ [e]) \/ (t' <> t /\ adj !! t' = Some l).
Proof.
  unfold pushEdge. intros H. destruct (decide (t = t')) as [->|Hne].
  - rewrite lookup_insert_eq in H. left. split; [done|]. congruence.
  - rewrite lookup_insert_ne in H by done. right. split; [congruence|done].
Qed.

Lemma edgesFrom_pushEdge seen adj t e :
  edgesFrom seen adj -> edge_pool e ∈ seen -> edge_fee e = feeDecimal (edge_pool e) ->
  edgesFrom seen (pushEdge adj t e).
Proof.
  intros Hadj Hin Hfee t' l e' Hl He'.
  apply pushEdge_lookup in Hl as [[-> ->]|[_ Hl]].
  - apply elem_of_app in He' as [He'|He'].
    + destruct (adj !! t) as [l0|] eqn:E; simpl in He'.
      * by eapply Hadj.
      * by apply elem_of_nil in He'.
    + apply list_elem_of_singleton in He'. by subst.
  - by eapply Hadj.
Qed.

Lemma edgesFrom_mono seen seen' adj :
  edgesFrom seen adj -> (forall p, p ∈ seen -> p ∈ seen') -> edgesFrom seen' adj.
Proof.
  intros H Hsub t l e Hl He. destruct (H t l e Hl He). split; [by apply Hsub|done].
Qed.

Lemma edgesFrom_foldl pools : forall seen acc,
  edgesFrom seen acc.1 -> edgesFrom (seen ++ pools) (foldl addPool acc pools).1.
Proof.
  induction pools as [|pool pools IH]; intros seen [adj toks] Hacc; simpl.
  - by rewrite app_nil_r.
  - replace (seen ++ pool :: pools) with ((seen ++ [pool]) ++ pools)
      by (by rewrite <- app_assoc).
    apply IH. simpl.
    assert (edgesFrom (seen ++ [pool]) adj) as Hadj.
    { eapply edgesFrom_mono; [exact Hacc|]. intros p Hp. apply elem_of_app. by left. }
    assert (pool ∈ seen ++ [pool]) as Hpool.
    { apply elem_of_app. right. by apply list_elem_of_singleton. }
    apply edgesFrom_pushEdge; [apply edgesFrom_pushEdge|..]; done.
Qed.

Lemma buildGraph_adjacency pools :
  adjacencyList (buildGraph pools) = (foldl addPool (∅, ∅) pools).1.
Proof. unfold buildGraph. by destruct (foldl addPool (∅, ∅) pools). Qed.

(** The token a pool's first edge leaves from lists that edge. *)
Lemma addPool_edge0 adj toks pool :
  exists l e, (addPool (adj, toks) pool).1 !! JS.toLowerCase (token0 pool) = Some l
    /\ e ∈ l /\ edge_pool e = pool.
Proof.
  simpl. unfold pushEdge at 1.
  destruct (decide (JS.toLowerCase (token1 pool) = JS.toLowerCase (token0 pool))) as [E|E].
  - rewrite E, lookup_insert_eq. eexists _, _. split; [done|].
    split; [apply elem_of_app; right; by apply list_elem_of_singleton|done].
  - rewrite lookup_insert_ne by done. unfold pushEdge. rewrite lookup_insert_eq.
    eexists _, _. split; [done|].
    split; [apply elem_of_app; right; by apply list_elem_of_singleton|done].
Qed.

Lemma addPool_keeps adj toks pool t l e :
  adj !! t = Some l -> e ∈ l ->
  exists l', (addPool (adj, toks) pool).1 !! t = Some l' /\ e ∈ l'.
Proof.
  intros Hl He.
  assert (forall adj0 t0 e0 l0, adj0 !! t = Some l0 -> e ∈ l0 ->
            exists l', pushEdge adj0 t0 e0 !! t = Some l' /\ e ∈ l') as Hpush.
  { intros adj0 t0 e0 l0 Hl0 He0. unfold pushEdge.
    destruct (decide (t0 = t)) as [->|Hne].
    - rewrite lookup_insert_eq, Hl0. simpl. eexists. split; [done|].
      apply elem_of_app. by left.
    - rewrite lookup_insert_ne by done. eauto. }
  simpl.
  edestruct (Hpush adj (JS.toLowerCase (token0 pool))) as (l1 & Hl1 & He1); [done..|].
  eapply Hpush; done.
Qed.

Lemma foldl_addPool_keeps pools : forall acc t l e,
  acc.1 !! t = Some l -> e ∈ l ->
  exists l', (foldl addPool acc pools).1 !! t = Some l' /\ e ∈ l'.
Proof.
  induction pools as [|pool pools IH]; intros [adj toks] t l e Hl He.
  - simpl. eauto.
  - destruct (addPool_keeps adj toks pool t l e Hl He) as (l1 & Hl1 & He1).
    change (foldl addPool (adj, toks) (pool :: pools))
      with (foldl addPool (addPool (adj, toks) pool) pools).
    eapply IH; [exact Hl1|exact He1].
Qed.

Lemma foldl_addPool_has pools : forall acc pool,
  pool ∈ pools ->
  exists l e, (foldl addPool acc pools).1 !! JS.toLowerCase (token0 pool) = Some l
    /\ e ∈ l /\ edge_pool e = pool.
Proof.
  induction pools as [|p pools IH]; intros [adj toks] pool Hin.
  - by apply elem_of_nil in Hin.
  - change (foldl addPool (adj, toks) (p :: pools))
      with (foldl addPool (addPool (adj, toks) p) pools).
    apply elem_of_cons in Hin as [->|Hin].
    + destruct (addPool_edge0 adj toks p) as (l & e & Hl & He & Hp).
      destruct (foldl_addPool_keeps pools _ _ l e Hl He) as (l' & Hl' & He').
      eauto.
    + by apply IH.
Qed.

(** C9, as the graph builder computes it. Every edge of the built graph
    belongs to an ingested pool and carries that pool's fee tier divided by
    1,000,000 when the pool has a non-zero fee, and 0.003 when the fee is
    absent or zero; and every ingested pool has such an edge. *)
Theorem buildGraph_edge_fee (pools : list Pool) :
  (forall t e, e ∈ getEdgesFrom (buildGraph pools) t ->
     edge_pool e ∈ pools /\ edge_fee e = builtFee (edge_pool e))
  /\ (forall pool, pool ∈ pools ->
        exists e, e ∈ getEdgesFrom (buildGraph pools) (token0 pool)
                  /\ edge_pool e = pool /\ edge_fee e = builtFee pool).
Proof.
  assert (forall t e, e ∈ getEdgesFrom (buildGraph pools) t ->
     edge_pool e ∈ pools /\ edge_fee e = builtFee (edge_pool e)) as Hall.
  { intros t e. unfold getEdgesFrom. rewrite buildGraph_adjacency.
    destruct (_ !! _) as [l|] eqn:Hl; simpl; [|by intros ?%elem_of_nil].
    intros He. rewrite <- feeDecimal_builtFee.
    eapply (edgesFrom_foldl pools [] (∅, ∅)); [|done..].
    intros t' l' e' Hl'. simpl in Hl'. by rewrite lookup_empty in Hl'. }
  split; [done|].
  intros pool Hin.
  destruct (foldl_addPool_has pools (∅, ∅) pool Hin) as (l & e & Hl & He & Hp).
  assert (e ∈ getEdgesFrom (buildGraph pools) (token0 pool)) as Hedge.
  { unfold getEdgesFrom. by rewrite buildGraph_adjacency, Hl. }
  exists e. split; [done|]. split; [done|].
  rewrite <- Hp. by apply (Hall _ _ Hedge).
Qed.

(** C9 as stated fails: a pool stored with the explicit fee 0 gets the
    default 0.003 on its edges, not the fee 0 the claim promises. *)
Lemma buildGraph_zero_fee_counterexample :
  exists e, getEdgesFrom (buildGraph [zeroFeePool]) (token0 zeroFeePool) = [e]
    /\ edge_pool e = zeroFeePool
    /\ edge_fee e = JS.of_ratio 3 1000
    /\ specFee zeroFeePool = JS.zero
    /\ edge_fee e <> specFee (edge_pool e).
Proof.
  eexists. split; [vm_compute; reflexivity|].
  repeat split; try (vm_compute; reflexivity).
  vm_compute. discriminate.
Qed.

End GraphFacts.

(** ** Pathfinder: the routes of the bounded search *)

Module PathfinderFacts.
Import LiquidityGraph Pathfinder.

Definition tokenA : string := "0xaaaaaaaaaaaaaaaaaaaaaaaaaaaaaaaaaaaaaaaa".
Definition tokenB : string := "0xbbbbbbbbbbbbbbbbbbbbbbbbbbbbbbbbbbbbbbbb".
Definition tokenC : string := "0xcccccccccccccccccccccccccccccccccccccccc".

Definition poolAB : Pool :=
  {| dexId := "uniswap_v3";
     poolAddress := "0x00000000000000000000000000000000000000ab";
     token0 := tokenA; token1 := tokenB;
     fee := Some 3000; liquidity := Some 1000000 |}.

Definition poolAC : Pool :=
  {| dexId := "uniswap_v3";
     poolAddress := "0x00000000000000000000000000000000000000ac";
     token0 := tokenA; token1 := tokenC;
     fee := Some 500; liquidity := Some 1000000 |}.

(** The shape the specification gives every returned route. *)
Definition wellShaped (r : DiscoveredRoute) : Prop :=
  length (path r) = S (length (hops r))
  /\ (length (hops r) <= MAX_HOPS)%nat
  /\ NoDup (path r).

(** C2 at a graph of two pools A-B and A-C, searching from A to C. The
    search returns the direct route and the route A, B, A, C: the source
    token comes back as an intermediate token, through the two directions
    of the pool A-B, because the set of visited tokens starts empty. *)
Lemma findRoutes_revisits_source :
  exists direct detour,
    findRoutes (buildGraph [poolAB; poolAC]) tokenA tokenC = Value [direct; detour]
    /\ path direct = [tokenA; tokenC]
    /\ path detour = [tokenA; tokenB; tokenA; tokenC]
    /\ map hop_poolAddress (hops detour)
       = [poolAddress poolAB; poolAddress poolAB; poolAddress poolAC]
    /\ ~ wellShaped detour.
Proof.
  eexists _, _. split; [vm_compute; reflexivity|]. simpl.
  repeat split.
  intros (_ & _ & Hnd). simpl in Hnd.
  apply NoDup_cons in Hnd as [Hnotin _]. apply Hnotin.
  apply elem_of_cons. right. apply elem_of_cons. by left.
Qed.

End PathfinderFacts.

(** ** Route quoting: failures stay local, results are sorted and chained *)

Module RouteQuoteFacts.
Import LiquidityGraph Pathfinder Constants RouteQuoteService.

(** Every hop quote attempt of a route succeeds: the first hop at the
    requested amount, each later hop at the output of the hop before. *)
Fixpoint everyHopSucceeds (chainId : Z) (provider : Provider)
    (hs : list RouteHop) (a : Z) : bool :=
  match hs with
  | [] => true
  | hop :: hs' =>
      match getHopQuote chainId provider hop a with
      | Value (Some hq) => everyHopSucceeds chainId provider hs' (hq_amountOut hq)
      | _ => false
      end
  end.

(** The hop amounts chain from [a] to [out]: the first hop takes [a], each
    later hop takes what the hop before gave, and [out] is what the last
    hop gave. *)
Fixpoint chained (a : Z) (hds : list HopQuoteData) (out : Z) : Prop :=
  match hds with
  | [] => out = a
  | hq :: hds' => hq_amountIn hq = a /\ chained (hq_amountOut hq) hds' out
  end.

Definition byOutput (a b : RouteQuote) : Prop := amountOut b <= amountOut a.

Lemma try_catch_Value {A : Type} (body : result A) (fallback : A) :
  exists a, try_catch body fallback = Value a.
Proof. destruct body; simpl; eauto. Qed.

Lemma getHopQuote_total chainId provider hop a :
  exists o, getHopQuote chainId provider hop a = Value o.
Proof.
  unfold getHopQuote. destruct (DEX_INFO _); [|eauto].
  destruct (DEX_CONTRACTS _ _); [|eauto]. apply try_catch_Value.
Qed.

Lemma getV3HopQuote_amountIn provider q hop a hq :
  getV3HopQuote provider q hop a = Value (Some hq) -> hq_amountIn hq = a.
Proof.
  unfold getV3HopQuote. destruct q as [q|]; simpl; [|discriminate].
  destruct (quoteExactInputSingle _ _ _ _ _ _); simpl; [|discriminate].
  by intros [= <-].
Qed.

Lemma getV2HopQuote_amountIn provider rt hop a hq :
  getV2HopQuote provider rt hop a = Value (Some hq) -> hq_amountIn hq = a.
Proof.
  unfold getV2HopQuote. destruct (getAmountsOut _ _ _ _) as [amounts|]; simpl; [|discriminate].
  destruct (last amounts); simpl; [|discriminate]. by intros [= <-].
Qed.

Lemma getHopQuote_amountIn chainId provider hop a hq :
  getHopQuote chainId provider hop a = Value (Some hq) -> hq_amountIn hq = a.
Proof.
  unfold getHopQuote. destruct (DEX_INFO _) as [info|]; [|discriminate].
  destruct (DEX_CONTRACTS _ _) as [c|]; [|discriminate].
  destruct (type info).
  - destruct (getV2HopQuote _ _ _ _) as [o|] eqn:E; simpl; [|discriminate].
    intros [= ->]. by eapply getV2HopQuote_amountIn.
  - destruct (getV3HopQuote _ _ _ _) as [o|] eqn:E; simpl; [|discriminate].
    intros [= ->]. by eapply getV3HopQuote_amountIn.
  - discriminate.
  - discriminate.
Qed.

Lemma quoteHops_spec chainId provider hs : forall a acc,
  exists o, quoteHops chainId provider hs a acc = Value o
    /\ match o with
       | None => everyHopSucceeds chainId provider hs a = false
       | Some (hds, out) =>
           everyHopSucceeds chainId provider hs a = true
           /\ exists hds', hds = acc ++ hds' /\ length hds' = length hs
                           /\ chained a hds' out
       end.
Proof.
  induction hs as [|hop hs IH]; intros a acc; simpl.
  - eexists. split; [done|]. split; [done|]. exists []. by rewrite app_nil_r.
  - destruct (getHopQuote_total chainId provider hop a) as [o Ho]. rewrite Ho. simpl.
    destruct o as [hq|]; [|by exists None].
    destruct (IH (hq_amountOut hq) (acc ++ [hq])) as (o & Hq & Hspec).
    exists o. split; [done|].
    destruct o as [[hds out]|]; [|done].
    destruct Hspec as (Hs & hds' & -> & Hlen & Hch). split; [done|].
    exists (hq :: hds'). rewrite <- app_assoc. simpl.
    repeat split; [by rewrite Hlen|by eapply getHopQuote_amountIn|done].
Qed.

Lemma getQuoteForRoute_spec chainId provider r a d :
  exists o, getQuoteForRoute chainId provider r a d = Value o
    /\ match o with
       | None => everyHopSucceeds chainId provider (hops r) a = false
       | Some q =>
           everyHopSucceeds chainId provider (hops r) a = true
           /\ route q = r /\ amountIn q = a
           /\ length (hopsData q) = length (hops r)
           /\ chained a (hopsData q) (amountOut q)
       end.
Proof.
  unfold getQuoteForRoute.
  destruct (quoteHops_spec chainId provider (hops r) a []) as (o & -> & Hspec). simpl.
  destruct o as [[hds out]|]; simpl.
  - eexists. split; [done|]. simpl.
    destruct Hspec as (Hs & hds' & -> & Hlen & Hch). done.
  - by exists None.
Qed.

Lemma Promise_all_map {A B : Type} (f : A -> result B) (l : list A) :
  (forall x, exists b, f x = Value b) ->
  exists bs, Promise_all (map f l) = Value bs /\ Forall2 (fun x b => f x = Value b) l bs.
Proof.
  intros Hf. induction l as [|x l (bs & Hbs & Hall)]; simpl.
  - exists []. by split.
  - destruct (Hf x) as [b Hb]. rewrite Hb. simpl. rewrite Hbs. simpl.
    exists (b :: bs). split; [done|]. by constructor.
Qed.

Lemma byOutputDesc_key x y :
  (byOutputDesc x y <=? 0) = (amountOut y <=? amountOut x).
Proof.
  unfold byOutputDesc. destruct (Z.ltb_spec (amountOut x) (amountOut y)); simpl.
  - symmetry. apply Z.leb_gt. done.
  - symmetry. apply Z.leb_le. done.
Qed.

(** What [getQuotesForRoutes] returns, before the properties are read off:
    the sorted list of the quotes of the routes that were quoted. *)
Lemma getQuotesForRoutes_unfold chainId provider routes a d :
  exists os,
    getQuotesForRoutes chainId provider routes a d
      = Value (JS.sort byOutputDesc (omap Datatypes.id os))
    /\ Forall2 (fun r o => getQuoteForRoute chainId provider r a d = Value o) routes os.
Proof.
  unfold getQuotesForRoutes.
  destruct (Promise_all_map (fun r => getQuoteForRoute chainId provider r a d) routes)
    as (os & -> & Hall).
  { intros r. destruct (getQuoteForRoute_spec chainId provider r a d) as (o & Ho & _). eauto. }
  simpl. eauto.
Qed.

Lemma quoted_routes chainId provider a d routes os :
  Forall2 (fun r o => getQuoteForRoute chainId provider r a d = Value o) routes os ->
  map route (omap Datatypes.id os)
  = filter (fun r => everyHopSucceeds chainId provider (hops r) a = true) routes.
Proof.
  induction 1 as [|r o routes os Hr Hall IH]; [done|].
  destruct (getQuoteForRoute_spec chainId provider r a d) as (o' & Ho' & Hspec).
  rewrite Hr in Ho'. injection Ho' as <-.
  destruct o as [q|].
  - destruct Hspec as (Hs & Hroute & _).
    rewrite filter_cons_True by done.
    change (omap Datatypes.id (Some q :: os)) with (q :: omap Datatypes.id os).
    rewrite map_cons. by rewrite IH, Hroute.
  - rewrite filter_cons_False by (rewrite Hspec; done).
    change (omap Datatypes.id (None :: os)) with (omap Datatypes.id os). done.
Qed.

Lemma quoted_elem chainId provider a d routes os q :
  Forall2 (fun r o => getQuoteForRoute chainId provider r a d = Value o) routes os ->
  q ∈ omap Datatypes.id os ->
  exists r, r ∈ routes /\ getQuoteForRoute chainId provider r a d = Value (Some q).
Proof.
  induction 1 as [|r o routes os Hr Hall IH].
  - by intros ?%elem_of_nil.
  - destruct o as [q'|].
    + change (omap Datatypes.id (Some q' :: os)) with (q' :: omap Datatypes.id os).
      intros [->|Hq]%elem_of_cons.
      * exists r. split; [by left|done].
      * destruct (IH Hq) as (r' & Hr' & Hq'). exists r'. split; [by right|done].
    + change (omap Datatypes.id (None :: os)) with (omap Datatypes.id os).
      intros Hq. destruct (IH Hq) as (r' & Hr' & Hq'). exists r'. split; [by right|done].
Qed.

Lemma quoted_complete chainId provider a d routes os r q :
  Forall2 (fun r o => getQuoteForRoute chainId provider r a d = Value o) routes os ->
  r ∈ routes -> getQuoteForRoute chainId provider r a d = Value (Some q) ->
  q ∈ omap Datatypes.id os.
Proof.
  induction 1 as [|r' o routes os Hr Hall IH].
  - by intros ?%elem_of_nil.
  - intros [->|Hin]%elem_of_cons Hq.
    + rewrite Hr in Hq. injection Hq as ->.
      change (omap Datatypes.id (Some q :: os)) with (q :: omap Datatypes.id os). by left.
    + destruct o as [q'|].
      * change (omap Datatypes.id (Some q' :: os)) with (q' :: omap Datatypes.id os). right. by apply IH.
      * change (omap Datatypes.id (None :: os)) with (omap Datatypes.id os). by apply IH.
Qed.

(** C7. Quoting a list of routes always returns a list, never an
    exception. A route with a failing hop quote attempt is answered with
    [null] and no returned quote belongs to it; every route that was quoted
    has its quote in the returned list, whatever happened to the others. *)
Theorem failed_route_is_skipped (chainId : Z) (provider : Provider)
    (routes : list DiscoveredRoute) (a : Z) (d : nat) :
  exists quotes,
    getQuotesForRoutes chainId provider routes a d = Value quotes
    /\ (forall r, r ∈ routes ->
          everyHopSucceeds chainId provider (hops r) a = false ->
          getQuoteForRoute chainId provider r a d = Value None
          /\ forall q, q ∈ quotes -> route q <> r)
    /\ (forall r, r ∈ routes ->
          everyHopSucceeds chainId provider (hops r) a = true ->
          exists q, getQuoteForRoute chainId provider r a d = Value (Some q)
                    /\ q ∈ quotes).
Proof.
  destruct (getQuotesForRoutes_unfold chainId provider routes a d) as (os & -> & Hall).
  eexists. split; [done|]. split.
  - intros r Hr Hfail.
    destruct (getQuoteForRoute_spec chainId provider r a d) as (o & Ho & Hspec).
    destruct o as [q|]; [destruct Hspec as [Hs _]; congruence|].
    split; [done|].
    intros q Hq%sort_elem Heq.
    destruct (quoted_elem _ _ _ _ _ _ _ Hall Hq) as (r' & _ & Hq').
    destruct (getQuoteForRoute_spec chainId provider r' a d) as (o' & Ho' & Hspec').
    rewrite Hq' in Ho'. injection Ho' as <-.
    destruct Hspec' as (Hs' & Hroute & _). congruence.
  - intros r Hr Hok.
    destruct (getQuoteForRoute_spec chainId provider r a d) as (o & Ho & Hspec).
    destruct o as [q|]; [|congruence].
    exists q. split; [done|]. apply sort_elem. by eapply quoted_complete.
Qed.

(** C10. The returned quotes belong, one for one, to the routes whose every
    hop succeeded; they are sorted by output, largest first; and in each
    quote the hop amounts chain from the requested input to the quote's
    output, one hop quote per hop of the route. *)
Theorem quotes_sorted_and_chained (chainId : Z) (provider : Provider)
    (routes : list DiscoveredRoute) (a : Z) (d : nat) :
  exists quotes,
    getQuotesForRoutes chainId provider routes a d = Value quotes
    /\ map route quotes
       ≡ₚ filter (fun r => everyHopSucceeds chainId provider (hops r) a = true) routes
    /\ StronglySorted byOutput quotes
    /\ (forall q, q ∈ quotes ->
          getQuoteForRoute chainId provider (route q) a d = Value (Some q)
          /\ amountIn q = a
          /\ length (hopsData q) = length (hops (route q))
          /\ chained a (hopsData q) (amountOut q)).
Proof.
  destruct (getQuotesForRoutes_unfold chainId provider routes a d) as (os & -> & Hall).
  eexists. split; [done|]. split; [|split].
  - rewrite sort_perm. by erewrite quoted_routes.
  - apply (sort_sorted byOutputDesc amountOut byOutputDesc_key).
  - intros q Hq%sort_elem.
    destruct (quoted_elem _ _ _ _ _ _ _ Hall Hq) as (r & _ & Hq').
    destruct (getQuoteForRoute_spec chainId provider r a d) as (o & Ho & Hspec).
    rewrite Hq' in Ho. injection Ho as <-.
    destruct Hspec as (_ & <- & Hin & Hlen & Hch). done.
Qed.

End RouteQuoteFacts.

(** ** Fee tiers of a concentrated-liquidity hop *)

Module TierFacts.
Import LiquidityGraph Pathfinder Constants RouteQuoteService DexQuoteService.

(** The first tier of [tiers], in their order, whose read yields [out]. *)
Fixpoint firstTierYielding (read : Z -> result Z) (out : Z) (tiers : list Z)
    : option Z :=
  match tiers with
  | [] => None
  | fee :: tiers' =>
      match read fee with
      | Value o => if o =? out then Some fee else firstTierYielding read out tiers'
      | Thrown => firstTierYielding read out tiers'
      end
  end.

(** The tier the specification keeps on a tie: the default tier 3000
    whenever it yields the kept amount. *)
Definition tieGoesToDefault (read : Z -> result Z) (q : DexQuote) : Prop :=
  read 3000 = Value (amountOut q) -> feeTier q = Some 3000.

(** A quoter on which the tiers 500 and 3000 yield the same amount and the
    tier 10000 a smaller one. *)
Definition tieProvider : Provider :=
  {| quoteExactInputSingle := fun _ _ _ _ fee =>
       if fee =? 500 then Value 1000
       else if fee =? 3000 then Value 1000
       else if fee =? 10000 then Value 990
       else Thrown;
     quoteExactInput := fun _ _ _ => Thrown;
     getAmountsOut := fun _ _ _ => Thrown |}.

Definition quoter1 : string := "0x61fFE014bA17989E743c5F6cB21bF9697530B21e".
Definition tokenX : string := "0xaaaaaaaaaaaaaaaaaaaaaaaaaaaaaaaaaaaaaaaa".
Definition tokenY : string := "0xbbbbbbbbbbbbbbbbbbbbbbbbbbbbbbbbbbbbbbbb".

Definition pool10000 : Pool :=
  {| LiquidityGraph.dexId := "uniswap_v3";
     poolAddress := "0x00000000000000000000000000000000000000f1";
     token0 := tokenX; token1 := tokenY;
     fee := Some 10000; liquidity := Some 1000000 |}.

Definition hop10000 : RouteHop :=
  mkHop {| edge_pool := pool10000; edge_tokenIn := tokenX; edge_tokenOut := tokenY;
           edge_dexId := "uniswap_v3"; edge_fee := feeDecimal pool10000;
           edge_liquidity := 1000000 |}.

Section Direct.
Variable provider : Provider.
Variables quoterAddress tokenIn tokenOut : string.
Variable amountIn : Z.

Definition read (fee : Z) : result Z :=
  quoteExactInputSingle provider quoterAddress tokenIn tokenOut amountIn fee.

Lemma bestTier_spec :
  let '(out, fee) := bestTier provider quoterAddress tokenIn tokenOut amountIn in
  0 <= out
  /\ (forall f o, f ∈ V3_FEE_TIERS -> read f = Value o -> o <= out)
  /\ (out <> 0 -> firstTierYielding read out V3_FEE_TIERS = Some fee).
Proof.
  unfold bestTier, V3_FEE_TIERS. simpl. unfold tryTier. fold (read 500) (read 3000) (read 10000).
  assert (forall f o (P : Prop), f ∈ [500; 3000; 10000] -> read f = Value o ->
            (read 500 = Value o -> P) -> (read 3000 = Value o -> P) ->
            (read 10000 = Value o -> P) -> P) as Hcases.
  { intros f o P Hf Hr H1 H2 H3.
    apply elem_of_cons in Hf as [->|Hf]; [by apply H1|].
    apply elem_of_cons in Hf as [->|Hf]; [by apply H2|].
    apply elem_of_cons in Hf as [->|Hf]; [by apply H3|].
    by apply elem_of_nil in Hf. }
  destruct (read 500) as [o1|] eqn:E1, (read 3000) as [o2|] eqn:E2,
           (read 10000) as [o3|] eqn:E3;
    repeat match goal with
           | |- context [?x <? ?y] => destruct (Z.ltb_spec x y)
           end;
    (split; [lia|]); (split; [intros f o Hf Hr; apply (Hcases f o _ Hf Hr); intros [= <-] || intros [=]; lia|]);
    intros Hne; simpl;
    repeat match goal with
           | |- context [?x =? ?y] => destruct (Z.eqb_spec x y)
           end; try done; lia.
Qed.
End Direct.

(** C6, as the code selects tiers. In direct pair quoting every configured
    tier is read, the kept amount is positive and at least what any tier
    yields, and the kept tier is the first configured tier, in the order
    500, 3000, 10000, that yields the kept amount. In per-route hop quoting
    one read is made, at the tier of the hop's pool (3000 when the pool has
    none), and its answer is the hop quote. *)
Theorem tier_selection (provider : Provider) :
  (forall dexId quoterAddress tokenIn tokenOut amountIn toDecimals quote,
     getV3SingleHopQuote dexId provider quoterAddress tokenIn tokenOut amountIn toDecimals
       = Value (Some quote) ->
     0 < amountOut quote
     /\ (forall f o, f ∈ V3_FEE_TIERS ->
           read provider quoterAddress tokenIn tokenOut amountIn f = Value o ->
           o <= amountOut quote)
     /\ feeTier quote
        = firstTierYielding (read provider quoterAddress tokenIn tokenOut amountIn)
            (amountOut quote) V3_FEE_TIERS
     /\ is_Some (feeTier quote))
  /\ (forall quoterAddress hop amountIn,
        getV3HopQuote provider (Some quoterAddress) hop amountIn
        = Value
            match quoteExactInputSingle provider quoterAddress (hop_tokenIn hop)
                    (hop_tokenOut hop) amountIn (poolFeeOrDefault hop) with
            | Value out =>
                Some {| hq_poolAddress := hop_poolAddress hop;
                        hq_dexId := hop_dexId hop;
                        hq_tokenIn := hop_tokenIn hop;
                        hq_tokenOut := hop_tokenOut hop;
                        hq_amountIn := amountIn;
                        hq_amountOut := out;
                        hq_fee := Some (poolFeeOrDefault hop) |}
            | Thrown => None
            end).
Proof.
  split.
  - intros dexId quoterAddress tokenIn tokenOut amountIn toDecimals quote.
    unfold getV3SingleHopQuote.
    pose proof (bestTier_spec provider quoterAddress tokenIn tokenOut amountIn) as Hbest.
    destruct (bestTier _ _ _ _ _) as [out fee].
    destruct Hbest as (Hpos & Hmax & Hfirst).
    destruct (Z.eqb_spec out 0) as [->|Hne]; [discriminate|].
    destruct (DEX_INFO dexId); [|discriminate].
    intros [= <-]. cbn [DexQuoteService.amountOut DexQuoteService.feeTier].
    rewrite Hfirst by done.
    split; [lia|]. split; [done|]. split; [done|by eexists].
  - intros quoterAddress hop amountIn. unfold getV3HopQuote. simpl.
    by destruct (quoteExactInputSingle _ _ _ _ _ _).
Qed.

(** C6 as stated fails twice. On a tie between the tiers 500 and 3000 the
    direct quote keeps 500, not the default 3000; and a per-route hop over a
    pool of tier 10000 reads that tier alone and keeps its smaller amount. *)
Lemma tie_keeps_first_tier :
  (exists quote,
     getV3SingleHopQuote "uniswap_v3" tieProvider quoter1 tokenX tokenY (10 ^ 18) 6
       = Value (Some quote)
     /\ feeTier quote = Some 500
     /\ ~ tieGoesToDefault (read tieProvider quoter1 tokenX tokenY (10 ^ 18)) quote)
  /\ (exists hq,
        getV3HopQuote tieProvider (Some quoter1) hop10000 (10 ^ 18) = Value (Some hq)
        /\ hq_fee hq = Some 10000
        /\ hq_amountOut hq = 990
        /\ read tieProvider quoter1 tokenX tokenY (10 ^ 18) 3000 = Value 1000).
Proof.
  split.
  - eexists. split; [vm_compute; reflexivity|]. split; [reflexivity|].
    intros H. specialize (H eq_refl). discriminate H.
  - eexists. split; [vm_compute; reflexivity|]. repeat split.
Qed.

End TierFacts.

(** ** Packed path encoding *)

Module PathEncodingFacts.
Import DexQuoteService.
Local Open Scope string_scope.
#[local] Arguments String.append !s1 s2 : simpl nomatch.

(** A token address as the services pass it: [0x] and forty more
    characters, in either case. *)
Definition isAddress (t : string) : Prop :=
  String.length t = 42%nat /\ JS.startsWith "0x" (JS.toLowerCase t) = true.

(** A fee that fits three bytes. *)
Definition isFee (f : Z) : Prop := 0 <= f < 2 ^ 24.

(** [k] hexadecimal digits of [n], most significant first, in front of
    [acc]. *)
Fixpoint fixedHex (k : nat) (n : Z) (acc : string) : string :=
  match k with
  | O => acc
  | S k' => fixedHex k' (n / 16) (String (hexDigit (n mod 16)) acc)
  end.

(** The three bytes of a fee as six lowercase hexadecimal characters. *)
Definition hex6 (f : Z) : string := fixedHex 6 f "".

Definition hexValue (c : ascii) : option Z :=
  let n := Z.of_N (N_of_ascii c) in
  if ((48 <=? n) && (n <=? 57))%Z then Some (n - 48)
  else if ((97 <=? n) && (n <=? 102))%Z then Some (n - 87)
  else None.

Fixpoint parseHex (s : string) (acc : Z) : option Z :=
  match s with
  | EmptyString => Some acc
  | String c r =>
      match hexValue c with
      | Some v => parseHex r (acc * 16 + v)
      | None => None
      end
  end.

(** Decoding a packed three-token path at its fixed offsets: token (20
    bytes), fee (3 bytes), token, fee, token. The first token keeps the
    [0x] the text starts with; the others get it back. *)
Definition decodeV3Path3 (s : string) : option (list string * list Z) :=
  if negb (String.length s =? 134)%nat then None
  else
    match parseHex (substring 42 6 s) 0, parseHex (substring 88 6 s) 0 with
    | Some fee0, Some fee1 =>
        Some ([substring 0 42 s; "0x" ++ substring 48 40 s; "0x" ++ substring 94 40 s],
              [fee0; fee1])
    | _, _ => None
    end.

Lemma length_append (a b : string) :
  String.length (a ++ b) = (String.length a + String.length b)%nat.
Proof. induction a as [|c a IH]; simpl; [done|]. by rewrite IH. Qed.

Lemma length_toLowerCase s : String.length (JS.toLowerCase s) = String.length s.
Proof. induction s as [|c s IH]; simpl; [done|]. by rewrite IH. Qed.

Lemma length_repeatChar n c : String.length (repeatChar n c) = n.
Proof. induction n as [|n IH]; simpl; [done|]. by rewrite IH. Qed.

Lemma length_fixedHex k : forall n acc,
  String.length (fixedHex k n acc) = (k + String.length acc)%nat.
Proof.
  induction k as [|k IH]; intros n acc; simpl; [done|].
  rewrite IH. simpl. lia.
Qed.

Lemma repeatChar_shift k c acc :
  repeatChar k c ++ String c acc = String c (repeatChar k c ++ acc).
Proof. induction k as [|k IH]; simpl; [done|]. by rewrite IH. Qed.

Lemma fixedHex_zero k : forall acc,
  fixedHex k 0 acc = repeatChar k "0"%char ++ acc.
Proof.
  induction k as [|k IH]; intros acc; [done|].
  change (fixedHex (S k) 0 acc) with (fixedHex k 0 (String "0"%char acc)).
  rewrite IH. apply repeatChar_shift.
Qed.

Lemma append_assoc (a b c : string) : (a ++ b) ++ c = a ++ (b ++ c).
Proof. induction a as [|x a IH]; simpl; [done|]. by rewrite IH. Qed.

(** [toString(16)] left-padded with zeros is the fixed-width rendering. *)
Lemma toHex_fixedHex k : forall fuel n acc,
  0 <= n < 16 ^ Z.of_nat k -> n < 16 ^ Z.of_nat fuel -> (1 <= k)%nat -> (1 <= fuel)%nat ->
  exists z, fixedHex k n acc = repeatChar z "0"%char ++ toHex fuel n acc
            /\ (z + String.length (toHex fuel n acc) = k + String.length acc)%nat.
Proof.
  induction k as [|k IH]; intros fuel n acc Hn Hfuel Hk Hf; [lia|].
  destruct fuel as [|fuel]; [lia|]. simpl fixedHex. simpl toHex.
  destruct (Z.eqb_spec (n / 16) 0) as [E|E].
  - rewrite E, fixedHex_zero. exists k. split; [done|]. simpl. lia.
  - assert (16 <= n) as H16.
    { destruct (Z.le_gt_cases 16 n) as [|Hlt]; [done|].
      exfalso. apply E. apply Z.div_small. lia. }
    assert (1 <= k)%nat as Hk'.
    { destruct k; [|lia]. simpl in Hn. lia. }
    assert (1 <= fuel)%nat as Hf'.
    { destruct fuel; [|lia]. simpl in Hfuel. lia. }
    destruct (IH fuel (n / 16) (String (hexDigit (n mod 16)) acc)) as (z & Hz & Hlen);
      [| |done|done|].
    + split; [apply Z.div_pos; lia|].
      apply Z.div_lt_upper_bound; [lia|].
      replace (16 ^ Z.of_nat (S k)) with (16 * 16 ^ Z.of_nat k) in Hn; [lia|].
      rewrite Nat2Z.inj_succ, Z.pow_succ_r; lia.
    + apply Z.div_lt_upper_bound; [lia|].
      replace (16 ^ Z.of_nat (S fuel)) with (16 * 16 ^ Z.of_nat fuel) in Hfuel; [lia|].
      rewrite Nat2Z.inj_succ, Z.pow_succ_r; lia.
    + exists z. split; [done|]. simpl in Hlen. lia.
Qed.

Lemma padded_fee f : isFee f -> padStart 6 "0"%char (toString16 f) = hex6 f.
Proof.
  intros [H0 H24]. unfold toString16, padStart, hex6.
  destruct (Z.ltb_spec f 0) as [|_]; [lia|].
  destruct (toHex_fixedHex 6 (S (Z.to_nat (Z.log2 f))) f "") as (z & -> & Hlen);
    [split; [done|]; change (16 ^ Z.of_nat 6) with (2 ^ 24); lia| |lia|lia|].
  - destruct (Z.eq_dec f 0) as [->|Hne]; [done|].
    rewrite Nat2Z.inj_succ, Z2Nat.id by apply Z.log2_nonneg.
    pose proof (Z.log2_spec f ltac:(lia)) as [_ Hlt].
    eapply Z.lt_le_trans; [exact Hlt|].
    change 16 with (2 ^ 4). rewrite <- Z.pow_mul_r by (pose proof (Z.log2_nonneg f); lia).
    apply Z.pow_le_mono_r; [lia|]. pose proof (Z.log2_nonneg f). lia.
  - change (String.length "") with 0%nat in Hlen.
    replace (6 - _)%nat with z by lia. done.
Qed.

Lemma hexValue_hexDigit d : 0 <= d < 16 -> hexValue (hexDigit d) = Some d.
Proof.
  intros Hd.
  assert (d = 0 \/ d = 1 \/ d = 2 \/ d = 3 \/ d = 4 \/ d = 5 \/ d = 6 \/ d = 7 \/ d = 8
          \/ d = 9 \/ d = 10 \/ d = 11 \/ d = 12 \/ d = 13 \/ d = 14 \/ d = 15) as H by lia.
  repeat (destruct H as [->|H]; [reflexivity|]). by subst.
Qed.

Lemma parseHex_append a : forall b acc,
  parseHex (a ++ b) acc = match parseHex a acc with Some v => parseHex b v | None => None end.
Proof.
  induction a as [|c a IH]; intros b acc; simpl; [done|].
  destruct (hexValue c); [apply IH|done].
Qed.

Lemma parseHex_fixedHex k : forall n acc a,
  0 <= n < 16 ^ Z.of_nat k ->
  parseHex (fixedHex k n acc) a = parseHex acc (a * 16 ^ Z.of_nat k + n).
Proof.
  induction k as [|k IH]; intros n acc a Hn.
  - simpl in *. f_equal. lia.
  - simpl fixedHex.
    assert (16 ^ Z.of_nat (S k) = 16 * 16 ^ Z.of_nat k) as Hpow
      by (rewrite Nat2Z.inj_succ, Z.pow_succ_r; lia).
    rewrite IH.
    + simpl. rewrite hexValue_hexDigit by (apply Z.mod_pos_bound; lia).
      f_equal. rewrite Hpow. pose proof (Z.div_mod n 16 ltac:(lia)). lia.
    + split; [apply Z.div_pos; lia|]. apply Z.div_lt_upper_bound; lia.
Qed.

Lemma parseHex_hex6 f : isFee f -> parseHex (hex6 f) 0 = Some f.
Proof.
  intros [H0 H24]. unfold hex6. rewrite parseHex_fixedHex; [done|].
  change (16 ^ Z.of_nat 6) with (2 ^ 24). lia.
Qed.

Lemma substring_0_append a b :
  substring 0 (String.length a) (a ++ b) = a.
Proof.
  induction a as [|c a IH]; simpl.
  - by destruct b.
  - by rewrite IH.
Qed.

Lemma substring_skip a : forall b m,
  substring (String.length a) m (a ++ b) = substring 0 m b.
Proof. induction a as [|c a IH]; intros b m; simpl; [done|]. apply IH. Qed.

Lemma substring_0_all a : substring 0 (String.length a) a = a.
Proof. induction a as [|c a IH]; simpl; [done|]. by rewrite IH. Qed.

Lemma length_sliceFrom2 s :
  (2 <= String.length s)%nat -> String.length (sliceFrom 2 s) = (String.length s - 2)%nat.
Proof.
  destruct s as [|c1 [|c2 s]]; simpl; try lia.
Qed.

Lemma restore_prefix s :
  JS.startsWith "0x" s = true -> "0x" ++ sliceFrom 2 s = s.
Proof.
  destruct s as [|c1 [|c2 s]]; cbn [JS.startsWith sliceFrom]; try discriminate.
  - by rewrite andb_false_r.
  - intros H. apply andb_prop in H as [H1 H2]. apply andb_prop in H2 as [H2 _].
    apply Ascii.eqb_eq in H1, H2. by subst.
Qed.

(** The text a well-formed three-token path encodes to. *)
Definition packed (t0 t1 t2 : string) (f0 f1 : Z) : string :=
  JS.toLowerCase t0 ++ hex6 f0 ++ sliceFrom 2 (JS.toLowerCase t1)
    ++ hex6 f1 ++ sliceFrom 2 (JS.toLowerCase t2).

Lemma decode_packed t0 t1 t2 f0 f1 :
  isAddress t0 -> isAddress t1 -> isAddress t2 -> isFee f0 -> isFee f1 ->
  String.length (packed t0 t1 t2 f0 f1) = 134%nat
  /\ decodeV3Path3 (packed t0 t1 t2 f0 f1)
     = Some ([JS.toLowerCase t0; JS.toLowerCase t1; JS.toLowerCase t2], [f0; f1]).
Proof.
  intros [L0 P0] [L1 P1] [L2 P2] F0 F1.
  set (a0 := JS.toLowerCase t0). set (b1 := sliceFrom 2 (JS.toLowerCase t1)).
  set (b2 := sliceFrom 2 (JS.toLowerCase t2)).
  assert (String.length a0 = 42%nat) as La0 by (unfold a0; by rewrite length_toLowerCase).
  assert (String.length b1 = 40%nat) as Lb1.
  { unfold b1. rewrite length_sliceFrom2; rewrite length_toLowerCase; lia. }
  assert (String.length b2 = 40%nat) as Lb2.
  { unfold b2. rewrite length_sliceFrom2; rewrite length_toLowerCase; lia. }
  assert (String.length (hex6 f0) = 6%nat) as Lh0 by apply length_fixedHex.
  assert (String.length (hex6 f1) = 6%nat) as Lh1 by apply length_fixedHex.
  assert (String.length (packed t0 t1 t2 f0 f1) = 134%nat) as Hlen.
  { unfold packed. fold a0 b1 b2. rewrite !length_append. lia. }
  split; [done|].
  unfold decodeV3Path3. rewrite Hlen. simpl negb. cbv iota.
  unfold packed. fold a0 b1 b2.
  assert (substring 42 6 (a0 ++ hex6 f0 ++ b1 ++ hex6 f1 ++ b2) = hex6 f0) as ->.
  { rewrite <- La0, substring_skip, <- Lh0. apply substring_0_append. }
  assert (substring 88 6 (a0 ++ hex6 f0 ++ b1 ++ hex6 f1 ++ b2) = hex6 f1) as ->.
  { replace (a0 ++ hex6 f0 ++ b1 ++ hex6 f1 ++ b2)
      with (((a0 ++ hex6 f0) ++ b1) ++ hex6 f1 ++ b2) by (by rewrite !append_assoc).
    replace 88%nat with (String.length ((a0 ++ hex6 f0) ++ b1))
      by (rewrite !length_append; lia).
    rewrite substring_skip, <- Lh1. apply substring_0_append. }
  assert (substring 0 42 (a0 ++ hex6 f0 ++ b1 ++ hex6 f1 ++ b2) = a0) as ->.
  { rewrite <- La0. apply substring_0_append. }
  assert (substring 48 40 (a0 ++ hex6 f0 ++ b1 ++ hex6 f1 ++ b2) = b1) as ->.
  { replace (a0 ++ hex6 f0 ++ b1 ++ hex6 f1 ++ b2)
      with ((a0 ++ hex6 f0) ++ b1 ++ hex6 f1 ++ b2) by (by rewrite !append_assoc).
    replace 48%nat with (String.length (a0 ++ hex6 f0)) by (rewrite !length_append; lia).
    rewrite substring_skip, <- Lb1. apply substring_0_append. }
  assert (substring 94 40 (a0 ++ hex6 f0 ++ b1 ++ hex6 f1 ++ b2) = b2) as ->.
  { replace (a0 ++ hex6 f0 ++ b1 ++ hex6 f1 ++ b2)
      with ((((a0 ++ hex6 f0) ++ b1) ++ hex6 f1) ++ b2) by (by rewrite !append_assoc).
    replace 94%nat with (String.length (((a0 ++ hex6 f0) ++ b1) ++ hex6 f1))
      by (rewrite !length_append; lia).
    rewrite substring_skip, <- Lb2. apply substring_0_all. }
  rewrite !parseHex_hex6 by done.
  unfold b1, b2. by rewrite !restore_prefix.
Qed.

Lemma encodeLoop_Thrown fees : forall encoded tokens,
  length tokens = length fees -> exists s, encodeLoop encoded tokens fees = Value s.
Proof.
  induction fees as [|f fees IH]; intros encoded tokens Hlen; simpl; [by eexists|].
  destruct tokens as [|t tokens]; simpl in Hlen; [lia|]. apply IH. lia.
Qed.

(** C5. A path of three addresses and two three-byte fees encodes to the
    lowercase first address, then for each fee its six lowercase
    hexadecimal digits and the next lowercase address without [0x]: 134
    characters. Decoding that text at the fixed offsets gives back the
    lowercase addresses and the fees. Encoding throws exactly when the
    number of tokens is not the number of fees plus one. *)
Theorem encodeV3Path_round_trip :
  (forall t0 t1 t2 f0 f1,
     isAddress t0 -> isAddress t1 -> isAddress t2 -> isFee f0 -> isFee f1 ->
     encodeV3Path [t0; t1; t2] [f0; f1] = Value (packed t0 t1 t2 f0 f1)
     /\ String.length (packed t0 t1 t2 f0 f1) = 134%nat
     /\ decodeV3Path3 (packed t0 t1 t2 f0 f1)
        = Some ([JS.toLowerCase t0; JS.toLowerCase t1; JS.toLowerCase t2], [f0; f1]))
  /\ (forall tokens fees,
        encodeV3Path tokens fees = Thrown <-> length tokens <> S (length fees)).
Proof.
  split.
  - intros t0 t1 t2 f0 f1 A0 A1 A2 F0 F1.
    split; [|by apply decode_packed].
    unfold encodeV3Path, packed. simpl.
    rewrite !padded_fee by done. by rewrite !append_assoc.
  - intros tokens fees. unfold encodeV3Path.
    destruct (Nat.eqb_spec (length tokens) (length fees + 1)) as [E|E]; simpl.
    + split; [|lia]. destruct tokens as [|t0 rest]; [simpl in E; lia|].
      destruct (encodeLoop_Thrown fees (JS.toLowerCase t0) rest) as [s ->];
        [simpl in E; lia|discriminate].
    + split; [lia|done].
Qed.

(** The round trip on a WETH, USDC, DAI path with the tiers 500 and 3000. *)
Lemma encodeV3Path_round_trip_witness :
  encodeV3Path ["0xC02aaA39b223FE8D0A0e5C4F27eAD9083C756Cc2";
                "0xA0b86991c6218b36c1d19D4a2e9Eb0cE3606eB48";
                "0x6B175474E89094C44Da98b954EedeAC495271d0F"] [500; 3000]
  = Value "0xc02aaa39b223fe8d0a0e5c4f27ead9083c756cc20001f4a0b86991c6218b36c1d19d4a2e9eb0ce3606eb48000bb86b175474e89094c44da98b954eedeac495271d0f"
  /\ decodeV3Path3 "0xc02aaa39b223fe8d0a0e5c4f27ead9083c756cc20001f4a0b86991c6218b36c1d19d4a2e9eb0ce3606eb48000bb86b175474e89094c44da98b954eedeac495271d0f"
     = Some (["0xc02aaa39b223fe8d0a0e5c4f27ead9083c756cc2";
              "0xa0b86991c6218b36c1d19d4a2e9eb0ce3606eb48";
              "0x6b175474e89094c44da98b954eedeac495271d0f"], [500; 3000]).
Proof.
  destruct encodeV3Path_round_trip as [H _].
  assert (isAddress "0xC02aaA39b223FE8D0A0e5C4F27eAD9083C756Cc2") as A0
    by (split; reflexivity).
  assert (isAddress "0xA0b86991c6218b36c1d19D4a2e9Eb0cE3606eB48") as A1
    by (split; reflexivity).
  assert (isAddress "0x6B175474E89094C44Da98b954EedeAC495271d0F") as A2
    by (split; reflexivity).
  assert (isFee 500) as F0 by (split; [lia|reflexivity]).
  assert (isFee 3000) as F1 by (split; [lia|reflexivity]).
  destruct (H _ _ _ _ _ A0 A1 A2 F0 F1) as (He & _ & Hd).
  split; [exact He|exact Hd].
Defined.

End PathEncodingFacts.

(* ===================================================================== *)
(** * The encoded data of a swap step *)
(* ===================================================================== *)

Module DexDataFacts.
Import DexQuoteService RouteOptimizerService.

(** A fee tier that fits the 24 bits of its encoding. *)
Definition uint24 (f : Z) : Prop := 0 <= f < 2 ^ 24.

(** The fee tier of a quote, if it has one, fits 24 bits. *)
Definition feeTierFits (q : DexQuote) : Prop :=
  forall f, feeTier q = Some f -> uint24 f.

(** A quote whose swap data can be encoded: the fee tier fits 24 bits,
    and the packed path of a multi-hop quote is a text that starts with
    0x. *)
Definition encodable (q : DexQuote) : Prop :=
  feeTierFits q
  /\ forall p, multiHopPath q = Some p -> JS.startsWith "0x" p = true.

Lemma startsWith_0x s :
  JS.startsWith "0x" s = true -> exists r, s = String "0" (String "x" r).
Proof.
  destruct s as [|a [|b r]]; cbn [JS.startsWith]; try discriminate.
  - by rewrite andb_false_r.
  - intros [Ha [Hb _]%andb_prop]%andb_prop.
    apply Ascii.eqb_eq in Ha, Hb. subst. by exists r.
Qed.

Lemma words_cover n : (n <= Nat.div (n + 63) 64 * 32 * 2)%nat.
Proof.
  pose proof (Nat.div_mod_eq (n + 63) 64) as Hd.
  pose proof (Nat.mod_upper_bound (n + 63) 64 ltac:(lia)). lia.
Qed.

(** A text that starts with 0x is encoded whatever its length. *)
Lemma encodeBytes_hex v :
  JS.startsWith "0x" v = true -> exists e, encodeBytes v = Value e.
Proof.
  intros Hv. destruct (startsWith_0x v Hv) as [r ->].
  unfold encodeBytes. cbv zeta.
  destruct (Nat.modulo _ 32 =? 0)%nat; [by eexists|].
  assert (remove0x (String "0" (String "x" r)) = r) as -> by reflexivity.
  cbn [String.length].
  replace (S (S (String.length r)) - 2)%nat with (String.length r) by lia.
  assert ((Nat.div (String.length r + 63) 64 * 32 * 2 <? String.length r)%nat = false)
    as -> by (apply Nat.ltb_ge, words_cover).
  by eexists.
Qed.

Lemma encodeBoolBytes_hex b v :
  JS.startsWith "0x" v = true -> exists e, encodeBoolBytes b v = Value e.
Proof.
  intros Hv. unfold encodeBoolBytes. destruct (encodeBytes_hex v Hv) as [e ->].
  by eexists.
Qed.

(** The fee tier is encoded exactly when it fits 24 bits. *)
Lemma encodeV3DexData_uint24 f :
  (uint24 f -> exists d, encodeV3DexData f = Value d)
  /\ (~ uint24 f -> encodeV3DexData f = Thrown).
Proof.
  unfold encodeV3DexData, encodeUint24, uint24. split.
  - intros Hf.
    assert ((0 <=? f) && (f <=? 2 ^ 24 - 1) = true) as ->
      by (apply andb_true_intro; split; [apply Z.leb_le|apply Z.leb_le]; lia).
    cbn [mbind result_bind]. by apply encodeBoolBytes_hex.
  - intros Hf.
    assert ((0 <=? f) && (f <=? 2 ^ 24 - 1) = false) as ->; [|done].
    apply andb_false_iff.
    destruct (Z.leb_spec 0 f); [|by left]. right. apply Z.leb_gt. lia.
Qed.

Lemma feeTierDexData_fits q :
  feeTierFits q -> exists d, feeTierDexData q = Value d.
Proof.
  intros Hq. unfold feeTierDexData, truthyFeeTier.
  destruct (feeTier q) as [f|] eqn:Hf; [|by eexists].
  destruct (f =? 0); [by eexists|].
  destruct (proj1 (encodeV3DexData_uint24 f) (Hq f Hf)) as [d ->]. by eexists.
Qed.

(** What the single plan holds, whenever it is built. *)
Lemma createSingleRoute_plan q amountIn fd td plan :
  createSingleRoute q amountIn fd td = Value plan ->
  isSplit plan = false
  /\ totalOutput plan = formatUnits (amountOut q) td
  /\ totalGas plan = estimatedGas q
  /\ map percentage (steps plan) = [n100]
  /\ map toAmount (steps plan) = [formatUnits (amountOut q) td].
Proof.
  unfold createSingleRoute.
  destruct (match multiHopPath q with Some p => _ | None => _ end) as [d|];
    [|discriminate].
  by intros [= <-].
Qed.

(** The single plan of an encodable quote is built. *)
Lemma createSingleRoute_encodable q amountIn fd td :
  encodable q -> exists plan, createSingleRoute q amountIn fd td = Value plan.
Proof.
  intros [Hf Hp]. unfold createSingleRoute.
  destruct (multiHopPath q) as [p|] eqn:Hm.
  - unfold encodeV3MultiHopDexData.
    destruct (encodeBoolBytes_hex true p (Hp p eq_refl)) as [e ->]. by eexists.
  - destruct (feeTierDexData_fits q Hf) as [d ->]. by eexists.
Qed.

End DexDataFacts.

(* ===================================================================== *)
(** * Numbers as reals: what the binary64 operations compute *)
(* ===================================================================== *)

Module FloatCore.

Definition prec : Z := 53.
Definition emax : Z := 1024.
Definition emin : Z := -1074.

Definition bpow (e : Z) : R := powerRZ 2 e.

Lemma Rabs_le_inv a b : (Rabs a <= b)%R -> (- b <= a <= b)%R.
Proof. unfold Rabs. destruct (Rcase_abs a); lra. Qed.

Lemma bpow_pos e : (0 < bpow e)%R.
Proof. apply powerRZ_lt. lra. Qed.

Lemma bpow_add a b : bpow (a + b) = (bpow a * bpow b)%R.
Proof. apply powerRZ_add. lra. Qed.

Lemma bpow_1 : bpow 1 = 2%R.
Proof. unfold bpow. simpl. lra. Qed.

Lemma bpow_succ a : bpow (a + 1) = (2 * bpow a)%R.
Proof. rewrite bpow_add, bpow_1. lra. Qed.

Lemma bpow_pred a : bpow (a - 1) = (bpow a / 2)%R.
Proof.
  replace a with ((a - 1) + 1) at 2 by lia. rewrite bpow_succ. lra.
Qed.

Lemma bpow_IZR n : 0 <= n -> bpow n = IZR (2 ^ n).
Proof.
  intros Hn. unfold bpow. rewrite <- (Z2Nat.id n) at 1 by done.
  rewrite <- pow_powerRZ. rewrite <- (Z2Nat.id n) at 2 by done.
  by rewrite <- pow_IZR.
Qed.

Lemma bpow_le a b : a <= b -> (bpow a <= bpow b)%R.
Proof.
  intros H. replace b with (a + (b - a)) by lia. rewrite bpow_add.
  rewrite (bpow_IZR (b - a)) by lia.
  assert (1 <= IZR (2 ^ (b - a)))%R.
  { apply IZR_le. pose proof (Z.pow_pos_nonneg 2 (b - a)). lia. }
  pose proof (bpow_pos a). nra.
Qed.

Lemma bpow_lt a b : a < b -> (bpow a < bpow b)%R.
Proof.
  intros H. replace b with (a + (b - a)) by lia. rewrite bpow_add.
  rewrite (bpow_IZR (b - a)) by lia.
  assert (2 <= IZR (2 ^ (b - a)))%R.
  { apply IZR_le. replace (b - a) with (1 + (b - a - 1)) by lia.
    rewrite Z.pow_add_r by lia. pose proof (Z.pow_pos_nonneg 2 (b - a - 1)). lia. }
  pose proof (bpow_pos a). nra.
Qed.

Lemma bpow_lt_inv a b : (bpow a < bpow b)%R -> a < b.
Proof.
  intros H. destruct (Z.lt_ge_cases a b) as [|Hge]; [done|].
  apply bpow_le in Hge. lra.
Qed.

(** ** Digits *)

Lemma digits2_pos_bounds p :
  2 ^ (Z.pos (digits2_pos p) - 1) <= Z.pos p < 2 ^ Z.pos (digits2_pos p).
Proof.
  induction p as [p IH|p IH|]; simpl digits2_pos.
  - rewrite Pos2Z.inj_succ.
    replace (Z.succ (Z.pos (digits2_pos p)) - 1) with (Z.succ (Z.pos (digits2_pos p) - 1)) by lia.
    rewrite !Z.pow_succ_r by lia.
    generalize dependent (2 ^ (Z.pos (digits2_pos p) - 1)).
    generalize dependent (2 ^ Z.pos (digits2_pos p)). lia.
  - rewrite Pos2Z.inj_succ.
    replace (Z.succ (Z.pos (digits2_pos p)) - 1) with (Z.succ (Z.pos (digits2_pos p) - 1)) by lia.
    rewrite !Z.pow_succ_r by lia.
    generalize dependent (2 ^ (Z.pos (digits2_pos p) - 1)).
    generalize dependent (2 ^ Z.pos (digits2_pos p)). lia.
  - simpl. lia.
Qed.

Lemma Zdigits2_bounds m : 0 < m ->
  2 ^ (Zdigits2 m - 1) <= m < 2 ^ Zdigits2 m.
Proof. destruct m; try lia. intros _. apply digits2_pos_bounds. Qed.

Lemma Zdigits2_pos m : 0 < m -> 0 < Zdigits2 m.
Proof. destruct m; simpl; lia. Qed.

(** [Zdigits2 m] is the only [d] with [2^(d-1) <= m < 2^d]. *)
Lemma Zdigits2_unique m d : 0 < m -> 2 ^ (d - 1) <= m < 2 ^ d -> Zdigits2 m = d.
Proof.
  intros Hm [H1 H2]. pose proof (Zdigits2_bounds m Hm) as [H3 H4].
  pose proof (Zdigits2_pos m Hm).
  assert (0 < d).
  { destruct (Z.lt_ge_cases 0 d); [done|].
    destruct (Z.eq_dec d 0) as [->|]; [simpl in H2; lia|].
    rewrite Z.pow_neg_r in H2 by lia. lia. }
  destruct (Z.lt_trichotomy (Zdigits2 m) d) as [Hlt|[->|Hgt]]; [|done|].
  - assert (2 ^ Zdigits2 m <= 2 ^ (d - 1)) by (apply Z.pow_le_mono_r; lia). lia.
  - assert (2 ^ d <= 2 ^ (Zdigits2 m - 1)) by (apply Z.pow_le_mono_r; lia). lia.
Qed.

(** ** Shifting right *)

Lemma iter_pos_nat {A : Type} (f : A -> A) p : forall x,
  SpecFloat.iter_pos f p x = Nat.iter (Pos.to_nat p) f x.
Proof.
  induction p as [p IH|p IH|]; intros x; simpl SpecFloat.iter_pos.
  - rewrite !IH, Pos2Nat.inj_xI.
    replace (S (2 * Pos.to_nat p)) with (Pos.to_nat p + (Pos.to_nat p + 1))%nat by lia.
    rewrite !Nat.iter_add. simpl. done.
  - rewrite !IH, Pos2Nat.inj_xO.
    replace (2 * Pos.to_nat p)%nat with (Pos.to_nat p + Pos.to_nat p)%nat by lia.
    by rewrite Nat.iter_add.
  - done.
Qed.

(** The real [t], counted in units, lies where the integer [m] and the
    location [l] say. *)
Definition located (m : Z) (l : location) (t : R) : Prop :=
  match l with
  | loc_Exact => t = IZR m
  | loc_Inexact Lt => (IZR m < t < IZR m + 1 / 2)%R
  | loc_Inexact Eq => t = (IZR m + 1 / 2)%R
  | loc_Inexact Gt => (IZR m + 1 / 2 < t < IZR m + 1)%R
  end.

Lemma located_bounds m l t : located m l t -> (IZR m <= t < IZR m + 1)%R.
Proof. destruct l as [|[]]; simpl; lra. Qed.

Definition rec_loc (r : shr_record) : location := loc_of_shr_record r.

Lemma shr_1_located r t :
  0 <= shr_m r -> located (shr_m r) (rec_loc r) t ->
  0 <= shr_m (shr_1 r) /\ shr_m (shr_1 r) = shr_m r / 2
  /\ located (shr_m (shr_1 r)) (rec_loc (shr_1 r)) (t / 2).
Proof.
  destruct r as [m rb sb]. intros Hm Hloc. cbn [shr_m] in Hm, Hloc.
  assert (exists q (b : bool), m = 2 * q + (if b then 1 else 0) /\ 0 <= q
          /\ shr_1 {| shr_m := m; shr_r := rb; shr_s := sb |}
             = {| shr_m := q; shr_r := b; shr_s := rb || sb |}) as (q & b & Hmq & Hq & Hs).
  { destruct m as [|[p|p|]|]; try lia.
    - exists 0, false. done.
    - exists (Z.pos p), true. split; [lia|]. split; [lia|done].
    - exists (Z.pos p), false. split; [lia|]. split; [lia|done].
    - exists 0, true. split; [lia|]. split; [lia|done]. }
  rewrite Hs. subst m. cbn [shr_m]. split; [done|]. split.
  { apply (Z.div_unique _ 2 q (if b then 1 else 0)); destruct b; lia. }
  unfold rec_loc in *.
  destruct b, rb, sb; cbn [located loc_of_shr_record shr_m shr_r shr_s orb] in *;
    rewrite ?plus_IZR, ?mult_IZR in Hloc; lra.
Qed.

Lemma shr_nat_located n : forall r t,
  0 <= shr_m r -> located (shr_m r) (rec_loc r) t ->
  let r' := Nat.iter n shr_1 r in
  0 <= shr_m r' /\ shr_m r' = shr_m r / 2 ^ Z.of_nat n
  /\ located (shr_m r') (rec_loc r') (t / IZR (2 ^ Z.of_nat n)).
Proof.
  induction n as [|n IH]; intros r t Hm Hloc.
  - simpl. rewrite Z.div_1_r. split; [done|]. split; [done|].
    change (2 ^ Z.of_nat 0) with 1. replace (t / 1)%R with t by lra. done.
  - cbv zeta. rewrite Nat.iter_succ. destruct (IH r t Hm Hloc) as (H0 & Hdiv & Hl).
    destruct (shr_1_located _ _ H0 Hl) as (H0' & Hdiv' & Hl').
    split; [done|]. split.
    + rewrite Hdiv', Hdiv, Z.div_div by lia.
      f_equal. rewrite Nat2Z.inj_succ, Z.pow_succ_r; lia.
    + replace (t / IZR (2 ^ Z.of_nat (S n)))%R with (t / IZR (2 ^ Z.of_nat n) / 2)%R; [done|].
      rewrite Nat2Z.inj_succ, Z.pow_succ_r, mult_IZR by lia.
      assert (0 < IZR (2 ^ Z.of_nat n))%R by (apply IZR_lt; lia).
      field. lra.
Qed.

Lemma located_record m l t :
  located m l t -> located (shr_m (shr_record_of_loc m l)) (rec_loc (shr_record_of_loc m l)) t.
Proof. destruct l as [|[]]; simpl; done. Qed.

Lemma shr_m_record m l : shr_m (shr_record_of_loc m l) = m.
Proof. by destruct l as [|[]]. Qed.

(** Shifting by [n] bits: the mantissa is divided by [2^n], the exponent
    grows by [n], and the location follows. *)
Lemma shr_located m l e n t :
  0 <= m -> located m l t ->
  let '(r', e') := shr (shr_record_of_loc m l) e n in
  let k := Z.max n 0 in
  e' = e + k /\ 0 <= shr_m r' /\ shr_m r' = m / 2 ^ k
  /\ located (shr_m r') (rec_loc r') (t / bpow k).
Proof.
  intros Hm Hloc.
  assert (e = e + 0 /\ 0 <= shr_m (shr_record_of_loc m l)
          /\ shr_m (shr_record_of_loc m l) = m / 2 ^ 0
          /\ located (shr_m (shr_record_of_loc m l)) (rec_loc (shr_record_of_loc m l))
               (t / bpow 0)) as Hnoshift.
  { rewrite shr_m_record, Z.div_1_r.
    change (bpow 0) with 1%R. replace (t / 1)%R with t by lra.
    split; [lia|]. split; [done|]. split; [done|]. rewrite <- (shr_m_record m l) at 1.
    by apply located_record. }
  unfold shr. destruct n as [|p|p]; cbv zeta.
  - rewrite Z.max_l by lia. exact Hnoshift.
  - rewrite iter_pos_nat. rewrite Z.max_l by lia.
    destruct (shr_nat_located (Pos.to_nat p) (shr_record_of_loc m l) t) as (H0 & Hdiv & Hl).
    { by rewrite shr_m_record. }
    { by apply located_record. }
    rewrite positive_nat_Z, shr_m_record in *.
    rewrite bpow_IZR by lia. done.
  - rewrite Z.max_r by lia. exact Hnoshift.
Qed.


(** ** Rounding to nearest, ties to even *)

Lemma rne_spec m l t :
  located m l t ->
  let q := round_nearest_even m l in
  (q = m \/ q = m + 1)
  /\ (Rabs (IZR q - t) <= 1 / 2)%R
  /\ (forall k, (IZR k <= t)%R -> k <= q)
  /\ (forall k, (t <= IZR k)%R -> q <= k).
Proof.
  intros Hloc. pose proof (located_bounds _ _ _ Hloc) as [Hlo Hhi].
  assert (forall k, (IZR k <= t)%R -> k <= m) as Hfloor.
  { intros k Hk. assert (IZR k < IZR (m + 1))%R as H by (rewrite plus_IZR; lra).
    apply lt_IZR in H. lia. }
  assert (forall k, (t <= IZR k)%R -> (t = IZR m \/ m + 1 <= k)) as Hceil.
  { intros k Hk. destruct (Req_dec t (IZR m)) as [|Hne]; [by left|]. right.
    assert (IZR m < IZR k)%R as H by lra. apply lt_IZR in H. lia. }
  assert (round_nearest_even m l = m \/ round_nearest_even m l = m + 1) as Hq.
  { unfold round_nearest_even. destruct l as [|[]]; [by left|..|by left|by right].
    destruct (Z.even m); [by left|by right]. }
  cbv zeta. split; [done|]. split; [|split].
  - unfold round_nearest_even. destruct l as [|[]]; simpl in Hloc.
    + subst. replace (IZR m - IZR m)%R with 0%R by lra. rewrite Rabs_R0. lra.
    + subst. destruct (Z.even m); [|rewrite plus_IZR];
        apply Rabs_le; lra.
    + apply Rabs_le; lra.
    + rewrite plus_IZR. apply Rabs_le; lra.
  - intros k Hk. specialize (Hfloor k Hk). lia.
  - intros k Hk. destruct (Hceil k Hk) as [Heq|Hle]; [|lia].
    assert (m <= k) by (apply le_IZR; lra).
    assert (l = loc_Exact) as ->.
    { destruct l as [|[]]; simpl in Hloc; [done|lra..]. }
    simpl. done.
Qed.

Definition fexp (e : Z) : Z := Z.max (e - prec) emin.

Lemma fexp_eq e : SpecFloat.fexp prec emax e = fexp e.
Proof. reflexivity. Qed.

(** The float a rounded mantissa [q] at exponent [E] is stored as. *)
Definition encode (s : bool) (q E : Z) : spec_float :=
  if q =? 0 then S754_zero s
  else if q =? 2 ^ prec then
    (if E + 1 <=? emax - prec then S754_finite s (Z.to_pos (2 ^ (prec - 1))) (E + 1)
     else S754_infinity s)
  else (if E <=? emax - prec then S754_finite s (Z.to_pos q) E else S754_infinity s).

Lemma shr_fexp_unfold m e l :
  shr_fexp prec emax m e l = shr (shr_record_of_loc m l) e (fexp (Zdigits2 m + e) - e).
Proof. reflexivity. Qed.

Lemma div_pow2_bounds m d n :
  0 <= n -> 0 < m -> 2 ^ (d - 1) <= m < 2 ^ d -> n < d ->
  2 ^ (d - n - 1) <= m / 2 ^ n < 2 ^ (d - n).
Proof.
  intros Hn Hm [H1 H2] Hnd.
  assert (0 < 2 ^ n) by (apply Z.pow_pos_nonneg; lia).
  split.
  - apply Z.div_le_lower_bound; [done|].
    rewrite <- Z.pow_add_r by lia. replace (n + (d - n - 1)) with (d - 1) by lia. done.
  - apply Z.div_lt_upper_bound; [done|].
    rewrite <- Z.pow_add_r by lia. replace (n + (d - n)) with d by lia. done.
Qed.

(** What [binary_round_aux] computes on a mantissa whose exponent is not
    above the canonical one: with [E] the canonical exponent and [t'] the
    exact value counted in units of [2^E], the result stores the integer
    [q] nearest to [t'], ties to even. *)
Lemma binary_round_aux_spec s m e l t :
  0 <= m -> located m l t -> e <= fexp (Zdigits2 m + e) ->
  let E := fexp (Zdigits2 m + e) in
  let t' := (t / bpow (E - e))%R in
  exists q,
    binary_round_aux prec emax s m e l = encode s q E
    /\ 0 <= q <= 2 ^ prec
    /\ (2 ^ (prec - 1) <= q \/ E = emin)
    /\ ((IZR (2 ^ (prec - 1)) <= t')%R \/ E = emin)
    /\ (0 <= t' < IZR (2 ^ prec))%R
    /\ (Rabs (IZR q - t') <= 1 / 2)%R
    /\ (forall k, (IZR k <= t')%R -> k <= q)
    /\ (forall k, (t' <= IZR k)%R -> q <= k).
Proof.
  intros Hm Hloc Halign E t'.
  set (d := Zdigits2 m) in *. set (n := E - e).
  assert (0 <= n) as Hn by (unfold n, E; lia).
  assert (emin <= E) as HEmin by (unfold E, fexp; lia).
  unfold binary_round_aux. rewrite shr_fexp_unfold. fold d E n.
  pose proof (shr_located m l e n t Hm Hloc) as Hshr.
  destruct (shr (shr_record_of_loc m l) e n) as [r1 e1].
  rewrite Z.max_l in Hshr by done.
  destruct Hshr as (He1 & Hm1 & Hdiv & Hloc1).
  replace e1 with E in * by (unfold n in He1; lia). clear He1.
  set (m1 := shr_m r1) in *.
  fold (rec_loc r1). fold t' in Hloc1.
  destruct (rne_spec _ _ _ Hloc1) as (Hq & Herr & Hfloor & Hceil).
  set (q := round_nearest_even m1 (rec_loc r1)) in *.
  assert (m1 < 2 ^ prec /\ (2 ^ (prec - 1) <= m1 \/ E = emin)) as [Hm1hi Hm1lo].
  { destruct (Z.eq_dec m 0) as [Hm0|Hm0].
    { assert (m1 = 0) as -> by (rewrite Hdiv, Hm0; apply Z.div_0_l; lia).
      split; [done|]. right. unfold E, fexp, n, d in *. rewrite Hm0 in *.
      simpl Zdigits2 in *. unfold prec in *. lia. }
    assert (0 < m) as Hmpos by lia.
    pose proof (Zdigits2_bounds m Hmpos) as Hd. pose proof (Zdigits2_pos m Hmpos) as Hdpos.
    fold d in Hd, Hdpos.
    destruct (Z.lt_ge_cases n d) as [Hnd|Hnd].
    - pose proof (div_pow2_bounds m d n Hn Hmpos Hd Hnd) as [Hlo Hhi]. rewrite <- Hdiv in *.
      unfold E, fexp in *.
      destruct (Z.max_spec (d + e - prec) emin) as [[Hlt Hmax]|[Hge Hmax]].
      + split; [|right; unfold n in *; lia].
        eapply Z.lt_le_trans; [exact Hhi|]. apply Z.pow_le_mono_r; unfold n, prec in *; lia.
      + assert (d - n = prec) as Hdn by (unfold n; lia).
        rewrite Hdn in Hhi, Hlo. split; [done|by left].
    - assert (m1 = 0) as ->.
      { rewrite Hdiv. apply Z.div_small. split; [lia|].
        eapply Z.lt_le_trans; [apply Hd|]. apply Z.pow_le_mono_r; lia. }
      split; [done|]. right. unfold E, fexp, n in *. unfold prec in *. lia. }
  assert (0 <= q <= 2 ^ prec) as Hqb by lia.
  pose proof (located_bounds _ _ _ Hloc1) as [Ht1 Ht2].
  exists q. split; [|split; [done|]; split; [|split; [|split; [|done]]]].
  2:{ destruct Hm1lo as [?|?]; [left; lia|by right]. }
  2:{ destruct Hm1lo as [?|?]; [left|by right].
      apply Rle_trans with (IZR m1); [by apply IZR_le|done]. }
  2:{ split.
      - apply Rle_trans with (IZR m1); [by apply IZR_le|done].
      - apply Rlt_le_trans with (IZR m1 + 1)%R; [done|].
        rewrite <- plus_IZR. apply IZR_le. lia. }
  rewrite shr_fexp_unfold. unfold encode.
  destruct (Z.eqb_spec q 0) as [Hq0|Hq0].
  - rewrite Hq0. simpl Zdigits2. unfold shr.
    destruct (fexp (0 + E) - E) eqn:Hn2; try done.
    unfold fexp, prec in *. lia.
  - destruct (Z.eqb_spec q (2 ^ prec)) as [Hq53|Hq53].
    + rewrite Hq53. change (Zdigits2 (2 ^ prec)) with 54.
      replace (fexp (54 + E) - E) with 1 by (unfold fexp, prec; lia).
      unfold shr. simpl SpecFloat.iter_pos. simpl shr_m. simpl Z.add.
      change (2 ^ (prec - 1)) with 4503599627370496. simpl Z.to_pos.
      unfold emax, prec. done.
    + assert (0 < q < 2 ^ prec) as Hq' by lia.
      pose proof (Zdigits2_bounds q ltac:(lia)) as Hdq.
      pose proof (Zdigits2_pos q ltac:(lia)) as Hdqpos.
      assert (Zdigits2 q <= prec) as Hdq53.
      { destruct (Z.le_gt_cases (Zdigits2 q) prec); [done|].
        assert (2 ^ prec <= 2 ^ (Zdigits2 q - 1)) by (apply Z.pow_le_mono_r; lia). lia. }
      assert (fexp (Zdigits2 q + E) - E <= 0) as Hn2 by (unfold fexp, prec in *; lia).
      unfold shr. destruct (fexp (Zdigits2 q + E) - E) eqn:Hn2'; try lia.
      * rewrite shr_m_record. destruct q; try lia. done.
      * rewrite shr_m_record. destruct q; try lia. done.
Qed.


(** ** Values *)

Definition sgn (s : bool) (x : R) : R := if s then (- x)%R else x.

(** The real a zero or finite number denotes (0 for the others). *)
Definition B2R (x : spec_float) : R :=
  match x with
  | S754_finite s m e => sgn s (IZR (Z.pos m) * bpow e)
  | _ => 0%R
  end.

(** Zero or finite, and stored canonically. *)
Definition fin (x : spec_float) : Prop :=
  match x with
  | S754_zero _ => True
  | S754_finite _ m e => SpecFloat.bounded prec emax m e = true
  | _ => False
  end.

(** Unit roundoff and the underflow threshold. *)
Definition u : R := bpow (-53).
Definition eta : R := bpow (-1075).

Lemma bounded_spec m e :
  SpecFloat.bounded prec emax m e = true <->
  e = fexp (Z.pos (digits2_pos m) + e) /\ e <= emax - prec.
Proof.
  unfold SpecFloat.bounded, canonical_mantissa. rewrite andb_true_iff, Z.eqb_eq, Z.leb_le.
  rewrite fexp_eq. intuition congruence.
Qed.

Lemma sgn_opp s x : sgn (negb s) x = (- sgn s x)%R.
Proof. destruct s; simpl; lra. Qed.

Lemma B2R_opp f : B2R (SFopp f) = (- B2R f)%R.
Proof. destruct f; simpl; rewrite ?sgn_opp; lra. Qed.

Lemma fin_opp f : fin f -> fin (SFopp f).
Proof. by destruct f. Qed.

Lemma encode_fin s q E :
  emin <= E -> 0 <= q <= 2 ^ prec -> (2 ^ (prec - 1) <= q \/ E = emin) ->
  E <= emax - prec - 1 ->
  fin (encode s q E) /\ B2R (encode s q E) = sgn s (IZR q * bpow E).
Proof.
  intros HE Hq Hnorm Hover. unfold encode.
  destruct (Z.eqb_spec q 0) as [->|Hq0].
  { split; [done|]. simpl. destruct s; simpl; lra. }
  destruct (Z.eqb_spec q (2 ^ prec)) as [Hq53|Hq53].
  { destruct (Z.leb_spec (E + 1) (emax - prec)); [|lia].
    split.
    - cbn [fin]. apply bounded_spec. split; [|done].
      change (Z.pos (digits2_pos (Z.to_pos (2 ^ (prec - 1))))) with 53.
      unfold fexp, prec, emin, emax in *. lia.
    - cbn [B2R]. f_equal. rewrite Hq53. rewrite bpow_succ.
      change (IZR (Z.pos (Z.to_pos (2 ^ (prec - 1))))) with (IZR (2 ^ 52)).
      change (2 ^ prec) with (2 * 2 ^ 52). rewrite mult_IZR. lra. }
  destruct (Z.leb_spec E (emax - prec)); [|lia].
  assert (0 < q < 2 ^ prec) as Hq' by lia.
  assert (Z.pos (Z.to_pos q) = q) as Hpos by (apply Z2Pos.id; lia).
  split.
  - cbn [fin]. apply bounded_spec. split; [|done].
    change (Z.pos (digits2_pos (Z.to_pos q))) with (Zdigits2 (Z.pos (Z.to_pos q))).
    rewrite Hpos.
    pose proof (Zdigits2_bounds q ltac:(lia)) as Hdq.
    pose proof (Zdigits2_pos q ltac:(lia)) as Hdqpos.
    assert (Zdigits2 q <= prec) as Hdq53.
    { destruct (Z.le_gt_cases (Zdigits2 q) prec); [done|].
      assert (2 ^ prec <= 2 ^ (Zdigits2 q - 1)) by (apply Z.pow_le_mono_r; lia). lia. }
    destruct Hnorm as [Hn|Hn].
    + rewrite (Zdigits2_unique q prec) by (unfold prec in *; lia).
      unfold fexp, prec, emin in *. lia.
    + unfold fexp, prec, emin in *. lia.
  - cbn [B2R]. by rewrite Hpos.
Qed.

(** A float [r] is a rounding to nearest of the real [x]. *)
Definition rounded (x : R) (r : spec_float) : Prop :=
  fin r
  /\ (Rabs (B2R r - x) <= u * Rabs x + eta)%R
  /\ ((bpow (-1022) <= Rabs x)%R -> (Rabs (B2R r - x) <= u * Rabs x)%R)
  /\ (forall f, fin f -> (B2R f <= x)%R -> (B2R f <= B2R r)%R)
  /\ (forall f, fin f -> (x <= B2R f)%R -> (B2R r <= B2R f)%R).

Lemma finite_value_bounds m e :
  SpecFloat.bounded prec emax m e = true ->
  emin <= e /\ (0 < IZR (Z.pos m) * bpow e < bpow (e + prec))%R.
Proof.
  intros [Hc He]%bounded_spec.
  pose proof (digits2_pos_bounds m) as [Hlo Hhi].
  set (d := Z.pos (digits2_pos m)) in *.
  split; [unfold fexp in Hc; lia|].
  pose proof (bpow_pos e). split.
  { apply Rmult_lt_0_compat; [by apply IZR_lt|done]. }
  assert (d <= prec) by (unfold fexp in Hc; lia).
  apply Rlt_le_trans with (bpow d * bpow e)%R.
  - apply Rmult_lt_compat_r; [done|]. rewrite bpow_IZR by (unfold d; lia). by apply IZR_lt.
  - rewrite <- bpow_add. apply bpow_le. lia.
Qed.

(** Rounding is monotone with respect to the stored numbers. *)
Lemma sandwich_pos q E x mf ef :
  emin <= E -> 0 <= q ->
  (2 ^ (prec - 1) <= q \/ E = emin) ->
  ((bpow (E + (prec - 1)) <= x)%R \/ E = emin) ->
  (forall k, (IZR k <= x / bpow E)%R -> k <= q) ->
  (forall k, (x / bpow E <= IZR k)%R -> q <= k) ->
  SpecFloat.bounded prec emax mf ef = true ->
  ((IZR (Z.pos mf) * bpow ef <= x)%R -> (IZR (Z.pos mf) * bpow ef <= IZR q * bpow E)%R)
  /\ ((x <= IZR (Z.pos mf) * bpow ef)%R -> (IZR q * bpow E <= IZR (Z.pos mf) * bpow ef)%R).
Proof.
  intros HE Hq0 Hqn Hxn Hfloor Hceil Hb.
  pose proof (bpow_pos E) as HpE.
  destruct (Z.le_gt_cases E ef) as [Hle|Hgt].
  - set (k := Z.pos mf * 2 ^ (ef - E)).
    assert (IZR (Z.pos mf) * bpow ef = IZR k * bpow E)%R as Hk.
    { unfold k. rewrite mult_IZR, <- bpow_IZR by lia.
      replace ef with ((ef - E) + E) at 1 by lia. rewrite bpow_add. lra. }
    rewrite Hk. split; intros Hx.
    + apply Rmult_le_compat_r; [lra|]. apply IZR_le, Hfloor.
      apply Rmult_le_reg_r with (bpow E); [done|].
      unfold Rdiv. rewrite Rmult_assoc, Rinv_l by lra. lra.
    + apply Rmult_le_compat_r; [lra|]. apply IZR_le, Hceil.
      apply Rmult_le_reg_r with (bpow E); [done|].
      unfold Rdiv. rewrite Rmult_assoc, Rinv_l by lra. lra.
  - destruct (finite_value_bounds mf ef Hb) as [Hef [Hf0 Hf1]].
    destruct Hqn as [Hqn|?]; [|lia]. destruct Hxn as [Hxn|?]; [|lia].
    assert (bpow (ef + prec) <= bpow (E + (prec - 1)))%R as Hbb by (apply bpow_le; lia).
    assert (bpow (E + (prec - 1)) <= IZR q * bpow E)%R as Hqv.
    { rewrite Z.add_comm, bpow_add. apply Rmult_le_compat_r; [lra|].
      rewrite bpow_IZR by (unfold prec; lia). by apply IZR_le. }
    split; intros Hx; lra.
Qed.

Lemma u_eta : (u * bpow (-1022) = eta)%R.
Proof. unfold u, eta. rewrite <- bpow_add. done. Qed.

Lemma round_aux_rounded s m e l t :
  0 <= m -> located m l t -> e <= fexp (Zdigits2 m + e) ->
  (t * bpow e < bpow (emax - 1))%R ->
  rounded (sgn s (t * bpow e)) (binary_round_aux prec emax s m e l).
Proof.
  intros Hm Hloc Halign Hover.
  destruct (binary_round_aux_spec s m e l t Hm Hloc Halign)
    as (q & Hres & Hq & Hqn & Htn & Htb & Herr & Hfloor & Hceil).
  rewrite Hres. clear Hres.
  set (E := fexp (Zdigits2 m + e)) in *.
  set (x := (t * bpow e)%R) in *.
  assert (emin <= E) as HE by (unfold E, fexp; lia).
  pose proof (bpow_pos E) as HpE. pose proof (bpow_pos e) as Hpe.
  assert (t / bpow (E - e) = x / bpow E)%R as Ht'.
  { unfold x. replace E with ((E - e) + e) at 2 by lia. rewrite bpow_add.
    pose proof (bpow_pos (E - e)). field. lra. }
  rewrite Ht' in *.
  assert (x = x / bpow E * bpow E)%R as Hx by (field; lra).
  assert (0 <= x)%R as Hx0.
  { rewrite Hx. apply Rmult_le_pos; lra. }
  assert ((bpow (E + (prec - 1)) <= x)%R \/ E = emin) as Hxn.
  { destruct Htn as [Htn|?]; [left|by right].
    rewrite Hx, Z.add_comm, bpow_add. apply Rmult_le_compat_r; [lra|].
    rewrite bpow_IZR by (unfold prec; lia). done. }
  assert (E <= emax - prec - 1) as HEmax.
  { destruct Hxn as [Hxn| ->]; [|unfold emin, emax, prec; lia].
    assert (E + (prec - 1) < emax - 1) by (apply bpow_lt_inv; lra).
    unfold prec, emax in *. lia. }
  destruct (encode_fin s q E HE Hq Hqn HEmax) as [Hfin Hval].
  set (v := (IZR q * bpow E)%R) in *.
  assert (0 <= v)%R as Hv0.
  { apply Rmult_le_pos; [apply IZR_le; lia|lra]. }
  assert (Rabs (v - x) <= bpow E / 2)%R as Habs.
  { rewrite Hx. unfold v. rewrite <- Rmult_minus_distr_r, Rabs_mult.
    rewrite (Rabs_pos_eq (bpow E)) by lra. nra. }
  assert (Rabs (sgn s v - sgn s x) = Rabs (v - x)) as Hsgn.
  { destruct s; simpl; [|done].
    replace (- v - - x)%R with (- (v - x))%R by lra. apply Rabs_Ropp. }
  assert (Rabs (sgn s x) = x) as Hxabs.
  { destruct s; simpl; [rewrite Rabs_Ropp|]; by apply Rabs_pos_eq. }
  assert (forall f, fin f ->
            ((B2R f <= x)%R -> (B2R f <= v)%R) /\ ((x <= B2R f)%R -> (v <= B2R f)%R)) as Hsand.
  { intros [sf| | |sf mf ef] Hf; try done.
    - simpl. split; intros H0; [done|].
      assert (q <= 0) by (apply Hceil; replace x with 0%R by lra; unfold Rdiv; lra).
      assert (q = 0) as Hq00 by lia. unfold v. rewrite Hq00. lra.
    - simpl in Hf. destruct (finite_value_bounds mf ef Hf) as [_ [Hf0 _]].
      destruct sf; simpl.
      + split; intros; lra.
      + apply (sandwich_pos q E x mf ef); [done|lia|done..]. }
  split; [done|]. rewrite Hval, Hsgn, Hxabs. split; [|split; [|split]].
  - destruct Hxn as [Hxn|HEm].
    + assert (bpow E / 2 = u * bpow (E + (prec - 1)))%R as Hu.
      { unfold u. rewrite <- bpow_add. replace (-53 + (E + (prec - 1))) with (E - 1)
          by (unfold prec; lia). by rewrite bpow_pred. }
      pose proof (bpow_pos (-1075)). unfold eta.
      assert (0 < u)%R by apply bpow_pos. nra.
    + assert (bpow E / 2 = eta)%R as Hu.
      { unfold eta. rewrite HEm. change (-1075) with (emin - 1). by rewrite bpow_pred. }
      assert (0 < u)%R by apply bpow_pos. nra.
  - intros Hnormal.
    assert (0 < u)%R by apply bpow_pos.
    destruct Hxn as [Hxn|HEm].
    + assert (bpow E / 2 = u * bpow (E + (prec - 1)))%R as Hu.
      { unfold u. rewrite <- bpow_add. replace (-53 + (E + (prec - 1))) with (E - 1)
          by (unfold prec; lia). by rewrite bpow_pred. }
      nra.
    + assert (bpow E / 2 = eta)%R as Hu.
      { unfold eta. rewrite HEm. change (-1075) with (emin - 1). by rewrite bpow_pred. }
      pose proof u_eta. nra.
  - intros f Hf Hle. destruct s; simpl in *.
    + destruct (Hsand (SFopp f) (fin_opp f Hf)) as [_ H2].
      rewrite B2R_opp in H2. lra.
    + by apply Hsand.
  - intros f Hf Hle. destruct s; simpl in *.
    + destruct (Hsand (SFopp f) (fin_opp f Hf)) as [H1 _].
      rewrite B2R_opp in H1. lra.
    + by apply Hsand.
Qed.


Lemma rounded_zero s : rounded 0 (S754_zero s).
Proof.
  pose proof (bpow_pos (-53)). pose proof (bpow_pos (-1075)).
  unfold rounded, u, eta. simpl. rewrite Rminus_0_r, Rabs_R0.
  split; [done|]. split; [lra|]. split; [intros; lra|]. split; intros; lra.
Qed.

Lemma rounded_self f : fin f -> rounded (B2R f) f.
Proof.
  intros Hf. pose proof (bpow_pos (-53)). pose proof (bpow_pos (-1075)).
  pose proof (Rabs_pos (B2R f)).
  unfold rounded, u, eta. replace (B2R f - B2R f)%R with 0%R by lra. rewrite Rabs_R0.
  split; [done|]. split; [nra|]. split; [intros; nra|]. split; intros; lra.
Qed.

Lemma Rabs_sgn s x : Rabs (sgn s x) = Rabs x.
Proof. destruct s; simpl; [apply Rabs_Ropp|done]. Qed.

Lemma sgn_xorb s1 s2 x y : sgn (xorb s1 s2) (x * y) = (sgn s1 x * sgn s2 y)%R.
Proof. destruct s1, s2; simpl; lra. Qed.

(** ** Multiplication *)

Lemma digits_ge m k : 0 <= k -> 2 ^ k <= m -> k + 1 <= Zdigits2 m.
Proof.
  intros Hk Hm. assert (0 < m) as Hm0 by (pose proof (Z.pow_pos_nonneg 2 k); lia).
  pose proof (Zdigits2_bounds m Hm0) as [_ Hhi].
  destruct (Z.lt_ge_cases k (Zdigits2 m)); [lia|].
  assert (2 ^ Zdigits2 m <= 2 ^ k) by (apply Z.pow_le_mono_r; lia). lia.
Qed.

Lemma mul_aligned m1 e1 m2 e2 :
  SpecFloat.bounded prec emax m1 e1 = true -> SpecFloat.bounded prec emax m2 e2 = true ->
  e1 + e2 <= fexp (Zdigits2 (Z.pos (m1 * m2)) + (e1 + e2)).
Proof.
  intros [Hc1 _]%bounded_spec [Hc2 _]%bounded_spec.
  pose proof (digits2_pos_bounds m1) as [Hl1 _].
  pose proof (digits2_pos_bounds m2) as [Hl2 _].
  set (d1 := Z.pos (digits2_pos m1)) in *. set (d2 := Z.pos (digits2_pos m2)) in *.
  assert (d1 + d2 - 1 <= Zdigits2 (Z.pos (m1 * m2))) as Hd.
  { replace (d1 + d2 - 1) with ((d1 - 1) + (d2 - 1) + 1) by lia.
    apply digits_ge; [unfold d1, d2; lia|]. rewrite Z.pow_add_r by (unfold d1, d2; lia).
    rewrite Pos2Z.inj_mul. apply Z.mul_le_mono_nonneg; try done; apply Z.pow_nonneg; lia. }
  assert (1 <= d1 /\ 1 <= d2) by (unfold d1, d2; lia).
  unfold fexp, prec, emin in *. lia.
Qed.

Lemma mul_rounded a b :
  fin a -> fin b -> (Rabs (B2R a * B2R b) < bpow (emax - 1))%R ->
  rounded (B2R a * B2R b) (SFmul prec emax a b).
Proof.
  destruct a as [sa| | |sa ma ea], b as [sb| | |sb mb eb]; try done; intros Ha Hb Hover;
    cbn [B2R SFmul]; rewrite ?Rmult_0_l, ?Rmult_0_r; try apply rounded_zero.
  cbn [fin] in Ha, Hb.
  rewrite <- sgn_xorb.
  replace (IZR (Z.pos ma) * bpow ea * (IZR (Z.pos mb) * bpow eb))%R
    with (IZR (Z.pos (ma * mb)) * bpow (ea + eb))%R
    by (rewrite Pos2Z.inj_mul, mult_IZR, bpow_add; lra).
  apply round_aux_rounded; [lia|done|by apply mul_aligned|].
  cbn [B2R] in Hover. rewrite <- sgn_xorb, Rabs_sgn in Hover.
  replace (IZR (Z.pos ma) * bpow ea * (IZR (Z.pos mb) * bpow eb))%R
    with (IZR (Z.pos (ma * mb)) * bpow (ea + eb))%R in Hover
    by (rewrite Pos2Z.inj_mul, mult_IZR, bpow_add; lra).
  eapply Rle_lt_trans; [apply Rle_abs|done].
Qed.

(** ** Division *)

Lemma new_location_located m2 q r :
  0 < m2 -> 0 <= r < m2 ->
  located q (new_location m2 r) (IZR q + IZR r / IZR m2)%R.
Proof.
  intros Hm2 Hr. assert (0 < IZR m2)%R as Hm2R by (by apply IZR_lt).
  assert (0 <= IZR r < IZR m2)%R as HrR by (split; [apply IZR_le|apply IZR_lt]; lia).
  assert (forall c, (2 * r ?= m2) = c ->
            match c with
            | Lt => (IZR r / IZR m2 < 1 / 2)%R
            | Eq => (IZR r / IZR m2 = 1 / 2)%R
            | Gt => (1 / 2 < IZR r / IZR m2)%R
            end) as Hcmp.
  { intros c Hc.
    assert (IZR r / IZR m2 * IZR m2 = IZR r)%R as Hx by (field; lra).
    set (x := (IZR r / IZR m2)%R) in *.
    destruct c.
    - apply Z.compare_eq in Hc. apply (f_equal IZR) in Hc. rewrite mult_IZR in Hc. nra.
    - rewrite Z.compare_lt_iff in Hc. apply IZR_lt in Hc. rewrite mult_IZR in Hc. nra.
    - rewrite Z.compare_gt_iff in Hc. apply IZR_lt in Hc. rewrite mult_IZR in Hc. nra. }
  assert (r <> 0 -> (0 < IZR r / IZR m2 < 1)%R) as Hfrac.
  { intros Hr0. assert (0 < IZR r)%R by (apply IZR_lt; lia).
    assert (IZR r / IZR m2 * IZR m2 = IZR r)%R as Hx by (field; lra).
    set (x := (IZR r / IZR m2)%R) in *. split; nra. }
  unfold new_location. destruct (Z.even m2) eqn:Heven.
  - unfold new_location_even. destruct (Z.eqb_spec r 0) as [->|Hr0].
    + simpl. unfold Rdiv. lra.
    + specialize (Hcmp _ eq_refl). specialize (Hfrac Hr0).
      destruct (2 * r ?= m2); simpl; lra.
  - unfold new_location_odd. destruct (Z.eqb_spec r 0) as [->|Hr0].
    + simpl. unfold Rdiv. lra.
    + specialize (Hfrac Hr0).
      assert (Z.odd m2 = true) as Hodd by (rewrite <- Z.negb_even, Heven; done).
      apply Z.odd_spec in Hodd as [h Hh].
      assert (forall c, (2 * r ?= m2) = c -> c = Lt \/ c = Gt) as Hne.
      { intros [] Hc; [|by left|by right]. apply Z.compare_eq in Hc. lia. }
      destruct (2 * r + 1 ?= m2) eqn:Hc1.
      * apply Z.compare_eq in Hc1.
        assert ((2 * r ?= m2) = Lt) as Hc by (apply Z.compare_lt_iff; lia).
        specialize (Hcmp _ Hc). simpl in *. lra.
      * rewrite Z.compare_lt_iff in Hc1.
        assert ((2 * r ?= m2) = Lt) as Hc by (apply Z.compare_lt_iff; lia).
        specialize (Hcmp _ Hc). simpl in *. lra.
      * rewrite Z.compare_gt_iff in Hc1.
        assert ((2 * r ?= m2) = Gt) as Hc by (apply Z.compare_gt_iff; lia).
        specialize (Hcmp _ Hc). simpl in *. lra.
Qed.

(** The quotient [m1 * 2^e1 / (m2 * 2^e2)] as the division core hands it
    to the rounding. *)
Lemma div_core_spec m1 e1 m2 e2 :
  0 < m1 -> 0 < m2 ->
  let '(q, e', l) := SFdiv_core_binary prec emax m1 e1 m2 e2 in
  exists t, 0 <= q /\ located q l t /\ e' <= fexp (Zdigits2 q + e')
    /\ (t * bpow e' = (IZR m1 * bpow e1) / (IZR m2 * bpow e2))%R.
Proof.
  intros Hm1 Hm2. unfold SFdiv_core_binary. rewrite !fexp_eq.
  set (d1 := Zdigits2 m1). set (d2 := Zdigits2 m2).
  set (e' := Z.min (fexp (d1 + e1 - (d2 + e2))) (e1 - e2)).
  set (s := e1 - e2 - e').
  assert (0 <= s) as Hs by (unfold s, e'; lia).
  set (m' := match s with Z.pos _ => Z.shiftl m1 s | 0 => m1 | Z.neg _ => 0 end).
  assert (m' = m1 * 2 ^ s) as Hm'.
  { unfold m'. destruct s eqn:Hseq; [lia| |lia]. by rewrite Z.shiftl_mul_pow2. }
  pose proof (Z.div_eucl_eq m' m2 ltac:(lia)) as Heucl.
  pose proof (Z.mod_pos_bound m' m2 Hm2) as Hmod. unfold Z.modulo in Hmod.
  destruct (Z.div_eucl m' m2) as [q r].
  assert (0 < 2 ^ s) as Hpow by (apply Z.pow_pos_nonneg; lia).
  assert (0 <= q) as Hq by nia.
  assert (0 < IZR m2)%R as Hm2R by (by apply IZR_lt).
  exists (IZR q + IZR r / IZR m2)%R. split; [done|]. split.
  { by apply new_location_located. }
  split.
  - (* alignment *)
    pose proof (Zdigits2_bounds m1 Hm1) as [Hl1 Hh1].
    pose proof (Zdigits2_bounds m2 Hm2) as [Hl2 Hh2].
    pose proof (Zdigits2_pos m1 Hm1). pose proof (Zdigits2_pos m2 Hm2).
    fold d1 in Hl1, Hh1, H. fold d2 in Hl2, Hh2, H0.
    assert (d1 + e1 - (d2 + e2) <= Zdigits2 q + e') as Hdq.
    { destruct (Z.le_gt_cases 0 (d1 - 1 + s - d2)) as [Hk|Hk].
      - assert (2 ^ (d1 - 1 + s - d2) <= q) as Hqk.
        { assert (2 ^ (d1 - 1 + s - d2) * 2 ^ d2 <= m') as HH.
          { rewrite <- Z.pow_add_r by lia. replace (d1 - 1 + s - d2 + d2) with ((d1 - 1) + s) by lia.
            rewrite Z.pow_add_r by lia. rewrite Hm'. apply Z.mul_le_mono_nonneg_r; lia. }
          assert (0 < 2 ^ (d1 - 1 + s - d2)) by (apply Z.pow_pos_nonneg; lia).
          nia. }
        pose proof (digits_ge q _ Hk Hqk). unfold s in *. lia.
      - assert (0 <= Zdigits2 q) by (destruct q; simpl; lia). unfold s in *. lia. }
    assert (e' <= fexp (d1 + e1 - (d2 + e2))) by (unfold e'; lia).
    unfold fexp in *. lia.
  - rewrite Rmult_plus_distr_r.
    assert (IZR m' = IZR m2 * IZR q + IZR r)%R as HmR by (rewrite Heucl, plus_IZR, mult_IZR; done).
    assert (IZR m' = IZR m1 * bpow s)%R as HmR' by (rewrite Hm', mult_IZR, bpow_IZR by done; done).
    pose proof (bpow_pos e'). pose proof (bpow_pos e2). pose proof (bpow_pos s).
    assert (bpow e1 = bpow s * bpow e2 * bpow e')%R as ->.
    { rewrite <- !bpow_add. f_equal. unfold s. lia. }
    apply Rmult_eq_reg_r with (IZR m2); [|lra].
    field_simplify; [|lra|lra]. nra.
Qed.

Lemma div_core_rounded s m1 e1 m2 e2 :
  0 < m1 -> 0 < m2 ->
  (IZR m1 * bpow e1 / (IZR m2 * bpow e2) < bpow (emax - 1))%R ->
  rounded (sgn s (IZR m1 * bpow e1 / (IZR m2 * bpow e2)))
    (let '(mz, ez, lz) := SFdiv_core_binary prec emax m1 e1 m2 e2 in
     binary_round_aux prec emax s mz ez lz).
Proof.
  intros Hm1 Hm2 Hover. pose proof (div_core_spec m1 e1 m2 e2 Hm1 Hm2) as Hcore.
  destruct (SFdiv_core_binary prec emax m1 e1 m2 e2) as [[q e'] l].
  destruct Hcore as (t & Hq & Hloc & Halign & Hval).
  rewrite <- Hval in *. by apply round_aux_rounded.
Qed.

Lemma div_rounded a b :
  fin a -> fin b -> B2R b <> 0%R -> (Rabs (B2R a / B2R b) < bpow (emax - 1))%R ->
  rounded (B2R a / B2R b) (SFdiv prec emax a b).
Proof.
  destruct a as [sa| | |sa ma ea], b as [sb| | |sb mb eb]; try done; intros Ha Hb Hb0 Hover;
    cbn [B2R SFdiv] in *; try lra.
  { unfold Rdiv. rewrite Rmult_0_l. apply rounded_zero. }
  pose proof (bpow_pos ea). pose proof (bpow_pos eb).
  assert (0 < IZR (Z.pos ma))%R by (by apply IZR_lt).
  assert (0 < IZR (Z.pos mb))%R by (by apply IZR_lt).
  assert (sgn sa (IZR (Z.pos ma) * bpow ea) / sgn sb (IZR (Z.pos mb) * bpow eb)
          = sgn (xorb sa sb) (IZR (Z.pos ma) * bpow ea / (IZR (Z.pos mb) * bpow eb)))%R as Hs.
  { destruct sa, sb; simpl; field; nra. }
  rewrite Hs in *. rewrite Rabs_sgn in Hover.
  apply div_core_rounded; [done..|].
  eapply Rle_lt_trans; [apply Rle_abs|done].
Qed.


(** ** Normalisation of an integer mantissa *)

Lemma iter_xO m d : Z.pos (Pos.iter xO m d) = Z.pos m * 2 ^ Z.pos d.
Proof.
  induction d as [|d IH] using Pos.peano_ind.
  - simpl. lia.
  - rewrite Pos.iter_succ, Pos2Z.inj_succ, Z.pow_succ_r by lia.
    rewrite Pos2Z.inj_xO, IH. lia.
Qed.

Lemma shl_align_spec mx ex ex' :
  let '(m', e') := shl_align mx ex ex' in
  e' = Z.min ex ex' /\ Z.pos m' = Z.pos mx * 2 ^ (ex - e').
Proof.
  unfold shl_align. destruct (ex' - ex) eqn:Hd.
  - split; [lia|]. rewrite Z.sub_diag. lia.
  - split; [lia|]. rewrite Z.sub_diag. lia.
  - split; [lia|]. rewrite iter_xO. f_equal. f_equal. lia.
Qed.

Lemma digits_shift m k : 0 < m -> 0 <= k -> Zdigits2 (m * 2 ^ k) = Zdigits2 m + k.
Proof.
  intros Hm Hk. pose proof (Zdigits2_bounds m Hm) as [Hlo Hhi].
  pose proof (Zdigits2_pos m Hm).
  assert (0 < 2 ^ k) by (apply Z.pow_pos_nonneg; lia).
  apply Zdigits2_unique; [nia|].
  replace (Zdigits2 m + k - 1) with ((Zdigits2 m - 1) + k) by lia.
  rewrite !Z.pow_add_r by lia. split; nia.
Qed.

Lemma binary_round_rounded s m e :
  (IZR (Z.pos m) * bpow e < bpow (emax - 1))%R ->
  rounded (sgn s (IZR (Z.pos m) * bpow e)) (binary_round prec emax s m e).
Proof.
  intros Hover. unfold binary_round. rewrite fexp_eq.
  pose proof (shl_align_spec m e (fexp (Z.pos (digits2_pos m) + e))) as Hal.
  destruct (shl_align m e (fexp (Z.pos (digits2_pos m) + e))) as [mz ez].
  destruct Hal as [Hez Hmz].
  assert (0 <= e - ez) as Hk by lia.
  assert (IZR (Z.pos m) * bpow e = IZR (Z.pos mz) * bpow ez)%R as Hv.
  { rewrite Hmz, mult_IZR, <- bpow_IZR by done. rewrite Rmult_assoc, <- bpow_add.
    do 2 f_equal. lia. }
  rewrite Hv in *. apply round_aux_rounded; [lia|done| |done].
  rewrite Hmz, digits_shift by lia.
  change (Zdigits2 (Z.pos m)) with (Z.pos (digits2_pos m)).
  replace (Z.pos (digits2_pos m) + (e - ez) + ez) with (Z.pos (digits2_pos m) + e) by lia.
  lia.
Qed.

Lemma normalize_rounded z e sz :
  (Rabs (IZR z * bpow e) < bpow (emax - 1))%R ->
  rounded (IZR z * bpow e) (binary_normalize prec emax z e sz).
Proof.
  intros Hover. pose proof (bpow_pos e). destruct z as [|m|m]; cbn [binary_normalize].
  - rewrite Rmult_0_l. apply rounded_zero.
  - apply (binary_round_rounded false). eapply Rle_lt_trans; [apply Rle_abs|done].
  - replace (IZR (Z.neg m) * bpow e)%R with (sgn true (IZR (Z.pos m) * bpow e)) in *
      by (simpl; change (Z.neg m) with (- Z.pos m); rewrite opp_IZR; lra).
    rewrite Rabs_sgn in Hover.
    apply binary_round_rounded. eapply Rle_lt_trans; [apply Rle_abs|done].
Qed.

(** ** Addition and subtraction *)

Lemma cond_Zopp_sgn s m : IZR (cond_Zopp s m) = sgn s (IZR m).
Proof. destruct s; simpl; [apply opp_IZR|done]. Qed.

Lemma aligned_value mx ex ez :
  ez <= ex ->
  (IZR (Z.pos (shl_align mx ex ez).1) * bpow ez = IZR (Z.pos mx) * bpow ex)%R.
Proof.
  intros Hle. pose proof (shl_align_spec mx ex ez) as Hal.
  destruct (shl_align mx ex ez) as [m' e']. destruct Hal as [He' Hm']. cbn [fst].
  rewrite Z.min_r in He' by done. subst e'.
  rewrite Hm', mult_IZR, <- bpow_IZR by lia. rewrite Rmult_assoc, <- bpow_add.
  do 2 f_equal. lia.
Qed.

Lemma sgn_mult s x y : (sgn s x * y = sgn s (x * y))%R.
Proof. destruct s; simpl; lra. Qed.

Lemma add_rounded a b :
  fin a -> fin b -> (Rabs (B2R a + B2R b) < bpow (emax - 1))%R ->
  rounded (B2R a + B2R b) (SFadd prec emax a b).
Proof.
  destruct a as [sa| | |sa ma ea], b as [sb| | |sb mb eb]; try done; intros Ha Hb Hover.
  - cbn [B2R SFadd]. rewrite Rplus_0_l. destruct sa, sb; apply rounded_zero.
  - cbn [SFadd]. change (B2R (S754_zero sa)) with 0%R. rewrite Rplus_0_l. by apply rounded_self.
  - cbn [SFadd]. change (B2R (S754_zero sb)) with 0%R. rewrite Rplus_0_r. by apply rounded_self.
  - cbn [SFadd]. cbv zeta.
    set (ez := Z.min ea eb) in *.
    assert (B2R (S754_finite sa ma ea) + B2R (S754_finite sb mb eb)
            = IZR (cond_Zopp sa (Z.pos (shl_align ma ea ez).1)
                   + cond_Zopp sb (Z.pos (shl_align mb eb ez).1)) * bpow ez)%R as Hv.
    { rewrite plus_IZR, !cond_Zopp_sgn, Rmult_plus_distr_r, !sgn_mult.
      rewrite !aligned_value by (unfold ez; lia). done. }
    rewrite Hv in *. by apply normalize_rounded.
Qed.

Lemma sub_rounded a b :
  fin a -> fin b -> (Rabs (B2R a - B2R b) < bpow (emax - 1))%R ->
  rounded (B2R a - B2R b) (SFsub prec emax a b).
Proof.
  destruct a as [sa| | |sa ma ea], b as [sb| | |sb mb eb]; try done; intros Ha Hb Hover.
  - cbn [B2R SFsub]. rewrite Rminus_0_r. destruct sa, sb; apply rounded_zero.
  - cbn [SFsub]. change (B2R (S754_zero sa)) with 0%R.
    replace (0 - B2R (S754_finite sb mb eb))%R with (B2R (S754_finite (negb sb) mb eb))
      by (cbn [B2R]; rewrite sgn_opp; lra).
    by apply rounded_self.
  - cbn [SFsub]. change (B2R (S754_zero sb)) with 0%R. rewrite Rminus_0_r. by apply rounded_self.
  - cbn [SFsub]. cbv zeta.
    set (ez := Z.min ea eb) in *.
    assert (B2R (S754_finite sa ma ea) - B2R (S754_finite sb mb eb)
            = IZR (cond_Zopp sa (Z.pos (shl_align ma ea ez).1)
                   - cond_Zopp sb (Z.pos (shl_align mb eb ez).1)) * bpow ez)%R as Hv.
    { rewrite minus_IZR, !cond_Zopp_sgn, Rmult_minus_distr_r, !sgn_mult.
      rewrite !aligned_value by (unfold ez; lia). done. }
    rewrite Hv in *. by apply normalize_rounded.
Qed.


(** ** Comparison *)

Lemma finite_lower_bound m e :
  SpecFloat.bounded prec emax m e = true -> emin < e ->
  (bpow (e + (prec - 1)) <= IZR (Z.pos m) * bpow e)%R.
Proof.
  intros [Hc He]%bounded_spec Hlt.
  pose proof (digits2_pos_bounds m) as [Hlo Hhi].
  assert (Z.pos (digits2_pos m) = prec) as Hd by (unfold fexp, prec in *; lia).
  rewrite Hd in Hlo. rewrite Z.add_comm, bpow_add.
  apply Rmult_le_compat_r; [pose proof (bpow_pos e); lra|].
  rewrite bpow_IZR by (unfold prec; lia). by apply IZR_le.
Qed.

Lemma pos_value_lt m1 e1 m2 e2 :
  SpecFloat.bounded prec emax m1 e1 = true -> SpecFloat.bounded prec emax m2 e2 = true ->
  e1 < e2 -> (IZR (Z.pos m1) * bpow e1 < IZR (Z.pos m2) * bpow e2)%R.
Proof.
  intros H1 H2 Hlt.
  destruct (finite_value_bounds m1 e1 H1) as [He1 [_ Hhi]].
  pose proof (finite_lower_bound m2 e2 H2 ltac:(lia)) as Hlo.
  assert (bpow (e1 + prec) <= bpow (e2 + (prec - 1)))%R by (apply bpow_le; lia).
  lra.
Qed.

Lemma SFcompare_fin a b :
  fin a -> fin b ->
  exists c, SFcompare a b = Some c /\
    match c with
    | Eq => B2R a = B2R b
    | Lt => (B2R a < B2R b)%R
    | Gt => (B2R b < B2R a)%R
    end.
Proof.
  destruct a as [sa| | |sa ma ea], b as [sb| | |sb mb eb]; try done; intros Ha Hb;
    cbn [fin] in *.
  - by exists Eq.
  - destruct (finite_value_bounds mb eb Hb) as [_ [Hb0 _]].
    exists (if sb then Gt else Lt). split; [done|]. destruct sb; simpl; lra.
  - destruct (finite_value_bounds ma ea Ha) as [_ [Ha0 _]].
    exists (if sa then Lt else Gt). split; [done|]. destruct sa; simpl; lra.
  - destruct (finite_value_bounds ma ea Ha) as [_ [Ha0 _]].
    destruct (finite_value_bounds mb eb Hb) as [_ [Hb0 _]].
    assert (ea = eb -> match (ma ?= mb)%positive with
                       | Eq => IZR (Z.pos ma) * bpow ea = IZR (Z.pos mb) * bpow eb
                       | Lt => IZR (Z.pos ma) * bpow ea < IZR (Z.pos mb) * bpow eb
                       | Gt => IZR (Z.pos mb) * bpow eb < IZR (Z.pos ma) * bpow ea
                       end)%R as Hsame.
    { intros ->. pose proof (bpow_pos eb).
      destruct (Pos.compare_spec ma mb) as [->|Hlt|Hlt]; [done|..];
        apply Rmult_lt_compat_r; try done; apply IZR_lt; lia. }
    cbn [SFcompare B2R]. change (Pos.compare_cont Eq ma mb) with (ma ?= mb)%positive.
    destruct sa, sb; cbn [sgn].
    + destruct (Z.compare_spec ea eb) as [Heq|Hlt|Hlt].
      * specialize (Hsame Heq). destruct (ma ?= mb)%positive; cbn [CompOpp];
          eexists; (split; [done|]); cbn beta iota; lra.
      * pose proof (pos_value_lt _ _ _ _ Ha Hb Hlt). exists Gt. split; [done|]. lra.
      * pose proof (pos_value_lt _ _ _ _ Hb Ha Hlt). exists Lt. split; [done|]. lra.
    + exists Lt. split; [done|]. lra.
    + exists Gt. split; [done|]. lra.
    + destruct (Z.compare_spec ea eb) as [Heq|Hlt|Hlt].
      * specialize (Hsame Heq). destruct (ma ?= mb)%positive;
          eexists; (split; [done|]); cbn beta iota; lra.
      * pose proof (pos_value_lt _ _ _ _ Ha Hb Hlt). exists Lt. split; [done|]. lra.
      * pose proof (pos_value_lt _ _ _ _ Hb Ha Hlt). exists Gt. split; [done|]. lra.
Qed.

Lemma SFltb_fin a b : fin a -> fin b -> SFltb a b = true <-> (B2R a < B2R b)%R.
Proof.
  intros Ha Hb. destruct (SFcompare_fin a b Ha Hb) as (c & Hc & Hv).
  unfold SFltb. rewrite Hc. destruct c; split; intros; try done; lra.
Qed.

Lemma SFleb_fin a b : fin a -> fin b -> SFleb a b = true <-> (B2R a <= B2R b)%R.
Proof.
  intros Ha Hb. destruct (SFcompare_fin a b Ha Hb) as (c & Hc & Hv).
  unfold SFleb. rewrite Hc. destruct c; split; intros; try done; lra.
Qed.

Lemma SFeqb_fin a b : fin a -> fin b -> SFeqb a b = true <-> B2R a = B2R b.
Proof.
  intros Ha Hb. destruct (SFcompare_fin a b Ha Hb) as (c & Hc & Hv).
  unfold SFeqb. rewrite Hc. destruct c; split; intros; try done; lra.
Qed.

(** A comparison that answers [true] has no NaN on either side. *)
Lemma SFleb_true_not_nan a b : SFleb a b = true -> a <> S754_nan /\ b <> S754_nan.
Proof. destruct a, b; done. Qed.

(** ** Small integers are stored exactly *)

Lemma binary_round_small s m :
  Z.pos m < 2 ^ prec ->
  exists mz, binary_round prec emax s m 0 = S754_finite s mz (Zdigits2 (Z.pos m) - prec)
    /\ Z.pos mz = Z.pos m * 2 ^ (prec - Zdigits2 (Z.pos m))
    /\ SpecFloat.bounded prec emax mz (Zdigits2 (Z.pos m) - prec) = true.
Proof.
  intros Hm. pose proof (Zdigits2_bounds (Z.pos m) ltac:(lia)) as [Hlo Hhi].
  pose proof (Zdigits2_pos (Z.pos m) ltac:(lia)) as Hdpos.
  set (d := Zdigits2 (Z.pos m)) in *.
  assert (d <= prec) as Hd.
  { destruct (Z.le_gt_cases d prec); [done|].
    assert (2 ^ prec <= 2 ^ (d - 1)) by (apply Z.pow_le_mono_r; lia). lia. }
  unfold binary_round. rewrite fexp_eq.
  change (Z.pos (digits2_pos m)) with d.
  assert (fexp (d + 0) = d - prec) as Hf by (unfold fexp, prec, emin in *; lia).
  rewrite Hf.
  pose proof (shl_align_spec m 0 (d - prec)) as Hal.
  destruct (shl_align m 0 (d - prec)) as [mz ez]. destruct Hal as [Hez Hmz].
  rewrite Z.min_r in Hez by lia. subst ez.
  replace (0 - (d - prec)) with (prec - d) in Hmz by lia.
  assert (Zdigits2 (Z.pos mz) = prec) as Hdz.
  { rewrite Hmz, digits_shift by lia. fold d. lia. }
  assert (fexp (Zdigits2 (Z.pos mz) + (d - prec)) = d - prec) as HE.
  { rewrite Hdz. unfold fexp, prec, emin in *. lia. }
  destruct (binary_round_aux_spec s (Z.pos mz) (d - prec) loc_Exact (IZR (Z.pos mz)))
    as (q & Hres & Hq & Hqn & Htn & Htb & Herr & Hfloor & Hceil); [lia|done|lia|].
  rewrite HE in *. rewrite Z.sub_diag in *. change (bpow 0) with 1%R in *.
  replace (IZR (Z.pos mz) / 1)%R with (IZR (Z.pos mz)) in * by lra.
  assert (q = Z.pos mz) as ->.
  { apply Z.le_antisymm; [apply Hceil|apply Hfloor]; lra. }
  pose proof (Zdigits2_bounds (Z.pos mz) ltac:(lia)) as [Hzlo Hzhi]. rewrite Hdz in *.
  exists mz. split; [|split; [done|]].
  - rewrite Hres. unfold encode.
    destruct (Z.eqb_spec (Z.pos mz) 0); [lia|].
    destruct (Z.eqb_spec (Z.pos mz) (2 ^ prec)); [lia|].
    destruct (Z.leb_spec (d - prec) (emax - prec)); [done|unfold emax, prec in *; lia].
  - apply bounded_spec. change (Z.pos (digits2_pos mz)) with (Zdigits2 (Z.pos mz)).
    rewrite Hdz. unfold fexp, emin, emax, prec in *. lia.
Qed.

End FloatCore.

(* ===================================================================== *)
(** * The split optimizers *)
(* ===================================================================== *)

Module NumberFacts.
Import FloatCore.

Local Abbreviation V := B2R.

Lemma mul_spec a b :
  fin a -> fin b -> (Rabs (V a * V b) < bpow (emax - 1))%R ->
  rounded (V a * V b) (JS.mul a b).
Proof. apply mul_rounded. Qed.

Lemma div_spec a b :
  fin a -> fin b -> V b <> 0%R -> (Rabs (V a / V b) < bpow (emax - 1))%R ->
  rounded (V a / V b) (JS.div a b).
Proof. apply div_rounded. Qed.

Lemma add_spec a b :
  fin a -> fin b -> (Rabs (V a + V b) < bpow (emax - 1))%R ->
  rounded (V a + V b) (JS.add a b).
Proof. apply add_rounded. Qed.

Lemma sub_spec a b :
  fin a -> fin b -> (Rabs (V a - V b) < bpow (emax - 1))%R ->
  rounded (V a - V b) (JS.sub a b).
Proof. apply sub_rounded. Qed.

Lemma Number_of_bigint_spec z :
  (Rabs (IZR z) < bpow (emax - 1))%R -> rounded (IZR z) (JS.Number_of_bigint z).
Proof.
  intros H. unfold JS.Number_of_bigint.
  replace (IZR z) with (IZR z * bpow 0)%R in * by (change (bpow 0) with 1%R; lra).
  by apply normalize_rounded.
Qed.

Lemma of_ratio_spec p q :
  (Rabs (IZR p / IZR (Z.pos q)) < bpow (emax - 1))%R ->
  rounded (IZR p / IZR (Z.pos q)) (JS.of_ratio p q).
Proof.
  intros H. assert (0 < IZR (Z.pos q))%R by (by apply IZR_lt).
  unfold JS.of_ratio. destruct p as [|a|a].
  - unfold Rdiv. rewrite Rmult_0_l. apply rounded_zero.
  - assert (0 < IZR (Z.pos a))%R by (by apply IZR_lt).
    replace (IZR (Z.pos a) / IZR (Z.pos q))%R
      with (sgn false (IZR (Z.pos a) * bpow 0 / (IZR (Z.pos q) * bpow 0)))
      in * by (simpl; change (bpow 0) with 1%R; field; lra).
    apply (div_core_rounded false); [done..|].
    rewrite Rabs_sgn in H. eapply Rle_lt_trans; [apply Rle_abs|done].
  - assert (0 < IZR (Z.pos a))%R by (by apply IZR_lt).
    replace (IZR (Z.neg a) / IZR (Z.pos q))%R
      with (sgn true (IZR (Z.pos a) * bpow 0 / (IZR (Z.pos q) * bpow 0)))
      in * by (simpl; change (Z.neg a) with (- Z.pos a); rewrite opp_IZR;
               change (bpow 0) with 1%R; field; lra).
    apply (div_core_rounded true); [done..|].
    rewrite Rabs_sgn in H. eapply Rle_lt_trans; [apply Rle_abs|done].
Qed.

Lemma signed_sgn s m : IZR (JS.signed s m) = sgn s (IZR (Z.pos m)).
Proof. destruct s; simpl; [change (Z.neg m) with (- Z.pos m); apply opp_IZR|done]. Qed.

(** An integer below [2^53] in magnitude converts exactly, and converts
    back. *)
Lemma Number_of_bigint_exact z :
  Z.abs z < 2 ^ prec ->
  fin (JS.Number_of_bigint z) /\ V (JS.Number_of_bigint z) = IZR z
  /\ JS.BigInt_of_number (JS.Number_of_bigint z) = Value z.
Proof.
  intros Hz. unfold JS.Number_of_bigint.
  assert (forall s m, Z.pos m < 2 ^ prec ->
            fin (binary_round prec emax s m 0)
            /\ V (binary_round prec emax s m 0) = sgn s (IZR (Z.pos m))
            /\ JS.BigInt_of_number (binary_round prec emax s m 0) = Value (JS.signed s m)) as Hpos.
  { intros s m Hm. destruct (binary_round_small s m Hm) as (mz & -> & Hmz & Hb).
    pose proof (Zdigits2_bounds (Z.pos m) ltac:(lia)) as [Hlo Hhi].
    pose proof (Zdigits2_pos (Z.pos m) ltac:(lia)) as Hdpos.
    set (d := Zdigits2 (Z.pos m)) in *.
    assert (d <= prec) as Hd.
    { destruct (Z.le_gt_cases d prec); [done|].
      assert (2 ^ prec <= 2 ^ (d - 1)) by (apply Z.pow_le_mono_r; lia). lia. }
    split; [done|]. split.
    - cbn [B2R]. f_equal. rewrite Hmz, mult_IZR, <- bpow_IZR by lia.
      rewrite Rmult_assoc, <- bpow_add. replace (prec - d + (d - prec)) with 0 by lia.
      change (bpow 0) with 1%R. lra.
    - unfold JS.BigInt_of_number.
      destruct (Z.leb_spec 0 (d - prec)).
      + assert (d = prec) as Hdp by lia. rewrite Hdp, Z.sub_diag in *.
        f_equal. destruct s; simpl JS.signed; lia.
      + replace (- (d - prec)) with (prec - d) by lia.
        assert (0 < 2 ^ (prec - d)) by (apply Z.pow_pos_nonneg; lia).
        rewrite Hmz, Z.rem_mul by lia. simpl Z.eqb. cbv iota. f_equal.
        destruct s; simpl JS.signed.
        * change (Z.neg mz) with (- Z.pos mz). rewrite Hmz.
          rewrite Z.quot_opp_l by lia. rewrite Z.quot_mul by lia. done.
        * rewrite Hmz. rewrite Z.quot_mul by lia. done. }
  destruct z as [|m|m]; cbn [binary_normalize].
  - done.
  - destruct (Hpos false m ltac:(lia)) as (H1 & H2 & H3). done.
  - destruct (Hpos true m ltac:(lia)) as (H1 & H2 & H3).
    split; [done|]. split; [|done]. etrans; [exact H2|]. simpl.
    change (Z.neg m) with (- Z.pos m). by rewrite opp_IZR.
Qed.

(** [Math.round] on a number below [2^52] in magnitude: the integer [n]
    with [n - 1/2 <= x < n + 1/2], stored exactly. *)
Lemma Math_round_spec x :
  fin x -> (Rabs (V x) < bpow (prec - 1))%R ->
  exists n, fin (JS.Math_round x) /\ V (JS.Math_round x) = IZR n
    /\ JS.BigInt_of_number (JS.Math_round x) = Value n
    /\ (IZR n - 1 / 2 <= V x < IZR n + 1 / 2)%R.
Proof.
  intros Hx Hsmall. destruct x as [s| | |s m e]; try done.
  { exists 0. unfold JS.Math_round, JS.BigInt_of_number. simpl. split; [done|]. repeat split; lra. }
  cbn [fin] in Hx. cbn [B2R] in Hsmall. rewrite Rabs_sgn in Hsmall.
  destruct (finite_value_bounds m e Hx) as [Hemin [Hv0 Hv1]].
  rewrite Rabs_pos_eq in Hsmall by lra.
  assert (e < 0) as He.
  { destruct (Z.lt_ge_cases e 0); [done|].
    pose proof (finite_lower_bound m e Hx ltac:(unfold emin in *; lia)) as Hlo.
    assert (bpow (prec - 1) <= bpow (e + (prec - 1)))%R by (apply bpow_le; lia). lra. }
  unfold JS.Math_round. destruct (Z.leb_spec 0 e); [lia|]. cbv zeta.
  set (k := - e). assert (0 < k) as Hk by (unfold k; lia).
  set (sm := JS.signed s m).
  set (n := (2 * sm + 2 ^ k) / 2 ^ (k + 1)).
  assert (0 < 2 ^ k) as Hpk by (apply Z.pow_pos_nonneg; lia).
  assert (2 ^ (k + 1) = 2 * 2 ^ k) as Hpk1 by (rewrite Z.pow_add_r by lia; lia).
  pose proof (Z.div_mod (2 * sm + 2 ^ k) (2 ^ (k + 1)) ltac:(lia)) as Hdm.
  pose proof (Z.mod_pos_bound (2 * sm + 2 ^ k) (2 ^ (k + 1)) ltac:(lia)) as Hmod.
  fold n in Hdm.
  set (r := (2 * sm + 2 ^ k) mod 2 ^ (k + 1)) in *.
  assert (V (S754_finite s m e) = IZR sm / IZR (2 ^ k))%R as Hval.
  { cbn [B2R]. rewrite <- bpow_IZR by lia. pose proof (bpow_pos k).
    assert (bpow e * bpow k = 1)%R as Hek.
    { rewrite <- bpow_add. unfold k. by replace (e + - e) with 0 by lia. }
    assert (bpow e = / bpow k)%R as ->.
    { apply Rmult_eq_reg_r with (bpow k); [|lra]. rewrite Rinv_l by lra. done. }
    unfold sm. rewrite signed_sgn. destruct s; simpl; unfold Rdiv; lra. }
  assert (0 < IZR (2 ^ k))%R as HpkR by (by apply IZR_lt).
  assert (IZR n - 1 / 2 <= V (S754_finite s m e) < IZR n + 1 / 2)%R as Hn.
  { rewrite Hval.
    assert (IZR sm = IZR (2 ^ k) * IZR n + IZR r / 2 - IZR (2 ^ k) / 2)%R as Hsm.
    { assert (2 * IZR sm + IZR (2 ^ k) = 2 * IZR (2 ^ k) * IZR n + IZR r)%R as HH.
      { rewrite <- mult_IZR. rewrite <- 2!mult_IZR, <- 2!plus_IZR. f_equal. lia. }
      lra. }
    assert (0 <= IZR r < 2 * IZR (2 ^ k))%R as Hr.
    { rewrite <- mult_IZR. split; [apply IZR_le|apply IZR_lt]; lia. }
    rewrite Hsm. split.
    - apply Rmult_le_reg_r with (IZR (2 ^ k)); [done|]. field_simplify; [|lra]. lra.
    - apply Rmult_lt_reg_r with (IZR (2 ^ k)); [done|]. field_simplify; [|lra]. lra. }
  assert (Z.abs n < 2 ^ prec) as Hnb.
  { cbn [B2R] in Hn. 
    assert (Rabs (sgn s (IZR (Z.pos m) * bpow e)) < bpow (prec - 1))%R as Ha
      by (rewrite Rabs_sgn, Rabs_pos_eq by lra; done).
    apply Rabs_def2 in Ha. rewrite (bpow_IZR (prec - 1)) in Ha by (unfold prec; lia).
    assert (IZR n < IZR (2 ^ (prec - 1) + 1))%R as H1 by (rewrite plus_IZR; lra).
    assert (IZR (- 2 ^ (prec - 1) - 1) < IZR n)%R as H2 by (rewrite minus_IZR, opp_IZR; lra).
    apply lt_IZR in H1, H2. unfold prec in *. lia. }
  exists n. destruct (Z.eqb_spec n 0) as [Hn0|Hn0].
  - rewrite Hn0 in *. split; [done|]. split; [done|]. split; [done|]. done.
  - destruct (Number_of_bigint_exact n Hnb) as (H1 & H2 & H3). done.
Qed.


(** ** Magnitudes *)

Lemma u_bound : (0 < u <= 1 / 9000000000000000)%R.
Proof.
  assert (u * IZR (2 ^ 53) = 1)%R as H.
  { unfold u. rewrite <- (bpow_IZR 53) by lia. rewrite <- bpow_add. done. }
  change (2 ^ 53) with 9007199254740992 in H. split; [apply bpow_pos|lra].
Qed.

Lemma eta_bound : (0 < eta <= u / 1000)%R.
Proof.
  split; [apply bpow_pos|]. rewrite <- u_eta.
  assert (bpow (-1022) <= bpow (-10))%R by (apply bpow_le; lia).
  assert (bpow (-10) * IZR (2 ^ 10) = 1)%R as H10.
  { rewrite <- (bpow_IZR 10) by lia. rewrite <- bpow_add. done. }
  change (2 ^ 10) with 1024 in H10. pose proof u_bound. nra.
Qed.

Lemma fits x : (Rabs x <= bpow 1000)%R -> (Rabs x < bpow (emax - 1))%R.
Proof.
  intros H. eapply Rle_lt_trans; [exact H|]. apply bpow_lt. unfold emax. lia.
Qed.

Lemma bpow_1000 : (bpow 300 * 1000000 <= bpow 1000)%R.
Proof.
  assert (1000000 <= bpow 20)%R.
  { rewrite bpow_IZR by lia. apply IZR_le. done. }
  assert (bpow 300 * bpow 20 <= bpow 1000)%R by (rewrite <- bpow_add; apply bpow_le; lia).
  pose proof (bpow_pos 300). nra.
Qed.

Lemma bpow_300 : (1 <= bpow 300)%R.
Proof. change 1%R with (bpow 0). apply bpow_le. lia. Qed.

Lemma fits_small x : (Rabs x <= 1000000)%R -> (Rabs x < bpow (emax - 1))%R.
Proof.
  intros H. apply fits. pose proof bpow_1000. pose proof bpow_300. nra.
Qed.

(** What a rounding gives for the analysis: an absolute error bound from a
    bound on the magnitude. *)
Lemma rounded_facts x r C :
  rounded x r -> (Rabs x <= C)%R ->
  fin r /\ (x - (u * C + eta) <= V r <= x + (u * C + eta))%R.
Proof.
  intros (Hf & He & _) HC. split; [done|].
  pose proof u_bound. pose proof (Rabs_pos x).
  assert (u * Rabs x <= u * C)%R by nra.
  apply Rabs_le_inv in He. lra.
Qed.

Lemma rounded_nonneg x r : rounded x r -> (0 <= x)%R -> (0 <= V r)%R.
Proof.
  intros (_ & _ & _ & Hlo & _) Hx. by apply (Hlo (S754_zero false)).
Qed.

Lemma rounded_ge x r f : rounded x r -> fin f -> (V f <= x)%R -> (V f <= V r)%R.
Proof. intros (_ & _ & _ & Hlo & _). apply Hlo. Qed.

Lemma rounded_le x r f : rounded x r -> fin f -> (x <= V f)%R -> (V r <= V f)%R.
Proof. intros (_ & _ & _ & _ & Hhi). apply Hhi. Qed.

(** ** Small constants *)

Lemma of_Z_small z :
  Z.abs z < 2 ^ prec -> fin (JS.of_Z z) /\ V (JS.of_Z z) = IZR z.
Proof. intros Hz. destruct (Number_of_bigint_exact z Hz) as (H1 & H2 & _). done. Qed.

Import RouteOptimizerService(sumNumbers, n100).

Lemma n100_fin : fin n100.
Proof. apply (of_Z_small 100). done. Qed.

Lemma n100_val : V n100 = 100%R.
Proof. apply (of_Z_small 100). done. Qed.

(** ** Sums *)

Definition sumR (l : list R) : R := foldr Rplus 0%R l.

Lemma sumR_nonneg l : Forall (fun x => 0 <= x)%R l -> (0 <= sumR l)%R.
Proof. induction 1; simpl; lra. Qed.

Lemma sumR_ge_elem l x :
  Forall (fun x => 0 <= x)%R l -> x ∈ l -> (x <= sumR l)%R.
Proof.
  induction 1 as [|y l Hy Hl IH]; intros Hin; [by apply elem_of_nil in Hin|].
  pose proof (sumR_nonneg l Hl). apply elem_of_cons in Hin as [->|Hin]; simpl.
  - lra.
  - specialize (IH Hin). lra.
Qed.

Lemma sumR_map_scale {A} (f : A -> R) c l :
  sumR (map (fun a => c * f a)%R l) = (c * sumR (map f l))%R.
Proof. induction l as [|a l IH]; simpl; [lra|]. rewrite IH. lra. Qed.

Lemma sumR_close {A} (f g : A -> R) d l :
  (forall a, a ∈ l -> Rabs (f a - g a) <= d)%R ->
  (Rabs (sumR (map f l) - sumR (map g l)) <= INR (length l) * d)%R.
Proof.
  induction l as [|a l IH]; intros H.
  - simpl. rewrite Rminus_diag, Rabs_R0. lra.
  - assert (Rabs (f a - g a) <= d)%R as Ha by (apply H; left).
    assert (Rabs (sumR (map f l) - sumR (map g l)) <= INR (length l) * d)%R as Hl
      by (apply IH; intros; apply H; by right).
    cbn [map sumR foldr length]. rewrite S_INR.
    apply Rabs_le. apply Rabs_le_inv in Ha, Hl. fold (sumR (map f l)) (sumR (map g l)). lra.
Qed.

(** The sum of at most three numbers of magnitude at most [B]. *)
Lemma sum_spec xs B :
  (length xs <= 3)%nat -> (0 <= B <= bpow 300)%R ->
  Forall (fun x => fin x /\ (Rabs (V x) <= B)%R) xs ->
  fin (sumNumbers xs)
  /\ (Rabs (V (sumNumbers xs) - sumR (map V xs)) <= 12 * (u * B) + 4 * eta)%R.
Proof.
  intros Hlen HB Hall. pose proof u_bound as Hu. pose proof eta_bound as He.
  pose proof bpow_1000 as Hbig. pose proof bpow_300 as Hbig'.
  assert (u * B >= 0)%R as HuB by nra.
  assert (forall a x C, fin a -> fin x -> (Rabs (V a) <= C)%R -> (Rabs (V x) <= B)%R ->
            (C <= 4 * B + 1)%R ->
            fin (JS.add a x)
            /\ (Rabs (V (JS.add a x) - (V a + V x)) <= u * (C + B) + eta)%R
            /\ (Rabs (V (JS.add a x)) <= C + B + (u * (C + B) + eta))%R) as Hstep.
  { intros a x C Ha Hx HaC HxB HC.
    assert (Rabs (V a + V x) <= C + B)%R as Hsum.
    { eapply Rle_trans; [apply Rabs_triang|]. lra. }
    pose proof (add_spec a x Ha Hx) as Hadd.
    destruct (rounded_facts _ _ (C + B) (Hadd ltac:(apply fits; lra)) Hsum) as [Hf Hv].
    split; [done|]. apply Rabs_le_inv in Hsum. split; apply Rabs_le; lra. }
  assert (u * eta <= eta / 10)%R as Hue by nra.
  assert (u * (u * B) <= u * B)%R by nra.
  assert (0 <= u * (u * B))%R by nra.
  assert (u * (u * (u * B)) <= u * B)%R by nra.
  assert (0 <= u * (u * (u * B)))%R by nra.
  assert (u * (u * eta) <= eta / 10)%R by nra.
  assert (0 <= u * (u * eta))%R by nra.
  assert (0 <= u * eta)%R by nra.
  unfold sumNumbers.
  destruct xs as [|x0 [|x1 [|x2 [|x3 xs]]]]; try (simpl in Hlen; lia); cbn [foldl map sumR foldr].
  - split; [done|]. simpl. rewrite Rminus_diag, Rabs_R0. lra.
  - apply Forall_cons in Hall as [[Hf0 Hb0] _].
    destruct (Hstep JS.zero x0 0%R) as (Hf1 & He1 & Hb1); try done.
    { simpl. rewrite Rabs_R0. lra. } { lra. }
    split; [done|]. simpl V at 2 in He1.
    apply Rabs_le. apply Rabs_le_inv in He1. lra.
  - apply Forall_cons in Hall as [[Hf0 Hb0] Hall].
    apply Forall_cons in Hall as [[Hf1 Hb1] _].
    destruct (Hstep JS.zero x0 0%R) as (Hg1 & He1 & Hc1); try done.
    { simpl. rewrite Rabs_R0. lra. } { lra. }
    destruct (Hstep (JS.add JS.zero x0) x1 (0 + B + (u * (0 + B) + eta))%R)
      as (Hg2 & He2 & Hc2); try done.
    { nra. }
    split; [done|]. simpl V at 2 in He1.
    apply Rabs_le. apply Rabs_le_inv in He1, He2.
    lra.
  - apply Forall_cons in Hall as [[Hf0 Hb0] Hall].
    apply Forall_cons in Hall as [[Hf1 Hb1] Hall].
    apply Forall_cons in Hall as [[Hf2 Hb2] _].
    destruct (Hstep JS.zero x0 0%R) as (Hg1 & He1 & Hc1); try done.
    { simpl. rewrite Rabs_R0. lra. } { lra. }
    destruct (Hstep (JS.add JS.zero x0) x1 (0 + B + (u * (0 + B) + eta))%R)
      as (Hg2 & He2 & Hc2); try done.
    { nra. }
    destruct (Hstep (JS.add (JS.add JS.zero x0) x1) x2
                (0 + B + (u * (0 + B) + eta) + B
                 + (u * (0 + B + (u * (0 + B) + eta) + B) + eta))%R)
      as (Hg3 & He3 & Hc3); try done.
    { nra. }
    split; [done|]. simpl V at 2 in He1.
    apply Rabs_le. apply Rabs_le_inv in He1, He2, He3.
    lra.
Qed.


(** ** One normalisation pass: [x / sum * 100] *)

Lemma ratio_close x S T c :
  (0 <= x <= S)%R -> (0 < S)%R -> (Rabs (T - S) <= c * S)%R -> (0 <= c <= 1 / 4)%R ->
  (0 < T)%R /\ (Rabs (x / T - x / S) <= 2 * c)%R /\ (0 <= x / T <= 1 + 2 * c)%R.
Proof.
  intros Hx HS HT Hc. apply Rabs_le_inv in HT.
  assert (0 < T)%R as HT0 by nra.
  set (a := (x / T)%R). set (b := (x / S)%R).
  assert (a * T = x)%R as Ha by (unfold a; field; lra).
  assert (b * S = x)%R as Hb by (unfold b; field; lra).
  assert (0 <= b <= 1)%R as Hb1 by (split; nra).
  assert (0 <= a)%R as Ha0 by nra.
  assert ((a - b) * T = b * (S - T))%R as Hab by nra.
  assert ((1 - c) * S <= T)%R as HTlo by lra.
  assert (- (2 * c) <= a - b <= 2 * c)%R as Hd.
  { split.
    - destruct (Rle_dec (- (2 * c)) (a - b)) as [|Hn]; [done|]. exfalso.
      assert (a - b < - (2 * c))%R as Hlt by lra.
      assert ((a - b) * T <= - (2 * c) * T)%R by nra.
      assert (- (c * S) <= b * (S - T))%R by nra.
      nra.
    - destruct (Rle_dec (a - b) (2 * c)) as [|Hn]; [done|]. exfalso.
      assert (2 * c < a - b)%R as Hlt by lra.
      assert (2 * c * T <= (a - b) * T)%R by nra.
      assert (b * (S - T) <= c * S)%R by nra.
      nra. }
  split; [done|]. split; [by apply Rabs_le|]. lra.
Qed.

(** [x / sum] for a member [x] of at most three non-negative numbers. *)
Lemma share_spec xs :
  (length xs <= 3)%nat ->
  Forall (fun x => fin x /\ (0 <= V x)%R) xs ->
  (1 / 2 <= sumR (map V xs) <= bpow 300)%R ->
  forall x, x ∈ xs ->
    fin (JS.div x (sumNumbers xs)) /\ (0 <= V (JS.div x (sumNumbers xs)) <= 2)%R
    /\ (Rabs (V (JS.div x (sumNumbers xs)) - V x / sumR (map V xs)) <= 29 * u)%R.
Proof.
  intros Hlen Hall HS x Hx. set (S := sumR (map V xs)) in *.
  pose proof u_bound as Hu. pose proof eta_bound as He.
  assert (Forall (fun x => 0 <= x)%R (map V xs)) as Hnn.
  { apply Forall_map. eapply Forall_impl; [exact Hall|]. by intros ? [_ ?]. }
  assert (forall y, y ∈ xs -> fin y /\ (0 <= V y <= S)%R) as Helem.
  { intros y Hy. rewrite Forall_forall in Hall. destruct (Hall y Hy) as [Hf H0].
    split; [done|]. split; [done|]. apply sumR_ge_elem; [done|].
    apply list_elem_of_fmap. by exists y. }
  destruct (sum_spec xs S Hlen ltac:(lra)) as [HfT HeT].
  { rewrite Forall_forall. intros y Hy. destruct (Helem y Hy) as [Hf Hb].
    split; [done|]. apply Rabs_le. lra. }
  set (T := sumNumbers xs) in *.
  destruct (Helem x Hx) as [Hfx Hbx].
  assert (u / 2 <= u * S)%R as HuS by nra.
  fold S in HeT.
  destruct (ratio_close (V x) S (V T) (13 * u)) as (HT0 & Hr & Hq); [done|lra| |lra|].
  { apply Rabs_le. apply Rabs_le_inv in HeT. lra. }
  apply Rabs_le_inv in Hr.
  pose proof (div_spec x T Hfx HfT ltac:(lra)) as Hdiv.
  assert (Rabs (V x / V T) <= 2)%R as Hq2 by (apply Rabs_le; lra).
  specialize (Hdiv ltac:(apply fits_small; lra)).
  destruct (rounded_facts _ _ 2 Hdiv Hq2) as [Hfd Hvd].
  pose proof (rounded_nonneg _ _ Hdiv ltac:(lra)) as Hd0.
  split; [done|]. split; [lra|]. apply Rabs_le. lra.
Qed.

(** The product of a bounded number and a small constant. *)
Lemma scale_spec d c C :
  fin d -> fin c -> (Rabs (V d * V c) <= C)%R -> (C <= 1000000)%R ->
  fin (JS.mul d c)
  /\ (V d * V c - (u * C + eta) <= V (JS.mul d c) <= V d * V c + (u * C + eta))%R.
Proof.
  intros Hd Hc HC HC'. pose proof (mul_spec d c Hd Hc) as Hmul.
  specialize (Hmul ltac:(apply fits_small; lra)).
  by apply rounded_facts.
Qed.

Definition pass (xs : list JS.number) (x : JS.number) : JS.number :=
  JS.mul (JS.div x (sumNumbers xs)) n100.

Lemma pass_spec xs :
  (length xs <= 3)%nat ->
  Forall (fun x => fin x /\ (0 <= V x)%R) xs ->
  (1 / 2 <= sumR (map V xs) <= bpow 300)%R ->
  forall x, x ∈ xs ->
    fin (pass xs x) /\ (0 <= V (pass xs x))%R
    /\ (Rabs (V (pass xs x) - 100 * (V x / sumR (map V xs))) <= 3300 * u)%R.
Proof.
  intros Hlen Hall HS x Hx.
  pose proof u_bound as Hu. pose proof eta_bound as He.
  destruct (share_spec xs Hlen Hall HS x Hx) as (Hfd & Hd0 & Hd).
  apply Rabs_le_inv in Hd. unfold pass.
  set (d := JS.div x (sumNumbers xs)) in *.
  pose proof (mul_spec d n100 Hfd n100_fin) as Hmul. rewrite n100_val in Hmul.
  assert (Rabs (V d * 100) <= 300)%R as Hm3 by (apply Rabs_le; lra).
  specialize (Hmul ltac:(apply fits_small; lra)).
  destruct (rounded_facts _ _ 300 Hmul Hm3) as [Hfm Hvm].
  pose proof (rounded_nonneg _ _ Hmul ltac:(lra)) as Hm0.
  split; [done|]. split; [done|]. apply Rabs_le. lra.
Qed.

Lemma sumR_ratio {A} (f : A -> R) S l :
  sumR (map (fun a => 100 * (f a / S))%R l) = (100 * (sumR (map f l) / S))%R.
Proof. induction l as [|a l IH]; simpl; [lra|]. rewrite IH. lra. Qed.

(** The percentages of one pass add up to 100, up to rounding. *)
Lemma pass_sum xs :
  (length xs <= 3)%nat ->
  Forall (fun x => fin x /\ (0 <= V x)%R) xs ->
  (1 / 2 <= sumR (map V xs) <= bpow 300)%R ->
  (Rabs (sumR (map V (map (pass xs) xs)) - 100) <= 9900 * u)%R.
Proof.
  intros Hlen Hall HS. pose proof u_bound as Hu.
  rewrite map_map.
  pose proof (sumR_close (fun x => V (pass xs x))
                (fun x => 100 * (V x / sumR (map V xs)))%R (3300 * u) xs) as Hc.
  specialize (Hc ltac:(intros a Ha; by apply pass_spec)).
  assert (sumR (map (fun x : JS.number => 100 * (V x / sumR (map V xs)))%R xs) = 100%R) as Heq.
  { rewrite (sumR_ratio V). field. lra. }
  rewrite Heq in Hc.
  assert (INR (length xs) <= 3)%R as Hn.
  { replace 3%R with (INR 3) by (simpl; lra). apply le_INR. lia. }
  assert (INR (length xs) * (3300 * u) <= 3 * (3300 * u))%R
    by (apply Rmult_le_compat_r; lra).
  eapply Rle_trans; [exact Hc|]. eapply Rle_trans; [exact H|]. lra.
Qed.


(** ** Hundredths *)

Import RouteOptimizerService(basisPoints, round2).
Import QuoteService(n10000).

Lemma n10000_fin : fin n10000.
Proof. apply (of_Z_small 10000). done. Qed.

Lemma n10000_val : V n10000 = 10000%R.
Proof. apply (of_Z_small 10000). done. Qed.

Lemma below_2p52 x : (Rabs x <= 1000000)%R -> (Rabs x < bpow (prec - 1))%R.
Proof.
  intros H. rewrite bpow_IZR by (unfold prec; lia).
  change (2 ^ (prec - 1)) with 4503599627370496. lra.
Qed.

Lemma int_unique n k x :
  (IZR n - 1 / 2 <= x < IZR n + 1 / 2)%R -> (Rabs (x - IZR k) < 1 / 2)%R -> n = k.
Proof.
  intros Hn Hk. apply Rabs_def2 in Hk.
  assert (IZR (n - k) < IZR 1)%R as H1 by (rewrite minus_IZR; lra).
  assert (IZR (-1) < IZR (n - k))%R as H2 by (rewrite minus_IZR; lra).
  apply lt_IZR in H1, H2. lia.
Qed.

(** [Math.round] of a number within a quarter of the integer [k]. *)
Lemma round_int c k :
  fin c -> (Rabs (V c - IZR k) <= 1 / 4)%R -> Z.abs k <= 30000 ->
  fin (JS.Math_round c) /\ V (JS.Math_round c) = IZR k
  /\ JS.BigInt_of_number (JS.Math_round c) = Value k.
Proof.
  intros Hc Hk Hkb.
  assert (Rabs (IZR k) <= 30000)%R as HkR.
  { rewrite <- abs_IZR. apply IZR_le. done. }
  apply Rabs_le_inv in Hk, HkR.
  destruct (Math_round_spec c Hc) as (n & H1 & H2 & H3 & H4).
  { apply below_2p52, Rabs_le. lra. }
  assert (n = k) as -> by (apply (int_unique n k (V c)); [done|apply Rabs_def1; lra]).
  done.
Qed.

(** [p] is the number stored for [k] hundredths. *)
Definition near (k : Z) (p : JS.number) : Prop :=
  fin p /\ (Rabs (V p - IZR k / 100) <= 1000 * u)%R.

(** The same, with the accuracy of a single division by 100. *)
Definition tight (k : Z) (p : JS.number) : Prop :=
  fin p /\ (Rabs (V p - IZR k / 100) <= 400 * u)%R.

Lemma tight_near k p : tight k p -> near k p.
Proof.
  intros [Hf Hv]. split; [done|]. pose proof u_bound. lra.
Qed.

Lemma near_basisPoints k p : near k p -> Z.abs k <= 20000 -> basisPoints p = Value k.
Proof.
  intros [Hf Hv] Hk. pose proof u_bound as Hu. pose proof eta_bound as He.
  assert (Rabs (IZR k) <= 20000)%R as HkR.
  { rewrite <- abs_IZR. apply IZR_le. done. }
  apply Rabs_le_inv in Hv, HkR.
  destruct (scale_spec p n100 30000 Hf n100_fin) as [Hfc Hvc].
  { rewrite n100_val. apply Rabs_le. lra. } { lra. }
  rewrite n100_val in Hvc. unfold basisPoints.
  apply round_int; [done| |lia]. apply Rabs_le. lra.
Qed.

Lemma near_proportion k p :
  near k p -> Z.abs k <= 20000 ->
  JS.BigInt_of_number (JS.Math_round (JS.mul (JS.div p n100) n10000)) = Value k.
Proof.
  intros [Hf Hv] Hk. pose proof u_bound as Hu. pose proof eta_bound as He.
  assert (Rabs (IZR k) <= 20000)%R as HkR.
  { rewrite <- abs_IZR. apply IZR_le. done. }
  apply Rabs_le_inv in Hv, HkR.
  pose proof (div_spec p n100 Hf n100_fin) as Hdiv. rewrite n100_val in Hdiv.
  assert (Rabs (V p / 100) <= 300)%R as Hq by (apply Rabs_le; lra).
  specialize (Hdiv ltac:(lra) ltac:(apply fits_small; lra)).
  destruct (rounded_facts _ _ 300 Hdiv Hq) as [Hfd Hvd].
  destruct (scale_spec (JS.div p n100) n10000 30000 Hfd n10000_fin) as [Hfc Hvc].
  { rewrite n10000_val. apply Rabs_le. lra. } { lra. }
  rewrite n10000_val in Hvc.
  apply round_int; [done| |lia]. apply Rabs_le. lra.
Qed.

(** [Math.round(c) / 100] *)
Lemma round_near c :
  fin c -> (Rabs (V c) <= 20000)%R ->
  exists k, (IZR k - 1 / 2 <= V c < IZR k + 1 / 2)%R
    /\ tight k (JS.div (JS.Math_round c) n100)
    /\ rounded (IZR k / 100) (JS.div (JS.Math_round c) n100).
Proof.
  intros Hc Hb. pose proof u_bound as Hu. pose proof eta_bound as He.
  destruct (Math_round_spec c Hc) as (n & H1 & H2 & H3 & H4).
  { apply below_2p52. lra. }
  exists n. split; [done|]. apply Rabs_le_inv in Hb.
  pose proof (div_spec (JS.Math_round c) n100 H1 n100_fin) as Hdiv.
  rewrite n100_val, H2 in Hdiv.
  assert (Rabs (IZR n / 100) <= 300)%R as Hq by (apply Rabs_le; lra).
  specialize (Hdiv ltac:(lra) ltac:(apply fits_small; lra)).
  destruct (rounded_facts _ _ 300 Hdiv Hq) as [Hfd Hvd].
  split; [|done]. split; [done|]. apply Rabs_le. lra.
Qed.


(** ** Percentages of the best quotes *)

Lemma sumR_le_len l M :
  Forall (fun x => x <= M)%R l -> (sumR l <= INR (length l) * M)%R.
Proof.
  induction 1 as [|x l Hx Hl IH]; [simpl; lra|].
  cbn [sumR foldr length]. rewrite S_INR. fold (sumR l). lra.
Qed.

Lemma output_spec a :
  0 <= a < 2 ^ 256 ->
  fin (JS.Number_of_bigint a)
  /\ (Rabs (V (JS.Number_of_bigint a) - IZR a) <= u * IZR a)%R.
Proof.
  intros Ha. destruct (Z.eq_dec a 0) as [->|Hne].
  { split; [done|]. simpl. rewrite Rminus_diag, Rabs_R0. lra. }
  assert (1 <= IZR a)%R as H1 by (apply IZR_le; lia).
  assert (IZR a <= bpow 256)%R as H2.
  { rewrite bpow_IZR by lia. apply IZR_le. lia. }
  assert (bpow 256 <= bpow 1000)%R by (apply bpow_le; lia).
  assert (bpow (-1022) <= bpow 0)%R as H0 by (apply bpow_le; lia).
  change (bpow 0) with 1%R in H0.
  destruct (Number_of_bigint_spec a) as (Hf & _ & He & _).
  { apply fits. rewrite Rabs_pos_eq by lra. lra. }
  rewrite Rabs_pos_eq in He by lra. split; [done|]. apply He. lra.
Qed.

(** A list of percentages: at most three, adding up to about 100, the
    first one at least [h]. *)
Definition percents (h : R) (ps : list JS.number) : Prop :=
  (length ps <= 3)%nat
  /\ Forall (fun p => fin p /\ (0 <= V p)%R) ps
  /\ (Rabs (sumR (map V ps) - 100) <= 9900 * u)%R
  /\ exists p0 rest, ps = p0 :: rest /\ (h <= V p0)%R.

Lemma pass_percents xs x0 rest r :
  xs = x0 :: rest ->
  (length xs <= 3)%nat ->
  Forall (fun x => fin x /\ (0 <= V x)%R) xs ->
  (1 / 2 <= sumR (map V xs) <= bpow 300)%R ->
  (r * sumR (map V xs) <= V x0)%R ->
  percents (100 * r - 3300 * u) (map (pass xs) xs).
Proof.
  intros Hxs Hlen Hall HS Hr. split; [by rewrite length_map|]. split; [|split].
  - apply Forall_map. rewrite Forall_forall. intros x Hx.
    destruct (pass_spec xs Hlen Hall HS x Hx) as (H1 & H2 & _). done.
  - by apply pass_sum.
  - exists (pass xs x0), (map (pass xs) rest). split; [by rewrite Hxs at 2|].
    destruct (pass_spec xs Hlen Hall HS x0) as (_ & _ & H3); [rewrite Hxs; left|].
    apply Rabs_le_inv in H3.
    set (S := sumR (map V xs)) in *.
    assert (r <= V x0 / S)%R.
    { apply Rmult_le_reg_r with S; [lra|]. unfold Rdiv.
      rewrite Rmult_assoc, Rinv_l by lra. lra. }
    lra.
Qed.

Section Percentages.
Context {Q : Type} (out : Q -> Z).

Definition outputs (top : list Q) : list JS.number :=
  map (fun q => JS.Number_of_bigint (out q)) top.

(** The amounts are unsigned 256-bit integers, the first one is the
    largest and is not zero. *)
Definition ranked (top : list Q) : Prop :=
  exists q0 rest, top = q0 :: rest /\ 1 <= out q0 < 2 ^ 256
    /\ Forall (fun q => 0 <= out q <= out q0) top.

Lemma outputs_spec top :
  (length top <= 3)%nat -> ranked top ->
  exists x0 rest, outputs top = x0 :: rest
    /\ Forall (fun x => fin x /\ (0 <= V x)%R) (outputs top)
    /\ (1 / 2 <= sumR (map V (outputs top)) <= bpow 300)%R
    /\ (3333 / 10000 * sumR (map V (outputs top)) <= V x0)%R.
Proof.
  intros Hlen (q0 & rest & -> & Hq0 & Hall).
  pose proof u_bound as Hu.
  set (A := IZR (out q0)).
  assert (1 <= A)%R as HA1 by (apply IZR_le; lia).
  assert (A <= bpow 256)%R as HA2.
  { unfold A. rewrite bpow_IZR by lia. apply IZR_le. lia. }
  assert (0 <= u * A)%R as HuA by nra.
  assert (u * A <= A / 100000)%R as HuA' by nra.
  assert (Forall (fun x => fin x /\ (0 <= V x <= A + u * A)%R) (outputs (q0 :: rest))) as Hxs.
  { apply Forall_map. eapply Forall_impl; [exact Hall|]. intros q Hq. cbv beta in *.
    destruct (output_spec (out q) ltac:(lia)) as [Hf He]. split; [done|].
    apply Rabs_le_inv in He.
    assert (0 <= IZR (out q) <= A)%R as Hb by (split; apply IZR_le; lia).
    assert (u * IZR (out q) <= u * A)%R by nra.
    assert (0 <= u * IZR (out q))%R by nra.
    assert (u * IZR (out q) <= IZR (out q))%R by nra.
    lra. }
  exists (JS.Number_of_bigint (out q0)), (outputs rest). split; [done|].
  assert (Forall (fun x => fin x /\ (0 <= V x)%R) (outputs (q0 :: rest))) as Hnn.
  { eapply Forall_impl; [exact Hxs|]. intros x [? ?]. split; [done|lra]. }
  split; [done|].
  destruct (output_spec (out q0) ltac:(lia)) as [Hf0 He0]. fold A in He0.
  apply Rabs_le_inv in He0.
  assert (sumR (map V (outputs (q0 :: rest))) <= 3 * (A + u * A))%R as Hup.
  { eapply Rle_trans; [apply (sumR_le_len _ (A + u * A))|].
    - apply Forall_map. eapply Forall_impl; [exact Hxs|]. intros x [_ ?]. cbv beta. lra.
    - rewrite length_map. unfold outputs. rewrite length_map.
      assert (INR (length (q0 :: rest)) <= 3)%R as Hn.
      { replace 3%R with (INR 3) by (simpl; lra). apply le_INR. done. }
      apply Rmult_le_compat_r; [lra|done]. }
  assert (V (JS.Number_of_bigint (out q0)) <= sumR (map V (outputs (q0 :: rest))))%R as Hlo.
  { apply sumR_ge_elem.
    - apply Forall_map. eapply Forall_impl; [exact Hnn|]. by intros x [_ ?].
    - simpl. left. }
  assert (bpow 256 * 1000000 <= bpow 300)%R as Hbig.
  { assert (1000000 <= bpow 20)%R by (rewrite bpow_IZR by lia; apply IZR_le; done).
    assert (bpow 256 * bpow 20 <= bpow 300)%R by (rewrite <- bpow_add; apply bpow_le; lia).
    pose proof (bpow_pos 256). nra. }
  pose proof (bpow_pos 256).
  split; [split; lra|]. lra.
Qed.

End Percentages.


(** ** Rounding the legs to hundredths and correcting the first one *)

Definition sumZ (l : list Z) : Z := foldr Z.add 0 l.

Lemma Forall_exists_Forall2 {A B} (P : A -> B -> Prop) l :
  Forall (fun a => exists b, P a b) l -> exists k, Forall2 P l k.
Proof.
  induction 1 as [|a l [b Hb] _ [k Hk]]; [by exists []|].
  exists (b :: k). by constructor.
Qed.

Lemma Forall2_left {A B} (P : A -> B -> Prop) (Pa : A -> Prop) l k :
  Forall2 P l k -> (forall a b, P a b -> Pa a) -> Forall Pa l.
Proof. induction 1; intros HP; constructor; eauto. Qed.

Lemma Forall2_right {A B} (P : A -> B -> Prop) (Pb : B -> Prop) l k :
  Forall2 P l k -> (forall a b, P a b -> Pb b) -> Forall Pb k.
Proof. induction 1; intros HP; constructor; eauto. Qed.

Lemma sumZ_close {A} (g : A -> R) d l ks :
  Forall2 (fun a k => Rabs (IZR k - g a) <= d)%R l ks ->
  (Rabs (IZR (sumZ ks) - sumR (map g l)) <= INR (length l) * d)%R.
Proof.
  induction 1 as [|a k l ks Hk _ IH].
  - simpl. rewrite Rminus_diag, Rabs_R0. lra.
  - cbn [sumZ foldr map sumR length]. fold (sumZ ks) (sumR (map g l)).
    rewrite S_INR, plus_IZR. apply Rabs_le. apply Rabs_le_inv in Hk, IH. lra.
Qed.

Lemma near_sum {Q} (legs : list (Q * JS.number)) ks :
  Forall2 (fun leg k => near k leg.2) legs ks ->
  (Rabs (sumR (map V (map snd legs)) - IZR (sumZ ks) / 100)
   <= INR (length legs) * (1000 * u))%R.
Proof.
  induction 1 as [|a k l ks [_ Hk] _ IH].
  - simpl. unfold Rdiv. rewrite Rmult_0_l, Rminus_diag, Rabs_R0. lra.
  - cbn [sumZ foldr map sumR length]. fold (sumZ ks) (sumR (map V (map snd l))).
    rewrite S_INR, plus_IZR. apply Rabs_le. apply Rabs_le_inv in Hk, IH. lra.
Qed.

Lemma sumZ_nonneg ks : Forall (fun k => 0 <= k) ks -> 0 <= sumZ ks.
Proof. induction 1; simpl; lia. Qed.

Import RouteOptimizerService(adjustFirst).

Section Finish.
Context {Q : Type}.
Variable conv : JS.number -> JS.number.
Variable fixup : JS.number -> JS.number -> JS.number.

(** The common shape of the last steps of both optimizers. *)
Definition finish (ys : list (Q * JS.number)) : list (Q * JS.number) :=
  let legs := map (fun s => (fst s, conv (snd s))) ys in
  let sum := sumNumbers (map snd legs) in
  if JS.strict_ne sum n100 && (0 <? length legs)%nat
  then adjustFirst (fixup sum) legs
  else legs.

Variable MIN : JS.number.
Variable minPercent : R.
Variable minK : Z.
Hypothesis MIN_fin : fin MIN.
Hypothesis MIN_val : V MIN = minPercent.
Hypothesis minK_val : (IZR minK = 100 * minPercent)%R.
Hypothesis minPercent_range : (0 <= minPercent <= 30)%R.

Lemma finish_spec ys q0 y0 rest :
  ys = (q0, y0) :: rest ->
  (1 <= length rest <= 2)%nat ->
  (sumR (map (fun s => V s.2) ys) <= 100 + 9900 * u)%R ->
  Forall (fun s => minPercent <= V s.2)%R ys ->
  (33 <= V y0)%R ->
  (forall s, s ∈ ys -> exists k, tight k (conv s.2)
     /\ rounded (IZR k / 100) (conv s.2)
     /\ (Rabs (IZR k - 10000 * (V s.2 / sumR (map (fun s => V s.2) ys))) <= 501 / 1000)%R) ->
  (forall sum p0 k0 j, fin sum -> tight k0 p0 -> 0 <= k0 <= 10000 -> -2 <= j <= 2 ->
     (Rabs (V sum - (100 - IZR j / 100)) <= 5000 * u)%R ->
     JS.strict_ne sum n100 = true ->
     near (k0 + j) (fixup sum p0)) ->
  exists ks,
    Forall2 (fun leg k => near k leg.2 /\ minK <= k <= 10000 /\ (minPercent <= V leg.2)%R)
      (finish ys) ks
    /\ map fst (finish ys) = map fst ys
    /\ sumZ ks = 10000.
Proof.
  intros Hys Hlen HS Hmin Hhead Hconv Hfix.
  pose proof u_bound as Hu. pose proof eta_bound as He.
  pose proof minPercent_range as Hm0. pose proof minK_val as HmK.
  pose proof MIN_fin as HMf. pose proof MIN_val as HMv.
  assert (0 <= minK <= 3000) as HmS.
  { assert (IZR (-1) < IZR minK)%R as H1 by lra.
    assert (IZR minK < IZR 3001)%R as H2 by lra.
    apply lt_IZR in H1, H2. lia. }
  set (S := sumR (map (fun s => V s.2) ys)) in *.
  assert (Forall (fun x => 0 <= x)%R (map (fun s : Q * JS.number => V s.2) ys)) as Hnn.
  { apply Forall_map. eapply Forall_impl; [exact Hmin|]. intros s Hs. simpl in *.
    lra. }
  assert (forall s, s ∈ ys -> (V s.2 <= S)%R) as HleS.
  { intros s Hs. apply sumR_ge_elem; [done|]. apply list_elem_of_fmap. by exists s. }
  assert (33 <= S)%R as HS33.
  { specialize (HleS (q0, y0) ltac:(rewrite Hys; left)). simpl in HleS. lra. }
  assert (S <= 100001 / 1000)%R as HSup by lra.
  assert (forall s, s ∈ ys ->
            (minPercent * 1000 / 100001 <= V s.2 / S <= 1)%R) as Hshare.
  { intros s Hs. specialize (HleS s Hs).
    rewrite Forall_forall in Hmin. specialize (Hmin s Hs).
    assert (V s.2 / S * S = V s.2)%R as Hx by (field; lra).
    set (x := (V s.2 / S)%R) in *. split; nra. }
  assert (forall s, s ∈ ys -> exists k, tight k (conv s.2) /\ minK <= k <= 10000
            /\ (Rabs (IZR k - 10000 * (V s.2 / S)) <= 501 / 1000)%R
            /\ ((33 <= V s.2)%R -> 3299 <= k)
            /\ (minPercent <= V (conv s.2))%R) as Hleg.
  { intros s Hs. destruct (Hconv s Hs) as (k & Hn & Hr & Hk). exists k.
    destruct (Hshare s Hs) as [Hlo Hhi]. apply Rabs_le_inv in Hk.
    assert (minK <= k <= 10000) as Hkb.
    { split.
      + assert (IZR (minK - 1) < IZR k)%R as H1 by (rewrite minus_IZR; lra).
        apply lt_IZR in H1. lia.
      + assert (IZR k < IZR 10001)%R as H1 by lra. apply lt_IZR in H1. lia. }
    split; [done|]. split; [done|]. split; [by apply Rabs_le|]. split.
    2:{ rewrite <- HMv. apply (rounded_ge _ _ _ Hr HMf). rewrite HMv.
        assert (IZR minK <= IZR k)%R by (apply IZR_le; lia). lra. }
    - intros H33. specialize (HleS s Hs).
      assert (V s.2 / S * S = V s.2)%R as Hx by (field; lra).
      set (x := (V s.2 / S)%R) in *.
      assert (33000 / 100001 <= x)%R by nra.
      assert (IZR 3298 < IZR k)%R as H1 by lra. apply lt_IZR in H1. lia. }
  assert (Forall (fun s => exists k, tight k (conv s.2) /\ minK <= k <= 10000
            /\ (Rabs (IZR k - 10000 * (V s.2 / S)) <= 501 / 1000)%R
            /\ ((33 <= V s.2)%R -> 3299 <= k)
            /\ (minPercent <= V (conv s.2))%R) ys) as Hall.
  { rewrite Forall_forall. exact Hleg. }
  apply Forall_exists_Forall2 in Hall as [ks1 Hks1].
  (* the hundredths add up to 10000 give or take one *)
  assert (Rabs (IZR (sumZ ks1) - 10000) <= 1503 / 1000)%R as Hsum1.
  { pose proof (sumZ_close (fun s : Q * JS.number => 10000 * (V s.2 / S))%R (501 / 1000) ys ks1) as Hc.
    assert (sumR (map (fun s : Q * JS.number => 10000 * (V s.2 / S))%R ys) = 10000%R) as Heq.
    { clear -HS33. unfold S in *.
      assert (forall l c, sumR (map (fun s : Q * JS.number => 10000 * (V s.2 / c))%R l)
                = (10000 * (sumR (map (fun s : Q * JS.number => V s.2) l) / c))%R) as Hgen.
      { intros l c. induction l as [|a l IH]; simpl; [lra|]. rewrite IH. lra. }
      rewrite Hgen. field. lra. }
    rewrite Heq in Hc.
    assert (INR (length ys) <= 3)%R as Hn.
    { replace 3%R with (INR 3) by (simpl; lra). apply le_INR. rewrite Hys. simpl. lia. }
    assert (INR (length ys) * (501 / 1000) <= 3 * (501 / 1000))%R
      by (apply Rmult_le_compat_r; lra).
    eapply Rle_trans; [apply Hc|lra].
    eapply Forall2_impl; [exact Hks1|]. intros s k (_ & _ & Hsk & _). exact Hsk. }
  assert (-1 <= 10000 - sumZ ks1 <= 1) as Hj.
  { apply Rabs_le_inv in Hsum1.
    assert (IZR (9998) < IZR (sumZ ks1))%R as H1 by lra.
    assert (IZR (sumZ ks1) < IZR 10002)%R as H2 by lra.
    apply lt_IZR in H1, H2. lia. }
  set (legs := map (fun s : Q * JS.number => (fst s, conv (snd s))) ys).
  assert (Forall2 (fun leg k => near k leg.2 /\ minK <= k <= 10000
                               /\ (minPercent <= V leg.2)%R) legs ks1) as Hlegs.
  { unfold legs. apply Forall2_fmap_l. eapply Forall2_impl; [exact Hks1|].
    intros s k (H1 & H2 & _ & _ & H5). split; [by apply tight_near|done]. }
  assert (map fst legs = map fst ys) as Hfst.
  { unfold legs. rewrite map_map. done. }
  assert (length legs = length ys) as Hlenl by (unfold legs; by rewrite length_map).
  set (sum := sumNumbers (map snd legs)).
  assert (fin sum /\ (Rabs (V sum - IZR (sumZ ks1) / 100) <= 5000 * u)%R) as [Hfsum Hvsum].
  { destruct (sum_spec (map snd legs) 101) as [Hf Hv].
    - rewrite length_map, Hlenl, Hys. simpl. lia.
    - pose proof bpow_300. pose proof (bpow_le 7 300 ltac:(lia)) as H7.
      rewrite (bpow_IZR 7) in H7 by lia. change (2 ^ 7) with 128 in H7. lra.
    - apply Forall_map. apply (Forall2_left _ _ _ _ Hlegs).
      intros leg k [[Hf Hv] [Hk _]]. simpl.
      split; [done|]. apply Rabs_le_inv in Hv.
      assert (0 <= IZR k <= 10000)%R by (split; apply IZR_le; lia).
      apply Rabs_le. lra.
    - split; [done|].
      pose proof (near_sum legs ks1) as Hns.
      assert (INR (length legs) <= 3)%R as Hn.
      { replace 3%R with (INR 3) by (simpl; lra). apply le_INR. rewrite Hlenl, Hys. simpl. lia. }
      assert (INR (length legs) * (1000 * u) <= 3 * (1000 * u))%R
        by (apply Rmult_le_compat_r; lra).
      specialize (Hns ltac:(eapply Forall2_impl; [exact Hlegs|]; by intros ? ? [? _])).
      apply Rabs_le_inv in Hv, Hns. unfold sum. apply Rabs_le. lra. }
  unfold finish. fold legs. fold sum.
  destruct (JS.strict_ne sum n100) eqn:Hne.
  - (* the first leg takes the difference *)
    assert ((0 <? length legs)%nat = true) as ->.
    { apply Nat.ltb_lt. rewrite Hlenl, Hys. simpl. lia. }
    cbn [andb]. unfold legs in *. rewrite Hys in *. cbn [map fst snd adjustFirst] in *.
    apply Forall2_cons_inv_l in Hks1 as (k0 & krest & (Hn0 & Hk0 & _ & Hk33 & _) & Hrest & ->).
    apply Forall2_cons_inv_l in Hlegs as (k0' & krest' & _ & Hlegs & Heq).
    injection Heq as <- <-.
    cbn [sumZ foldr] in Hj, Hvsum. fold (sumZ krest) in Hj, Hvsum.
    specialize (Hk33 Hhead).
    assert (0 <= sumZ krest) as Hrest0.
    { apply sumZ_nonneg. apply (Forall2_right _ _ _ _ Hlegs). intros leg k (_ & ? & _). lia. }
    assert (length krest = length rest) as Hlk.
    { symmetry. eapply Forall2_length. exact Hrest. }
    assert (minK <= sumZ krest) as Hrestmin.
    { destruct krest as [|k1 krest]; [simpl in Hlk; lia|].
      apply Forall2_cons_inv_r in Hlegs as (leg & l' & (_ & Hk1 & _) & Hl' & _).
      assert (0 <= sumZ krest).
      { apply sumZ_nonneg. apply (Forall2_right _ _ _ _ Hl'). intros leg' k (_ & ? & _). lia. }
      simpl. fold (sumZ krest). lia. }
    set (j := 10000 - (k0 + sumZ krest)) in *.
    exists ((k0 + j) :: krest). split; [|split].
    + assert (near (k0 + j) (fixup sum (conv y0))) as Hnew.
      { apply (Hfix sum (conv y0) k0 j); [done|done|lia|lia| |done].
        replace (100 - IZR j / 100)%R with (IZR (k0 + sumZ krest) / 100)%R; [done|].
        unfold j. rewrite minus_IZR. lra. }
      constructor; [|done]. split; [done|]. split; [unfold j; lia|].
      cbn [snd]. destruct Hnew as [_ Hnew]. apply Rabs_le_inv in Hnew.
      assert (IZR 3298 <= IZR (k0 + j))%R by (apply IZR_le; unfold j; lia).
      lra.
    + done.
    + cbn [sumZ foldr]. fold (sumZ krest). unfold j. lia.
  - (* the rounded legs already add up to 100 *)
    cbn [andb]. exists ks1. split; [done|]. split; [done|].
    unfold JS.strict_ne in Hne. apply negb_false_iff in Hne.
    apply (SFeqb_fin sum n100 Hfsum n100_fin) in Hne. rewrite n100_val in Hne.
    rewrite Hne in Hvsum. apply Rabs_le_inv in Hvsum.
    assert (IZR 9999 < IZR (sumZ ks1))%R as H1 by lra.
    assert (IZR (sumZ ks1) < IZR 10001)%R as H2 by lra.
    apply lt_IZR in H1, H2. lia.
Qed.

End Finish.


(** ** The legs of the two optimizers *)

(** The legs that passed the minimum [m]: two or three, the first one
    with a third of the total at least. *)
Definition validLegs {Q : Type} (m : R) (ys : list (Q * JS.number)) : Prop :=
  (exists q0 y0 rest, ys = (q0, y0) :: rest /\ (1 <= length rest <= 2)%nat
     /\ (33 <= V y0)%R)
  /\ Forall (fun s => fin s.2 /\ (m <= V s.2)%R) ys
  /\ (sumR (map (fun s => V s.2) ys) <= 100 + 9900 * u)%R.

Lemma validLegs_numbers {Q : Type} m (ys : list (Q * JS.number)) :
  (0 <= m)%R -> validLegs m ys ->
  (length (map snd ys) <= 3)%nat
  /\ Forall (fun x => fin x /\ (0 <= V x)%R) (map snd ys)
  /\ (1 / 2 <= sumR (map V (map snd ys)) <= bpow 300)%R
  /\ sumR (map V (map snd ys)) = sumR (map (fun s => V s.2) ys)
  /\ (forall s, s ∈ ys -> s.2 ∈ map snd ys /\ (0 <= V s.2 <= sumR (map (fun s => V s.2) ys))%R).
Proof.
  intros Hm ((q0 & y0 & rest & Hys & Hlen & Hhead) & Hall & Hsum).
  pose proof u_bound as Hu.
  assert (sumR (map V (map snd ys)) = sumR (map (fun s : Q * JS.number => V s.2) ys)) as Heq
    by (by rewrite map_map).
  assert (Forall (fun x => 0 <= x)%R (map (fun s : Q * JS.number => V s.2) ys)) as Hnn.
  { apply Forall_map. eapply Forall_impl; [exact Hall|]. intros s [_ Hs]. simpl. lra. }
  assert (forall s, s ∈ ys -> (0 <= V s.2 <= sumR (map (fun s : Q * JS.number => V s.2) ys))%R) as Hle.
  { intros s Hs. split.
    - rewrite Forall_forall in Hall. destruct (Hall s Hs). lra.
    - apply sumR_ge_elem; [done|]. apply list_elem_of_fmap. by exists s. }
  split; [rewrite length_map, Hys; simpl; lia|]. split; [|split; [|split; [done|]]].
  - apply Forall_map. eapply Forall_impl; [exact Hall|]. intros s [? ?]. simpl. split; [done|lra].
  - rewrite Heq. specialize (Hle (q0, y0) ltac:(rewrite Hys; left)). simpl in Hle.
    pose proof (bpow_le 7 300 ltac:(lia)) as H7.
    rewrite (bpow_IZR 7) in H7 by lia. change (2 ^ 7) with 128 in H7. lra.
  - intros s Hs. split; [|by apply Hle]. apply list_elem_of_fmap. by exists s.
Qed.

Import RouteOptimizerService(calculateDynamicSplit, MIN_SPLIT_PERCENTAGE).
Import QuoteService(normalized, normalizeSplits, MIN_ROUTE_PERCENTAGE).

Lemma MIN_SPLIT_fin : fin MIN_SPLIT_PERCENTAGE.
Proof. apply (of_Z_small 1). done. Qed.

Lemma MIN_SPLIT_val : V MIN_SPLIT_PERCENTAGE = 1%R.
Proof. apply (of_Z_small 1). done. Qed.

Lemma MIN_ROUTE_fin : fin MIN_ROUTE_PERCENTAGE.
Proof. apply (of_Z_small 5). done. Qed.

Lemma MIN_ROUTE_val : V MIN_ROUTE_PERCENTAGE = 5%R.
Proof. apply (of_Z_small 5). done. Qed.

Section Legs.
Context {Q : Type}.

(** The second branch of [calculateDynamicSplit]. *)
Definition renormalize (validSplits : list (Q * JS.number)) : list (Q * JS.number) :=
  let totalPercentage := sumNumbers (map snd validSplits) in
  let validSplits :=
    map (fun s => (fst s, JS.mul (JS.div (snd s) totalPercentage) n100)) validSplits in
  let validSplits := map (fun s => (fst s, round2 (snd s))) validSplits in
  let sum := sumNumbers (map snd validSplits) in
  if JS.strict_ne sum n100 && (0 <? length validSplits)%nat
  then adjustFirst (fun p => round2 (JS.add p (JS.sub n100 sum))) validSplits
  else validSplits.

Lemma renormalize_finish ys :
  renormalize ys
  = finish (fun y => round2 (pass (map snd ys) y))
           (fun sum p => round2 (JS.add p (JS.sub n100 sum))) ys.
Proof. unfold renormalize, finish. cbv zeta. rewrite !map_map. reflexivity. Qed.

Lemma venue_conv (ys : list (Q * JS.number)) m :
  (0 <= m)%R -> validLegs m ys ->
  forall s, s ∈ ys -> exists k, tight k (round2 (pass (map snd ys) s.2))
    /\ rounded (IZR k / 100) (round2 (pass (map snd ys) s.2))
    /\ (Rabs (IZR k - 10000 * (V s.2 / sumR (map (fun s => V s.2) ys))) <= 501 / 1000)%R.
Proof.
  intros Hm Hv s Hs. pose proof u_bound as Hu. pose proof eta_bound as He.
  destruct (validLegs_numbers m ys Hm Hv) as (Hlen & Hall & HS & Heq & Helem).
  destruct (Helem s Hs) as [Hin Hle].
  destruct (pass_spec (map snd ys) Hlen Hall HS s.2 Hin) as (Hfp & Hp0 & Hp).
  rewrite Heq in *. set (S := sumR (map (fun s : Q * JS.number => V s.2) ys)) in *.
  assert (0 <= V s.2 / S <= 1)%R as Hshare.
  { assert (V s.2 / S * S = V s.2)%R as Hx by (field; lra).
    set (x := (V s.2 / S)%R) in *. split; nra. }
  apply Rabs_le_inv in Hp.
  destruct (scale_spec (pass (map snd ys) s.2) n100 20000 Hfp n100_fin) as [Hfc Hvc].
  { rewrite n100_val. apply Rabs_le. lra. } { lra. }
  rewrite n100_val in Hvc.
  destruct (round_near _ Hfc) as (k & Hk & Ht & Hr).
  { apply Rabs_le. lra. }
  exists k. split; [exact Ht|]. split; [exact Hr|]. apply Rabs_le. lra.
Qed.

Lemma venue_fixup sum p0 k0 j :
  fin sum -> tight k0 p0 -> 0 <= k0 <= 10000 -> -2 <= j <= 2 ->
  (Rabs (V sum - (100 - IZR j / 100)) <= 5000 * u)%R ->
  JS.strict_ne sum n100 = true ->
  near (k0 + j) (round2 (JS.add p0 (JS.sub n100 sum))).
Proof.
  intros Hfs [Hfp Hvp] Hk0 Hj Hs _. pose proof u_bound as Hu. pose proof eta_bound as He.
  assert (0 <= IZR k0 <= 10000)%R as Hk0R by (split; apply IZR_le; lia).
  assert (-2 <= IZR j <= 2)%R as HjR by (split; apply IZR_le; lia).
  apply Rabs_le_inv in Hvp, Hs.
  pose proof (sub_spec n100 sum n100_fin Hfs) as Hsub. rewrite n100_val in Hsub.
  assert (Rabs (100 - V sum) <= 1)%R as Hd1 by (apply Rabs_le; lra).
  specialize (Hsub ltac:(apply fits_small; lra)).
  destruct (rounded_facts _ _ 1 Hsub Hd1) as [HfD HvD].
  pose proof (add_spec p0 _ Hfp HfD) as Hadd.
  assert (Rabs (V p0 + V (JS.sub n100 sum)) <= 200)%R as Ha1 by (apply Rabs_le; lra).
  specialize (Hadd ltac:(apply fits_small; lra)).
  destruct (rounded_facts _ _ 200 Hadd Ha1) as [HfA HvA].
  destruct (scale_spec (JS.add p0 (JS.sub n100 sum)) n100 20000 HfA n100_fin) as [Hfc Hvc].
  { rewrite n100_val. apply Rabs_le. lra. } { lra. }
  rewrite n100_val in Hvc.
  destruct (round_near _ Hfc) as (k & Hk & Ht & _).
  { apply Rabs_le. lra. }
  assert (k = k0 + j) as ->.
  { apply (int_unique _ _ _ Hk). rewrite plus_IZR. apply Rabs_def1; lra. }
  by apply tight_near.
Qed.

Lemma renormalize_spec (ys : list (Q * JS.number)) :
  validLegs 1 ys ->
  exists ks,
    Forall2 (fun leg k => near k leg.2 /\ 100 <= k <= 10000 /\ (1 <= V leg.2)%R)
      (renormalize ys) ks
    /\ map fst (renormalize ys) = map fst ys
    /\ sumZ ks = 10000.
Proof.
  intros Hv. pose proof Hv as ((q0 & y0 & rest & Hys & Hlen & Hhead) & Hall & Hsum).
  rewrite renormalize_finish.
  apply (finish_spec _ _ MIN_SPLIT_PERCENTAGE 1%R 100 MIN_SPLIT_fin MIN_SPLIT_val
           ltac:(lra) ltac:(lra) ys q0 y0 rest); try done.
  - eapply Forall_impl; [exact Hall|]. by intros s [_ ?].
  - apply (venue_conv ys 1); [lra|done].
  - apply venue_fixup.
Qed.

(** [normalizeSplits] of the per-route optimizer. *)
Lemma normalizeSplits_finish (ys : list (Q * JS.number)) :
  (let totalPercentage := sumNumbers (map snd ys) in
   let validSplits :=
     map (fun s => (fst s, normalized totalPercentage (snd s))) ys in
   let sum := sumNumbers (map snd validSplits) in
   if JS.strict_ne sum n100 && (0 <? length validSplits)%nat
   then adjustFirst
          (fun p => JS.add p (JS.div (JS.Math_round (JS.mul (JS.sub n100 sum) n100)) n100))
          validSplits
   else validSplits)
  = finish (fun y => normalized (sumNumbers (map snd ys)) y)
           (fun sum p =>
              JS.add p (JS.div (JS.Math_round (JS.mul (JS.sub n100 sum) n100)) n100)) ys.
Proof. reflexivity. Qed.

Lemma route_conv (ys : list (Q * JS.number)) m :
  (0 <= m)%R -> validLegs m ys ->
  forall s, s ∈ ys -> exists k, tight k (normalized (sumNumbers (map snd ys)) s.2)
    /\ rounded (IZR k / 100) (normalized (sumNumbers (map snd ys)) s.2)
    /\ (Rabs (IZR k - 10000 * (V s.2 / sumR (map (fun s => V s.2) ys))) <= 501 / 1000)%R.
Proof.
  intros Hm Hv s Hs. pose proof u_bound as Hu. pose proof eta_bound as He.
  destruct (validLegs_numbers m ys Hm Hv) as (Hlen & Hall & HS & Heq & Helem).
  destruct (Helem s Hs) as [Hin Hle].
  destruct (share_spec (map snd ys) Hlen Hall HS s.2 Hin) as (Hfd & Hd0 & Hd).
  rewrite Heq in *. set (S := sumR (map (fun s : Q * JS.number => V s.2) ys)) in *.
  assert (0 <= V s.2 / S <= 1)%R as Hshare.
  { assert (V s.2 / S * S = V s.2)%R as Hx by (field; lra).
    set (x := (V s.2 / S)%R) in *. split; nra. }
  apply Rabs_le_inv in Hd.
  destruct (scale_spec (JS.div s.2 (sumNumbers (map snd ys))) n10000 20000 Hfd n10000_fin)
    as [Hfc Hvc].
  { rewrite n10000_val. apply Rabs_le. lra. } { lra. }
  rewrite n10000_val in Hvc.
  destruct (round_near _ Hfc) as (k & Hk & Ht & Hr).
  { apply Rabs_le. lra. }
  exists k. split; [exact Ht|]. split; [exact Hr|]. apply Rabs_le. lra.
Qed.

Lemma route_fixup sum p0 k0 j :
  fin sum -> tight k0 p0 -> 0 <= k0 <= 10000 -> -2 <= j <= 2 ->
  (Rabs (V sum - (100 - IZR j / 100)) <= 5000 * u)%R ->
  JS.strict_ne sum n100 = true ->
  near (k0 + j)
    (JS.add p0 (JS.div (JS.Math_round (JS.mul (JS.sub n100 sum) n100)) n100)).
Proof.
  intros Hfs [Hfp Hvp] Hk0 Hj Hs _. pose proof u_bound as Hu. pose proof eta_bound as He.
  assert (0 <= IZR k0 <= 10000)%R as Hk0R by (split; apply IZR_le; lia).
  assert (-2 <= IZR j <= 2)%R as HjR by (split; apply IZR_le; lia).
  apply Rabs_le_inv in Hvp, Hs.
  pose proof (sub_spec n100 sum n100_fin Hfs) as Hsub. rewrite n100_val in Hsub.
  assert (Rabs (100 - V sum) <= 1)%R as Hd1 by (apply Rabs_le; lra).
  specialize (Hsub ltac:(apply fits_small; lra)).
  destruct (rounded_facts _ _ 1 Hsub Hd1) as [HfD HvD].
  destruct (scale_spec (JS.sub n100 sum) n100 200 HfD n100_fin) as [Hfc Hvc].
  { rewrite n100_val. apply Rabs_le. lra. } { lra. }
  rewrite n100_val in Hvc.
  destruct (round_int (JS.mul (JS.sub n100 sum) n100) j Hfc) as (HfR & HvR & _).
  { apply Rabs_le. lra. } { lia. }
  pose proof (div_spec _ n100 HfR n100_fin) as Hdiv. rewrite n100_val, HvR in Hdiv.
  assert (Rabs (IZR j / 100) <= 1)%R as Hq by (apply Rabs_le; lra).
  specialize (Hdiv ltac:(lra) ltac:(apply fits_small; lra)).
  destruct (rounded_facts _ _ 1 Hdiv Hq) as [Hfdd Hvdd].
  pose proof (add_spec p0 _ Hfp Hfdd) as Hadd.
  assert (Rabs (V p0 + V (JS.div (JS.Math_round (JS.mul (JS.sub n100 sum) n100)) n100))
          <= 200)%R as Ha1 by (apply Rabs_le; lra).
  specialize (Hadd ltac:(apply fits_small; lra)).
  destruct (rounded_facts _ _ 200 Hadd Ha1) as [HfA HvA].
  split; [done|]. rewrite plus_IZR. apply Rabs_le. lra.
Qed.

Lemma finish_route_spec (ys : list (Q * JS.number)) :
  validLegs 5 ys ->
  exists ks,
    Forall2 (fun leg k => near k leg.2 /\ 500 <= k <= 10000 /\ (5 <= V leg.2)%R)
      (finish (fun y => normalized (sumNumbers (map snd ys)) y)
         (fun sum p =>
            JS.add p (JS.div (JS.Math_round (JS.mul (JS.sub n100 sum) n100)) n100)) ys) ks
    /\ map fst (finish (fun y => normalized (sumNumbers (map snd ys)) y)
         (fun sum p =>
            JS.add p (JS.div (JS.Math_round (JS.mul (JS.sub n100 sum) n100)) n100)) ys)
       = map fst ys
    /\ sumZ ks = 10000.
Proof.
  intros Hv. pose proof Hv as ((q0 & y0 & rest & Hys & Hlen & Hhead) & Hall & Hsum).
  apply (finish_spec _ _ MIN_ROUTE_PERCENTAGE 5%R 500 MIN_ROUTE_fin MIN_ROUTE_val
           ltac:(lra) ltac:(lra) ys q0 y0 rest); try done.
  - eapply Forall_impl; [exact Hall|]. by intros s [_ ?].
  - apply (route_conv ys 5); [lra|done].
  - apply route_fixup.
Qed.

End Legs.


(** ** Dropping the legs below the minimum *)

Lemma percents_weaken h h' ps : (h' <= h)%R -> percents h ps -> percents h' ps.
Proof.
  intros Hh (H1 & H2 & H3 & p0 & rest & H4 & H5).
  split; [done|]. split; [done|]. split; [done|]. exists p0, rest. split; [done|lra].
Qed.

Lemma sumR_filter {A} (g : A -> R) (P : A -> Prop) `{!forall x, Decision (P x)} l :
  Forall (fun a => 0 <= g a)%R l ->
  (sumR (map g (filter P l)) <= sumR (map g l))%R.
Proof.
  induction 1 as [|a l Ha Hl IH]; [simpl; lra|].
  rewrite filter_cons. destruct (decide (P a)); simpl; fold (sumR (map g l));
    fold (sumR (map g (filter P l))); lra.
Qed.

Section Filter.
Context {Q : Type}.
Variable MIN : JS.number.
Variable minPercent : R.
Hypothesis MIN_fin : fin MIN.
Hypothesis MIN_val : V MIN = minPercent.
Hypothesis MIN_range : (0 <= minPercent <= 33)%R.

Local Abbreviation aboveMin := (fun s : Q * JS.number => JS.ge (snd s) MIN = true).

(** The legs kept by the filter: the first quote is always among them. *)
Lemma filter_spec (top : list Q) ps :
  percents 33 ps -> length top = length ps ->
  exists q0 y0 rest,
    filter aboveMin (zip top ps) = (q0, y0) :: rest
    /\ head top = Some q0 /\ (33 <= V y0)%R /\ (length rest <= 2)%nat
    /\ Forall (fun s => fin s.2 /\ (minPercent <= V s.2)%R) (filter aboveMin (zip top ps))
    /\ (sumR (map (fun s => V s.2) (filter aboveMin (zip top ps))) <= 100 + 9900 * u)%R
    /\ Forall (fun s => s.1 ∈ top) (filter aboveMin (zip top ps)).
Proof.
  intros (Hlen & Hall & Hsum & p0 & prest & -> & Hhead) Hlt.
  pose proof MIN_fin as Hmf. pose proof MIN_val as Hmv. pose proof MIN_range as Hmr.
  destruct top as [|q0 top']; [done|]. simpl in Hlt, Hlen.
  assert (forall s, s ∈ zip (q0 :: top') (p0 :: prest) -> fin s.2 /\ (0 <= V s.2)%R) as Hzip.
  { intros [q p] Hs. apply elem_of_zip_r in Hs. rewrite Forall_forall in Hall. by apply Hall. }
  assert (aboveMin (q0, p0)) as Hq0.
  { unfold JS.ge. cbn [snd]. apply SFleb_fin; [done| |lra].
    apply (Hzip (q0, p0)). simpl. left. }
  cbn [zip zip_with]. rewrite filter_cons_True by done.
  exists q0, p0, (filter aboveMin (zip top' prest)).
  split; [done|]. split; [done|]. split; [done|]. split.
  { etrans; [apply length_filter|]. rewrite length_zip. lia. }
  rewrite <- (filter_cons_True aboveMin) by done.
  change ((q0, p0) :: zip top' prest) with (zip (q0 :: top') (p0 :: prest)).
  split; [|split].
  - rewrite Forall_forall. intros s [Hs Hin]%list_elem_of_filter.
    destruct (Hzip s Hin) as [Hf _]. split; [done|].
    unfold JS.ge in Hs. cbn beta in Hs. apply SFleb_fin in Hs; [lra|done..].
  - eapply Rle_trans; [apply (sumR_filter (fun s : Q * JS.number => V s.2))|].
    + rewrite Forall_forall. intros s Hs. by apply Hzip.
    + rewrite <- (map_map snd V), snd_zip by (simpl; lia).
      apply Rabs_le_inv in Hsum. lra.
  - rewrite Forall_forall. intros [q p] [_ Hin]%list_elem_of_filter.
    by apply elem_of_zip_l in Hin.
Qed.

End Filter.


(** ** The legs [calculateDynamicSplit] returns *)

Import RouteOptimizerService(normalizePercentages, MAX_SPLITS).
Import QuoteService(routeSplits, MAX_ROUTE_SPLITS).

Lemma near_100 : near 10000 n100.
Proof.
  split; [apply n100_fin|]. rewrite n100_val. pose proof u_bound.
  replace (100 - 10000 / 100)%R with 0%R by lra. rewrite Rabs_R0. lra.
Qed.

Lemma first_pass_percents {Q} (out : Q -> Z) top :
  (length top <= 3)%nat -> ranked out top ->
  percents (3332 / 100) (map (pass (outputs out top)) (outputs out top)).
Proof.
  intros Hlen Hr. pose proof u_bound as Hu.
  destruct (outputs_spec out top Hlen Hr) as (x0 & rest & Hx & Hall & HS & Hhead).
  eapply percents_weaken; [|eapply (pass_percents _ x0 rest (3333 / 10000)); try done].
  - lra.
  - unfold outputs. by rewrite length_map.
Qed.

Lemma second_pass_percents raw :
  percents (3332 / 100) raw -> percents 33 (normalizePercentages raw).
Proof.
  intros (Hlen & Hall & Hsum & p0 & rest & Hraw & Hhead). pose proof u_bound as Hu.
  apply Rabs_le_inv in Hsum.
  pose proof (bpow_le 7 300 ltac:(lia)) as H7.
  rewrite (bpow_IZR 7) in H7 by lia. change (2 ^ 7) with 128 in H7.
  change (normalizePercentages raw) with (map (pass raw) raw).
  eapply percents_weaken; [|eapply (pass_percents _ p0 rest (3331 / 10000)); try done].
  - lra.
  - lra.
  - lra.
Qed.

Lemma calculateDynamicSplit_unfold quotes :
  calculateDynamicSplit quotes
  = let top := take 3 quotes in
    let xs := outputs DexQuoteService.amountOut top in
    match filter (fun s => JS.ge (snd s) MIN_SPLIT_PERCENTAGE = true)
            (zip top (normalizePercentages (map (pass xs) xs))) with
    | [(q, _)] => [(q, n100)]
    | valid => renormalize valid
    end.
Proof.
  unfold calculateDynamicSplit. cbv zeta.
  change (JS.slice0 MAX_SPLITS quotes) with (take 3 quotes).
  change (map (fun q => JS.Number_of_bigint (DexQuoteService.amountOut q)) (take 3 quotes))
    with (outputs DexQuoteService.amountOut (take 3 quotes)).
  set (xs := outputs DexQuoteService.amountOut (take 3 quotes)).
  change (map (fun output => JS.mul (JS.div output (sumNumbers xs)) n100) xs)
    with (map (pass xs) xs).
  destruct (filter _ _) as [|[q s] [|p0 l0]]; reflexivity.
Qed.

Lemma calculateDynamicSplit_spec quotes :
  ranked DexQuoteService.amountOut (take 3 quotes) ->
  exists ks,
    Forall2 (fun leg k => near k leg.2 /\ 100 <= k <= 10000 /\ (1 <= V leg.2)%R)
      (calculateDynamicSplit quotes) ks
    /\ sumZ ks = 10000
    /\ Forall (fun leg => leg.1 ∈ take 3 quotes) (calculateDynamicSplit quotes)
    /\ (length (calculateDynamicSplit quotes) <= 3)%nat.
Proof.
  intros Hr. rewrite calculateDynamicSplit_unfold. cbv zeta.
  set (top := take 3 quotes) in *.
  assert (length top <= 3)%nat as Hlen by (unfold top; rewrite length_take; lia).
  set (xs := outputs DexQuoteService.amountOut top).
  pose proof (second_pass_percents _ (first_pass_percents _ top Hlen Hr)) as Hp.
  fold xs in Hp.
  destruct (filter_spec MIN_SPLIT_PERCENTAGE 1 MIN_SPLIT_fin MIN_SPLIT_val ltac:(lra) top _ Hp)
    as (q0 & y0 & rest & Hv & Hhd & Hy0 & Hlr & Hall & Hsum & Hmem).
  { unfold normalizePercentages, xs, outputs. by rewrite !length_map. }
  rewrite Hv in *. destruct rest as [|r1 rest].
  - exists [10000]. split; [|split; [done|split; [|simpl; lia]]].
    + constructor; [|constructor]. split; [apply near_100|]. split; [lia|].
      cbn [snd]. rewrite n100_val. lra.
    + constructor; [|constructor]. apply Forall_cons in Hmem as [Hm _]. exact Hm.
  - assert (validLegs 1 ((q0, y0) :: r1 :: rest)) as Hvl.
    { split; [|done]. exists q0, y0, (r1 :: rest). split; [done|]. split; [|done].
      simpl in *. lia. }
    destruct (renormalize_spec _ Hvl) as (ks & Hks & Hfst & Hks10).
    destruct r1 as [q1 y1].
    exists ks. split; [exact Hks|]. split; [done|]. split.
    + rewrite Forall_forall. intros leg Hleg.
      assert (leg.1 ∈ map fst (renormalize ((q0, y0) :: (q1, y1) :: rest))) as Hin.
      { apply list_elem_of_fmap. by exists leg. }
      rewrite Hfst in Hin. apply list_elem_of_fmap in Hin as (s & Heq & Hs).
      rewrite Forall_forall in Hmem. rewrite Heq. by apply Hmem.
    + apply (f_equal length) in Hfst. rewrite !length_map in Hfst. rewrite Hfst.
      simpl in *. lia.
Qed.

(** ** The legs of the per-route optimizer *)

Lemma routeSplits_unfold sorted :
  routeSplits sorted
  = let top := take 3 sorted in
    let xs := outputs RouteQuoteService.amountOut top in
    filter (fun s => JS.ge (snd s) MIN_ROUTE_PERCENTAGE = true)
      (zip top (map (pass xs) xs)).
Proof. reflexivity. Qed.

Lemma routeSplits_spec sorted :
  ranked RouteQuoteService.amountOut (take 3 sorted) ->
  (exists q0 y0 rest, routeSplits sorted = (q0, y0) :: rest
     /\ (rest <> [] -> validLegs 5 (routeSplits sorted)))
  /\ Forall (fun leg => leg.1 ∈ take 3 sorted) (routeSplits sorted).
Proof.
  intros Hr. rewrite routeSplits_unfold. cbv zeta.
  set (top := take 3 sorted) in *.
  assert (length top <= 3)%nat as Hlen by (unfold top; rewrite length_take; lia).
  set (xs := outputs RouteQuoteService.amountOut top).
  pose proof (percents_weaken (3332 / 100) 33 _ ltac:(lra) (first_pass_percents _ top Hlen Hr)) as Hp.
  fold xs in Hp.
  destruct (filter_spec MIN_ROUTE_PERCENTAGE 5 MIN_ROUTE_fin MIN_ROUTE_val ltac:(lra) top _ Hp)
    as (q0 & y0 & rest & Hv & Hhd & Hy0 & Hlr & Hall & Hsum & Hmem).
  { unfold xs, outputs. by rewrite !length_map. }
  split; [|done]. exists q0, y0, rest. split; [done|]. intros Hne.
  rewrite Hv in *. split; [|done]. exists q0, y0, rest. split; [done|]. split; [|done].
  destruct rest; [done|]. simpl in *. lia.
Qed.

Lemma normalizeSplits_spec (ys : list (RouteQuoteService.RouteQuote * JS.number)) :
  validLegs 5 ys ->
  exists ks,
    Forall2 (fun leg k => near k leg.2 /\ 500 <= k <= 10000 /\ (5 <= V leg.2)%R)
      (normalizeSplits ys) ks
    /\ map fst (normalizeSplits ys) = map fst ys
    /\ sumZ ks = 10000.
Proof. intros Hv. apply (finish_route_spec ys Hv). Qed.


(** ** Building the split plan *)

(** What the legs yield together: each leg its share of its own quote. *)
Definition legOut {Q} (out : Q -> Z) (leg : Q * JS.number) (k : Z) : Z :=
  Z.quot (out leg.1 * k) 10000.

Definition splitOut {Q} (out : Q -> Z) (legs : list (Q * JS.number)) (ks : list Z) : Z :=
  sumZ (zip_with (legOut out) legs ks).

(** Shares that add up to the whole never yield more than the best quote. *)
Lemma splitOut_le {Q} (out : Q -> Z) legs ks A :
  Forall2 (fun leg k => 0 <= out leg.1 <= A /\ 0 <= k) legs ks ->
  0 <= splitOut out legs ks /\ 10000 * splitOut out legs ks <= A * sumZ ks.
Proof.
  unfold splitOut. induction 1 as [|leg k legs ks [Ha Hk] _ IH]; [unfold sumZ; simpl; lia|].
  cbn [zip_with sumZ foldr]. fold (sumZ (zip_with (legOut out) legs ks)) (sumZ ks).
  unfold legOut at 1 3.
  assert (0 <= out leg.1 * k) as Hnn by nia.
  pose proof (Z.quot_pos (out leg.1 * k) 10000 Hnn ltac:(lia)).
  pose proof (Z.mul_quot_le (out leg.1 * k) 10000 Hnn ltac:(lia)).
  nia.
Qed.

Lemma venue_fold amountIn fd td legs ks :
  Forall2 (fun leg k => basisPoints leg.2 = Value k /\ DexDataFacts.feeTierFits leg.1)
    legs ks ->
  forall steps0 tot0 gas0 wpi0,
  exists steps' gas' wpi',
    foldl (RouteOptimizerService.splitLeg amountIn fd td)
      (Value (steps0, tot0, gas0, wpi0)) legs
    = Value (steps', tot0 + splitOut DexQuoteService.amountOut legs ks, gas', wpi')
    /\ map RouteOptimizerService.percentage steps'
       = map RouteOptimizerService.percentage steps0 ++ map snd legs.
Proof.
  induction 1 as [|[q p] k legs ks [Hk Hfee] _ IH]; intros steps0 tot0 gas0 wpi0.
  - exists steps0, gas0, wpi0. unfold splitOut. simpl. rewrite Z.add_0_r, app_nil_r. done.
  - cbn [foldl]. unfold RouteOptimizerService.splitLeg at 2. cbn [snd fst] in Hk, Hfee.
    cbn [mbind result_bind]. rewrite Hk. cbn [mbind result_bind].
    destruct (DexDataFacts.feeTierDexData_fits q Hfee) as [d ->].
    cbn [mbind result_bind].
    edestruct IH as (steps' & gas' & wpi' & Hfold & Hsteps).
    exists steps', gas', wpi'. split.
    + rewrite Hfold. do 4 f_equal. unfold splitOut, sumZ. cbn [zip_with foldr].
      unfold legOut at 2. cbn [fst]. lia.
    + rewrite Hsteps, map_app. cbn [map RouteOptimizerService.percentage].
      by rewrite <- app_assoc.
Qed.

(** The split plan is built when every weight is a whole number of basis
    points and every fee tier fits its encoding. *)
Lemma createSplitRoute_spec legs ks amountIn fd td :
  Forall2 (fun leg k => basisPoints leg.2 = Value k /\ DexDataFacts.feeTierFits leg.1)
    legs ks ->
  exists plan,
    RouteOptimizerService.createSplitRoute legs amountIn fd td = Value plan
    /\ RouteOptimizerService.isSplit plan = true
    /\ RouteOptimizerService.totalOutput plan
       = formatUnits (splitOut DexQuoteService.amountOut legs ks) td
    /\ map RouteOptimizerService.percentage (RouteOptimizerService.steps plan)
       = map snd legs.
Proof.
  intros Hks. unfold RouteOptimizerService.createSplitRoute.
  destruct (venue_fold amountIn fd td legs ks Hks [] 0 0 JS.zero)
    as (steps' & gas' & wpi' & -> & Hsteps).
  cbn [mbind result_bind]. eexists. split; [reflexivity|]. cbn. done.
Qed.

(** What a split plan holds, whenever it is built. *)
Lemma createSplitRoute_plan legs amountIn fd td plan :
  RouteOptimizerService.createSplitRoute legs amountIn fd td = Value plan ->
  RouteOptimizerService.isSplit plan = true
  /\ map RouteOptimizerService.percentage (RouteOptimizerService.steps plan)
     = map snd legs.
Proof.
  unfold RouteOptimizerService.createSplitRoute.
  assert (forall legs steps0 tot0 gas0 wpi0 steps' tot' gas' wpi',
            foldl (RouteOptimizerService.splitLeg amountIn fd td)
              (Value (steps0, tot0, gas0, wpi0)) legs
            = Value (steps', tot', gas', wpi') ->
            map RouteOptimizerService.percentage steps'
            = map RouteOptimizerService.percentage steps0 ++ map snd legs) as Hfold.
  { clear. induction legs as [|[q p] legs IH]; intros steps0 tot0 gas0 wpi0 steps' tot' gas' wpi'.
    - intros [= <- _ _ _]. simpl. by rewrite app_nil_r.
    - cbn [foldl]. unfold RouteOptimizerService.splitLeg at 2.
      cbn [mbind result_bind].
      destruct (basisPoints p) as [k|]; cbn [mbind result_bind].
      2:{ intros Hf. exfalso. revert Hf. clear. induction legs as [|l legs IH]; [done|].
          cbn [foldl]. exact IH. }
      destruct (RouteOptimizerService.feeTierDexData q) as [d|]; cbn [mbind result_bind].
      2:{ intros Hf. exfalso. revert Hf. clear. induction legs as [|l legs IH]; [done|].
          cbn [foldl]. exact IH. }
      intros Hf. rewrite (IH _ _ _ _ _ _ _ _ Hf), map_app. cbn [map RouteOptimizerService.percentage].
      by rewrite <- app_assoc. }
  destruct (foldl _ _ legs) as [[[[steps' tot'] gas'] wpi']|] eqn:Hf; [|discriminate].
  cbn [mbind result_bind]. intros [= <-]. split; [done|].
  cbn [RouteOptimizerService.steps]. by rewrite (Hfold _ _ _ _ _ _ _ _ _ Hf).
Qed.

Lemma route_fold legs ks :
  Forall2 (fun (leg : RouteQuoteService.RouteQuote * JS.number) k =>
             JS.BigInt_of_number (JS.Math_round (JS.mul (JS.div leg.2 n100) n10000))
             = Value k) legs ks ->
  forall tot0 gas0 wpi0,
  exists gas' wpi',
    foldl QuoteService.splitLeg (Value (tot0, gas0, wpi0)) legs
    = Value (tot0 + splitOut RouteQuoteService.amountOut legs ks, gas', wpi').
Proof.
  induction 1 as [|[q p] k legs ks Hk _ IH]; intros tot0 gas0 wpi0.
  - exists gas0, wpi0. unfold splitOut. simpl. by rewrite Z.add_0_r.
  - cbn [foldl]. unfold QuoteService.splitLeg at 2. cbn [snd fst] in *.
    cbn [mbind result_bind]. rewrite Hk. cbn [mbind result_bind].
    edestruct IH as (gas' & wpi' & Hfold).
    exists gas', wpi'. rewrite Hfold. do 3 f_equal. unfold splitOut, sumZ.
    cbn [zip_with foldr]. unfold legOut at 2. cbn [fst]. lia.
Qed.


(** ** The profitability gate *)

Import RouteOptimizerService(splitGate, splitThreshold).

Lemma pow10_bound td : (td <= 255)%nat -> 0 < 10 ^ Z.of_nat td <= 2 ^ 848.
Proof.
  intros Htd. split; [apply Z.pow_pos_nonneg; lia|].
  etrans; [apply (Z.pow_le_mono_r 10 _ 255); lia|].
  apply Z.leb_le. vm_compute. reflexivity.
Qed.

Lemma splitThreshold_spec :
  fin splitThreshold /\ (10009 / 10000 <= V splitThreshold <= 10011 / 10000)%R.
Proof.
  pose proof u_bound as Hu. pose proof eta_bound as He.
  pose proof (of_ratio_spec 1001 1000) as Hr.
  assert (Rabs (1001 / 1000) <= 2)%R as Hb by (apply Rabs_le; lra).
  specialize (Hr ltac:(apply fits_small; lra)).
  destruct (rounded_facts _ _ 2 Hr Hb) as [Hf Hv]. split; [done|].
  unfold splitThreshold. lra.
Qed.

Lemma parseFloat_formatUnits z td :
  parseFloat (formatUnits z td) = JS.of_ratio z (Z.to_pos (10 ^ Z.of_nat td)).
Proof. reflexivity. Qed.

Lemma gate_false_zero td td' :
  splitGate (formatUnits 0 td) (formatUnits 0 td') = false.
Proof.
  unfold splitGate. rewrite !parseFloat_formatUnits. unfold JS.of_ratio.
  vm_compute. reflexivity.
Qed.

(** With shares of a whole, the split plan never passes the gate: its
    output is at most the best quote's. *)
Lemma gate_false S A td :
  0 <= S <= A -> A < 2 ^ 256 -> (td <= 255)%nat ->
  splitGate (formatUnits S td) (formatUnits A td) = false.
Proof.
  intros HS HA Htd. unfold splitGate. rewrite !parseFloat_formatUnits.
  destruct (Z.eq_dec A 0) as [HA0|HA0].
  { assert (S = 0) as -> by lia. rewrite HA0. unfold JS.of_ratio. vm_compute. reflexivity. }
  pose proof u_bound as Hu. pose proof eta_bound as He.
  destruct (pow10_bound td Htd) as [HD0 HD1].
  set (D := 10 ^ Z.of_nat td) in *.
  assert (IZR (Z.pos (Z.to_pos D)) = IZR D) as HDp by (rewrite Z2Pos.id; done).
  assert (1 <= IZR D <= bpow 848)%R as HDR.
  { split; [apply IZR_le; lia|]. rewrite bpow_IZR by lia. by apply IZR_le. }
  assert (1 <= IZR A <= bpow 256)%R as HAR.
  { split; [apply IZR_le; lia|]. rewrite bpow_IZR by lia. apply IZR_le. lia. }
  assert (0 <= IZR S <= IZR A)%R as HSR by (split; apply IZR_le; lia).
  set (X := (IZR A / IZR D)%R).
  assert (X * IZR D = IZR A)%R as HX by (unfold X; field; lra).
  assert (bpow (-848) * bpow 848 = 1)%R as H848.
  { rewrite <- bpow_add. done. }
  pose proof (bpow_pos (-848)) as Hp848. pose proof (bpow_pos 848) as Hp848'.
  assert (bpow (-848) <= X <= bpow 256)%R as HXb.
  { split.
    - assert (bpow (-848) * IZR D <= X * IZR D)%R by nra.
      apply Rmult_le_reg_r with (IZR D); lra.
    - assert (0 <= X)%R by (apply Rmult_le_reg_r with (IZR D); nra). nra. }
  assert (bpow (-1022) <= bpow (-849))%R as Hn1 by (apply bpow_le; lia).
  assert (bpow (-849) = bpow (-848) / 2)%R as Hn2.
  { change (-849) with (-848 - 1). apply bpow_pred. }
  assert (bpow 256 * 1000000 <= bpow 300)%R as Hbig.
  { assert (1000000 <= bpow 20)%R by (rewrite bpow_IZR by lia; apply IZR_le; done).
    assert (bpow 256 * bpow 20 <= bpow 300)%R by (rewrite <- bpow_add; apply bpow_le; lia).
    pose proof (bpow_pos 256). nra. }
  pose proof bpow_1000 as Hbig'. pose proof (bpow_pos 256) as Hp256.
  (* the best quote *)
  pose proof (of_ratio_spec A (Z.to_pos D)) as HPA. rewrite HDp in HPA. fold X in HPA.
  specialize (HPA ltac:(apply fits; rewrite Rabs_pos_eq by lra; nra)).
  destruct HPA as (HfA & _ & HeA & _).
  rewrite Rabs_pos_eq in HeA by lra. specialize (HeA ltac:(lra)).
  apply Rabs_le_inv in HeA.
  set (PA := JS.of_ratio A (Z.to_pos D)) in *.
  assert (0 <= u * X <= X / 1000000)%R as HuX by nra.
  (* times the threshold *)
  destruct splitThreshold_spec as [HfT HvT].
  pose proof (mul_spec PA splitThreshold HfA HfT) as Hg.
  assert (X * (10008 / 10000) <= V PA * V splitThreshold <= X * (10012 / 10000))%R as Hprod by nra.
  specialize (Hg ltac:(apply fits; rewrite Rabs_pos_eq by nra; nra)).
  destruct Hg as (Hfg & _ & Heg & _).
  rewrite Rabs_pos_eq in Heg by nra. specialize (Heg ltac:(nra)).
  apply Rabs_le_inv in Heg.
  set (g := JS.mul PA splitThreshold) in *.
  assert (0 <= u * (V PA * V splitThreshold) <= X / 100000)%R as Hug by nra.
  assert (X <= V g)%R as HXg by lra.
  (* the split plan *)
  pose proof (of_ratio_spec S (Z.to_pos D)) as HPS. rewrite HDp in HPS.
  assert (0 <= IZR S / IZR D <= X)%R as HSX.
  { assert (IZR S / IZR D * IZR D = IZR S)%R as HY by (field; lra).
    set (Y := (IZR S / IZR D)%R) in *. split; apply Rmult_le_reg_r with (IZR D); nra. }
  specialize (HPS ltac:(apply fits; rewrite Rabs_pos_eq by lra; nra)).
  pose proof (rounded_le _ _ g HPS Hfg ltac:(lra)) as Hle.
  destruct HPS as (HfS & _).
  unfold JS.gt. destruct (SFltb g (JS.of_ratio S (Z.to_pos D))) eqn:Hlt; [|done].
  apply SFltb_fin in Hlt; [lra|done..].
Qed.

End NumberFacts.

(* ===================================================================== *)
(** * The split optimizers *)
(* ===================================================================== *)

Module SplitFacts.
Import FloatCore NumberFacts.
Import DexDataFacts(uint24, feeTierFits, encodable).
Import RouteOptimizerService(byAmountOutDesc, sumNumbers, n100, basisPoints, splitGate,
                             calculateDynamicSplit, findOptimalRoute, createSingleRoute,
                             createSplitRoute, first, MIN_SPLIT_PERCENTAGE).
Import QuoteService(routeSplits, normalizeSplits, optimizeRouteSplit, singleBest,
                    MIN_ROUTE_PERCENTAGE, n10000).

Local Abbreviation V := B2R.

(** An amount read from a quoter contract. *)
Definition uint256 (z : Z) : Prop := 0 <= z < 2 ^ 256.

Lemma byAmountOutDesc_key {Q} (out : Q -> Z) x y :
  (byAmountOutDesc out x y <=? 0) = (out y <=? out x).
Proof.
  unfold byAmountOutDesc.
  destruct (Z.ltb_spec (out x) (out y)), (Z.ltb_spec (out y) (out x)),
    (Z.leb_spec (out y) (out x)); simpl; first [done|lia].
Qed.

Lemma sorted_best {Q} (out : Q -> Z) quotes :
  quotes <> [] -> Forall (fun q => uint256 (out q)) quotes ->
  exists best rest,
    JS.sort (byAmountOutDesc out) quotes = best :: rest
    /\ uint256 (out best)
    /\ Forall (fun q => 0 <= out q <= out best) (best :: rest).
Proof.
  intros Hne Hall.
  destruct (JS.sort (byAmountOutDesc out) quotes) as [|best rest] eqn:Hs.
  { apply (f_equal length) in Hs. rewrite sort_length in Hs. by destruct quotes. }
  exists best, rest. split; [done|].
  rewrite Forall_forall in Hall.
  assert (forall q, q ∈ best :: rest -> q ∈ quotes) as Hin.
  { intros q Hq. rewrite <- Hs in Hq. by apply sort_elem in Hq. }
  split; [apply Hall, Hin; left|].
  rewrite Forall_forall. intros q Hq. specialize (Hin q Hq).
  pose proof (Hall q Hin) as [H0 _]. split; [done|].
  eapply (sort_head_max _ out (byAmountOutDesc_key out)); [exact Hs|done].
Qed.

(** The first of the sorted quotes is a quote with the largest output. *)
Lemma sorted_head {Q} (out : Q -> Z) quotes :
  quotes <> [] ->
  exists best rest,
    JS.sort (byAmountOutDesc out) quotes = best :: rest
    /\ best ∈ quotes
    /\ forall q, q ∈ quotes -> out q <= out best.
Proof.
  intros Hne.
  destruct (JS.sort (byAmountOutDesc out) quotes) as [|best rest] eqn:Hs.
  { apply (f_equal length) in Hs. rewrite sort_length in Hs. by destruct quotes. }
  exists best, rest. split; [done|]. split.
  - apply (sort_elem (byAmountOutDesc out)). rewrite Hs. left.
  - by eapply (sort_head_max _ out (byAmountOutDesc_key out)).
Qed.

Lemma top_ranked {Q} (out : Q -> Z) best rest :
  1 <= out best -> uint256 (out best) ->
  Forall (fun q => 0 <= out q <= out best) (best :: rest) ->
  ranked out (take 3 (best :: rest)).
Proof.
  intros H1 [_ H2] Hall. exists best, (take 2 rest). split; [done|]. split; [lia|].
  change (best :: take 2 rest) with (take 3 (best :: rest)). by apply Forall_take.
Qed.

Lemma Forall2_and_l {A B} (P : A -> B -> Prop) (R : A -> Prop) l k :
  Forall2 P l k -> Forall R l -> Forall2 (fun a b => P a b /\ R a) l k.
Proof.
  induction 1; intros HR; [constructor|].
  apply Forall_cons in HR as [? ?]. constructor; auto.
Qed.

(** ** Quotes that are all zero *)

Lemma zero_outputs {Q} (out : Q -> Z) top :
  Forall (fun q => out q = 0) top -> outputs out top = replicate (length top) JS.zero.
Proof.
  induction 1 as [|q top Hq _ IH]; [done|].
  cbn [outputs map length replicate]. rewrite Hq. f_equal. exact IH.
Qed.

Lemma zip_filter_nil {Q} (top : list Q) MIN ps :
  Forall (fun p => JS.ge p MIN = false) ps ->
  filter (fun s : Q * JS.number => JS.ge (snd s) MIN = true) (zip top ps) = [].
Proof.
  intros Hps. revert top. induction Hps as [|p ps Hp _ IH]; intros [|q top]; try done.
  cbn [zip zip_with]. rewrite filter_cons_False; [apply IH|].
  cbn [snd]. congruence.
Qed.

Lemma all_zero {Q} (out : Q -> Z) best l :
  out best = 0 -> Forall (fun q => 0 <= out q <= out best) l ->
  Forall (fun q => out q = 0) l.
Proof. intros H0 Hall. eapply Forall_impl; [exact Hall|]. simpl. intros. lia. Qed.

Lemma calculateDynamicSplit_zero quotes :
  Forall (fun q => DexQuoteService.amountOut q = 0) (take 3 quotes) ->
  calculateDynamicSplit quotes = [].
Proof.
  intros Hz. rewrite calculateDynamicSplit_unfold. cbv zeta.
  rewrite (zero_outputs _ _ Hz).
  assert (length (take 3 quotes) <= 3)%nat as Hlen by (rewrite length_take; lia).
  rewrite zip_filter_nil; [vm_compute; reflexivity|].
  destruct (length (take 3 quotes)) as [|[|[|[|n]]]]; try lia;
    vm_compute; repeat constructor.
Qed.

Lemma routeSplits_zero sorted :
  Forall (fun q => RouteQuoteService.amountOut q = 0) (take 3 sorted) ->
  routeSplits sorted = [].
Proof.
  intros Hz. rewrite routeSplits_unfold. cbv zeta.
  rewrite (zero_outputs _ _ Hz).
  assert (length (take 3 sorted) <= 3)%nat as Hlen by (rewrite length_take; lia).
  apply zip_filter_nil.
  destruct (length (take 3 sorted)) as [|[|[|[|n]]]]; try lia;
    vm_compute; repeat constructor.
Qed.

(** ** The legs of the per-venue plan *)

Lemma venue_legs best rest :
  uint256 (DexQuoteService.amountOut best) ->
  Forall (fun q => 0 <= DexQuoteService.amountOut q <= DexQuoteService.amountOut best)
    (best :: rest) ->
  exists ks,
    Forall2 (fun leg k => basisPoints leg.2 = Value k
               /\ 0 <= k
               /\ 0 <= DexQuoteService.amountOut leg.1 <= DexQuoteService.amountOut best
               /\ leg.1 ∈ best :: rest)
      (calculateDynamicSplit (best :: rest)) ks
    /\ sumZ ks <= 10000.
Proof.
  intros Hb Hall.
  assert (Forall (fun q => 0 <= DexQuoteService.amountOut q <= DexQuoteService.amountOut best)
            (take 3 (best :: rest))) as Htop by (by apply Forall_take).
  assert (Forall (fun q => q ∈ best :: rest) (take 3 (best :: rest))) as Hsub.
  { apply Forall_take. by rewrite Forall_forall. }
  destruct (Z.eq_dec (DexQuoteService.amountOut best) 0) as [H0|H0].
  - rewrite calculateDynamicSplit_zero; [|by eapply all_zero].
    exists []. split; [constructor|]. simpl. lia.
  - destruct (calculateDynamicSplit_spec (best :: rest)) as (ks & Hks & Hsum & Hmem & _).
    { apply top_ranked; [unfold uint256 in Hb; lia|done..]. }
    exists ks. split; [|lia].
    eapply Forall2_impl; [apply (Forall2_and_l _ _ _ _ Hks Hmem)|].
    intros leg k [(Hn & Hk & _) Hin]. cbv beta in *.
    split; [apply near_basisPoints; [done|lia]|]. split; [lia|].
    rewrite Forall_forall in Htop. rewrite Forall_forall in Hsub.
    split; [by apply Htop|by apply Hsub].
Qed.

(** ** The legs of the per-route plan *)

Lemma route_legs best rest :
  uint256 (RouteQuoteService.amountOut best) ->
  Forall (fun q => 0 <= RouteQuoteService.amountOut q <= RouteQuoteService.amountOut best)
    (best :: rest) ->
  (2 <= length (routeSplits (best :: rest)))%nat ->
  exists ks,
    Forall2 (fun leg k => near k leg.2 /\ 500 <= k <= 10000 /\ (5 <= V leg.2)%R
               /\ 0 <= RouteQuoteService.amountOut leg.1 <= RouteQuoteService.amountOut best)
      (normalizeSplits (routeSplits (best :: rest))) ks
    /\ sumZ ks = 10000
    /\ (length (normalizeSplits (routeSplits (best :: rest))) <= 3)%nat.
Proof.
  intros Hb Hall Hlen.
  assert (Forall (fun q => 0 <= RouteQuoteService.amountOut q
                           <= RouteQuoteService.amountOut best)
            (take 3 (best :: rest))) as Htop by (by apply Forall_take).
  destruct (Z.eq_dec (RouteQuoteService.amountOut best) 0) as [H0|H0].
  { rewrite routeSplits_zero in Hlen; [simpl in Hlen; lia|by eapply all_zero]. }
  destruct (routeSplits_spec (best :: rest)) as [(q0 & y0 & rest' & Hv & Hvl) Hmem].
  { apply top_ranked; [unfold uint256 in Hb; lia|done..]. }
  assert (rest' <> []) as Hne.
  { intros ->. rewrite Hv in Hlen. simpl in Hlen. lia. }
  specialize (Hvl Hne).
  destruct (normalizeSplits_spec _ Hvl) as (ks & Hks & Hfst & Hsum).
  exists ks. split; [|split; [done|]].
  - assert (Forall (fun leg => 0 <= RouteQuoteService.amountOut leg.1
                               <= RouteQuoteService.amountOut best)
              (normalizeSplits (routeSplits (best :: rest)))) as Hin.
    { rewrite Forall_forall. intros leg Hleg.
      assert (leg.1 ∈ map fst (normalizeSplits (routeSplits (best :: rest)))) as Hl.
      { apply list_elem_of_fmap. by exists leg. }
      rewrite Hfst in Hl. apply list_elem_of_fmap in Hl as (s & Heq & Hs).
      rewrite Forall_forall in Hmem. rewrite Forall_forall in Htop. rewrite Heq. by apply Htop, Hmem. }
    eapply Forall2_impl; [apply (Forall2_and_l _ _ _ _ Hks Hin)|].
    intros leg k [(Hn & Hk & Hv5) Hi]. done.
  - apply (f_equal length) in Hfst. rewrite !length_map in Hfst. rewrite Hfst.
    destruct Hvl as ((q0' & y0' & rest'' & -> & Hl & _) & _). simpl. lia.
Qed.


(** ** What the optimizers return *)

(** The single plan of the per-route optimizer. *)
Definition singleRoutePlan (best : RouteQuoteService.RouteQuote) : QuoteService.SplitResult :=
  {| QuoteService.routes := [(best, n100)];
     QuoteService.totalOutput := RouteQuoteService.amountOutFormatted best;
     QuoteService.totalGas := JS.of_Z (RouteQuoteService.rq_estimatedGas best);
     QuoteService.avgPriceImpact := RouteQuoteService.priceImpact best;
     QuoteService.isSplit := false |}.

(** The split plan of the per-route optimizer. *)
Definition splitRoutePlan (legs : list (RouteQuoteService.RouteQuote * JS.number))
    (total : Z) (toDecimals : nat) (gas impact : JS.number) : QuoteService.SplitResult :=
  {| QuoteService.routes := legs;
     QuoteService.totalOutput := formatUnits total toDecimals;
     QuoteService.totalGas := gas;
     QuoteService.avgPriceImpact := impact;
     QuoteService.isSplit := true |}.

Section Returned.
Variables (amountIn : Z) (fromDecimals toDecimals : nat).

Local Abbreviation sortedVenues venues :=
  (JS.sort (byAmountOutDesc DexQuoteService.amountOut) venues).
Local Abbreviation sortedRoutes routes :=
  (JS.sort (byAmountOutDesc RouteQuoteService.amountOut) routes).
Local Abbreviation single best :=
  (createSingleRoute best amountIn fromDecimals toDecimals).

(** The per-venue optimizer on any quotes: the single plan of the first
    sorted quote, compared with the split plan when there are two quotes
    or more and the amount is 100 units at least. *)
Lemma findOptimalRoute_decision venues best rest :
  sortedVenues venues = best :: rest ->
  findOptimalRoute venues amountIn fromDecimals toDecimals
  = if (length venues =? 1)%nat
       || JS.lt (parseFloat (formatUnits amountIn fromDecimals)) n100
    then single best
    else
      singleRoute ← single best;
      splitRoute ← createSplitRoute (calculateDynamicSplit (sortedVenues venues))
                      amountIn fromDecimals toDecimals;
      Value (if JS.gt (parseFloat (RouteOptimizerService.totalOutput splitRoute))
                   (JS.mul (parseFloat (RouteOptimizerService.totalOutput singleRoute))
                           (JS.of_ratio 1001 1000))
             then splitRoute else singleRoute).
Proof.
  intros Hs. unfold findOptimalRoute. rewrite Hs.
  assert (length (best :: rest) = length venues) as Hlen
    by (rewrite <- Hs; apply sort_length).
  assert ((length venues =? 0)%nat = false) as ->
    by (apply Nat.eqb_neq; rewrite <- Hlen; simpl; lia).
  rewrite Hlen.
  destruct ((length venues =? 1)%nat
            || JS.lt (parseFloat (formatUnits amountIn fromDecimals)) n100); [done|].
  cbn [first mbind result_bind].
  destruct (single best) as [singleRoute|]; [|done]. cbn [mbind result_bind].
  destruct (createSplitRoute _ _ _ _) as [splitRoute|]; [|done]. cbn [mbind result_bind].
  unfold splitGate, RouteOptimizerService.splitThreshold. by destruct (JS.gt _ _).
Qed.

(** On unsigned amounts and fee tiers that fit, the per-venue optimizer
    builds both plans. *)
Lemma findOptimalRoute_gate venues :
  venues <> [] ->
  Forall (fun q => uint256 (DexQuoteService.amountOut q)) venues ->
  Forall encodable venues ->
  exists best singleRoute splitRoute,
    first (sortedVenues venues) = Value best
    /\ single best = Value singleRoute
    /\ RouteOptimizerService.isSplit singleRoute = false
    /\ RouteOptimizerService.totalOutput singleRoute
       = formatUnits (DexQuoteService.amountOut best) toDecimals
    /\ createSplitRoute (calculateDynamicSplit (sortedVenues venues))
         amountIn fromDecimals toDecimals = Value splitRoute
    /\ RouteOptimizerService.isSplit splitRoute = true
    /\ (exists ks,
          Forall2 (fun leg k => 0 <= k
                     /\ 0 <= DexQuoteService.amountOut leg.1
                        <= DexQuoteService.amountOut best)
            (calculateDynamicSplit (sortedVenues venues)) ks
          /\ sumZ ks <= 10000
          /\ RouteOptimizerService.totalOutput splitRoute
             = formatUnits (splitOut DexQuoteService.amountOut
                              (calculateDynamicSplit (sortedVenues venues)) ks)
                 toDecimals)
    /\ map RouteOptimizerService.percentage (RouteOptimizerService.steps splitRoute)
       = map snd (calculateDynamicSplit (sortedVenues venues))
    /\ findOptimalRoute venues amountIn fromDecimals toDecimals
       = if (length venues =? 1)%nat
            || JS.lt (parseFloat (formatUnits amountIn fromDecimals)) n100
         then Value singleRoute
         else Value (if JS.gt (parseFloat (RouteOptimizerService.totalOutput splitRoute))
                          (JS.mul (parseFloat (formatUnits (DexQuoteService.amountOut best)
                                                 toDecimals))
                                  (JS.of_ratio 1001 1000))
                     then splitRoute else singleRoute).
Proof.
  intros Hne Hall Henc.
  destruct (sorted_best _ venues Hne Hall) as (best & rest & Hs & Hb & Hle).
  assert (forall q, q ∈ best :: rest -> encodable q) as Hencs.
  { intros q Hq. rewrite <- Hs in Hq. apply sort_elem in Hq.
    rewrite Forall_forall in Henc. by apply Henc. }
  destruct (DexDataFacts.createSingleRoute_encodable best amountIn fromDecimals toDecimals)
    as [singleRoute Hsingle]; [apply Hencs; left|].
  destruct (DexDataFacts.createSingleRoute_plan _ _ _ _ _ Hsingle)
    as (Hflag & Htotal & _).
  destruct (venue_legs best rest Hb Hle) as (ks & Hks & Hsum).
  destruct (createSplitRoute_spec (calculateDynamicSplit (best :: rest)) ks
              amountIn fromDecimals toDecimals) as (plan & Hplan & Hsplit & Htot & Hsteps).
  { eapply Forall2_impl; [exact Hks|]. intros leg k (? & _ & _ & Hin).
    split; [done|]. by apply Hencs. }
  exists best, singleRoute, plan. rewrite Hs.
  split; [done|]. split; [done|]. split; [done|]. split; [done|].
  split; [done|]. split; [done|]. split; [|split; [done|]].
  - exists ks. split; [|done].
    eapply Forall2_impl; [exact Hks|]. by intros leg k (_ & ? & ? & _).
  - rewrite (findOptimalRoute_decision venues best rest Hs).
    rewrite Hsingle. rewrite Hs, Hplan. cbn [mbind result_bind]. by rewrite Htotal.
Qed.

(** The per-route optimizer on any quotes. *)
Lemma optimizeRouteSplit_decision routes best rest :
  sortedRoutes routes = best :: rest ->
  optimizeRouteSplit routes amountIn fromDecimals toDecimals
  = if (length routes =? 1)%nat
       || JS.lt (parseFloat (formatUnits amountIn fromDecimals)) n100
       || (length (routeSplits (sortedRoutes routes)) <=? 1)%nat
    then Value (Some (singleRoutePlan best))
    else
      let legs := normalizeSplits (routeSplits (sortedRoutes routes)) in
      '(total, gas, impact) ←
        foldl QuoteService.splitLeg (Value (0, JS.zero, JS.zero)) legs;
      Value (Some (if JS.gt (parseFloat (formatUnits total toDecimals))
                         (JS.mul (parseFloat (RouteQuoteService.amountOutFormatted best))
                                 (JS.of_ratio 1001 1000))
                   then splitRoutePlan legs total toDecimals gas impact
                   else singleRoutePlan best)).
Proof.
  intros Hs. unfold optimizeRouteSplit. rewrite Hs.
  assert (length (best :: rest) = length routes) as Hlen
    by (rewrite <- Hs; apply sort_length).
  assert ((length routes =? 0)%nat = false) as ->
    by (apply Nat.eqb_neq; rewrite <- Hlen; simpl; lia).
  rewrite Hlen.
  destruct ((length routes =? 1)%nat
            || JS.lt (parseFloat (formatUnits amountIn fromDecimals)) n100); [done|].
  cbn [orb].
  destruct (length (routeSplits (best :: rest)) <=? 1)%nat; [done|].
  cbv zeta.
  destruct (foldl _ _ _) as [[[total gas] impact]|]; [|done].
  cbn [mbind result_bind first singleBest].
  unfold splitGate, RouteOptimizerService.splitThreshold. by destruct (JS.gt _ _).
Qed.

(** On unsigned amounts the per-route optimizer adds up its split plan
    whenever two legs or more pass the minimum. *)
Lemma optimizeRouteSplit_gate routes :
  routes <> [] ->
  Forall (fun q => uint256 (RouteQuoteService.amountOut q)) routes ->
  exists best,
    first (sortedRoutes routes) = Value best
    /\ ((2 <= length (routeSplits (sortedRoutes routes)))%nat ->
        exists ks gas wpi,
          Forall2 (fun leg k => near k leg.2 /\ 500 <= k <= 10000 /\ (5 <= V leg.2)%R
                     /\ 0 <= RouteQuoteService.amountOut leg.1
                        <= RouteQuoteService.amountOut best)
            (normalizeSplits (routeSplits (sortedRoutes routes))) ks
          /\ sumZ ks = 10000
          /\ (length (normalizeSplits (routeSplits (sortedRoutes routes))) <= 3)%nat
          /\ foldl QuoteService.splitLeg (Value (0, JS.zero, JS.zero))
               (normalizeSplits (routeSplits (sortedRoutes routes)))
             = Value (splitOut RouteQuoteService.amountOut
                        (normalizeSplits (routeSplits (sortedRoutes routes))) ks, gas, wpi)).
Proof.
  intros Hne Hall.
  destruct (sorted_best _ routes Hne Hall) as (best & rest & Hs & Hb & Hle).
  exists best. rewrite Hs. split; [done|].
  intros Hv.
  destruct (route_legs best rest Hb Hle Hv) as (ks & Hks & Hsum & Hl3).
  destruct (route_fold (normalizeSplits (routeSplits (best :: rest))) ks)
    with (tot0 := 0) (gas0 := JS.zero) (wpi0 := JS.zero) as (gas & wpi & Hfold).
  { eapply Forall2_impl; [exact Hks|]. intros leg k (Hn & Hk & _).
    apply near_proportion; [done|lia]. }
  rewrite Z.add_0_l in Hfold.
  exists ks, gas, wpi. done.
Qed.

End Returned.

(** ** Examples *)

Definition venueQuote (id : string) (a : Z) : DexQuoteService.DexQuote :=
  {| DexQuoteService.dexId := id; DexQuoteService.dexName := id;
     DexQuoteService.amountOut := a;
     DexQuoteService.amountOutFormatted := formatUnits a 6;
     DexQuoteService.estimatedGas := 150000;
     DexQuoteService.feeTier := Some 3000; DexQuoteService.feeTiers := None;
     DexQuoteService.path := None; DexQuoteService.pathEncoded := None;
     DexQuoteService.isMultiHop := Some false;
     DexQuoteService.priceImpact := JS.of_ratio 1 10 |}.

Definition directEdge : LiquidityGraph.GraphEdge :=
  {| LiquidityGraph.edge_pool := PathfinderFacts.poolAB;
     LiquidityGraph.edge_tokenIn := PathfinderFacts.tokenA;
     LiquidityGraph.edge_tokenOut := PathfinderFacts.tokenB;
     LiquidityGraph.edge_dexId := "uniswap_v3";
     LiquidityGraph.edge_fee := LiquidityGraph.feeDecimal PathfinderFacts.poolAB;
     LiquidityGraph.edge_liquidity := 1000000 |}.

Definition directRoute : Pathfinder.DiscoveredRoute :=
  {| Pathfinder.hops :=
       [ {| Pathfinder.hop_edge := directEdge;
            Pathfinder.hop_tokenIn := PathfinderFacts.tokenA;
            Pathfinder.hop_tokenOut := PathfinderFacts.tokenB;
            Pathfinder.hop_poolAddress :=
              LiquidityGraph.poolAddress PathfinderFacts.poolAB;
            Pathfinder.hop_dexId := "uniswap_v3";
            Pathfinder.hop_fee := LiquidityGraph.edge_fee directEdge |} ];
     Pathfinder.route_tokenIn := PathfinderFacts.tokenA;
     Pathfinder.route_tokenOut := PathfinderFacts.tokenB;
     Pathfinder.path := [PathfinderFacts.tokenA; PathfinderFacts.tokenB];
     Pathfinder.totalHops := 1;
     Pathfinder.estimatedGas := 150000 |}.

Lemma venueQuote_encodable id a : encodable (venueQuote id a).
Proof.
  split.
  - intros f [= <-]. unfold uint24. lia.
  - intros p Hp. discriminate Hp.
Qed.

(** A route quote of the amount [a] that carries the text [text]. *)
Definition routeQuoteAs (a : Z) (text : DecimalText) : RouteQuoteService.RouteQuote :=
  {| RouteQuoteService.route := directRoute;
     RouteQuoteService.amountIn := 1000000000000000000000;
     RouteQuoteService.amountOut := a;
     RouteQuoteService.amountOutFormatted := text;
     RouteQuoteService.priceImpact := JS.of_ratio 1 10;
     RouteQuoteService.rq_estimatedGas := 150000;
     RouteQuoteService.hopsData := [] |}.

Definition routeQuote (a : Z) : RouteQuoteService.RouteQuote :=
  routeQuoteAs a (formatUnits a 6).

(** ** C1: the gate decides between the split plan and the single plan *)

Local Abbreviation sortedVenues venues :=
  (JS.sort (byAmountOutDesc DexQuoteService.amountOut) venues).
Local Abbreviation sortedRoutes routes :=
  (JS.sort (byAmountOutDesc RouteQuoteService.amountOut) routes).

(** The per-venue optimizer on an amount of 100 units or more. [best] is
    the first of the sorted quotes, a quote with the largest output. The
    optimizer builds the single plan of [best] and, with two quotes or
    more, the split plan of the legs, and answers with the split plan
    exactly when the split plan's total output, as a number, is greater
    than the output of [best] times 1.001; it throws when a plan cannot
    be built. *)
Definition venueGateDecides (venues : list DexQuoteService.DexQuote)
    (amountIn : Z) (fromDecimals toDecimals : nat) : Prop :=
  exists best,
    first (sortedVenues venues) = Value best
    /\ best ∈ venues
    /\ (forall q, q ∈ venues ->
          DexQuoteService.amountOut q <= DexQuoteService.amountOut best)
    /\ findOptimalRoute venues amountIn fromDecimals toDecimals
       = (singleRoute ← createSingleRoute best amountIn fromDecimals toDecimals;
          if (length venues =? 1)%nat then Value singleRoute
          else
            splitRoute ← createSplitRoute (calculateDynamicSplit (sortedVenues venues))
                            amountIn fromDecimals toDecimals;
            Value (if JS.gt (parseFloat (RouteOptimizerService.totalOutput splitRoute))
                         (JS.mul (parseFloat (formatUnits (DexQuoteService.amountOut best)
                                                toDecimals))
                                 (JS.of_ratio 1001 1000))
                   then splitRoute else singleRoute))
    /\ (forall singleRoute splitRoute,
          createSingleRoute best amountIn fromDecimals toDecimals = Value singleRoute ->
          createSplitRoute (calculateDynamicSplit (sortedVenues venues))
            amountIn fromDecimals toDecimals = Value splitRoute ->
          (2 <= length venues)%nat ->
          RouteOptimizerService.isSplit singleRoute = false
          /\ RouteOptimizerService.isSplit splitRoute = true
          /\ RouteOptimizerService.totalOutput singleRoute
             = formatUnits (DexQuoteService.amountOut best) toDecimals
          /\ (findOptimalRoute venues amountIn fromDecimals toDecimals = Value splitRoute
              <-> JS.gt (parseFloat (RouteOptimizerService.totalOutput splitRoute))
                    (JS.mul (parseFloat (RouteOptimizerService.totalOutput singleRoute))
                            (JS.of_ratio 1001 1000)) = true)
          /\ (findOptimalRoute venues amountIn fromDecimals toDecimals = Value singleRoute
              <-> JS.gt (parseFloat (RouteOptimizerService.totalOutput splitRoute))
                    (JS.mul (parseFloat (RouteOptimizerService.totalOutput singleRoute))
                            (JS.of_ratio 1001 1000)) = false))
    /\ (Forall (fun q => uint256 (DexQuoteService.amountOut q)) venues ->
        Forall encodable venues ->
        exists singleRoute splitRoute,
          createSingleRoute best amountIn fromDecimals toDecimals = Value singleRoute
          /\ createSplitRoute (calculateDynamicSplit (sortedVenues venues))
               amountIn fromDecimals toDecimals = Value splitRoute).

(** The per-route optimizer on an amount of 100 units or more. With one
    quote, or fewer than two legs at or above the minimum, it answers with
    the single plan of [best]. Otherwise it adds up the split plan and
    answers with it exactly when its total output, as a number, is
    greater than the output text of [best], as a number, times 1.001. *)
Definition routeGateDecides (routes : list RouteQuoteService.RouteQuote)
    (amountIn : Z) (fromDecimals toDecimals : nat) : Prop :=
  exists best,
    first (sortedRoutes routes) = Value best
    /\ best ∈ routes
    /\ (forall q, q ∈ routes ->
          RouteQuoteService.amountOut q <= RouteQuoteService.amountOut best)
    /\ (let legs := normalizeSplits (routeSplits (sortedRoutes routes)) in
        optimizeRouteSplit routes amountIn fromDecimals toDecimals
        = if (length routes =? 1)%nat
             || (length (routeSplits (sortedRoutes routes)) <=? 1)%nat
          then Value (Some (singleRoutePlan best))
          else
            '(total, gas, impact) ←
              foldl QuoteService.splitLeg (Value (0, JS.zero, JS.zero)) legs;
            Value (Some
              (if JS.gt (parseFloat (formatUnits total toDecimals))
                    (JS.mul (parseFloat (RouteQuoteService.amountOutFormatted best))
                            (JS.of_ratio 1001 1000))
               then splitRoutePlan legs total toDecimals gas impact
               else singleRoutePlan best)))
    /\ (forall total gas impact,
          (length routes <> 1)%nat ->
          (2 <= length (routeSplits (sortedRoutes routes)))%nat ->
          foldl QuoteService.splitLeg (Value (0, JS.zero, JS.zero))
            (normalizeSplits (routeSplits (sortedRoutes routes)))
          = Value (total, gas, impact) ->
          let splitPlan :=
            splitRoutePlan (normalizeSplits (routeSplits (sortedRoutes routes)))
              total toDecimals gas impact in
          let exceeds :=
            JS.gt (parseFloat (QuoteService.totalOutput splitPlan))
              (JS.mul (parseFloat (QuoteService.totalOutput (singleRoutePlan best)))
                      (JS.of_ratio 1001 1000)) in
          (optimizeRouteSplit routes amountIn fromDecimals toDecimals
           = Value (Some splitPlan) <-> exceeds = true)
          /\ (optimizeRouteSplit routes amountIn fromDecimals toDecimals
              = Value (Some (singleRoutePlan best)) <-> exceeds = false))
    /\ (Forall (fun q => uint256 (RouteQuoteService.amountOut q)) routes ->
        exists plan,
          optimizeRouteSplit routes amountIn fromDecimals toDecimals = Value (Some plan)).

(** C1. For non-empty quotes and an input amount at or above the
    small-trade threshold of 100, each optimizer returns its split plan if
    and only if the split plan's total output, as a number, is strictly
    greater than the best quote's output times 1.001 (the binary64 nearest
    to 1001/1000), and the single-route plan if and only if it is not.
    Where no split plan is compared (one quote; per route, fewer than two
    legs at or above the minimum) the single-route plan is returned. The
    plans are built, and so the optimizers answer, whenever the amounts
    are unsigned 256-bit integers and the swap data can be encoded. *)
Theorem gate_decides (venues : list DexQuoteService.DexQuote)
    (routes : list RouteQuoteService.RouteQuote)
    (amountIn : Z) (fromDecimals toDecimals : nat) :
  venues <> [] ->
  routes <> [] ->
  JS.lt (parseFloat (formatUnits amountIn fromDecimals)) n100 = false ->
  venueGateDecides venues amountIn fromDecimals toDecimals
  /\ routeGateDecides routes amountIn fromDecimals toDecimals.
Proof.
  intros Hv Hr Hlt. split.
  - destruct (sorted_head DexQuoteService.amountOut venues Hv)
      as (best & rest & Hs & Hin & Hmax).
    pose proof (findOptimalRoute_decision amountIn fromDecimals toDecimals
                  venues best rest Hs) as Hdec.
    rewrite Hlt, orb_false_r in Hdec.
    exists best. split; [by rewrite Hs|]. split; [done|]. split; [done|].
    split; [|split].
    + rewrite Hdec.
      destruct (createSingleRoute best amountIn fromDecimals toDecimals)
        as [singleRoute|] eqn:Hsingle; [|by destruct (length venues =? 1)%nat].
      cbn [mbind result_bind].
      destruct (length venues =? 1)%nat; [done|].
      destruct (DexDataFacts.createSingleRoute_plan _ _ _ _ _ Hsingle) as (_ & -> & _).
      done.
    + intros singleRoute splitRoute Hsingle Hsplit Hlen.
      destruct (DexDataFacts.createSingleRoute_plan _ _ _ _ _ Hsingle)
        as (Hf1 & Htot & _).
      destruct (createSplitRoute_plan _ _ _ _ _ Hsplit) as [Hf2 _].
      split; [done|]. split; [done|]. split; [done|].
      rewrite Hdec, Hsingle, Hsplit.
      assert ((length venues =? 1)%nat = false) as -> by (apply Nat.eqb_neq; lia).
      cbn [mbind result_bind].
      destruct (JS.gt _ _).
      * split; [done|]. split; [|done]. intros [= Heq]. congruence.
      * split; [|done]. split; [|done]. intros [= Heq]. congruence.
    + intros Hva Henc.
      destruct (findOptimalRoute_gate amountIn fromDecimals toDecimals venues Hv Hva Henc)
        as (best' & singleRoute & splitRoute & Hb & Hsingle & _ & _ & Hsplit & _).
      rewrite Hs in Hb. injection Hb as <-.
      by exists singleRoute, splitRoute.
  - destruct (sorted_head RouteQuoteService.amountOut routes Hr)
      as (best & rest & Hs & Hin & Hmax).
    pose proof (optimizeRouteSplit_decision amountIn fromDecimals toDecimals
                  routes best rest Hs) as Hdec.
    rewrite Hlt, orb_false_r in Hdec. cbv zeta in Hdec.
    exists best. split; [by rewrite Hs|]. split; [done|]. split; [done|].
    split; [exact Hdec|]. split.
    + intros total gas impact Hl1 Hl2 Hfold. cbv zeta.
      rewrite Hdec, Hfold.
      assert ((length routes =? 1)%nat = false) as -> by (by apply Nat.eqb_neq).
      assert ((length (routeSplits (sortedRoutes routes)) <=? 1)%nat = false) as ->
        by (apply Nat.leb_gt; lia).
      cbn [orb mbind result_bind].
      cbn [QuoteService.totalOutput splitRoutePlan singleRoutePlan].
      destruct (JS.gt _ _).
      * split; [done|]. split; [|done]. intros [= Heq].
      * split; [|done]. split; [|done]. intros [= Heq].
    + intros Hra. rewrite Hdec.
      destruct ((length routes =? 1)%nat
                || (length (routeSplits (sortedRoutes routes)) <=? 1)%nat) eqn:Hc;
        [by eexists|].
      apply orb_false_iff in Hc as [_ Hc]. apply Nat.leb_gt in Hc.
      destruct (optimizeRouteSplit_gate routes Hr Hra) as (best' & Hb & Htwo).
      rewrite Hs in Hb. injection Hb as <-.
      destruct (Htwo ltac:(lia)) as (ks & gas & wpi & _ & _ & _ & ->).
      cbn [mbind result_bind]. by eexists.
Qed.

(** Two venue quotes of the amount -1000 each, and two route quotes of
    1000 and 1010 units whose texts are rendered with nine decimals
    instead of six: both optimizers return the split plan. On amounts
    that are unsigned 256-bit integers, rendered with the target's
    decimals, the comparison is never true: see [comparison_false]. *)
Lemma gate_decides_witness :
  let venues := [venueQuote "sushiswap" (-1000); venueQuote "uniswap_v3" (-1000)] in
  let routes := [routeQuoteAs 1000000000 (formatUnits 1000000000 9);
                 routeQuoteAs 1010000000 (formatUnits 1010000000 9)] in
  (venueGateDecides venues 1000000000000000000000 18 6
   /\ routeGateDecides routes 1000000000000000000000 18 6)
  /\ (r ← findOptimalRoute venues 1000000000000000000000 18 6;
      Value (RouteOptimizerService.isSplit r, RouteOptimizerService.totalOutput r))
     = Value (true, formatUnits (-1000) 6)
  /\ (r ← optimizeRouteSplit routes 1000000000000000000000 18 6;
      Value (option_map (fun p => (QuoteService.isSplit p, QuoteService.totalOutput p)) r))
     = Value (Some (true, formatUnits 1005025000 6)).
Proof.
  intros venues routes. split; [|split].
  - apply gate_decides.
    + discriminate.
    + discriminate.
    + vm_compute. reflexivity.
  - vm_compute. reflexivity.
  - vm_compute. reflexivity.
Defined.

(** ** C4: the percentages of a split plan *)

(** The percentages add up to 100 within 0.01 and none is below the
    minimum. *)
Definition percentagesOK (MIN : JS.number) (ps : list JS.number) : Prop :=
  (Rabs (sumR (map V ps) - 100) <= 1 / 100)%R
  /\ Forall (fun p => JS.ge p MIN = true) ps.

Lemma percentagesOK_legs {Q} MIN m (legs : list (Q * JS.number)) ks :
  fin MIN -> V MIN = m ->
  Forall2 (fun leg k => near k leg.2 /\ (m <= V leg.2)%R) legs ks ->
  sumZ ks = 10000 -> (length legs <= 3)%nat ->
  percentagesOK MIN (map snd legs).
Proof.
  intros HMf HMv Hks Hsum Hlen. pose proof u_bound as Hu. split.
  - pose proof (near_sum legs ks) as Hns.
    specialize (Hns ltac:(eapply Forall2_impl; [exact Hks|]; by intros ? ? [? _])).
    rewrite Hsum in Hns.
    assert (INR (length legs) <= 3)%R as Hn.
    { replace 3%R with (INR 3) by (simpl; lra). by apply le_INR. }
    assert (INR (length legs) * (1000 * u) <= 3 * (1000 * u))%R
      by (apply Rmult_le_compat_r; lra).
    apply Rabs_le_inv in Hns. apply Rabs_le. lra.
  - apply Forall_map. apply (Forall2_left _ _ _ _ Hks).
    intros leg k [[Hf _] Hm]. simpl. unfold JS.ge. apply SFleb_fin; [done..|lra].
Qed.

Lemma venue_percentages best rest :
  1 <= DexQuoteService.amountOut best ->
  uint256 (DexQuoteService.amountOut best) ->
  Forall (fun q => 0 <= DexQuoteService.amountOut q <= DexQuoteService.amountOut best)
    (best :: rest) ->
  calculateDynamicSplit (best :: rest) <> []
  /\ percentagesOK MIN_SPLIT_PERCENTAGE (map snd (calculateDynamicSplit (best :: rest))).
Proof.
  intros H1 Hb Hall.
  destruct (calculateDynamicSplit_spec (best :: rest)) as (ks & Hks & Hsum & _ & Hlen).
  { by apply top_ranked. }
  split.
  - intros Hnil. rewrite Hnil in Hks. apply Forall2_nil_inv_l in Hks. by subst.
  - apply (percentagesOK_legs _ 1%R _ ks MIN_SPLIT_fin MIN_SPLIT_val); [|done..].
    eapply Forall2_impl; [exact Hks|]. by intros leg k (? & _ & ?).
Qed.

(** The legs of the per-route plan, when two or more pass the minimum. *)
Lemma route_percentages best rest :
  uint256 (RouteQuoteService.amountOut best) ->
  Forall (fun q => 0 <= RouteQuoteService.amountOut q <= RouteQuoteService.amountOut best)
    (best :: rest) ->
  (2 <= length (routeSplits (best :: rest)))%nat ->
  percentagesOK MIN_ROUTE_PERCENTAGE
    (map snd (normalizeSplits (routeSplits (best :: rest)))).
Proof.
  intros Hb Hle Hlen.
  destruct (route_legs best rest Hb Hle Hlen) as (rks & Hrks & Hrsum & Hrlen).
  apply (percentagesOK_legs _ 5%R _ rks MIN_ROUTE_fin MIN_ROUTE_val); [|done..].
  eapply Forall2_impl; [exact Hrks|]. by intros leg k (? & _ & ? & _).
Qed.

(** C4. On quotes whose amounts are unsigned 256-bit integers and whose
    swap data can be encoded, each optimizer answers, and the plan it
    returns is either not split or is the split plan it built, whose leg
    percentages add up to 100 within 0.01 (as real numbers) and are each
    at least the optimizer's minimum (1 per venue, 5 per route). The
    split plan an optimizer builds before the gate has these percentages
    as soon as one quote is not zero (per venue) or two legs pass the
    minimum (per route), and then it has at least one leg. *)
Theorem split_percentages (venues : list DexQuoteService.DexQuote)
    (routes : list RouteQuoteService.RouteQuote)
    (amountIn : Z) (fromDecimals toDecimals : nat) :
  venues <> [] ->
  Forall (fun q => uint256 (DexQuoteService.amountOut q)) venues ->
  Forall encodable venues ->
  routes <> [] ->
  Forall (fun q => uint256 (RouteQuoteService.amountOut q)) routes ->
  (exists splitRoute returned,
     createSplitRoute (calculateDynamicSplit (sortedVenues venues))
       amountIn fromDecimals toDecimals = Value splitRoute
     /\ RouteOptimizerService.isSplit splitRoute = true
     /\ map RouteOptimizerService.percentage (RouteOptimizerService.steps splitRoute)
        = map snd (calculateDynamicSplit (sortedVenues venues))
     /\ ((exists q, q ∈ venues /\ 0 < DexQuoteService.amountOut q) ->
         RouteOptimizerService.steps splitRoute <> []
         /\ percentagesOK MIN_SPLIT_PERCENTAGE
              (map RouteOptimizerService.percentage
                 (RouteOptimizerService.steps splitRoute)))
     /\ findOptimalRoute venues amountIn fromDecimals toDecimals = Value returned
     /\ (RouteOptimizerService.isSplit returned = false
         \/ (returned = splitRoute
             /\ percentagesOK MIN_SPLIT_PERCENTAGE
                  (map RouteOptimizerService.percentage
                     (RouteOptimizerService.steps returned)))))
  /\ (exists returned,
        optimizeRouteSplit routes amountIn fromDecimals toDecimals = Value (Some returned)
        /\ ((2 <= length (routeSplits (sortedRoutes routes)))%nat ->
            percentagesOK MIN_ROUTE_PERCENTAGE
              (map snd (normalizeSplits (routeSplits (sortedRoutes routes)))))
        /\ (QuoteService.isSplit returned = false
            \/ (QuoteService.isSplit returned = true
                /\ QuoteService.routes returned
                   = normalizeSplits (routeSplits (sortedRoutes routes))
                /\ percentagesOK MIN_ROUTE_PERCENTAGE
                     (map snd (QuoteService.routes returned))))).
Proof.
  intros Hv Hva Henc Hr Hra. split.
  - destruct (findOptimalRoute_gate amountIn fromDecimals toDecimals venues Hv Hva Henc)
      as (best & singleRoute & plan & Hb & Hsingle & Hflag & Hstot & Hplan & Hsplit
          & (ks & Hks & _ & Htot) & Hsteps & Hres).
    destruct (sorted_best _ venues Hv Hva) as (best' & rest & Hs & Hbu & Hle).
    rewrite Hs in Hb. injection Hb as ->.
    assert ((exists q, q ∈ venues /\ 0 < DexQuoteService.amountOut q) ->
            RouteOptimizerService.steps plan <> []
            /\ percentagesOK MIN_SPLIT_PERCENTAGE
                 (map RouteOptimizerService.percentage (RouteOptimizerService.steps plan)))
      as Hbuilt.
    { intros (q & Hq & Hpos).
      assert (1 <= DexQuoteService.amountOut best) as H1.
      { assert (q ∈ best :: rest) as Hin by (rewrite <- Hs; by apply sort_elem).
        rewrite Forall_forall in Hle. specialize (Hle q Hin). lia. }
      destruct (venue_percentages best rest H1 Hbu Hle) as [Hne Hok].
      rewrite Hs in Hsteps. split.
      - intros Hnil. rewrite Hnil in Hsteps. simpl in Hsteps.
        symmetry in Hsteps. apply map_eq_nil in Hsteps. done.
      - by rewrite Hsteps. }
    exists plan.
    destruct ((length venues =? 1)%nat
              || JS.lt (parseFloat (formatUnits amountIn fromDecimals)) n100).
    { exists singleRoute. split; [done|]. split; [done|]. split; [done|].
      split; [done|]. split; [done|]. by left. }
    destruct (JS.gt (parseFloat (RouteOptimizerService.totalOutput plan)) _) eqn:Hgate.
    + exists plan. split; [done|]. split; [done|]. split; [done|].
      split; [done|]. split; [done|]. right. split; [done|].
      destruct (Z.eq_dec (DexQuoteService.amountOut best) 0) as [H0|H0].
      * exfalso. rewrite Htot, Hs in Hgate.
        rewrite calculateDynamicSplit_zero in Hgate
          by (apply Forall_take; by eapply all_zero).
        cbn in Hgate. rewrite H0 in Hgate.
        change (splitOut DexQuoteService.amountOut [] ks) with 0 in Hgate.
        pose proof (gate_false_zero toDecimals toDecimals) as Hz.
        unfold RouteOptimizerService.splitGate, RouteOptimizerService.splitThreshold in Hz.
        congruence.
      * apply Hbuilt. exists best. split.
        -- apply (sort_elem (byAmountOutDesc DexQuoteService.amountOut)).
           rewrite Hs. left.
        -- unfold uint256 in Hbu. lia.
    + exists singleRoute. split; [done|]. split; [done|]. split; [done|].
      split; [done|]. split; [done|]. by left.
  - destruct (sorted_best _ routes Hr Hra) as (best & rest & Hs & Hbu & Hle).
    pose proof (optimizeRouteSplit_decision amountIn fromDecimals toDecimals
                  routes best rest Hs) as Hdec.
    assert ((2 <= length (routeSplits (sortedRoutes routes)))%nat ->
            percentagesOK MIN_ROUTE_PERCENTAGE
              (map snd (normalizeSplits (routeSplits (sortedRoutes routes))))) as Hbuilt.
    { rewrite Hs. by apply route_percentages. }
    destruct ((length routes =? 1)%nat
              || JS.lt (parseFloat (formatUnits amountIn fromDecimals)) n100
              || (length (routeSplits (sortedRoutes routes)) <=? 1)%nat) eqn:Hc.
    { exists (singleRoutePlan best). split; [done|]. split; [done|]. by left. }
    apply orb_false_iff in Hc as [_ Hc]. apply Nat.leb_gt in Hc.
    destruct (optimizeRouteSplit_gate routes Hr Hra) as (best' & _ & Htwo).
    destruct (Htwo ltac:(lia)) as (ks & gas & wpi & _ & _ & _ & Hfold).
    cbv zeta in Hdec. rewrite Hfold in Hdec. cbn [mbind result_bind] in Hdec.
    eexists. split; [exact Hdec|]. split; [done|].
    destruct (JS.gt _ _); [|by left].
    right. split; [done|]. split; [done|]. apply Hbuilt. lia.
Qed.

(** Two venue quotes of 1000 and 1010 units: the percentages of the split
    plan built are 50.25 and 49.75. Two route quotes of the same amounts
    whose texts are rendered with nine decimals instead of six: the plan
    returned is split, with the percentages 50.25 and 49.75. *)
Lemma split_percentages_witness :
  let venues := [venueQuote "sushiswap" 1000000000; venueQuote "uniswap_v3" 1010000000] in
  let routes := [routeQuoteAs 1000000000 (formatUnits 1000000000 9);
                 routeQuoteAs 1010000000 (formatUnits 1010000000 9)] in
  (exists splitRoute,
     createSplitRoute (calculateDynamicSplit (sortedVenues venues))
       1000000000000000000000 18 6 = Value splitRoute
     /\ map RouteOptimizerService.percentage (RouteOptimizerService.steps splitRoute)
        = [JS.of_ratio 5025 100; JS.of_ratio 4975 100]
     /\ percentagesOK MIN_SPLIT_PERCENTAGE
          (map RouteOptimizerService.percentage (RouteOptimizerService.steps splitRoute)))
  /\ (exists returned,
        optimizeRouteSplit routes 1000000000000000000000 18 6 = Value (Some returned)
        /\ QuoteService.isSplit returned = true
        /\ map snd (QuoteService.routes returned)
           = [JS.of_ratio 5025 100; JS.of_ratio 4975 100]
        /\ percentagesOK MIN_ROUTE_PERCENTAGE (map snd (QuoteService.routes returned))).
Proof.
  intros venues routes.
  assert (venues <> []) as H1 by discriminate.
  assert (Forall (fun q => uint256 (DexQuoteService.amountOut q)) venues) as H2
    by (repeat constructor; vm_compute; congruence).
  assert (Forall encodable venues) as H3
    by (repeat (constructor; [apply venueQuote_encodable|]); constructor).
  assert (routes <> []) as H4 by discriminate.
  assert (Forall (fun q => uint256 (RouteQuoteService.amountOut q)) routes) as H5
    by (repeat constructor; vm_compute; congruence).
  destruct (split_percentages venues routes 1000000000000000000000 18 6 H1 H2 H3 H4 H5)
    as ((splitRoute & returned & Hplan & _ & Hsteps & Hbuilt & _)
        & (rreturned & Hret & _ & Hor)).
  split.
  - exists splitRoute. split; [exact Hplan|]. split.
    + rewrite Hsteps. vm_compute. reflexivity.
    + apply Hbuilt. exists (venueQuote "uniswap_v3" 1010000000). split; [|reflexivity].
      unfold venues. apply elem_of_cons. right. apply elem_of_cons. by left.
  - exists rreturned. split; [exact Hret|].
    assert (option_map QuoteService.isSplit (Some rreturned) = Some true) as Hflag.
    { change (Some rreturned)
        with (default None (match Value (Some rreturned) with
                            | Value o => Some o | Thrown => None end)).
      rewrite <- Hret. vm_compute. reflexivity. }
    injection Hflag as Hflag.
    destruct Hor as [Hno|(_ & Hlegs & Hok)]; [congruence|].
    split; [exact Hflag|]. split; [|exact Hok].
    rewrite Hlegs. vm_compute. reflexivity.
Defined.

(** ** C3: the two optimizers side by side *)

(** The exact share, in percent, of the amount [a] in the sum of
    [amounts]. *)
Definition sharePercent (amounts : list Z) (a : Z) : R :=
  (100 * (IZR a / sumR (map IZR amounts)))%R.

(** How far the percentage the optimizers compute for a quote of the top
    three is from the exact share, at most. *)
Definition shareTolerance : R := (1 / 1000000000)%R.

(** [kept] are the amounts of [top] kept by the minimum share [m], in
    the order of [top]: an amount is kept only with a share of [m] at
    least, and dropped only with a share of [m] at most, each up to the
    tolerance. *)
Inductive keptBy (share : Z -> R) (m : R) : list Z -> list Z -> Prop :=
| keptBy_nil : keptBy share m [] []
| keptBy_keep a top kept :
    (m - shareTolerance <= share a)%R -> keptBy share m top kept ->
    keptBy share m (a :: top) (a :: kept)
| keptBy_drop a top kept :
    (share a <= m + shareTolerance)%R -> keptBy share m top kept ->
    keptBy share m (a :: top) kept.

Lemma filter_keptBy {Q} (out : Q -> Z) MIN m share top ps :
  fin MIN -> V MIN = m ->
  Forall2 (fun q p => fin p /\ (Rabs (V p - share (out q)) <= shareTolerance)%R) top ps ->
  keptBy share m (map out top)
    (map (fun s => out s.1)
       (filter (fun s : Q * JS.number => JS.ge (snd s) MIN = true) (zip top ps))).
Proof.
  intros HMf HMv. induction 1 as [|q p top ps [Hf Hp] _ IH]; [constructor|].
  cbn [zip zip_with map]. apply Rabs_le_inv in Hp.
  destruct (JS.ge p MIN) eqn:Hge.
  - rewrite filter_cons_True by done. cbn [map fst].
    unfold JS.ge in Hge. apply SFleb_fin in Hge; [|done..].
    apply keptBy_keep; [lra|done].
  - rewrite filter_cons_False by (cbn [snd]; congruence).
    apply keptBy_drop; [|done].
    destruct (Rle_dec (V MIN) (V p)) as [Hle|Hnle]; [|lra].
    apply (SFleb_fin MIN p HMf Hf) in Hle. unfold JS.ge in Hge. congruence.
Qed.

Lemma sumR_close_rel {A} (f g : A -> R) c l :
  (forall a, a ∈ l -> Rabs (f a - g a) <= c * g a)%R ->
  (Rabs (sumR (map f l) - sumR (map g l)) <= c * sumR (map g l))%R.
Proof.
  induction l as [|a l IH]; intros H.
  - simpl. rewrite Rminus_diag, Rabs_R0. lra.
  - assert (Rabs (f a - g a) <= c * g a)%R as Ha by (apply H; left).
    specialize (IH ltac:(intros b Hb; apply H; by right)).
    apply Rabs_le_inv in Ha, IH. apply Rabs_le. simpl.
    fold (sumR (map f l)) (sumR (map g l)). lra.
Qed.

(** The share of a quote's output, as a number, in the sum of the
    outputs, as numbers, is its exact share up to rounding. *)
Lemma outputs_share {Q} (out : Q -> Z) top :
  ranked out top ->
  forall q, q ∈ top ->
    (Rabs (100 * (V (JS.Number_of_bigint (out q)) / sumR (map V (outputs out top)))
           - sharePercent (map out top) (out q)) <= 1000 * u)%R.
Proof.
  intros (q0 & rest & Htop & Hq0 & Hall) q Hq. pose proof u_bound as Hu.
  unfold sharePercent, outputs. rewrite !map_map.
  set (S := sumR (map (fun x => IZR (out x)) top)).
  set (T := sumR (map (fun x => V (JS.Number_of_bigint (out x))) top)).
  rewrite Forall_forall in Hall.
  assert (forall x, x ∈ top -> (0 <= IZR (out x))%R) as Hnn.
  { intros x Hx. apply IZR_le. by apply Hall. }
  assert (forall x, x ∈ top ->
            (Rabs (V (JS.Number_of_bigint (out x)) - IZR (out x)) <= u * IZR (out x))%R)
    as Hclose.
  { intros x Hx. apply output_spec. specialize (Hall x Hx). lia. }
  assert (forall x, x ∈ top -> (IZR (out x) <= S)%R) as Hle.
  { intros x Hx. apply sumR_ge_elem.
    - apply Forall_map. rewrite Forall_forall. exact Hnn.
    - apply list_elem_of_fmap. by exists x. }
  assert (1 <= S)%R as HS1.
  { eapply Rle_trans; [|apply (Hle q0); rewrite Htop; left]. apply IZR_le. lia. }
  pose proof (sumR_close_rel (fun x => V (JS.Number_of_bigint (out x)))
                (fun x => IZR (out x)) u top Hclose) as HT.
  fold S T in HT.
  set (a := IZR (out q)). set (x := V (JS.Number_of_bigint (out q))).
  assert (0 <= a <= S)%R as Ha by (split; [by apply Hnn|by apply Hle]).
  assert (Rabs (x - a) <= u * a)%R as Hx by (by apply Hclose).
  destruct (ratio_close a S T u) as (HT0 & Hr & Hq1); [lra..|].
  apply Rabs_le_inv in Hr, Hx.
  set (r1 := (a / T)%R) in *. set (r2 := (a / S)%R) in *.
  assert (x / T - r1 = (x - a) / T)%R as Heq by (unfold r1; field; lra).
  assert (0 <= u * r1 <= 2 * u)%R as Hur by nra.
  assert (- (u * r1) <= (x - a) / T <= u * r1)%R as Hd.
  { assert (u * r1 = u * a / T)%R as -> by (unfold r1; field; lra).
    assert (0 < / T)%R as Hi by (by apply Rinv_0_lt_compat).
    unfold Rdiv. split; nra. }
  apply Rabs_le. lra.
Qed.

Lemma ranked_outputs {Q} (out : Q -> Z) top :
  (length top <= 3)%nat -> ranked out top ->
  Forall (fun x => fin x /\ (0 <= V x)%R) (outputs out top)
  /\ (1 / 2 <= sumR (map V (outputs out top)) <= bpow 300)%R.
Proof.
  intros Hlen Hr.
  destruct (outputs_spec out top Hlen Hr) as (x0 & rest & _ & Hall & HS & _). done.
Qed.

(** The percentage the per-route optimizer computes for a quote of the
    top three, before the minimum. *)
Lemma route_share {Q} (out : Q -> Z) top :
  (length top <= 3)%nat -> ranked out top ->
  forall q, q ∈ top ->
    let p := pass (outputs out top) (JS.Number_of_bigint (out q)) in
    fin p /\ (0 <= V p)%R
    /\ (Rabs (V p - sharePercent (map out top) (out q)) <= 5000 * u)%R.
Proof.
  intros Hlen Hr q Hq. pose proof u_bound as Hu.
  destruct (ranked_outputs out top Hlen Hr) as [Hall HS].
  destruct (pass_spec (outputs out top)) with (x := JS.Number_of_bigint (out q))
    as (Hf & H0 & Hp); [by unfold outputs; rewrite length_map|done|done| |].
  { unfold outputs. apply list_elem_of_fmap. by exists q. }
  cbv zeta. split; [done|]. split; [done|].
  pose proof (outputs_share out top Hr q Hq) as Hs.
  apply Rabs_le_inv in Hp, Hs. apply Rabs_le. lra.
Qed.

Lemma route_shares {Q} (out : Q -> Z) top :
  (length top <= 3)%nat -> ranked out top ->
  Forall2 (fun q p => fin p
             /\ (Rabs (V p - sharePercent (map out top) (out q)) <= shareTolerance)%R)
    top (map (pass (outputs out top)) (outputs out top)).
Proof.
  intros Hlen Hr. pose proof u_bound as Hu.
  unfold outputs at 2. rewrite map_map. apply Forall2_fmap_r.
  apply Forall_Forall2_diag. rewrite Forall_forall. intros q Hq.
  destruct (route_share out top Hlen Hr q Hq) as (Hf & _ & Hp).
  split; [done|]. unfold shareTolerance.
  apply Rabs_le_inv in Hp. apply Rabs_le. lra.
Qed.

(** The percentages of the per-venue optimizer, after its second pass
    and before the minimum. *)
Lemma venue_shares {Q} (out : Q -> Z) top :
  (length top <= 3)%nat -> ranked out top ->
  Forall2 (fun q p => fin p
             /\ (Rabs (V p - sharePercent (map out top) (out q)) <= shareTolerance)%R)
    top (RouteOptimizerService.normalizePercentages
           (map (pass (outputs out top)) (outputs out top))).
Proof.
  intros Hlen Hr. pose proof u_bound as Hu.
  pose proof (first_pass_percents out top Hlen Hr) as (Hl & Hall & Hsum & _).
  set (raw := map (pass (outputs out top)) (outputs out top)) in *.
  change (RouteOptimizerService.normalizePercentages raw) with (map (pass raw) raw).
  apply Rabs_le_inv in Hsum.
  pose proof (bpow_le 7 300 ltac:(lia)) as H7.
  rewrite (bpow_IZR 7) in H7 by lia. change (2 ^ 7) with 128 in H7.
  assert (1 / 2 <= sumR (map V raw) <= bpow 300)%R as HS by lra.
  assert (map (pass raw) raw
          = map (fun q => pass raw (pass (outputs out top)
                                     (JS.Number_of_bigint (out q)))) top) as ->.
  { unfold raw at 2. unfold outputs at 2. by rewrite !map_map. }
  apply Forall2_fmap_r.
  apply Forall_Forall2_diag. rewrite Forall_forall. intros q Hq.
  destruct (route_share out top Hlen Hr q Hq) as (Hf1 & H01 & Hp1).
  set (p1 := pass (outputs out top) (JS.Number_of_bigint (out q))) in *.
  assert (p1 ∈ raw) as Hin.
  { unfold raw, outputs. rewrite map_map. apply list_elem_of_fmap. by exists q. }
  destruct (pass_spec raw Hl Hall HS p1 Hin) as (Hf2 & _ & Hp2).
  split; [done|].
  assert (V p1 <= sumR (map V raw))%R as Hle.
  { apply sumR_ge_elem.
    - apply Forall_map. eapply Forall_impl; [exact Hall|]. by intros ? [_ ?].
    - apply list_elem_of_fmap. by exists p1. }
  set (tot := sumR (map V raw)) in *.
  set (t := (V p1 / tot)%R) in *.
  assert (t * tot = V p1)%R as Ht by (unfold t; field; lra).
  assert (0 < tot)%R as HR0 by lra.
  clearbody t tot.
  assert (0 <= t <= 1)%R as Ht1.
  { split; apply Rmult_le_reg_r with tot; lra. }
  assert (100 * t - V p1 = t * (100 - tot))%R as Hdiff by (rewrite <- Ht; ring).
  assert (Rabs (100 * t - V p1) <= 9900 * u)%R as Hd.
  { rewrite Hdiff. apply Rabs_le. split; nra. }
  unfold shareTolerance.
  apply Rabs_le_inv in Hp1, Hp2, Hd. apply Rabs_le. fold p1. lra.
Qed.

(** The quotes of the legs are the quotes the minimum kept. *)
Lemma adjustFirst_quotes {Q} f (l : list (Q * JS.number)) :
  map fst (RouteOptimizerService.adjustFirst f l) = map fst l.
Proof. by destruct l as [|[q p] l]. Qed.

Lemma finish_quotes {Q} conv fixup (ys : list (Q * JS.number)) :
  map fst (finish conv fixup ys) = map fst ys.
Proof.
  unfold finish. cbv zeta.
  destruct (_ && _); [rewrite adjustFirst_quotes|]; by rewrite map_map.
Qed.

Lemma calculateDynamicSplit_quotes quotes :
  map fst (calculateDynamicSplit quotes)
  = let top := take 3 quotes in
    let xs := outputs DexQuoteService.amountOut top in
    map fst (filter (fun s => JS.ge (snd s) MIN_SPLIT_PERCENTAGE = true)
               (zip top (RouteOptimizerService.normalizePercentages
                           (map (pass xs) xs)))).
Proof.
  rewrite calculateDynamicSplit_unfold. cbv zeta.
  destruct (filter _ _) as [|[q p] [|s l]]; [| done |].
  - by rewrite renormalize_finish, finish_quotes.
  - by rewrite renormalize_finish, finish_quotes.
Qed.

Lemma normalizeSplits_quotes ys :
  map fst (normalizeSplits ys) = map fst ys.
Proof.
  change (normalizeSplits ys)
    with (finish (fun y => QuoteService.normalized (sumNumbers (map snd ys)) y)
            (fun sum p =>
               JS.add p (JS.div (JS.Math_round (JS.mul (JS.sub n100 sum) n100)) n100)) ys).
  apply finish_quotes.
Qed.

Lemma keptBy_zero share m top :
  Forall (fun a => share a = 0%R) top -> (0 <= m)%R -> keptBy share m top [].
Proof.
  intros Hall Hm. induction Hall as [|a top Ha _ IH]; [constructor|].
  apply keptBy_drop; [|done]. rewrite Ha. unfold shareTolerance. lra.
Qed.

(** The quotes each optimizer keeps of the top three, by its minimum. *)
Lemma venue_kept best rest :
  uint256 (DexQuoteService.amountOut best) ->
  Forall (fun q => 0 <= DexQuoteService.amountOut q <= DexQuoteService.amountOut best)
    (best :: rest) ->
  let tops := map DexQuoteService.amountOut (take 3 (best :: rest)) in
  keptBy (sharePercent tops) 1 tops
    (map (fun leg => DexQuoteService.amountOut leg.1)
       (calculateDynamicSplit (best :: rest))).
Proof.
  intros Hb Hall tops.
  assert (Forall (fun q => 0 <= DexQuoteService.amountOut q <= DexQuoteService.amountOut best)
            (take 3 (best :: rest))) as Htop by (by apply Forall_take).
  destruct (Z.eq_dec (DexQuoteService.amountOut best) 0) as [H0|H0].
  - rewrite calculateDynamicSplit_zero by (by eapply all_zero).
    apply keptBy_zero; [|lra]. unfold tops. apply Forall_map.
    eapply Forall_impl; [apply (all_zero _ _ _ H0 Htop)|].
    intros q Hq. cbv beta. unfold sharePercent. rewrite Hq. lra.
  - assert (ranked DexQuoteService.amountOut (take 3 (best :: rest))) as Hr
      by (apply top_ranked; [unfold uint256 in Hb; lia|done..]).
    assert (length (take 3 (best :: rest)) <= 3)%nat as Hlen
      by (rewrite length_take; lia).
    rewrite <- (map_map fst DexQuoteService.amountOut).
    rewrite calculateDynamicSplit_quotes. cbv zeta.
    rewrite (map_map fst DexQuoteService.amountOut).
    apply (filter_keptBy DexQuoteService.amountOut MIN_SPLIT_PERCENTAGE 1);
      [apply MIN_SPLIT_fin|apply MIN_SPLIT_val|].
    by apply venue_shares.
Qed.

Lemma route_kept best rest :
  uint256 (RouteQuoteService.amountOut best) ->
  Forall (fun q => 0 <= RouteQuoteService.amountOut q <= RouteQuoteService.amountOut best)
    (best :: rest) ->
  let tops := map RouteQuoteService.amountOut (take 3 (best :: rest)) in
  keptBy (sharePercent tops) 5 tops
    (map (fun leg => RouteQuoteService.amountOut leg.1)
       (normalizeSplits (routeSplits (best :: rest)))).
Proof.
  intros Hb Hall tops.
  assert (Forall (fun q => 0 <= RouteQuoteService.amountOut q
                           <= RouteQuoteService.amountOut best)
            (take 3 (best :: rest))) as Htop by (by apply Forall_take).
  rewrite <- (map_map fst RouteQuoteService.amountOut).
  rewrite normalizeSplits_quotes.
  rewrite (map_map fst RouteQuoteService.amountOut).
  destruct (Z.eq_dec (RouteQuoteService.amountOut best) 0) as [H0|H0].
  - rewrite routeSplits_zero by (by eapply all_zero).
    apply keptBy_zero; [|lra]. unfold tops. apply Forall_map.
    eapply Forall_impl; [apply (all_zero _ _ _ H0 Htop)|].
    intros q Hq. cbv beta. unfold sharePercent. rewrite Hq. lra.
  - assert (ranked RouteQuoteService.amountOut (take 3 (best :: rest))) as Hr
      by (apply top_ranked; [unfold uint256 in Hb; lia|done..]).
    assert (length (take 3 (best :: rest)) <= 3)%nat as Hlen
      by (rewrite length_take; lia).
    rewrite routeSplits_unfold. cbv zeta.
    apply (filter_keptBy RouteQuoteService.amountOut MIN_ROUTE_PERCENTAGE 5);
      [apply MIN_ROUTE_fin|apply MIN_ROUTE_val|].
    by apply route_shares.
Qed.

(** The same amounts, one list quoted per venue and one per route: the
    per-venue optimizer keeps the 3 percent leg, the per-route optimizer
    drops it. The minimum is 1 per venue and 5 per route. *)
Lemma minimum_differs :
  let venues := [venueQuote "sushiswap" 3000000; venueQuote "uniswap_v3" 97000000] in
  let routes := [routeQuote 3000000; routeQuote 97000000] in
  map DexQuoteService.amountOut venues = map RouteQuoteService.amountOut routes
  /\ map DexQuoteService.estimatedGas venues
     = map RouteQuoteService.rq_estimatedGas routes
  /\ map (fun leg => (DexQuoteService.amountOut leg.1, leg.2))
       (calculateDynamicSplit (sortedVenues venues))
     = [(97000000, JS.of_Z 97); (3000000, JS.of_Z 3)]
  /\ map (fun leg => (RouteQuoteService.amountOut leg.1, leg.2))
       (routeSplits (sortedRoutes routes))
     = [(97000000, JS.of_Z 97)]
  /\ JS.ge (JS.of_Z 3) MIN_SPLIT_PERCENTAGE = true
  /\ JS.ge (JS.of_Z 3) MIN_ROUTE_PERCENTAGE = false.
Proof. vm_compute. repeat split. Qed.

Lemma sorted_same_amounts
    (venues : list DexQuoteService.DexQuote) (routes : list RouteQuoteService.RouteQuote) :
  map DexQuoteService.amountOut venues = map RouteQuoteService.amountOut routes ->
  map DexQuoteService.amountOut (sortedVenues venues)
  = map RouteQuoteService.amountOut (sortedRoutes routes).
Proof.
  intros Heq.
  rewrite (sort_map DexQuoteService.amountOut _ (byAmountOutDesc (fun z : Z => z))) by done.
  rewrite (sort_map RouteQuoteService.amountOut _ (byAmountOutDesc (fun z : Z => z))) by done.
  by rewrite Heq.
Qed.

Lemma sorted_amounts {Q} (out : Q -> Z) quotes :
  StronglySorted (fun a b => b <= a) (map out (JS.sort (byAmountOutDesc out) quotes)).
Proof.
  pose proof (sort_sorted (byAmountOutDesc out) out (byAmountOutDesc_key out) quotes)
    as Hs.
  induction Hs as [|x l _ IH Hx]; cbn [map]; constructor; [done|].
  apply Forall_map. exact Hx.
Qed.

(** What the two optimizers do on the same amounts. *)
Definition sameScheme (venues : list DexQuoteService.DexQuote)
    (routes : list RouteQuoteService.RouteQuote)
    (amountIn : Z) (fromDecimals toDecimals : nat) : Prop :=
  let amounts := map DexQuoteService.amountOut (sortedVenues venues) in
  let tops := take 3 amounts in
  let venueLegs := calculateDynamicSplit (sortedVenues venues) in
  let routeLegs := normalizeSplits (routeSplits (sortedRoutes routes)) in
  (* the same sort: larger amounts first *)
  amounts = map RouteQuoteService.amountOut (sortedRoutes routes)
  /\ amounts ≡ₚ map DexQuoteService.amountOut venues
  /\ StronglySorted (fun a b => b <= a) amounts
  (* the legs are quotes of the top three, kept by the minimum share: 1
     percent per venue, 5 percent per route *)
  /\ keptBy (sharePercent tops) 1 tops
       (map (fun leg => DexQuoteService.amountOut leg.1) venueLegs)
  /\ keptBy (sharePercent tops) 5 tops
       (map (fun leg => RouteQuoteService.amountOut leg.1) routeLegs)
  (* the percentages of the legs add up to 100 again *)
  /\ ((exists a, a ∈ amounts /\ 0 < a) ->
      percentagesOK MIN_SPLIT_PERCENTAGE (map snd venueLegs))
  /\ ((2 <= length (routeSplits (sortedRoutes routes)))%nat ->
      percentagesOK MIN_ROUTE_PERCENTAGE (map snd routeLegs))
  (* the same gate, which neither split plan passes *)
  /\ exists bestVenue bestRoute singleRoute splitRoute,
       first (sortedVenues venues) = Value bestVenue
       /\ first (sortedRoutes routes) = Value bestRoute
       /\ DexQuoteService.amountOut bestVenue = RouteQuoteService.amountOut bestRoute
       /\ createSingleRoute bestVenue amountIn fromDecimals toDecimals = Value singleRoute
       /\ RouteOptimizerService.isSplit singleRoute = false
       /\ createSplitRoute venueLegs amountIn fromDecimals toDecimals = Value splitRoute
       /\ JS.gt (parseFloat (RouteOptimizerService.totalOutput splitRoute))
            (JS.mul (parseFloat (RouteOptimizerService.totalOutput singleRoute))
                    (JS.of_ratio 1001 1000)) = false
       /\ findOptimalRoute venues amountIn fromDecimals toDecimals = Value singleRoute
       /\ ((2 <= length (routeSplits (sortedRoutes routes)))%nat ->
           exists total gas impact,
             foldl QuoteService.splitLeg (Value (0, JS.zero, JS.zero)) routeLegs
             = Value (total, gas, impact)
             /\ JS.gt (parseFloat (formatUnits total toDecimals))
                  (JS.mul (parseFloat (RouteQuoteService.amountOutFormatted bestRoute))
                          (JS.of_ratio 1001 1000)) = false)
       /\ optimizeRouteSplit routes amountIn fromDecimals toDecimals
          = Value (Some (singleRoutePlan bestRoute)).

(** The gate, written out, on shares of a whole. *)
Lemma comparison_false S A td :
  0 <= S <= A -> A < 2 ^ 256 -> (td <= 255)%nat ->
  JS.gt (parseFloat (formatUnits S td))
    (JS.mul (parseFloat (formatUnits A td)) (JS.of_ratio 1001 1000)) = false.
Proof. apply gate_false. Qed.

(** C3, amended. On the same amounts (unsigned 256-bit integers, rendered
    with at most 255 decimals, with swap data that can be encoded) the
    two optimizers sort to the same order of amounts, larger first; each
    draws its legs from the top three, in order, keeping a quote whose
    share of the top three's sum is above its own minimum and dropping
    one whose share is below: 1 percent per venue, 5 percent per route,
    each up to a billionth of a percent; each brings the percentages of
    the kept legs back to a sum of 100 within 0.01, none below its
    minimum; and each compares the split plan's total output with the
    best quote's output times 1.001. Neither split plan passes: both
    return the best quote alone, not split. *)
Theorem both_return_best (venues : list DexQuoteService.DexQuote)
    (routes : list RouteQuoteService.RouteQuote)
    (amountIn : Z) (fromDecimals toDecimals : nat) :
  venues <> [] ->
  Forall (fun q => uint256 (DexQuoteService.amountOut q)) venues ->
  Forall encodable venues ->
  map DexQuoteService.amountOut venues = map RouteQuoteService.amountOut routes ->
  Forall (fun q => RouteQuoteService.amountOutFormatted q
                   = formatUnits (RouteQuoteService.amountOut q) toDecimals) routes ->
  (toDecimals <= 255)%nat ->
  sameScheme venues routes amountIn fromDecimals toDecimals.
Proof.
  intros Hv Hva Henc Hsame Hfmt Htd. unfold sameScheme. cbv zeta.
  assert (routes <> []) as Hr.
  { intros ->. destruct venues; done. }
  assert (Forall (fun q => uint256 (RouteQuoteService.amountOut q)) routes) as Hra.
  { apply Forall_map with (f := RouteQuoteService.amountOut) (P := uint256).
    rewrite <- Hsame. by apply Forall_map. }
  pose proof (sorted_same_amounts venues routes Hsame) as Hsorted.
  destruct (sorted_best _ venues Hv Hva) as (bv & vrest & Hvs & Hvu & Hvle).
  destruct (sorted_best _ routes Hr Hra) as (br & rrest & Hrs & Hru & Hrle).
  assert (DexQuoteService.amountOut bv = RouteQuoteService.amountOut br) as Hbest.
  { rewrite Hvs, Hrs in Hsorted. by injection Hsorted. }
  split; [done|]. split; [by rewrite (sort_perm _ venues)|].
  split; [apply sorted_amounts|].
  split; [|split; [|split; [|split]]].
  - rewrite <- fmap_take, Hvs. by apply venue_kept.
  - rewrite Hsorted, <- fmap_take, Hrs. by apply route_kept.
  - intros (a & Ha & Hpos). rewrite Hvs in *. apply venue_percentages; [|done..].
    apply list_elem_of_fmap in Ha as (q & -> & Hq).
    rewrite Forall_forall in Hvle. specialize (Hvle q Hq). lia.
  - rewrite Hrs. by apply route_percentages.
  - destruct (findOptimalRoute_gate amountIn fromDecimals toDecimals venues Hv Hva Henc)
      as (bv' & singleRoute & plan & Hbv & Hsingle & Hflag & Hstot & Hplan & Hsplit
          & (ks & Hks & Hsum & Htot) & _ & Hres).
    rewrite Hvs in Hbv. injection Hbv as <-.
    assert (JS.gt (parseFloat (RouteOptimizerService.totalOutput plan))
              (JS.mul (parseFloat (formatUnits (DexQuoteService.amountOut bv) toDecimals))
                      (JS.of_ratio 1001 1000)) = false) as Hgate.
    { rewrite Htot. apply comparison_false; [|apply Hvu|done].
      assert (Forall2 (fun leg k => 0 <= DexQuoteService.amountOut leg.1
                                    <= DexQuoteService.amountOut bv /\ 0 <= k)
                (calculateDynamicSplit (sortedVenues venues)) ks) as Hks'.
      { eapply Forall2_impl; [exact Hks|]. intros leg k [? ?]. done. }
      destruct (splitOut_le DexQuoteService.amountOut _ ks _ Hks') as [H0 Hle].
      split; [done|]. destruct Hvu as [Hb0 _]. nia. }
    exists bv, br, singleRoute, plan.
    split; [by rewrite Hvs|]. split; [by rewrite Hrs|]. split; [done|].
    split; [done|]. split; [done|]. split; [done|].
    split; [by rewrite Hstot|]. split; [|split].
    + rewrite Hres, Hgate. by destruct (_ || _).
    + intros Hlen.
      destruct (optimizeRouteSplit_gate routes Hr Hra) as (br' & Hbr & Htwo).
      rewrite Hrs in Hbr. injection Hbr as <-.
      destruct (Htwo Hlen) as (rks & gas & wpi & Hrks & Hrsum & _ & Hfold).
      eexists _, gas, wpi. split; [exact Hfold|].
      assert (RouteQuoteService.amountOutFormatted br
              = formatUnits (RouteQuoteService.amountOut br) toDecimals) as ->.
      { rewrite Forall_forall in Hfmt. apply Hfmt.
        apply (sort_elem (byAmountOutDesc RouteQuoteService.amountOut)).
        rewrite Hrs. left. }
      apply comparison_false; [|apply Hru|done].
      assert (Forall2 (fun leg k => 0 <= RouteQuoteService.amountOut leg.1
                                    <= RouteQuoteService.amountOut br /\ 0 <= k)
                (normalizeSplits (routeSplits (sortedRoutes routes))) rks) as Hrks'.
      { eapply Forall2_impl; [exact Hrks|]. intros leg k (_ & ? & _ & ?).
        split; [done|lia]. }
      destruct (splitOut_le RouteQuoteService.amountOut _ rks _ Hrks') as [H0 Hle].
      split; [done|]. destruct Hru as [Hb0 _]. nia.
    + rewrite (optimizeRouteSplit_decision amountIn fromDecimals toDecimals
                 routes br rrest Hrs).
      destruct ((length routes =? 1)%nat
                || JS.lt (parseFloat (formatUnits amountIn fromDecimals)) n100
                || (length (routeSplits (sortedRoutes routes)) <=? 1)%nat) eqn:Hc;
        [done|].
      apply orb_false_iff in Hc as [_ Hc]. apply Nat.leb_gt in Hc.
      destruct (optimizeRouteSplit_gate routes Hr Hra) as (br' & Hbr & Htwo).
      rewrite Hrs in Hbr. injection Hbr as <-.
      destruct (Htwo ltac:(lia)) as (rks & gas & wpi & Hrks & Hrsum & _ & Hfold).
      cbv zeta. rewrite Hfold. cbn [mbind result_bind].
      assert (RouteQuoteService.amountOutFormatted br
              = formatUnits (RouteQuoteService.amountOut br) toDecimals) as ->.
      { rewrite Forall_forall in Hfmt. apply Hfmt.
        apply (sort_elem (byAmountOutDesc RouteQuoteService.amountOut)).
        rewrite Hrs. left. }
      rewrite comparison_false; [done| |apply Hru|done].
      assert (Forall2 (fun leg k => 0 <= RouteQuoteService.amountOut leg.1
                                    <= RouteQuoteService.amountOut br /\ 0 <= k)
                (normalizeSplits (routeSplits (sortedRoutes routes))) rks) as Hrks'.
      { eapply Forall2_impl; [exact Hrks|]. intros leg k (_ & ? & _ & ?).
        split; [done|lia]. }
      destruct (splitOut_le RouteQuoteService.amountOut _ rks _ Hrks') as [H0 Hle].
      split; [done|]. destruct Hru as [Hb0 _]. nia.
Qed.

(** Quotes of 1000 and 1010 units, per venue and per route. *)
Lemma both_return_best_witness :
  sameScheme
    [venueQuote "sushiswap" 1000000000; venueQuote "uniswap_v3" 1010000000]
    [routeQuote 1000000000; routeQuote 1010000000]
    1000000000000000000000 18 6.
Proof.
  apply both_return_best.
  - discriminate.
  - repeat constructor; vm_compute; congruence.
  - repeat (constructor; [apply venueQuote_encodable|]); constructor.
  - reflexivity.
  - repeat constructor.
  - lia.
Defined.

End SplitFacts.

(** ** Strings: lower case *)

Lemma lower_ascii_idem c : JS.lower_ascii (JS.lower_ascii c) = JS.lower_ascii c.
Proof. destruct c as [[] [] [] [] [] [] [] []]; reflexivity. Qed.

Lemma toLowerCase_idem s : JS.toLowerCase (JS.toLowerCase s) = JS.toLowerCase s.
Proof. induction s as [|c s IH]; simpl; [done|]. by rewrite lower_ascii_idem, IH. Qed.

(** ** Liquidity graph: the shape of the built graph *)

Module GraphShapeFacts.
Import LiquidityGraph LiquidityGraphQueries.

Local Abbreviation lower := JS.toLowerCase.

(** The two edges a pool contributes. *)
Definition edge0to1 (pool : Pool) : GraphEdge :=
  {| edge_pool := pool;
     edge_tokenIn := lower (token0 pool);
     edge_tokenOut := lower (token1 pool);
     edge_dexId := dexId pool;
     edge_fee := feeDecimal pool;
     edge_liquidity := match liquidity pool with Some l => l | None => 0 end |}.

Definition edge1to0 (pool : Pool) : GraphEdge :=
  {| edge_pool := pool;
     edge_tokenIn := lower (token1 pool);
     edge_tokenOut := lower (token0 pool);
     edge_dexId := dexId pool;
     edge_fee := feeDecimal pool;
     edge_liquidity := match liquidity pool with Some l => l | None => 0 end |}.

(** The edges that leave the token [t], pool by pool. *)
Definition poolEdges (t : string) (pool : Pool) : list GraphEdge :=
  (if decide (lower (token0 pool) = t) then [edge0to1 pool] else [])
  ++ (if decide (lower (token1 pool) = t) then [edge1to0 pool] else []).

Definition edgesOf (t : string) (pools : list Pool) : list GraphEdge :=
  flat_map (poolEdges t) pools.

Definition listed (adj : gmap string (list GraphEdge)) (t : string) : list GraphEdge :=
  default [] (adj !! t).

Lemma listed_pushEdge adj t e t' :
  listed (pushEdge adj t e) t'
  = listed adj t' ++ (if decide (t = t') then [e] else []).
Proof.
  unfold listed, pushEdge. destruct (decide (t = t')) as [->|Hne].
  - by rewrite lookup_insert_eq.
  - rewrite lookup_insert_ne by done. by rewrite app_nil_r.
Qed.

Lemma listed_addPool adj toks pool t :
  listed (addPool (adj, toks) pool).1 t = listed adj t ++ poolEdges t pool.
Proof.
  cbn [addPool fst]. rewrite !listed_pushEdge, <- app_assoc. reflexivity.
Qed.

Lemma tokens_addPool adj toks pool :
  (addPool (adj, toks) pool).2
  = {[lower (token1 pool)]} ∪ ({[lower (token0 pool)]} ∪ toks).
Proof. reflexivity. Qed.

Lemma listed_foldl pools : forall acc t,
  listed (foldl addPool acc pools).1 t = listed acc.1 t ++ edgesOf t pools.
Proof.
  induction pools as [|pool pools IH]; intros [adj toks] t.
  - simpl. by rewrite app_nil_r.
  - change (foldl addPool (adj, toks) (pool :: pools))
      with (foldl addPool (addPool (adj, toks) pool) pools).
    rewrite IH, listed_addPool. cbn [fst edgesOf flat_map]. by rewrite <- app_assoc.
Qed.

Lemma tokens_foldl pools : forall acc t,
  t ∈ (foldl addPool acc pools).2
  <-> t ∈ acc.2 \/ exists pool, pool ∈ pools
                    /\ (t = lower (token0 pool) \/ t = lower (token1 pool)).
Proof.
  induction pools as [|pool pools IH]; intros [adj toks] t.
  - simpl. split; [by left|]. intros [H|(p & Hp & _)]; [done|].
    by apply elem_of_nil in Hp.
  - change (foldl addPool (adj, toks) (pool :: pools))
      with (foldl addPool (addPool (adj, toks) pool) pools).
    rewrite IH, tokens_addPool. cbn [snd]. rewrite !elem_of_union, !elem_of_singleton.
    split.
    + intros [[H|[H|H]]|(p & Hp & H)].
      * right. exists pool. split; [left|by right].
      * right. exists pool. split; [left|by left].
      * by left.
      * right. exists p. split; [by right|done].
    + intros [H|(p & Hp & H)]; [left; right; by right|].
      apply elem_of_cons in Hp as [->|Hp].
      * left. destruct H as [H|H]; [right; by left|by left].
      * right. by exists p.
Qed.

(** What [getEdgesFrom] reads off the built graph. *)
Lemma getEdgesFrom_buildGraph pools t :
  getEdgesFrom (buildGraph pools) t = edgesOf (lower t) pools.
Proof.
  unfold getEdgesFrom. rewrite GraphFacts.buildGraph_adjacency.
  fold (listed (foldl addPool (∅, ∅) pools).1 (lower t)).
  rewrite listed_foldl. unfold listed. cbn [fst]. by rewrite lookup_empty.
Qed.

Lemma buildGraph_tokens pools :
  tokens (buildGraph pools) = (foldl addPool (∅, ∅) pools).2.
Proof. unfold buildGraph. by destruct (foldl addPool (∅, ∅) pools). Qed.

Lemma hasToken_buildGraph pools t :
  hasToken (buildGraph pools) t = true
  <-> exists pool, pool ∈ pools
        /\ (lower t = lower (token0 pool) \/ lower t = lower (token1 pool)).
Proof.
  unfold hasToken. rewrite bool_decide_eq_true, buildGraph_tokens, tokens_foldl.
  cbn [snd]. split; [|by right]. intros [H|H]; [|done]. by apply elem_of_empty in H.
Qed.

Lemma elem_of_edgesOf e t pools :
  e ∈ edgesOf t pools
  <-> exists pool, pool ∈ pools
        /\ ((lower (token0 pool) = t /\ e = edge0to1 pool)
            \/ (lower (token1 pool) = t /\ e = edge1to0 pool)).
Proof.
  assert (forall pool, e ∈ poolEdges t pool
            <-> (lower (token0 pool) = t /\ e = edge0to1 pool)
                \/ (lower (token1 pool) = t /\ e = edge1to0 pool)) as Hpool.
  { intros pool. unfold poolEdges. rewrite elem_of_app.
    destruct (decide (lower (token0 pool) = t));
      destruct (decide (lower (token1 pool) = t));
      rewrite ?list_elem_of_singleton, ?elem_of_nil; intuition. }
  induction pools as [|p pools IH].
  - split; [by intros ?%elem_of_nil|]. intros (pool & Hp & _). by apply elem_of_nil in Hp.
  - cbn [edgesOf flat_map]. fold (edgesOf t pools). rewrite elem_of_app, IH, Hpool.
    split.
    + intros [H|(pool & Hp & H)]; [exists p; split; [left|done]|].
      exists pool. split; [by right|done].
    + intros (pool & Hp & H). apply elem_of_cons in Hp as [->|Hp]; [by left|].
      right. by exists pool.
Qed.

(** The built graph is consistent: a token is known exactly when edges
    leave it; every edge listed under a token starts there, belongs to an
    ingested pool, and has its reverse, through the same pool, listed
    under the token it arrives at. *)
Theorem buildGraph_consistent (pools : list Pool) (t : string) :
  (hasToken (buildGraph pools) t = true <-> getEdgesFrom (buildGraph pools) t <> [])
  /\ Forall (fun e =>
       edge_tokenIn e = lower t
       /\ edge_pool e ∈ pools
       /\ exists back, back ∈ getEdgesFrom (buildGraph pools) (edge_tokenOut e)
            /\ edge_pool back = edge_pool e
            /\ edge_tokenIn back = edge_tokenOut e
            /\ edge_tokenOut back = edge_tokenIn e)
       (getEdgesFrom (buildGraph pools) t).
Proof.
  split.
  - rewrite hasToken_buildGraph, getEdgesFrom_buildGraph. split.
    + intros (pool & Hp & H) Hnil.
      assert (exists e, e ∈ edgesOf (lower t) pools) as [e He].
      { destruct H as [H|H].
        - exists (edge0to1 pool). apply elem_of_edgesOf. exists pool. split; [done|]. by left.
        - exists (edge1to0 pool). apply elem_of_edgesOf. exists pool. split; [done|]. by right. }
      rewrite Hnil in He. by apply elem_of_nil in He.
    + intros Hne. destruct (edgesOf (lower t) pools) as [|e l] eqn:E; [done|].
      assert (e ∈ edgesOf (lower t) pools) as He by (rewrite E; left).
      apply elem_of_edgesOf in He as (pool & Hp & [[Ht _]|[Ht _]]);
        exists pool; split; [done|by left|done|by right].
  - rewrite Forall_forall. intros e He. rewrite getEdgesFrom_buildGraph in He.
    apply elem_of_edgesOf in He as (pool & Hp & [[Ht ->]|[Ht ->]]).
    + split; [done|]. split; [done|]. exists (edge1to0 pool).
      rewrite getEdgesFrom_buildGraph. split; [|done].
      apply elem_of_edgesOf. exists pool. split; [done|]. right.
      split; [|done]. cbn [edge_tokenOut edge0to1]. by rewrite toLowerCase_idem.
    + split; [done|]. split; [done|]. exists (edge0to1 pool).
      rewrite getEdgesFrom_buildGraph. split; [|done].
      apply elem_of_edgesOf. exists pool. split; [done|]. left.
      split; [|done]. cbn [edge_tokenOut edge1to0]. by rewrite toLowerCase_idem.
Qed.

(** A pool joins [a] and [b], in either orientation. *)
Definition joins (a b : string) (pool : Pool) : Prop :=
  (lower (token0 pool) = lower a /\ lower (token1 pool) = lower b)
  \/ (lower (token1 pool) = lower a /\ lower (token0 pool) = lower b).

#[local] Instance joins_dec a b pool : Decision (joins a b pool).
Proof. unfold joins. apply _. Defined.

(** The direct edges between two different tokens are those of the pools
    that join them, one edge per pool, in ingestion order. *)
Theorem getDirectEdges_pools (pools : list Pool) (a b : string) :
  lower a <> lower b ->
  map edge_pool (getDirectEdges (buildGraph pools) a b) = filter (joins a b) pools
  /\ Forall (fun e => edge_tokenIn e = lower a /\ edge_tokenOut e = lower b)
       (getDirectEdges (buildGraph pools) a b).
Proof.
  intros Hab. unfold getDirectEdges. rewrite getEdgesFrom_buildGraph. split.
  - induction pools as [|pool pools IH]; [done|].
    cbn [edgesOf flat_map]. rewrite filter_app, map_app. fold (edgesOf (lower a) pools).
    rewrite IH. rewrite filter_cons. unfold poolEdges, joins.
    destruct (decide (lower (token0 pool) = lower a)) as [H0|H0];
      destruct (decide (lower (token1 pool) = lower a)) as [H1|H1];
      cbn [app]; rewrite ?filter_cons, ?filter_nil;
      cbn [edge_tokenOut edge0to1 edge1to0]; rewrite ?toLowerCase_idem;
      repeat (destruct (decide _) as [?|?]); cbn [map app edge_pool edge0to1 edge1to0];
      try done; try (exfalso; intuition congruence).
  - rewrite Forall_forall. intros e He. apply list_elem_of_filter in He as [Hout He].
    apply elem_of_edgesOf in He as (pool & _ & [[Ht ->]|[Ht ->]]);
      cbn [edge_tokenOut edge_tokenIn edge0to1 edge1to0] in *;
      rewrite toLowerCase_idem in Hout; done.
Qed.

(** Of the pools A-B and A-C, the second alone joins A and C. *)
Lemma getDirectEdges_pools_witness :
  map edge_pool
    (getDirectEdges (buildGraph [PathfinderFacts.poolAB; PathfinderFacts.poolAC])
       PathfinderFacts.tokenA PathfinderFacts.tokenC)
  = [PathfinderFacts.poolAC].
Proof.
  destruct (getDirectEdges_pools [PathfinderFacts.poolAB; PathfinderFacts.poolAC]
              PathfinderFacts.tokenA PathfinderFacts.tokenC) as [Hpools _].
  - vm_compute. discriminate.
  - rewrite Hpools. vm_compute. reflexivity.
Defined.

End GraphShapeFacts.

(** ** Pathfinder: every route of the bounded search *)

Module RouteSearchFacts.
Import LiquidityGraph Pathfinder.

Local Abbreviation lower := JS.toLowerCase.

(** [hs] walks the graph from the token [from] along listed edges, and
    [p] names the tokens it arrives at. *)
Fixpoint walk (graph : Graph) (from : string) (hs : list RouteHop)
    (p : list string) : Prop :=
  match hs, p with
  | [], [] => True
  | h :: hs', t :: p' =>
      (exists e, e ∈ getEdgesFrom graph from /\ h = mkHop e
                 /\ t = lower (edge_tokenOut e))
      /\ walk graph t hs' p'
  | _, _ => False
  end.

(** What the search records when it runs from [cur] with the hops
    [cHops] and the path [cPath] behind it. *)
Definition found (graph : Graph) (target cur : string) (cHops : list RouteHop)
    (cPath : list string) (visited : gset string) (r : DiscoveredRoute) : Prop :=
  exists hs p,
    hops r = cHops ++ hs /\ path r = cPath ++ p
    /\ hs <> [] /\ (length (cHops ++ hs) <= MAX_HOPS)%nat
    /\ walk graph cur hs p
    /\ last p = Some target /\ NoDup p /\ Forall (fun t => t ∉ visited) p
    /\ totalHops r = length (hops r)
    /\ estimatedGas r = gasOfHops (hops r)
    /\ head (map hop_tokenIn (hops r)) = Some (route_tokenIn r)
    /\ last (map hop_tokenOut (hops r)) = Some (route_tokenOut r).

Lemma createRoute_snoc hs h p :
  exists r, createRoute (hs ++ [h]) p = Value r
    /\ hops r = hs ++ [h] /\ path r = p
    /\ totalHops r = length (hs ++ [h])
    /\ estimatedGas r = gasOfHops (hs ++ [h])
    /\ head (map hop_tokenIn (hops r)) = Some (route_tokenIn r)
    /\ last (map hop_tokenOut (hops r)) = Some (route_tokenOut r).
Proof.
  unfold createRoute. rewrite last_snoc.
  destruct (head (hs ++ [h])) as [h0|] eqn:Hh; [|by destruct hs].
  eexists. split; [done|]. cbn. repeat split.
  - destruct hs; simpl in *; by injection Hh as ->.
  - rewrite List.map_app. cbn [map]. apply last_snoc.
Qed.

Lemma walk_length graph from hs p : walk graph from hs p -> length p = length hs.
Proof.
  revert from p. induction hs as [|h hs IH]; intros from [|t p]; simpl; try done.
  intros [_ Hw]. f_equal. by eapply IH.
Qed.

Lemma found_step graph target cur cHops cPath visited e r :
  e ∈ getEdgesFrom graph cur ->
  lower (edge_tokenOut e) ∉ visited ->
  lower (edge_tokenOut e) <> target ->
  found graph target (lower (edge_tokenOut e)) (cHops ++ [mkHop e])
    (cPath ++ [lower (edge_tokenOut e)]) ({[lower (edge_tokenOut e)]} ∪ visited) r ->
  found graph target cur cHops cPath visited r.
Proof.
  intros He Hv Ht (hs & p & Hh & Hp & Hne & Hlen & Hw & Hlast & Hnd & Hall & Hrest).
  exists (mkHop e :: hs), (lower (edge_tokenOut e) :: p).
  rewrite <- app_assoc in Hh, Hp, Hlen.
  split; [done|]. split; [done|]. split; [done|]. split; [done|].
  split; [split; [by exists e|done]|].
  split; [|split; [|split; [|done]]].
  - destruct p; [done|]. done.
  - apply NoDup_cons. split; [|done]. intros Hin.
    rewrite Forall_forall in Hall. apply (Hall _ Hin).
    apply elem_of_union. left. by apply elem_of_singleton.
  - constructor; [done|]. eapply Forall_impl; [exact Hall|].
    intros t Hn Hin. apply Hn, elem_of_union. by right.
Qed.

(** The search from any state returns, extends the results it was given,
    records routes of the right shape only, and records a route for every
    listed edge that arrives at the target. *)
Lemma findRoutesRecursive_spec graph target : forall fuel cur cHops cPath visited rs,
  (MAX_HOPS - length cHops < fuel)%nat -> target ∉ visited ->
  exists news,
    findRoutesRecursive fuel graph cur target cHops cPath visited (Value rs)
    = Value (rs ++ news)
    /\ Forall (found graph target cur cHops cPath visited) news
    /\ (forall e, e ∈ getEdgesFrom graph cur -> lower (edge_tokenOut e) = target ->
          (length cHops < MAX_HOPS)%nat ->
          exists r, r ∈ news /\ hops r = cHops ++ [mkHop e]
                    /\ path r = cPath ++ [target]).
Proof.
  induction fuel as [|fuel IH]; intros cur cHops cPath visited rs Hfuel Htv.
  { lia. }
  cbn [findRoutesRecursive].
  destruct (bool_decide (MAX_HOPS ≤ length cHops)%nat) eqn:Hmax.
  { apply bool_decide_eq_true in Hmax. exists []. rewrite app_nil_r.
    split; [done|]. split; [constructor|]. intros; lia. }
  apply bool_decide_eq_false in Hmax.
  match goal with |- context [foldl ?f _ _] => set (step := f) end.
  assert (forall rs0 e, e ∈ getEdgesFrom graph cur ->
    exists add,
      step (Value rs0) e = Value (rs0 ++ add)
      /\ Forall (found graph target cur cHops cPath visited) add
      /\ (lower (edge_tokenOut e) = target ->
            exists r, r ∈ add /\ hops r = cHops ++ [mkHop e]
                      /\ path r = cPath ++ [target])) as Hstep.
  { intros rs0 e He. unfold step. cbv zeta.
    destruct (String.eqb (lower (edge_tokenOut e)) target) eqn:Heq.
    - apply String.eqb_eq in Heq. rewrite andb_false_r.
      destruct (createRoute_snoc cHops (mkHop e) (cPath ++ [lower (edge_tokenOut e)]))
        as (r & -> & Hh & Hp & Hth & Hg & Hin & Hout).
      exists [r]. split; [done|]. rewrite Heq in Hp. split.
      + constructor; [|constructor].
        exists [mkHop e], [target].
        split; [done|]. split; [done|]. split; [done|].
        split; [rewrite length_app; simpl; lia|].
        split; [split; [exists e; by rewrite Heq|done]|].
        split; [done|]. split; [apply NoDup_singleton|].
        split; [by constructor|]. rewrite <- Hh in Hth, Hg. done.
      + intros _. exists r. split; [left|done].
    - apply String.eqb_neq in Heq. rewrite andb_true_r.
      destruct (bool_decide (lower (edge_tokenOut e) ∈ visited)) eqn:Hvis.
      + exists []. rewrite app_nil_r. split; [done|]. split; [constructor|done].
      + apply bool_decide_eq_false in Hvis.
        destruct (IH (lower (edge_tokenOut e)) (cHops ++ [mkHop e])
                    (cPath ++ [lower (edge_tokenOut e)])
                    ({[lower (edge_tokenOut e)]} ∪ visited) rs0)
          as (deep & -> & Hdeep & _).
        { rewrite length_app. simpl. lia. }
        { apply not_elem_of_union. split; [|done].
          rewrite elem_of_singleton. congruence. }
        exists deep. split; [done|]. split; [|done].
        eapply Forall_impl; [exact Hdeep|]. intros r. by apply found_step. }
  clearbody step.
  assert (forall es rs0, (forall e, e ∈ es -> e ∈ getEdgesFrom graph cur) ->
    exists news,
      foldl step (Value rs0) es = Value (rs0 ++ news)
      /\ Forall (found graph target cur cHops cPath visited) news
      /\ (forall e, e ∈ es -> lower (edge_tokenOut e) = target ->
            exists r, r ∈ news /\ hops r = cHops ++ [mkHop e]
                      /\ path r = cPath ++ [target])) as Hloop.
  { induction es as [|e es IHes]; intros rs0 Hsub.
    - exists []. rewrite app_nil_r. split; [done|]. split; [constructor|].
      intros e He. by apply elem_of_nil in He.
    - cbn [foldl].
      destruct (Hstep rs0 e) as (add & -> & Hadd & Hone); [apply Hsub; left|].
      destruct (IHes (rs0 ++ add)) as (news & -> & Hall & Hcomp).
      { intros; apply Hsub; by right. }
      exists (add ++ news). rewrite <- app_assoc. split; [done|]. split.
      + by apply Forall_app.
      + intros e' He' Ht. apply elem_of_cons in He' as [->|He'].
        * destruct (Hone Ht) as (r & Hr & H'). exists r.
          split; [apply elem_of_app; by left|done].
        * destruct (Hcomp e' He' Ht) as (r & Hr & H'). exists r.
          split; [apply elem_of_app; by right|done]. }
  destruct (Hloop (getEdgesFrom graph cur) rs ltac:(done)) as (news & Hn & Hall & Hcomp).
  exists news. split; [exact Hn|]. split; [done|]. intros e He Ht _. by apply Hcomp.
Qed.


(** The shape of a route from [src] to [target]: the hops walk the graph
    from [src] along listed edges, the path names [src] and then the token
    each hop arrives at, the last of which is [target]; the tokens after
    [src] are pairwise different, so the target is reached once, at the
    end, and no intermediate token is met twice. *)
Definition routeShape (graph : Graph) (src target : string) (r : DiscoveredRoute)
    : Prop :=
  exists p,
    path r = src :: p
    /\ walk graph src (hops r) p
    /\ last p = Some target
    /\ NoDup p
    /\ (1 <= length (hops r) <= MAX_HOPS)%nat
    /\ totalHops r = length (hops r)
    /\ length (path r) = S (length (hops r))
    /\ estimatedGas r = gasOfHops (hops r)
    /\ head (map hop_tokenIn (hops r)) = Some (route_tokenIn r)
    /\ last (map hop_tokenOut (hops r)) = Some (route_tokenOut r).

Lemma found_routeShape graph src target r :
  found graph target src [] [src] ∅ r -> routeShape graph src target r.
Proof.
  intros (hs & p & Hh & Hp & Hne & Hlen & Hw & Hlast & Hnd & _ & Hth & Hg & Hin & Hout).
  simpl in Hh, Hp, Hlen. exists p. rewrite Hh, Hp in *.
  split; [done|]. split; [done|]. split; [done|]. split; [done|].
  split; [split; [destruct hs; [done|simpl; lia]|done]|]. split; [done|].
  split; [simpl; f_equal; by eapply walk_length|]. done.
Qed.

Definition byGas (a b : DiscoveredRoute) : Z := estimatedGas a - estimatedGas b.

Lemma byGas_key x y :
  (byGas x y <=? 0) = (- estimatedGas y <=? - estimatedGas x).
Proof.
  unfold byGas.
  destruct (Z.leb_spec (estimatedGas x - estimatedGas y) 0);
    destruct (Z.leb_spec (- estimatedGas y) (- estimatedGas x)); lia.
Qed.

Lemma StronglySorted_take {A} (R : A -> A -> Prop) n l :
  StronglySorted R l -> StronglySorted R (take n l).
Proof.
  intros Hs. revert n. induction Hs as [|x l Hs IH Hall]; intros [|n]; simpl;
    try constructor; [apply IH|by apply Forall_take].
Qed.

(** What [findRoutes] computes, in terms of the recorded routes. *)
Lemma findRoutes_unfold graph tokenIn tokenOut :
  exists news,
    Forall (found graph (lower tokenOut) (lower tokenIn) [] [lower tokenIn] ∅) news
    /\ (forall e, e ∈ getEdgesFrom graph (lower tokenIn) ->
          lower (edge_tokenOut e) = lower tokenOut ->
          exists r, r ∈ news /\ hops r = [mkHop e]
                    /\ path r = [lower tokenIn; lower tokenOut])
    /\ findRoutes graph tokenIn tokenOut
       = if hasToken graph tokenIn && hasToken graph tokenOut
         then Value (take MAX_ROUTES (JS.sort byGas news))
         else Value [].
Proof.
  destruct (findRoutesRecursive_spec graph (lower tokenOut) (S MAX_HOPS) (lower tokenIn)
              [] [lower tokenIn] ∅ [])
    as (news & Hrec & Hall & Hcomp).
  { unfold MAX_HOPS. simpl. lia. }
  { apply not_elem_of_empty. }
  exists news. split; [done|]. split.
  { intros e He Ht. apply (Hcomp e He Ht). unfold MAX_HOPS. simpl. lia. }
  unfold findRoutes. cbv zeta.
  assert (forall t, hasToken graph (lower t) = hasToken graph t) as Hidem.
  { intros t. unfold hasToken. by rewrite toLowerCase_idem. }
  rewrite !Hidem. destruct (hasToken graph tokenIn); [|done].
  destruct (hasToken graph tokenOut); [|done]. cbn [negb andb].
  rewrite Hrec. reflexivity.
Qed.

(** Every returned route was recorded by the search. *)
Lemma findRoutes_recorded graph tokenIn tokenOut :
  exists routes,
    findRoutes graph tokenIn tokenOut = Value routes
    /\ Forall (found graph (lower tokenOut) (lower tokenIn) [] [lower tokenIn] ∅) routes.
Proof.
  destruct (findRoutes_unfold graph tokenIn tokenOut) as (news & Hall & _ & ->).
  destruct (hasToken graph tokenIn && hasToken graph tokenOut).
  - eexists. split; [done|]. apply Forall_take.
    rewrite Forall_forall in Hall. rewrite Forall_forall. intros r Hr.
    apply sort_elem in Hr. by apply Hall.
  - exists []. split; [done|constructor].
Qed.

(** The search always returns: at most ten routes, cheapest estimated gas
    first, and none when either token is unknown to the graph. *)
Theorem findRoutes_returns (graph : Graph) (tokenIn tokenOut : string) :
  exists routes,
    findRoutes graph tokenIn tokenOut = Value routes
    /\ (length routes <= MAX_ROUTES)%nat
    /\ StronglySorted (fun a b => estimatedGas a <= estimatedGas b) routes
    /\ (hasToken graph tokenIn = false \/ hasToken graph tokenOut = false ->
        routes = []).
Proof.
  destruct (findRoutes_unfold graph tokenIn tokenOut) as (news & _ & _ & ->).
  destruct (hasToken graph tokenIn && hasToken graph tokenOut) eqn:Hb.
  - eexists. split; [done|]. split; [rewrite length_take; lia|]. split.
    + apply StronglySorted_take.
      pose proof (sort_sorted byGas (fun r => - estimatedGas r) byGas_key news) as Hs.
      induction Hs as [|x l Hs IH Hall]; constructor; [done|].
      eapply Forall_impl; [exact Hall|]. unfold descending. intros; lia.
    + apply andb_true_iff in Hb as [-> ->]. by intros [?|?].
  - exists []. split; [done|]. split; [simpl; lia|]. split; [constructor|done].
Qed.

(** Every returned route has the shape of a route from the source to the
    target: between one and three hops along listed edges, one more token
    than hops, the target at the end only, no token after the source
    twice. *)
Theorem findRoutes_shape (graph : Graph) (tokenIn tokenOut : string) :
  exists routes,
    findRoutes graph tokenIn tokenOut = Value routes
    /\ Forall (routeShape graph (lower tokenIn) (lower tokenOut)) routes.
Proof.
  destruct (findRoutes_recorded graph tokenIn tokenOut) as (routes & -> & Hall).
  exists routes. split; [done|]. eapply Forall_impl; [exact Hall|].
  intros r. apply found_routeShape.
Qed.

Lemma hopGas_bounds (leading : bool) h :
  (if leading then 120000 else 80000) <= hopGas leading h
  <= (if leading then 150000 else 100000).
Proof.
  unfold hopGas, GAS_v3_single, GAS_v2_single, GAS_v3_multi, GAS_v2_multi.
  destruct leading, (JS.includes "v3" (hop_dexId h)); lia.
Qed.

Lemma furtherHops_gas rest : forall a,
  a + 80000 * Z.of_nat (length rest)
  <= foldl (fun g h' => g + hopGas false h') a rest
  <= a + 100000 * Z.of_nat (length rest).
Proof.
  induction rest as [|h' rest IH]; intros a; cbn [foldl length]; [lia|].
  pose proof (hopGas_bounds false h') as Hh'. cbv iota in Hh'.
  specialize (IH (a + hopGas false h')). lia.
Qed.

Lemma gasOfHops_bounds h rest :
  120000 + 80000 * Z.of_nat (length rest) <= gasOfHops (h :: rest)
  <= 150000 + 100000 * Z.of_nat (length rest).
Proof.
  unfold gasOfHops. pose proof (hopGas_bounds true h) as Hh. cbv iota in Hh.
  pose proof (furtherHops_gas rest (hopGas true h)). lia.
Qed.

(** The gas estimate of a returned route: 120000 to 150000 for the first
    hop and 80000 to 100000 for each further hop, so 350000 at most. *)
Theorem findRoutes_gas (graph : Graph) (tokenIn tokenOut : string) :
  exists routes,
    findRoutes graph tokenIn tokenOut = Value routes
    /\ Forall (fun r =>
         let n := Z.of_nat (totalHops r) in
         1 <= n <= 3
         /\ 120000 + 80000 * (n - 1) <= estimatedGas r <= 150000 + 100000 * (n - 1))
       routes.
Proof.
  destruct (findRoutes_recorded graph tokenIn tokenOut) as (routes & -> & Hall).
  exists routes. split; [done|]. eapply Forall_impl; [exact Hall|].
  intros r (p & _ & _ & _ & _ & Hlen & -> & _ & -> & _)%found_routeShape. cbv zeta.
  unfold MAX_HOPS in Hlen. split; [lia|].
  destruct (hops r) as [|h rest]; [simpl in Hlen; lia|].
  pose proof (gasOfHops_bounds h rest). simpl length. lia.
Qed.

Import GraphShapeFacts.

(** When a pool joins the two tokens, the first route returned is a
    direct one, through a pool that joins them. *)
Theorem findRoutes_direct_first (pools : list Pool) (tokenIn tokenOut : string)
    (pool : Pool) :
  pool ∈ pools -> joins tokenIn tokenOut pool ->
  exists r rest pool',
    findRoutes (buildGraph pools) tokenIn tokenOut = Value (r :: rest)
    /\ totalHops r = 1%nat
    /\ path r = [lower tokenIn; lower tokenOut]
    /\ pool' ∈ pools /\ joins tokenIn tokenOut pool'
    /\ map hop_poolAddress (hops r) = [poolAddress pool'].
Proof.
  intros Hpool Hj.
  destruct (findRoutes_unfold (buildGraph pools) tokenIn tokenOut)
    as (news & Hall & Hcomp & ->).
  assert (hasToken (buildGraph pools) tokenIn = true) as ->.
  { apply hasToken_buildGraph. exists pool. split; [done|].
    destruct Hj as [[H _]|[H _]]; [by left|by right]. }
  assert (hasToken (buildGraph pools) tokenOut = true) as ->.
  { apply hasToken_buildGraph. exists pool. split; [done|].
    destruct Hj as [[_ H]|[_ H]]; [by right|by left]. }
  cbn [andb].
  (* the direct route through [pool] is among the recorded ones *)
  assert (exists e, e ∈ getEdgesFrom (buildGraph pools) (lower tokenIn)
                    /\ lower (edge_tokenOut e) = lower tokenOut) as (e & He & Hout).
  { destruct Hj as [[H0 H1]|[H1 H0]].
    - exists (edge0to1 pool). rewrite getEdgesFrom_buildGraph, toLowerCase_idem.
      split; [|by cbn; rewrite toLowerCase_idem].
      apply elem_of_edgesOf. exists pool. split; [done|]. by left.
    - exists (edge1to0 pool). rewrite getEdgesFrom_buildGraph, toLowerCase_idem.
      split; [|by cbn; rewrite toLowerCase_idem].
      apply elem_of_edgesOf. exists pool. split; [done|]. by right. }
  destruct (Hcomp e He Hout) as (direct & Hdin & Hdh & Hdp).
  destruct (JS.sort byGas news) as [|r srest] eqn:Hs.
  { apply (sort_elem byGas) in Hdin. rewrite Hs in Hdin. by apply elem_of_nil in Hdin. }
  pose proof (sort_head_max byGas (fun r => - estimatedGas r) byGas_key news r srest Hs
                direct Hdin) as Hmin. simpl in Hmin.
  assert (r ∈ news) as Hr by (apply (sort_elem byGas); rewrite Hs; left).
  rewrite Forall_forall in Hall.
  pose proof (Hall direct Hdin) as (_ & _ & _ & _ & _ & _ & _ & _ & _ & _ & _ & Hgd & _).
  rewrite Hdh in Hgd. pose proof (gasOfHops_bounds (mkHop e) []) as Hbd. simpl length in Hbd.
  destruct (found_routeShape _ _ _ _ (Hall r Hr))
    as (p & Hp & Hw & Hlast & _ & Hlen & Hth & _ & Hg & _).
  destruct (hops r) as [|h [|h2 rest']] eqn:Hh.
  { simpl in Hlen. lia. }
  2:{ pose proof (gasOfHops_bounds h (h2 :: rest')) as Hb. simpl length in Hb. lia. }
  destruct p as [|t [|t2 p']]; simpl in Hw; try done.
  2:{ by destruct Hw as [_ ?]. }
  destruct Hw as [(e0 & He0 & -> & ->) _]. simpl in Hlast. injection Hlast as Ht.
  rewrite getEdgesFrom_buildGraph, toLowerCase_idem in He0.
  apply elem_of_edgesOf in He0 as (pool' & Hp' & Hor).
  exists r, (take 9 srest), pool'. split; [done|]. split; [by rewrite Hth|].
  split; [by rewrite Hp, Ht|]. split; [done|].
  destruct Hor as [[H0 ->]|[H1 ->]]; cbn in Ht; rewrite toLowerCase_idem in Ht.
  - split; [by left|by rewrite Hh].
  - split; [by right|by rewrite Hh].
Qed.

(** Two pools A-B and A-C: the direct route from A to C comes first. *)
Lemma findRoutes_direct_first_witness :
  exists r rest,
    findRoutes (buildGraph [PathfinderFacts.poolAB; PathfinderFacts.poolAC])
      PathfinderFacts.tokenA PathfinderFacts.tokenC = Value (r :: rest)
    /\ totalHops r = 1%nat.
Proof.
  destruct (findRoutes_direct_first [PathfinderFacts.poolAB; PathfinderFacts.poolAC]
              PathfinderFacts.tokenA PathfinderFacts.tokenC PathfinderFacts.poolAC)
    as (r & rest & pool' & H & Hn & _).
  - apply elem_of_cons. right. apply elem_of_cons. by left.
  - left. split; reflexivity.
  - exists r, rest. split; [exact H|exact Hn].
Defined.

End RouteSearchFacts.

(** ** Route quoting: the best quote and the top quotes *)

Module RankingFacts.
Import LiquidityGraph Pathfinder Constants RouteQuoteService RouteQuoteRanking.
Import RouteQuoteFacts.

(** The best quote of a quoting round is a largest one, and belongs to a
    route whose every hop succeeded; there is none exactly when no route
    could be quoted. *)
Theorem getBestQuote_largest (chainId : Z) (provider : Provider)
    (routes : list DiscoveredRoute) (a : Z) (d : nat) :
  exists quotes,
    getQuotesForRoutes chainId provider routes a d = Value quotes
    /\ match getBestQuote quotes with
       | None =>
           quotes = []
           /\ Forall (fun r => everyHopSucceeds chainId provider (hops r) a = false)
                routes
       | Some best =>
           best ∈ quotes
           /\ (forall q, q ∈ quotes -> amountOut q <= amountOut best)
           /\ route best ∈ routes
           /\ everyHopSucceeds chainId provider (hops (route best)) a = true
       end.
Proof.
  destruct (getQuotesForRoutes_unfold chainId provider routes a d) as (os & -> & Hall).
  eexists. split; [done|]. unfold getBestQuote.
  destruct (JS.sort byOutputDesc (omap Datatypes.id os)) as [|best rest] eqn:Hs; cbn [head].
  - split; [done|].
    assert (omap Datatypes.id os = []) as Hnil.
    { apply (f_equal length) in Hs. rewrite sort_length in Hs.
      by destruct (omap Datatypes.id os). }
    pose proof (quoted_routes _ _ _ _ _ _ Hall) as Hq. rewrite Hnil in Hq. simpl in Hq.
    rewrite Forall_forall. intros r Hr.
    destruct (everyHopSucceeds chainId provider (hops r) a) eqn:E; [|done].
    assert (r ∈ filter (fun r => everyHopSucceeds chainId provider (hops r) a = true) routes)
      as Hin by (by apply list_elem_of_filter).
    rewrite <- Hq in Hin. by apply elem_of_nil in Hin.
  - assert (best ∈ omap Datatypes.id os) as Hb.
    { apply (sort_elem byOutputDesc). rewrite Hs. left. }
    split; [left|]. split.
    + intros q Hq. rewrite <- Hs in Hq. apply sort_elem in Hq.
      by apply (sort_head_max byOutputDesc amountOut byOutputDesc_key _ _ _ Hs).
    + destruct (quoted_elem _ _ _ _ _ _ _ Hall Hb) as (r & Hr & Hq).
      destruct (getQuoteForRoute_spec chainId provider r a d) as (o & Ho & Hspec).
      rewrite Hq in Ho. injection Ho as <-. destruct Hspec as (Hok & <- & _). done.
Qed.

Lemma take_map_fst {A B} n (l : list (A * B)) : map fst (take n l) = take n (map fst l).
Proof. revert n. induction l as [|x l IH]; intros [|n]; simpl; [done..|]. by rewrite IH. Qed.

(** [getTopQuotes] is the head of the quotes sorted by output, largest
    first: at most [count] quotes, and the two prices play no part. *)
Theorem getTopQuotes_sorted_prefix (quotes : list RouteQuote) (count : nat)
    (ethPrice : JS.number) (gasPrice : Z) :
  (forall ethPrice' gasPrice',
     getTopQuotes quotes count ethPrice' gasPrice'
     = getTopQuotes quotes count ethPrice gasPrice)
  /\ exists sorted,
       sorted ≡ₚ quotes
       /\ StronglySorted byOutput sorted
       /\ getTopQuotes quotes count ethPrice gasPrice = take count sorted
       /\ length (getTopQuotes quotes count ethPrice gasPrice)
          = Nat.min count (length quotes).
Proof.
  assert (forall e g, getTopQuotes quotes count e g
                      = take count (JS.sort byOutputDesc quotes)) as Hform.
  { intros e g. unfold getTopQuotes, JS.slice0. cbv zeta. rewrite take_map_fst.
    rewrite (sort_map fst _ byOutputDesc) by done.
    rewrite map_map. simpl. by rewrite map_id. }
  split; [intros; by rewrite !Hform|].
  exists (JS.sort byOutputDesc quotes). split; [apply sort_perm|].
  split; [apply (sort_sorted byOutputDesc amountOut byOutputDesc_key)|].
  split; [apply Hform|]. by rewrite Hform, length_take, sort_length.
Qed.

End RankingFacts.

(** ** Direct venue quoting: what a venue answers *)

Module VenueFacts.
Import Constants DexQuoteService Tokens DexQuoteVenues.

(** *** Keeping the best of a series of attempts *)

Section BestOf.
Context {A : Type}.
(** What an attempt answers, if it succeeds, and the quote built from it. *)
Variable attempt : A -> option Z.
Variable build : A -> Z -> DexQuote.
Hypothesis build_amountOut : forall a out, amountOut (build a out) = out.

Definition keepBest (best : option DexQuote) (a : A) : option DexQuote :=
  match attempt a with
  | Some out => if improves best out then Some (build a out) else best
  | None => best
  end.

Definition answersOf (l : list A) : list Z := omap attempt l.

Lemma elem_of_answersOf out l :
  out ∈ answersOf l <-> exists a, a ∈ l /\ attempt a = Some out.
Proof. unfold answersOf. apply list_elem_of_omap. Qed.

Lemma answersOf_cons a l :
  answersOf (a :: l)
  = match attempt a with Some out => out :: answersOf l | None => answersOf l end.
Proof. reflexivity. Qed.

Lemma keepBest_step best0 a :
  (forall q0, best0 = Some q0 ->
     exists q1, keepBest best0 a = Some q1 /\ amountOut q0 <= amountOut q1)
  /\ (forall out, attempt a = Some out ->
        exists q1, keepBest best0 a = Some q1 /\ out <= amountOut q1)
  /\ (keepBest best0 a = best0
      \/ exists out, attempt a = Some out /\ keepBest best0 a = Some (build a out)).
Proof.
  unfold keepBest, improves. destruct (attempt a) as [out|].
  - destruct best0 as [q0|].
    + destruct (Z.ltb_spec (amountOut q0) out).
      * split; [intros ? [= <-]; eexists; split; [done|]; rewrite build_amountOut; lia|].
        split; [intros ? [= <-]; eexists; split; [done|]; rewrite build_amountOut; lia|].
        right. by exists out.
      * split; [intros ? [= <-]; eexists; split; [done|]; lia|].
        split; [intros ? [= <-]; eexists; split; [done|]; lia|]. by left.
    + split; [done|].
      split; [intros ? [= <-]; eexists; split; [done|]; rewrite build_amountOut; lia|].
      right. by exists out.
  - split; [intros q0 ->; exists q0; split; [done|lia]|]. split; [done|by left].
Qed.

Lemma foldl_keepBest l : forall best0,
  match foldl keepBest best0 l with
  | None => best0 = None /\ answersOf l = []
  | Some q =>
      (forall out, out ∈ answersOf l -> out <= amountOut q)
      /\ (forall q0, best0 = Some q0 -> amountOut q0 <= amountOut q)
      /\ (best0 = Some q
          \/ exists a, a ∈ l /\ attempt a = Some (amountOut q)
                       /\ q = build a (amountOut q))
  end.
Proof.
  induction l as [|a l IH]; intros best0.
  - simpl. destruct best0 as [q0|]; [|done].
    split; [by intros out ?%elem_of_nil|]. split; [by intros ? [= <-]|by left].
  - cbn [foldl]. specialize (IH (keepBest best0 a)).
    destruct (keepBest_step best0 a) as (Hkeep & Hnew & Hfrom).
    rewrite answersOf_cons.
    destruct (foldl keepBest (keepBest best0 a) l) as [q|].
    + destruct IH as (Hmax & Hmono & Horigin). split; [|split].
      * intros out Hout. destruct (attempt a) as [o|] eqn:Ha; [|by apply Hmax].
        apply elem_of_cons in Hout as [->|Hout]; [|by apply Hmax].
        destruct (Hnew _ eq_refl) as (q1 & Hq1 & Hle).
        specialize (Hmono _ Hq1). lia.
      * intros q0 Hq0. destruct (Hkeep _ Hq0) as (q1 & Hq1 & Hle).
        specialize (Hmono _ Hq1). lia.
      * destruct Horigin as [Hsame|(a' & Ha' & Hatt & Hq)].
        -- destruct Hfrom as [<-|(out & Ha & Hb)]; [by left|].
           right. exists a. rewrite Hsame in Hb. injection Hb as ->.
           rewrite build_amountOut. split; [left|]. split; [done|done].
        -- right. exists a'. split; [by right|done].
    + destruct IH as [Hb Hnil].
      destruct (attempt a) as [o|] eqn:Ha.
      * destruct (Hnew _ eq_refl) as (q1 & Hq1 & _). congruence.
      * split; [|done]. destruct best0 as [q0|]; [|done].
        destruct (Hkeep _ eq_refl) as (q1 & Hq1 & _). congruence.
Qed.

End BestOf.

(** *** The attempts of one venue *)

Section Venue.
Variable TOKEN_ADDRESSES : Z -> option (list (string * string)).
Variable chainId : Z.
Variable provider : Provider.
Variables tokenIn tokenOut : string.
Variable amountIn : Z.
Variable toDecimals : nat.

(** The bridge addresses the multi-hop attempts go through: the chain's
    bridge symbols that have an address which is neither end of the pair. *)
Definition bridges : list string :=
  omap (fun symbol =>
          match tokenAddress TOKEN_ADDRESSES chainId symbol with
          | Some b => if sameAsEnd b tokenIn tokenOut then None else Some b
          | None => None
          end)
       (BRIDGE_TOKENS chainId).

Definition feePairs : list (Z * Z) :=
  flat_map (fun fee1 => map (fun fee2 => (fee1, fee2)) V3_FEE_TIERS) V3_FEE_TIERS.

(** A concentrated-liquidity multi-hop attempt: bridge, first and second
    fee. *)
Definition combos : list (string * (Z * Z)) :=
  flat_map (fun b => map (fun fees => (b, fees)) feePairs) bridges.

Definition encoded (c : string * (Z * Z)) : result string :=
  encodeV3Path [tokenIn; c.1; tokenOut] [c.2.1; c.2.2].

Definition multiAttemptV3 (quoterAddress : string) (c : string * (Z * Z))
    : option Z :=
  match encoded c with
  | Value p =>
      match quoteExactInput provider quoterAddress p amountIn with
      | Value out => Some out
      | Thrown => None
      end
  | Thrown => None
  end.

Definition multiQuoteV3 (dexId dexName : string) (c : string * (Z * Z)) (out : Z)
    : DexQuote :=
  {| dexId := dexId;
     dexName := dexName;
     amountOut := out;
     amountOutFormatted := formatUnits out toDecimals;
     estimatedGas := 250000;
     feeTier := None;
     feeTiers := Some [c.2.1; c.2.2];
     path := Some [tokenIn; c.1; tokenOut];
     pathEncoded := match encoded c with Value p => Some p | Thrown => None end;
     isMultiHop := Some true;
     priceImpact := JS.of_ratio 8 10 |}.

Definition singleAttemptV3 (quoterAddress : string) (fee : Z) : option Z :=
  match quoteExactInputSingle provider quoterAddress tokenIn tokenOut amountIn fee with
  | Value out => if 0 <? out then Some out else None
  | Thrown => None
  end.

Definition attemptV2 (routerAddress : string) (p : list string) : option Z :=
  match getAmountsOut provider routerAddress amountIn p with
  | Value amounts => last amounts
  | Thrown => None
  end.

Definition multiQuoteV2 (dexId dexName : string) (b : string) (out : Z) : DexQuote :=
  {| dexId := dexId;
     dexName := dexName;
     amountOut := out;
     amountOutFormatted := formatUnits out toDecimals;
     estimatedGas := 180000;
     feeTier := None;
     feeTiers := None;
     path := Some [tokenIn; b; tokenOut];
     pathEncoded := None;
     isMultiHop := Some true;
     priceImpact := JS.of_ratio 5 10 |}.

(** Every amount a venue's attempts answer with. *)
Definition answersV3 (quoterAddress : string) : list Z :=
  omap (singleAttemptV3 quoterAddress) V3_FEE_TIERS
  ++ omap (multiAttemptV3 quoterAddress) combos.

Definition answersV2 (routerAddress : string) : list Z :=
  omap (attemptV2 routerAddress) [[tokenIn; tokenOut]]
  ++ omap (fun b => attemptV2 routerAddress [tokenIn; b; tokenOut]) bridges.

Definition venueAnswers (dexId : string) (contracts : Contracts) : list Z :=
  match DEX_INFO dexId with
  | Some info =>
      match type info with
      | amm_v3 =>
          match quoter contracts with
          | Some quoterAddress => answersV3 quoterAddress
          | None => []
          end
      | amm_v2 => answersV2 (router contracts)
      | _ => []
      end
  | None => []
  end.

Section Named.
Variables dexId dexName : string.
Hypothesis dexName_known : dexNameOf dexId = Value dexName.

Lemma tryFeePair_keepBest q b fee1 best fee2 :
  tryFeePair dexId provider q tokenIn b tokenOut amountIn toDecimals fee1 best fee2
  = keepBest (multiAttemptV3 q) (multiQuoteV3 dexId dexName) best (b, (fee1, fee2)).
Proof.
  unfold tryFeePair, keepBest, multiAttemptV3, multiQuoteV3, encoded. cbn [fst snd].
  destruct (encodeV3Path _ _) as [p|]; cbn; [|done].
  destruct (quoteExactInput _ _ _ _) as [out|]; cbn; [|done].
  destruct (improves best out); [|done]. by rewrite dexName_known.
Qed.

Lemma tryBridgeV3_keepBest q b best :
  tryBridgeV3 dexId provider q tokenIn b tokenOut amountIn toDecimals best
  = foldl (keepBest (multiAttemptV3 q) (multiQuoteV3 dexId dexName)) best
      (map (fun fees => (b, fees)) feePairs).
Proof.
  unfold tryBridgeV3, feePairs, V3_FEE_TIERS. cbn [foldl flat_map map app].
  by rewrite !tryFeePair_keepBest.
Qed.

Lemma getV3MultiHopQuote_keepBest q :
  getV3MultiHopQuote TOKEN_ADDRESSES dexId chainId provider q tokenIn tokenOut
    amountIn toDecimals
  = Value (foldl (keepBest (multiAttemptV3 q) (multiQuoteV3 dexId dexName)) None combos).
Proof.
  unfold getV3MultiHopQuote, try_catch, combos, bridges. f_equal.
  generalize (@None DexQuote) as best.
  induction (BRIDGE_TOKENS chainId) as [|symbol symbols IH]; intros best; [done|].
  cbn [foldl]. rewrite IH.
  change (omap ?f (symbol :: symbols))
    with (match f symbol with Some b => b :: omap f symbols | None => omap f symbols end).
  cbv beta.
  destruct (tokenAddress TOKEN_ADDRESSES chainId symbol) as [b|]; [|done].
  destruct (sameAsEnd b tokenIn tokenOut); [done|].
  cbn [flat_map]. by rewrite foldl_app, tryBridgeV3_keepBest.
Qed.

Lemma tryBridgeV2_keepBest r b best :
  tryBridgeV2 dexId provider r tokenIn b tokenOut amountIn toDecimals best
  = keepBest (fun b => attemptV2 r [tokenIn; b; tokenOut]) (multiQuoteV2 dexId dexName)
      best b.
Proof.
  unfold tryBridgeV2, keepBest, attemptV2.
  destruct (getAmountsOut _ _ _ _) as [amounts|]; cbn; [|done].
  destruct (last amounts) as [out|]; [|by destruct best].
  destruct (improves best out); [|done]. by rewrite dexName_known.
Qed.

Lemma getV2MultiHopQuote_keepBest r :
  getV2MultiHopQuote TOKEN_ADDRESSES dexId chainId provider r tokenIn tokenOut
    amountIn toDecimals
  = Value (foldl (keepBest (fun b => attemptV2 r [tokenIn; b; tokenOut])
                    (multiQuoteV2 dexId dexName)) None bridges).
Proof.
  unfold getV2MultiHopQuote, try_catch, bridges. f_equal.
  generalize (@None DexQuote) as best.
  induction (BRIDGE_TOKENS chainId) as [|symbol symbols IH]; intros best; [done|].
  cbn [foldl]. rewrite IH.
  change (omap ?f (symbol :: symbols))
    with (match f symbol with Some b => b :: omap f symbols | None => omap f symbols end).
  cbv beta.
  destruct (tokenAddress TOKEN_ADDRESSES chainId symbol) as [b|]; [|done].
  destruct (sameAsEnd b tokenIn tokenOut); [done|].
  cbn [foldl]. by rewrite tryBridgeV2_keepBest.
Qed.

End Named.
Lemma firstTierYielding_read (read : Z -> result Z) out tiers fee :
  TierFacts.firstTierYielding read out tiers = Some fee ->
  exists f, f ∈ tiers /\ read f = Value out.
Proof.
  induction tiers as [|t tiers IH]; simpl; [done|].
  destruct (read t) as [o|] eqn:Hr.
  - destruct (Z.eqb_spec o out) as [->|Hne].
    + intros _. exists t. split; [left|done].
    + intros H. destruct (IH H) as (f & Hf & Hrf). exists f. split; [by right|done].
  - intros H. destruct (IH H) as (f & Hf & Hrf). exists f. split; [by right|done].
Qed.

(** What a venue answered with: the venue's name, the rendered amount, an
    amount among the answers of the venue's attempts and the largest of
    them. *)
Definition bestAnswer (dexId : string) (answers : list Z) (quote : DexQuote) : Prop :=
  DexQuoteService.dexId quote = dexId
  /\ amountOutFormatted quote = formatUnits (amountOut quote) toDecimals
  /\ amountOut quote ∈ answers
  /\ (forall out, out ∈ answers -> out <= amountOut quote).

(** The packed path of a quote, when it has one, is the encoding of its
    token path and fee tiers, and the quoter answered the quote's amount
    for it. *)
Definition pathAgrees (quoterAddress : option string) (quote : DexQuote) : Prop :=
  forall p, pathEncoded quote = Some p ->
    exists c q,
      c ∈ combos /\ encoded c = Value p
      /\ path quote = Some [tokenIn; c.1; tokenOut]
      /\ feeTiers quote = Some [c.2.1; c.2.2]
      /\ quoterAddress = Some q
      /\ quoteExactInput provider q p amountIn = Value (amountOut quote).

Lemma getV3SingleHopQuote_best dexId dexName q :
  dexNameOf dexId = Value dexName ->
  exists o,
    getV3SingleHopQuote dexId provider q tokenIn tokenOut amountIn toDecimals = Value o
    /\ match o with
       | None => omap (singleAttemptV3 q) V3_FEE_TIERS = []
       | Some quote =>
           bestAnswer dexId (omap (singleAttemptV3 q) V3_FEE_TIERS) quote
           /\ pathEncoded quote = None
       end.
Proof.
  intros Hname. unfold dexNameOf in Hname.
  destruct (DEX_INFO dexId) as [info|] eqn:Hinfo; [|done].
  unfold getV3SingleHopQuote.
  pose proof (TierFacts.bestTier_spec provider q tokenIn tokenOut amountIn) as Hbest.
  destruct (bestTier _ _ _ _ _) as [out fee].
  destruct Hbest as (Hpos & Hmax & Hfirst). unfold TierFacts.read in Hmax.
  assert (forall f o, f ∈ V3_FEE_TIERS -> singleAttemptV3 q f = Some o -> 0 < o <= out)
    as Hans.
  { intros f o Hf. unfold singleAttemptV3.
    destruct (quoteExactInputSingle _ _ _ _ _ _) as [o'|] eqn:Hr; [|done].
    destruct (Z.ltb_spec 0 o'); [|done]. intros [= <-]. split; [done|].
    by eapply Hmax. }
  destruct (Z.eqb_spec out 0) as [->|Hne].
  - eexists. split; [done|].
    destruct (omap (singleAttemptV3 q) V3_FEE_TIERS) as [|o l] eqn:E; [done|].
    assert (o ∈ omap (singleAttemptV3 q) V3_FEE_TIERS) as Ho by (rewrite E; left).
    apply list_elem_of_omap in Ho as (f & Hf & Ha). specialize (Hans f o Hf Ha). lia.
  - rewrite Hinfo. cbn [mbind result_bind try_catch]. eexists. split; [done|].
    split; [|done]. split; [done|]. split; [done|]. cbn [amountOut]. split.
    + destruct (firstTierYielding_read _ _ _ _ (Hfirst Hne)) as (f & Hf & Hr).
      apply list_elem_of_omap. exists f. split; [done|].
      unfold singleAttemptV3. unfold TierFacts.read in Hr. rewrite Hr.
      destruct (Z.ltb_spec 0 out); [done|lia].
    + intros o (f & Hf & Ha)%list_elem_of_omap. by apply (Hans f o Hf Ha).
Qed.

Lemma getV2SingleHopQuote_best dexId dexName r :
  dexNameOf dexId = Value dexName ->
  exists o,
    getV2SingleHopQuote dexId provider r tokenIn tokenOut amountIn toDecimals = Value o
    /\ match o with
       | None => omap (attemptV2 r) [[tokenIn; tokenOut]] = []
       | Some quote =>
           bestAnswer dexId (omap (attemptV2 r) [[tokenIn; tokenOut]]) quote
           /\ pathEncoded quote = None
       end.
Proof.
  intros Hname. unfold getV2SingleHopQuote.
  change (omap (attemptV2 r) [[tokenIn; tokenOut]])
    with (match attemptV2 r [tokenIn; tokenOut] with Some o => [o] | None => [] end).
  unfold attemptV2.
  destruct (getAmountsOut _ _ _ _) as [amounts|]; cbn [mbind result_bind try_catch];
    [|by eexists].
  rewrite Hname. cbn [mbind result_bind try_catch].
  destruct (last amounts) as [out|]; cbn [mbind result_bind try_catch]; [|by eexists].
  eexists. split; [done|]. split; [|done]. split; [done|]. split; [done|].
  cbn [amountOut]. split; [left|]. intros o ->%list_elem_of_singleton. lia.
Qed.

Lemma betterOf_best dexId (a1 a2 : list Z) (s m : option DexQuote) :
  match s with None => a1 = [] | Some q => bestAnswer dexId a1 q end ->
  match m with None => a2 = [] | Some q => bestAnswer dexId a2 q end ->
  match betterOf s m with
  | None => a1 ++ a2 = []
  | Some q => bestAnswer dexId (a1 ++ a2) q /\ (s = Some q \/ m = Some q)
  end.
Proof.
  unfold betterOf, bestAnswer. destruct s as [qs|], m as [qm|].
  - intros (Hd1 & Hf1 & Hin1 & Hmax1) (Hd2 & Hf2 & Hin2 & Hmax2).
    destruct (Z.ltb_spec (amountOut qs) (amountOut qm)).
    + split; [|by right]. split; [done|]. split; [done|].
      split; [apply elem_of_app; by right|].
      intros o [Ho|Ho]%elem_of_app; [specialize (Hmax1 o Ho); lia|by apply Hmax2].
    + split; [|by left]. split; [done|]. split; [done|].
      split; [apply elem_of_app; by left|].
      intros o [Ho|Ho]%elem_of_app; [by apply Hmax1|specialize (Hmax2 o Ho); lia].
  - intros (Hd1 & Hf1 & Hin1 & Hmax1) ->. rewrite app_nil_r. split; [done|by left].
  - intros -> (Hd2 & Hf2 & Hin2 & Hmax2). split; [done|by right].
  - by intros -> ->.
Qed.

Lemma multiV3_best dexId dexName q :
  match foldl (keepBest (multiAttemptV3 q) (multiQuoteV3 dexId dexName)) None combos with
  | None => omap (multiAttemptV3 q) combos = []
  | Some quote =>
      bestAnswer dexId (omap (multiAttemptV3 q) combos) quote
      /\ pathAgrees (Some q) quote
  end.
Proof.
  pose proof (foldl_keepBest (multiAttemptV3 q) (multiQuoteV3 dexId dexName)
                ltac:(done) combos None) as H.
  destruct (foldl _ _ _) as [quote|]; [|by destruct H].
  destruct H as (Hmax & _ & [?|(c & Hc & Hatt & Hq)]); [done|].
  split.
  - split; [by rewrite Hq|]. split; [by rewrite Hq|].
    split; [apply list_elem_of_omap; by exists c|done].
  - intros p Hp. exists c, q.
    assert (pathEncoded quote
            = match encoded c with Value p => Some p | Thrown => None end) as Hpe
      by (by rewrite Hq).
    assert (path quote = Some [tokenIn; c.1; tokenOut]) as Hpath by (by rewrite Hq).
    assert (feeTiers quote = Some [c.2.1; c.2.2]) as Hfees by (by rewrite Hq).
    rewrite Hpe in Hp. unfold multiAttemptV3 in Hatt.
    destruct (encoded c) as [p'|]; [|done]. injection Hp as Hpp. subst p'.
    destruct (quoteExactInput provider q p amountIn) as [out|] eqn:Hread; [|done].
    injection Hatt as Hout. by rewrite <- Hout.
Qed.

Lemma multiV2_best dexId dexName r :
  match foldl (keepBest (fun b => attemptV2 r [tokenIn; b; tokenOut])
                 (multiQuoteV2 dexId dexName)) None bridges with
  | None => omap (fun b => attemptV2 r [tokenIn; b; tokenOut]) bridges = []
  | Some quote =>
      bestAnswer dexId (omap (fun b => attemptV2 r [tokenIn; b; tokenOut]) bridges) quote
      /\ pathEncoded quote = None
  end.
Proof.
  pose proof (foldl_keepBest (fun b => attemptV2 r [tokenIn; b; tokenOut])
                (multiQuoteV2 dexId dexName) ltac:(done) bridges None) as H.
  destruct (foldl _ _ _) as [quote|]; [|by destruct H].
  destruct H as (Hmax & _ & [?|(b & Hb & Hatt & Hq)]); [done|].
  split; [|by rewrite Hq].
  split; [by rewrite Hq|]. split; [by rewrite Hq|].
  split; [apply list_elem_of_omap; by exists b|done].
Qed.

(** One venue: it always answers, with nothing exactly when none of its
    attempts answered, and otherwise with the largest answer. *)
Lemma getQuoteForDex_best dexId contracts :
  exists o,
    getQuoteForDex TOKEN_ADDRESSES dexId chainId provider contracts tokenIn tokenOut
      amountIn toDecimals = Value o
    /\ match o with
       | None => venueAnswers dexId contracts = []
       | Some quote =>
           bestAnswer dexId (venueAnswers dexId contracts) quote
           /\ pathAgrees (quoter contracts) quote
       end.
Proof.
  unfold getQuoteForDex, venueAnswers.
  destruct (DEX_INFO dexId) as [info|] eqn:Hinfo; [|by exists None].
  assert (dexNameOf dexId = Value (name info)) as Hname
    by (unfold dexNameOf; by rewrite Hinfo).
  destruct (type info); try (by exists None).
  - (* constant product *)
    unfold getUniswapV2Quote.
    destruct (getV2SingleHopQuote_best dexId _ (router contracts) Hname)
      as (s & -> & Hs).
    rewrite (getV2MultiHopQuote_keepBest dexId _ Hname). cbn.
    pose proof (multiV2_best dexId (name info) (router contracts)) as Hm.
    set (m := foldl _ _ _) in *.
    eexists. split; [done|].
    pose proof (betterOf_best dexId (omap (attemptV2 (router contracts)) [[tokenIn; tokenOut]])
                  (omap (fun b => attemptV2 (router contracts) [tokenIn; b; tokenOut]) bridges)
                  s m) as Hb.
    destruct (betterOf s m) as [quote|] eqn:E.
    + destruct Hb as [Hbest Hor].
      { destruct s; [by destruct Hs|done]. }
      { destruct m; [by destruct Hm|done]. }
      split; [done|]. intros p Hp.
      destruct Hor as [->| ->]; [destruct Hs as [_ H]|destruct Hm as [_ H]]; congruence.
    + apply Hb; [destruct s; [by destruct Hs|done]|destruct m; [by destruct Hm|done]].
  - (* concentrated liquidity *)
    destruct (quoter contracts) as [q|]; [|by exists None].
    unfold getUniswapV3Quote.
    destruct (getV3SingleHopQuote_best dexId _ q Hname) as (s & -> & Hs).
    rewrite (getV3MultiHopQuote_keepBest dexId _ Hname). cbn.
    pose proof (multiV3_best dexId (name info) q) as Hm.
    set (m := foldl _ _ _) in *.
    eexists. split; [done|].
    pose proof (betterOf_best dexId (omap (singleAttemptV3 q) V3_FEE_TIERS)
                  (omap (multiAttemptV3 q) combos) s m) as Hb.
    destruct (betterOf s m) as [quote|] eqn:E.
    + destruct Hb as [Hbest Hor].
      { destruct s; [by destruct Hs|done]. }
      { destruct m; [by destruct Hm|done]. }
      split; [done|].
      destruct Hor as [->| ->]; [destruct Hs as [_ H]|by destruct Hm as [_ H]].
      intros p Hp. congruence.
    + apply Hb; [destruct s; [by destruct Hs|done]|destruct m; [by destruct Hm|done]].
Qed.

End Venue.

(** *** All venues of a chain *)

(** The venues configured for a chain, in the order of the table. *)
Definition venues (chainId : Z) : list (string * Contracts) :=
  default [] (assocZ chainId DEX_CONTRACTS_table).

Lemma venues_NoDup chainId : NoDup (map fst (venues chainId)).
Proof.
  unfold venues, DEX_CONTRACTS_table. cbn [assocZ].
  repeat (destruct (chainId =? _);
          [cbn [default map fst]; apply (bool_decide_unpack _); vm_compute; exact I|]).
  constructor.
Qed.

Lemma venues_length chainId : (length (venues chainId) <= 5)%nat.
Proof.
  unfold venues, DEX_CONTRACTS_table. cbn [assocZ].
  repeat (destruct (chainId =? _); [cbn; lia|]). cbn. lia.
Qed.

Section Chain.
Variable TOKEN_ADDRESSES : Z -> option (list (string * string)).
Variable chainId : Z.
Variable provider : Provider.
Variables tokenIn tokenOut : string.
Variable amountIn : Z.
Variables fromDecimals toDecimals : nat.

Local Abbreviation quoteVenue entry :=
  (getQuoteForDex TOKEN_ADDRESSES (fst entry) chainId provider (snd entry)
     tokenIn tokenOut amountIn toDecimals).
Local Abbreviation answers dexId contracts :=
  (venueAnswers TOKEN_ADDRESSES chainId provider tokenIn tokenOut amountIn
     dexId contracts).

Lemma fetchAllQuotes_unfold :
  exists os,
    fetchAllQuotes TOKEN_ADDRESSES chainId provider tokenIn tokenOut amountIn
      fromDecimals toDecimals = Value (omap Datatypes.id os)
    /\ Forall2 (fun entry o => quoteVenue entry = Value o) (venues chainId) os.
Proof.
  unfold fetchAllQuotes, venues.
  destruct (assocZ chainId DEX_CONTRACTS_table) as [dexContracts|]; cbn [default].
  - destruct (RouteQuoteFacts.Promise_all_map (fun entry => quoteVenue entry) dexContracts)
      as (os & -> & Hall).
    { intros [dexId contracts].
      destruct (getQuoteForDex_best TOKEN_ADDRESSES chainId provider tokenIn tokenOut
                  amountIn toDecimals dexId contracts) as (o & Ho & _). eauto. }
    exists os. split; [done|done].
  - exists []. split; [done|constructor].
Qed.

Lemma answered_spec entry o :
  quoteVenue entry = Value o ->
  match o with
  | None => answers (fst entry) (snd entry) = []
  | Some quote =>
      bestAnswer toDecimals (fst entry) (answers (fst entry) (snd entry)) quote
      /\ pathAgrees TOKEN_ADDRESSES chainId provider tokenIn tokenOut amountIn
           (quoter (snd entry)) quote
  end.
Proof.
  intros Ho.
  destruct (getQuoteForDex_best TOKEN_ADDRESSES chainId provider tokenIn tokenOut
              amountIn toDecimals (fst entry) (snd entry)) as (o' & Ho' & Hspec).
  rewrite Ho in Ho'. by injection Ho' as <-.
Qed.

Lemma answered_ids entries os :
  Forall2 (fun entry o => quoteVenue entry = Value o) entries os ->
  map dexId (omap Datatypes.id os) `sublist_of` map fst entries.
Proof.
  induction 1 as [|entry o entries os Ho Hall IH]; [constructor|].
  destruct o as [quote|].
  - change (omap Datatypes.id (Some quote :: os)) with (quote :: omap Datatypes.id os).
    destruct (answered_spec _ _ Ho) as [(Hid & _) _]. cbn [map]. rewrite Hid.
    by apply sublist_skip.
  - change (omap Datatypes.id (None :: os)) with (omap Datatypes.id os).
    cbn [map]. by apply sublist_cons.
Qed.

Lemma answered_elem entries os quote :
  Forall2 (fun entry o => quoteVenue entry = Value o) entries os ->
  quote ∈ omap Datatypes.id os ->
  exists entry, entry ∈ entries /\ quoteVenue entry = Value (Some quote).
Proof.
  induction 1 as [|entry o entries os Ho Hall IH]; [by intros ?%elem_of_nil|].
  destruct o as [q|].
  - change (omap Datatypes.id (Some q :: os)) with (q :: omap Datatypes.id os).
    intros [->|Hin]%elem_of_cons.
    + exists entry. split; [left|done].
    + destruct (IH Hin) as (e & He & Hq). exists e. split; [by right|done].
  - change (omap Datatypes.id (None :: os)) with (omap Datatypes.id os).
    intros Hin. destruct (IH Hin) as (e & He & Hq). exists e. split; [by right|done].
Qed.

Lemma answered_complete entries os entry o :
  Forall2 (fun entry o => quoteVenue entry = Value o) entries os ->
  entry ∈ entries -> quoteVenue entry = Value o ->
  match o with Some quote => quote ∈ omap Datatypes.id os | None => True end.
Proof.
  induction 1 as [|entry' o' entries os Ho Hall IH]; [by intros ?%elem_of_nil|].
  intros [->|Hin]%elem_of_cons Hq.
  - rewrite Ho in Hq. injection Hq as ->. destruct o as [quote|]; [|done].
    change (omap Datatypes.id (Some quote :: os)) with (quote :: omap Datatypes.id os).
    left.
  - specialize (IH Hin Hq). destruct o as [quote|]; [|done].
    destruct o' as [q'|].
    + change (omap Datatypes.id (Some q' :: os)) with (q' :: omap Datatypes.id os).
      by right.
    + by change (omap Datatypes.id (None :: os)) with (omap Datatypes.id os).
Qed.

(** Quoting every venue of a chain always returns a list: at most one
    quote per venue, in the order the venues are configured, each with
    its amount rendered in the output token's decimals; and nothing for a
    chain without venues. *)
Theorem fetchAllQuotes_one_per_venue :
  exists quotes,
    fetchAllQuotes TOKEN_ADDRESSES chainId provider tokenIn tokenOut amountIn
      fromDecimals toDecimals = Value quotes
    /\ map dexId quotes `sublist_of` map fst (venues chainId)
    /\ NoDup (map dexId quotes)
    /\ (length quotes <= 5)%nat
    /\ Forall (fun quote =>
         amountOutFormatted quote = formatUnits (amountOut quote) toDecimals) quotes
    /\ (assocZ chainId DEX_CONTRACTS_table = None -> quotes = []).
Proof.
  destruct fetchAllQuotes_unfold as (os & Hfetch & Hall).
  exists (omap Datatypes.id os). split; [done|].
  pose proof (answered_ids _ _ Hall) as Hsub.
  split; [done|]. split; [eapply sublist_NoDup; [apply venues_NoDup|exact Hsub]|].
  split.
  { apply sublist_length in Hsub. rewrite !length_map in Hsub.
    pose proof (venues_length chainId). lia. }
  split.
  - rewrite Forall_forall. intros quote Hq.
    destruct (answered_elem _ _ _ Hall Hq) as (entry & _ & Hv).
    by destruct (answered_spec _ _ Hv) as [(_ & Hf & _) _].
  - intros Hnone. unfold venues in Hall. rewrite Hnone in Hall. cbn in Hall.
    by apply Forall2_nil_inv_l in Hall as ->.
Qed.

(** Each venue's quote carries the largest amount any of the venue's
    attempts answered with, and a venue none of whose attempts answered
    has no quote. *)
Theorem fetchAllQuotes_best_answer :
  exists quotes,
    fetchAllQuotes TOKEN_ADDRESSES chainId provider tokenIn tokenOut amountIn
      fromDecimals toDecimals = Value quotes
    /\ (forall dexId contracts, (dexId, contracts) ∈ venues chainId ->
          if bool_decide (answers dexId contracts = [])
          then forall quote, quote ∈ quotes -> DexQuoteService.dexId quote <> dexId
          else exists quote,
                 quote ∈ quotes /\ DexQuoteService.dexId quote = dexId
                 /\ amountOut quote ∈ answers dexId contracts
                 /\ forall out, out ∈ answers dexId contracts -> out <= amountOut quote)
    /\ (forall quote, quote ∈ quotes ->
          exists contracts, (dexId quote, contracts) ∈ venues chainId
            /\ amountOut quote ∈ answers (dexId quote) contracts).
Proof.
  destruct fetchAllQuotes_unfold as (os & Hfetch & Hall).
  exists (omap Datatypes.id os). split; [done|]. split.
  - intros dexId contracts Hin.
    destruct (getQuoteForDex_best TOKEN_ADDRESSES chainId provider tokenIn tokenOut
                amountIn toDecimals dexId contracts) as (o & Ho & Hspec).
    pose proof (answered_complete _ _ (dexId, contracts) o Hall Hin Ho) as Hc.
    destruct (bool_decide_reflect (answers dexId contracts = [])) as [Hnil|Hne].
    + intros quote Hq Hid.
      destruct (answered_elem _ _ _ Hall Hq) as ([dexId' contracts'] & Hin' & Hv).
      pose proof (answered_spec _ _ Hv) as [(Hid' & _ & Hans & _) _]. cbn [fst snd] in *.
      assert (dexId' = dexId) as -> by congruence.
      assert (contracts' = contracts) as ->.
      { pose proof (venues_NoDup chainId) as Hnd.
        apply list_elem_of_lookup in Hin as [i Hi], Hin' as [j Hj].
        assert (i = j) as ->.
        { eapply NoDup_lookup; [exact Hnd|..]; rewrite list_lookup_fmap.
          - by rewrite Hi.
          - by rewrite Hj. }
        congruence. }
      rewrite Hnil in Hans. by apply elem_of_nil in Hans.
    + destruct o as [quote|]; [|done].
      destruct Hspec as [(Hid & _ & Hans & Hmax) _]. by exists quote.
  - intros quote Hq.
    destruct (answered_elem _ _ _ Hall Hq) as ([dexId' contracts'] & Hin' & Hv).
    pose proof (answered_spec _ _ Hv) as [(Hid' & _ & Hans & _) _]. cbn [fst snd] in *.
    exists contracts'. by rewrite Hid'.
Qed.

Import PathEncodingFacts.

Lemma combos_elem c :
  c ∈ combos TOKEN_ADDRESSES chainId tokenIn tokenOut ->
  (exists symbol, tokenAddress TOKEN_ADDRESSES chainId symbol = Some c.1)
  /\ sameAsEnd c.1 tokenIn tokenOut = false
  /\ c.2.1 ∈ V3_FEE_TIERS /\ c.2.2 ∈ V3_FEE_TIERS.
Proof.
  unfold combos. intros Hc.
  apply list_elem_of_In, in_flat_map in Hc as (b & Hb & Hc).
  apply list_elem_of_In, list_elem_of_fmap in Hc as (fees & -> & Hfees).
  apply list_elem_of_In in Hb. unfold bridges in Hb.
  apply list_elem_of_omap in Hb as (symbol & _ & Hsym). cbn [fst snd].
  destruct (tokenAddress TOKEN_ADDRESSES chainId symbol) as [b'|] eqn:Ha; [|done].
  destruct (sameAsEnd b' tokenIn tokenOut) eqn:Hs; [done|]. injection Hsym as ->.
  split; [by exists symbol|]. split; [done|].
  unfold feePairs, V3_FEE_TIERS in *. cbn [flat_map map app] in Hfees.
  repeat (apply elem_of_cons in Hfees as [->|Hfees];
          [split; cbn [fst snd]; apply (bool_decide_unpack _); vm_compute; exact I|]).
  by apply elem_of_nil in Hfees.
Qed.

Lemma encodeV3Path_packed t0 t1 t2 f0 f1 :
  isFee f0 -> isFee f1 ->
  encodeV3Path [t0; t1; t2] [f0; f1] = Value (packed t0 t1 t2 f0 f1).
Proof.
  intros F0 F1. unfold encodeV3Path, packed. simpl.
  rewrite !padded_fee by done. by rewrite !append_assoc.
Qed.

Lemma tier_isFee f : f ∈ V3_FEE_TIERS -> isFee f.
Proof.
  unfold V3_FEE_TIERS, isFee.
  intros Hf. repeat (apply elem_of_cons in Hf as [->|Hf]; [split; [lia|reflexivity]|]).
  by apply elem_of_nil in Hf.
Qed.

(** A quote that carries a packed path carries the path it packs: the
    pair's tokens around a bridge token that is neither of them, two
    configured fee tiers, and a text that decodes at the fixed offsets to
    those tokens and fees; the quote's amount is the quoter's answer for
    that text. *)
Theorem fetchAllQuotes_packed_path :
  isAddress tokenIn -> isAddress tokenOut ->
  (forall symbol a, tokenAddress TOKEN_ADDRESSES chainId symbol = Some a -> isAddress a) ->
  exists quotes,
    fetchAllQuotes TOKEN_ADDRESSES chainId provider tokenIn tokenOut amountIn
      fromDecimals toDecimals = Value quotes
    /\ Forall (fun quote =>
         forall p, pathEncoded quote = Some p ->
           exists bridge fee1 fee2 contracts quoterAddress,
             path quote = Some [tokenIn; bridge; tokenOut]
             /\ feeTiers quote = Some [fee1; fee2]
             /\ fee1 ∈ V3_FEE_TIERS /\ fee2 ∈ V3_FEE_TIERS
             /\ JS.toLowerCase bridge <> JS.toLowerCase tokenIn
             /\ JS.toLowerCase bridge <> JS.toLowerCase tokenOut
             /\ decodeV3Path3 p
                = Some ([JS.toLowerCase tokenIn; JS.toLowerCase bridge;
                         JS.toLowerCase tokenOut], [fee1; fee2])
             /\ (dexId quote, contracts) ∈ venues chainId
             /\ quoter contracts = Some quoterAddress
             /\ quoteExactInput provider quoterAddress p amountIn
                = Value (amountOut quote))
       quotes.
Proof.
  intros Hin Hout Htable.
  destruct fetchAllQuotes_unfold as (os & Hfetch & Hall).
  exists (omap Datatypes.id os). split; [done|].
  rewrite Forall_forall. intros quote Hq p Hp.
  destruct (answered_elem _ _ _ Hall Hq) as ([dexId' contracts] & Hentry & Hv).
  pose proof (answered_spec _ _ Hv) as [(Hid & _) Hagree]. cbn [fst snd] in *.
  destruct (Hagree p Hp) as (c & q & Hc & Henc & Hpath & Hfees & Hquoter & Hread).
  destruct (combos_elem c Hc) as ((symbol & Hsym) & Hsame & Hf1 & Hf2).
  exists c.1, c.2.1, c.2.2, contracts, q.
  split; [done|]. split; [done|]. split; [done|]. split; [done|].
  unfold sameAsEnd in Hsame. apply orb_false_iff in Hsame as [Hs1 Hs2].
  apply String.eqb_neq in Hs1, Hs2. split; [done|]. split; [done|].
  split; [|split; [by rewrite Hid|done]].
  unfold encoded in Henc.
  rewrite encodeV3Path_packed in Henc by (by apply tier_isFee).
  injection Henc as <-.
  apply decode_packed; [done|by eapply Htable|done|by apply tier_isFee..].
Qed.

End Chain.

(** A table with three tokens on chain 1 and a quoter that answers every
    packed path. *)
Definition sampleTokens (chainId : Z) : option (list (string * string)) :=
  if chainId =? 1
  then Some [ ("WETH", "0xC02aaA39b223FE8D0A0e5C4F27eAD9083C756Cc2");
              ("USDC", "0xA0b86991c6218b36c1d19D4a2e9Eb0cE3606eB48");
              ("DAI", "0x6B175474E89094C44Da98b954EedeAC495271d0F") ]%string
  else None.

Definition pathProvider : Provider :=
  {| quoteExactInputSingle := fun _ _ _ _ _ => Thrown;
     quoteExactInput := fun _ _ amountIn => Value (amountIn / 2);
     getAmountsOut := fun _ _ _ => Thrown |}.

Lemma fetchAllQuotes_packed_path_witness :
  exists quotes,
    fetchAllQuotes sampleTokens 1 pathProvider
      "0x6B175474E89094C44Da98b954EedeAC495271d0F"
      "0x2260FAC5E5542a773Aa44fBCfeDf7C193bc2C599" 1000 18 8 = Value quotes
    /\ Forall (fun quote => is_Some (pathEncoded quote) /\ amountOut quote = 500) quotes
    /\ length quotes = 2%nat.
Proof.
  destruct (fetchAllQuotes_packed_path sampleTokens 1 pathProvider
              "0x6B175474E89094C44Da98b954EedeAC495271d0F"
              "0x2260FAC5E5542a773Aa44fBCfeDf7C193bc2C599" 1000 18 8)
    as (quotes & Hq & _).
  - split; reflexivity.
  - split; reflexivity.
  - intros symbol a. unfold tokenAddress, sampleTokens.
    cbn [Z.eqb Pos.eqb default assoc Datatypes.id].
    repeat (destruct (String.eqb symbol _);
            [cbn; intros [= <-]; split; reflexivity|]).
    done.
  - exists quotes. split; [exact Hq|].
    vm_compute in Hq. injection Hq as <-.
    split; [repeat constructor; by eexists|reflexivity].
Defined.

End VenueFacts.

(** ** Token tables: decimals, and symbols to addresses and back *)

Module TokenFacts.
Import Constants Tokens.

(** A token has 6, 8 or 18 decimals, and 18 when its symbol is not in the
    table. *)
Theorem getTokenDecimals_range (symbol : string) :
  symbol ∉ inheritedNames ->
  exists d, getTokenDecimals symbol = Some d
    /\ (d = 6 \/ d = 8 \/ d = 18)%nat
    /\ (assoc symbol TOKEN_DECIMALS = None -> d = 18%nat).
Proof.
  intros Hown. unfold getTokenDecimals. rewrite bool_decide_eq_false_2 by done.
  eexists. split; [done|]. unfold TOKEN_DECIMALS. cbn [assoc].
  repeat (destruct (String.eqb symbol _); [cbn [default]; split; [tauto|done]|]).
  cbn [default]. split; [tauto|done].
Qed.

Lemma getTokenDecimals_range_witness :
  getTokenDecimals "USDC" = Some 6%nat /\ getTokenDecimals "usdc" = Some 18%nat.
Proof.
  destruct (getTokenDecimals_range "USDC") as (d & Hd & _).
  { apply (bool_decide_unpack _). vm_compute. exact I. }
  destruct (getTokenDecimals_range "usdc") as (d' & Hd' & _ & Hnone).
  { apply (bool_decide_unpack _). vm_compute. exact I. }
  rewrite Hd'. rewrite (Hnone eq_refl). split; reflexivity.
Defined.

Section Addresses.
Variable TOKEN_ADDRESSES : Z -> option (list (string * string)).

Local Abbreviation lower := JS.toLowerCase.

Lemma assoc_elem {V} k (l : list (string * V)) v : assoc k l = Some v -> (k, v) ∈ l.
Proof.
  induction l as [|[k' v'] l IH]; simpl; [done|].
  destruct (String.eqb_spec k k') as [->|Hne].
  - intros [= ->]. left.
  - intros H. right. by apply IH.
Qed.

Lemma find_address (table : list (string * string)) a :
  match find (fun entry => String.eqb (lower (snd entry)) (lower a)) table with
  | Some entry => entry ∈ table /\ lower (snd entry) = lower a
  | None => forall entry, entry ∈ table -> lower (snd entry) <> lower a
  end.
Proof.
  induction table as [|e table IH]; simpl.
  - by intros entry ?%elem_of_nil.
  - destruct (String.eqb_spec (lower e.2) (lower a)) as [Heq|Hne].
    + split; [left|done].
    + destruct (find _ table) as [entry|].
      * destruct IH. split; [by right|done].
      * intros entry [->|Hin]%elem_of_cons; [done|by apply IH].
Qed.

Lemma find_first (table : list (string * string)) a k v :
  NoDup (map (fun entry => lower (snd entry)) table) ->
  (k, v) ∈ table -> lower v = lower a ->
  find (fun entry => String.eqb (lower (snd entry)) (lower a)) table = Some (k, v).
Proof.
  induction table as [|e table IH]; simpl; [by intros _ ?%elem_of_nil|].
  intros Hnd [<-|Hin]%elem_of_cons Hv.
  - cbn [snd]. by rewrite (proj2 (String.eqb_eq _ _) Hv).
  - apply NoDup_cons in Hnd as [Hnotin Hnd].
    destruct (String.eqb_spec (lower e.2) (lower a)) as [Heq|Hne]; [|by apply IH].
    exfalso. apply Hnotin. rewrite Heq, <- Hv.
    apply (list_elem_of_fmap_2 (fun entry => lower (snd entry)) _ (k, v)). done.
Qed.

(** A symbol resolved to an address resolves back: to a symbol of the
    chain's table whose address is the same up to case, and to the
    symbol itself, in upper case, when no two symbols of the chain share
    an address. *)
Theorem symbol_round_trip (chainId : Z) (symbol address : string)
    (table : list (string * string)) :
  TOKEN_ADDRESSES chainId = Some table ->
  JS.startsWith "0x" symbol = false ->
  resolveTokenAddress TOKEN_ADDRESSES chainId symbol = Value address ->
  (toUpperCase symbol, address) ∈ table
  /\ (exists symbol' address',
        getSymbolByAddress TOKEN_ADDRESSES chainId address = Some symbol'
        /\ (symbol', address') ∈ table /\ lower address' = lower address)
  /\ (NoDup (map (fun entry => lower (snd entry)) table) ->
      getSymbolByAddress TOKEN_ADDRESSES chainId address = Some (toUpperCase symbol)).
Proof.
  intros Htable Hsym. unfold resolveTokenAddress, getSymbolByAddress.
  rewrite Hsym, Htable. cbv zeta.
  destruct (assoc (toUpperCase symbol) table) as [a|] eqn:Ha; [|done].
  destruct (String.eqb a ""); [done|]. intros [= ->].
  apply assoc_elem in Ha. split; [done|]. split.
  - pose proof (find_address table address) as Hfind.
    destruct (find _ table) as [[s' a']|].
    + destruct Hfind. by exists s', a'.
    + exfalso. by apply (Hfind _ Ha).
  - intros Hnd. by rewrite (find_first table address _ _ Hnd Ha).
Qed.

(** Whatever starts with [0x] is taken as an address, on any chain. *)
Lemma resolveTokenAddress_address chainId t :
  JS.startsWith "0x" t = true ->
  resolveTokenAddress TOKEN_ADDRESSES chainId t = Value t.
Proof. intros H. unfold resolveTokenAddress. by rewrite H. Qed.

End Addresses.

Definition sampleTable (chainId : Z) : option (list (string * string)) :=
  if chainId =? 1
  then Some [ ("WETH", "0xC02aaA39b223FE8D0A0e5C4F27eAD9083C756Cc2");
              ("USDC", "0xA0b86991c6218b36c1d19D4a2e9Eb0cE3606eB48") ]%string
  else None.

Lemma symbol_round_trip_witness :
  resolveTokenAddress sampleTable 1 "usdc"
  = Value "0xA0b86991c6218b36c1d19D4a2e9Eb0cE3606eB48"
  /\ getSymbolByAddress sampleTable 1 "0xA0b86991c6218b36c1d19D4a2e9Eb0cE3606eB48"
     = Some "USDC".
Proof.
  assert (resolveTokenAddress sampleTable 1 "usdc"
          = Value "0xA0b86991c6218b36c1d19D4a2e9Eb0cE3606eB48") as Hr by reflexivity.
  split; [exact Hr|].
  destruct (symbol_round_trip sampleTable 1 "usdc" _ _ eq_refl eq_refl Hr)
    as (_ & _ & Huniq).
  apply Huniq. apply (bool_decide_unpack _). vm_compute. exact I.
Defined.

End TokenFacts.

(** ** Fees: the broadcaster fee in wei *)

Module FeeFacts.
Import FloatCore NumberFacts FeeCalculatorService.

Local Abbreviation V := B2R.

Lemma e9_spec : fin e9 /\ V e9 = 1000000000%R.
Proof. unfold e9. apply (of_Z_small (10 ^ 9)). done. Qed.

Lemma fits_2p60 x : (Rabs x <= 1152921504606846976)%R -> (Rabs x < bpow (emax - 1))%R.
Proof.
  intros H. assert (bpow 60 < bpow (emax - 1))%R by (apply bpow_lt; unfold emax; lia).
  rewrite (bpow_IZR 60) in * by lia.
  assert (IZR (2 ^ 60) = 1152921504606846976)%R as E by (by vm_compute (2 ^ 60)).
  lra.
Qed.

(** The gas price survives the passage through gwei. *)
Lemma gasPrice_round_trip p :
  0 <= p < 2 ^ 50 ->
  JS.BigInt_of_number
    (JS.Math_round (JS.mul (JS.div (JS.Number_of_bigint p) e9) e9)) = Value p.
Proof.
  intros Hp. pose proof u_bound as Hu. pose proof eta_bound as He.
  destruct e9_spec as [Hf9 Hv9].
  destruct (Number_of_bigint_exact p) as (Hfp & Hvp & _).
  { unfold prec. lia. }
  assert (0 <= IZR p <= 1125899906842624)%R as HP.
  { split; [apply IZR_le; lia|]. apply IZR_le. lia. }
  set (B := 1125899906842624%R) in *.
  pose proof (div_spec (JS.Number_of_bigint p) e9 Hfp Hf9) as Hd.
  rewrite Hvp, Hv9 in Hd.
  assert (0 <= IZR p / 1000000000 <= B / 1000000000)%R as Hx1.
  { unfold Rdiv. assert (0 < / 1000000000)%R by (apply Rinv_0_lt_compat; lra).
    split; nra. }
  specialize (Hd ltac:(lra)).
  specialize (Hd ltac:(apply fits_2p60; rewrite Rabs_pos_eq by lra; unfold B in *; lra)).
  destruct (rounded_facts _ _ (B / 1000000000) Hd ltac:(rewrite Rabs_pos_eq; lra))
    as [Hf1 Hb1].
  set (r1 := JS.div (JS.Number_of_bigint p) e9) in *.
  pose proof (rounded_nonneg _ _ Hd ltac:(lra)) as Hr1pos.
  assert (IZR p / 1000000000 * 1000000000 = IZR p)%R as Hcancel by (field).
  assert (Rabs (V r1 * 1000000000 - IZR p) <= u * B + 1000000000 * eta)%R as Hx2.
  { apply Rabs_le.
    assert (u * (B / 1000000000) * 1000000000 = u * B)%R as Hub by (field).
    set (x1 := (IZR p / 1000000000)%R) in *. set (ub := (u * (B / 1000000000))%R) in *.
    unfold B in *. lra. }
  apply Rabs_le_inv in Hx2.
  pose proof (mul_spec r1 e9 Hf1 Hf9) as Hm. rewrite Hv9 in Hm.
  assert (0 <= V r1 * 1000000000 <= 2 * B)%R as Hx2b by (unfold B in *; lra).
  specialize (Hm ltac:(apply fits_2p60; rewrite Rabs_pos_eq by lra; unfold B in *; lra)).
  destruct (rounded_facts _ _ (2 * B) Hm ltac:(rewrite Rabs_pos_eq; lra)) as [Hf2 Hb2].
  set (r2 := JS.mul r1 e9) in *.
  assert (Rabs (V r2 - IZR p) < 1 / 2)%R as Hclose.
  { apply Rabs_def1; unfold B in *; lra. }
  destruct (Math_round_spec r2 Hf2) as (n & _ & _ & Hbig & Hn).
  { change (prec - 1) with 52. rewrite (bpow_IZR 52) by lia.
    apply Rabs_def2 in Hclose. apply Rabs_def1.
    - assert (IZR p + 1 <= IZR (2 ^ 52))%R; [|lra].
      rewrite <- plus_IZR. apply IZR_le. lia.
    - assert (0 <= IZR (2 ^ 52))%R by (apply IZR_le; lia). lra. }
  rewrite Hbig. f_equal. by apply (int_unique n p (V r2)).
Qed.

Lemma margin_percent :
  JS.BigInt_of_number
    (JS.Math_round (JS.mul BROADCASTER_PROFIT_MARGIN (JS.of_Z 100))) = Value 15.
Proof. vm_compute. reflexivity. Qed.

(** The gas the fee is computed for, when the estimate is a natural
    number. *)
Lemma effectiveGas_integer e :
  0 <= e < 2 ^ 53 ->
  JS.BigInt_of_number (effectiveGas (JS.of_Z e))
  = Value (if e <? 100000 then 1000000 else e).
Proof.
  intros He. unfold effectiveGas.
  destruct (Z.eq_dec e 0) as [->|Hne]; [vm_compute; reflexivity|].
  destruct (Number_of_bigint_exact e) as (Hfe & Hve & Hbig).
  { unfold prec. lia. }
  fold (JS.of_Z e) in Hfe, Hve, Hbig.
  assert (0 < IZR e)%R as Hpos by (apply IZR_lt; lia).
  assert (falsy (JS.of_Z e) = false) as ->.
  { destruct (JS.of_Z e) eqn:E; try done. simpl in Hve. lra. }
  assert (JS.le (JS.of_Z e) JS.zero = false) as ->.
  { apply not_true_is_false. unfold JS.le. rewrite SFleb_fin by done.
    rewrite Hve. simpl. lra. }
  cbn [orb].
  destruct (of_Z_small 100000) as [Hf5 Hv5]; [done|].
  destruct (Z.ltb_spec e 100000) as [Hlt|Hge].
  - assert (JS.lt (JS.of_Z e) (JS.of_Z 100000) = true) as ->; [|vm_compute; reflexivity].
    unfold JS.lt. rewrite SFltb_fin by done. rewrite Hve, Hv5. by apply IZR_lt.
  - assert (JS.lt (JS.of_Z e) (JS.of_Z 100000) = false) as ->; [|done].
    apply not_true_is_false. unfold JS.lt. rewrite SFltb_fin by done.
    rewrite Hve, Hv5. apply Rle_not_lt. by apply IZR_le.
Qed.

(** For a gas price below 2^50 wei and a gas estimate that is a natural
    number, the broadcaster fee in wei is exact: the gas cost, at the
    estimate or at the minimum of 1000000 when the estimate is below
    100000, plus 15 percent of it, rounded down. A rejected gas price
    read is passed on. *)
Theorem broadcaster_fee_wei (gasPrice estimatedGas : Z)
    (ethPrice fromTokenPrice amountIn : JS.number) :
  0 <= gasPrice < 2 ^ 50 -> 0 <= estimatedGas < 2 ^ 53 ->
  let gas := if estimatedGas <? 100000 then 1000000 else estimatedGas in
  (exists fees,
     calculateFees (Value gasPrice) ethPrice fromTokenPrice amountIn
       (JS.of_Z estimatedGas) = Value fees
     /\ broadcasterFeeWei fees = gas * gasPrice + (gas * gasPrice * 15) / 100
     /\ 115 * (gas * gasPrice) - 100 < 100 * broadcasterFeeWei fees
        <= 115 * (gas * gasPrice))
  /\ 100000 <= gas
  /\ calculateFees Thrown ethPrice fromTokenPrice amountIn (JS.of_Z estimatedGas)
     = Thrown.
Proof.
  intros Hp He gas. split; [|split; [|done]].
  - unfold calculateFees. cbn [mbind result_bind].
    rewrite gasPrice_round_trip by done. cbn [mbind result_bind].
    rewrite effectiveGas_integer by done. cbn [mbind result_bind]. fold gas.
    rewrite margin_percent. cbn [mbind result_bind].
    eexists. split; [done|]. cbn [broadcasterFeeWei].
    assert (0 <= gas * gasPrice) as Hnn.
    { apply Z.mul_nonneg_nonneg; [|lia]. unfold gas. destruct (_ <? _); lia. }
    rewrite Z.quot_div_nonneg by lia. split; [done|].
    pose proof (Z.div_mod (gas * gasPrice * 15) 100 ltac:(lia)).
    pose proof (Z.mod_pos_bound (gas * gasPrice * 15) 100 ltac:(lia)). lia.
  - unfold gas. destruct (Z.ltb_spec estimatedGas 100000); lia.
Qed.

(** 30 gwei and the gas of a single concentrated-liquidity hop. *)
Lemma broadcaster_fee_wei_witness :
  exists fees,
    calculateFees (Value 30000000000) (JS.of_Z 3000) (JS.of_Z 1) (JS.of_Z 100)
      (JS.of_Z 150000) = Value fees
    /\ broadcasterFeeWei fees = 5175000000000000.
Proof.
  destruct (broadcaster_fee_wei 30000000000 150000 (JS.of_Z 3000) (JS.of_Z 1) (JS.of_Z 100))
    as ((fees & Hf & Hwei & _) & _); [lia..|].
  exists fees. split; [exact Hf|]. rewrite Hwei. reflexivity.
Defined.

End FeeFacts.

(** ** Pathfinder: bridge tokens and the pairs to discover *)

Module DiscoveryFacts.
Import Constants Tokens PathfinderDiscovery.

Local Abbreviation lower := JS.toLowerCase.

Section Bridges.
Variable TOKEN_ADDRESSES : Z -> option (list (string * string)).
Variable chainId : Z.
Variables tokenIn tokenOut : string.

(** A bridge token: in lower case and neither token of the pair. *)
Definition isBridge (b : string) : Prop :=
  lower b = b /\ b <> lower tokenIn /\ b <> lower tokenOut.

Lemma pairsAmong_length l : (length l <= 3)%nat -> (length (pairsAmong l) <= 3)%nat.
Proof.
  destruct l as [|a [|b [|c [|d l]]]]; simpl; intros; lia.
Qed.

(** The bridge tokens are at most eight, in lower case, and never a
    token of the pair; with them at most twenty pairs are looked up, the
    pair itself first. *)
Theorem getBridgeTokens_bounded (dbTokens : list string) :
  let bridges := getBridgeTokens TOKEN_ADDRESSES chainId tokenIn tokenOut dbTokens in
  let pairs := pairsToCheck (lower tokenIn) (lower tokenOut) bridges in
  (length bridges <= 8)%nat
  /\ Forall isBridge bridges
  /\ head pairs = Some (lower tokenIn, lower tokenOut)
  /\ length pairs
     = (1 + 2 * length bridges + length (pairsAmong (take 3 bridges)))%nat
  /\ (length pairs <= 20)%nat.
Proof.
  cbv zeta.
  assert (Forall isBridge (getBridgeTokens TOKEN_ADDRESSES chainId tokenIn tokenOut dbTokens))
    as Hall.
  { unfold getBridgeTokens, JS.slice0. cbv zeta. apply Forall_take.
    match goal with
    | |- context [foldl ?f2 (foldl ?f1 [] _) _] => set (step1 := f1); set (step2 := f2)
    end.
    assert (forall l acc, Forall isBridge acc -> Forall isBridge (foldl step1 acc l)) as H1.
    { induction l as [|symbol l IH]; intros acc Hacc; [done|]. cbn [foldl]. apply IH.
      unfold step1. destruct (tokenAddress _ _ _) as [address|]; [|done].
      destruct (String.eqb address NATIVE); [done|]. cbn [negb]. cbv zeta.
      destruct (String.eqb_spec (lower address) (lower tokenIn)); [done|].
      destruct (String.eqb_spec (lower address) (lower tokenOut)); [done|].
      cbn [negb andb]. apply Forall_app. split; [done|].
      constructor; [|done]. split; [apply toLowerCase_idem|done]. }
    assert (forall l acc, Forall isBridge acc -> Forall isBridge (foldl step2 acc l)) as H2.
    { induction l as [|token l IH]; intros acc Hacc; [done|]. cbn [foldl]. apply IH.
      unfold step2. cbv zeta. destruct (bool_decide _); [done|]. cbn [negb andb].
      destruct (String.eqb_spec (lower token) (lower tokenIn)); [done|].
      destruct (String.eqb_spec (lower token) (lower tokenOut)); [done|].
      cbn [negb andb]. apply Forall_app. split; [done|].
      constructor; [|done]. split; [apply toLowerCase_idem|done]. }
    apply H2, H1. constructor. }
  set (bridges := getBridgeTokens TOKEN_ADDRESSES chainId tokenIn tokenOut dbTokens) in *.
  assert (length bridges <= 8)%nat as Hlen.
  { unfold bridges, getBridgeTokens, JS.slice0. cbv zeta. rewrite length_take. lia. }
  split; [done|]. split; [done|]. split; [done|].
  assert (length (pairsToCheck (lower tokenIn) (lower tokenOut) bridges)
          = (1 + 2 * length bridges + length (pairsAmong (take 3 bridges)))%nat) as Hpairs.
  { unfold pairsToCheck, JS.slice0. rewrite !length_app. cbn [length].
    assert (forall l, Forall isBridge l ->
              length (flat_map
                        (fun bridge =>
                           if negb (String.eqb bridge (lower tokenIn))
                              && negb (String.eqb bridge (lower tokenOut))
                           then [(lower tokenIn, bridge); (bridge, lower tokenOut)]
                           else []) l)
              = (2 * length l)%nat) as Hflat.
    { induction 1 as [|b l (_ & Hb1 & Hb2) _ IH]; [done|].
      cbn [flat_map]. rewrite length_app, IH.
      destruct (String.eqb_spec b (lower tokenIn)); [done|].
      destruct (String.eqb_spec b (lower tokenOut)); [done|]. simpl. lia. }
    rewrite (Hflat _ Hall). lia. }
  split; [done|]. rewrite Hpairs.
  pose proof (pairsAmong_length (take 3 bridges) ltac:(rewrite length_take; lia)). lia.
Qed.

End Bridges.

End DiscoveryFacts.

(** ** Price impact by trade size: between 0.1 and 3 *)

Module PriceImpactFacts.
Import FloatCore NumberFacts PriceImpact.

Local Abbreviation V := B2R.

(** A JavaScript number: any value of the format, NaN and the infinities
    included. *)
Definition isNumber (x : JS.number) : Prop :=
  match x with
  | S754_finite _ m e => SpecFloat.bounded prec emax m e = true
  | _ => True
  end.

Lemma ratio_value p q lo hi :
  (lo < IZR p / IZR (Z.pos q) < hi)%R -> (-1000 <= lo)%R -> (hi <= 1000)%R ->
  (lo + 1 / 1000000000 <= IZR p / IZR (Z.pos q) <= hi - 1 / 1000000000)%R ->
  fin (JS.of_ratio p q) /\ (lo <= V (JS.of_ratio p q) <= hi)%R.
Proof.
  intros Hr Hlo Hhi Hm. pose proof u_bound as Hu. pose proof eta_bound as He.
  pose proof (of_ratio_spec p q) as Hs.
  specialize (Hs ltac:(apply fits_small; apply Rabs_le; lra)).
  destruct (rounded_facts _ _ 1000 Hs ltac:(apply Rabs_le; lra)) as [Hf Hb].
  split; [done|]. lra.
Qed.

(** One ramp of the estimate: [base + (x - lo) * c]. *)
Lemma ramp base c lo x D :
  fin base -> fin c -> fin lo -> fin x ->
  (11 / 100 <= V base <= 81 / 100)%R -> (0 <= V c <= 1 / 1000)%R ->
  (0 <= V lo <= 1000000)%R -> (V lo <= V x <= V lo + D)%R ->
  (0 <= D <= 900000)%R -> (D * V c <= 2)%R -> (V x <= 1000000)%R ->
  fin (JS.add base (JS.mul (JS.sub x lo) c))
  /\ (21 / 200 <= V (JS.add base (JS.mul (JS.sub x lo) c)) <= 29 / 10)%R.
Proof.
  intros Hfb Hfc Hfl Hfx Hb Hc Hlo Hx HD HDc Hx6.
  pose proof u_bound as Hu. pose proof eta_bound as He.
  pose proof (sub_spec x lo Hfx Hfl ltac:(apply fits_small; apply Rabs_le; lra)) as Hd.
  destruct (rounded_facts _ _ 1000000 Hd ltac:(apply Rabs_le; lra)) as [Hfd Hbd].
  pose proof (rounded_nonneg _ _ Hd ltac:(lra)) as Hd0.
  set (d := JS.sub x lo) in *.
  assert (V d <= D + 1)%R as Hd1 by lra.
  assert (0 <= V d * V c <= (D + 1) * V c)%R as Hprod.
  { split; [apply Rmult_le_pos; lra|]. apply Rmult_le_compat_r; lra. }
  pose proof (mul_spec d c Hfd Hfc ltac:(apply fits_small; apply Rabs_le; lra)) as Hp.
  destruct (rounded_facts _ _ 3 Hp ltac:(apply Rabs_le; lra)) as [Hfp Hbp].
  pose proof (rounded_nonneg _ _ Hp ltac:(lra)) as Hp0.
  set (p := JS.mul d c) in *.
  pose proof (add_spec base p Hfb Hfp ltac:(apply fits_small; apply Rabs_le; lra)) as Hr.
  destruct (rounded_facts _ _ 3 Hr ltac:(apply Rabs_le; lra)) as [Hfr Hbr].
  split; [done|]. lra.
Qed.

Lemma not_lt_ge x c : fin x -> fin c -> JS.lt x c = false -> (V c <= V x)%R.
Proof.
  intros Hx Hc H. apply Rnot_lt_le. intros Hlt.
  apply (SFltb_fin x c Hx Hc) in Hlt. unfold JS.lt in H. congruence.
Qed.

(** The estimate is capped on both sides: at least 0.1 and at most 3,
    whatever the number it is given, NaN and the infinities included. *)
Theorem estimatePriceImpact_capped (amountUsd : JS.number) :
  isNumber amountUsd ->
  JS.le (JS.of_ratio 1 10) (estimatePriceImpact amountUsd) = true
  /\ JS.le (estimatePriceImpact amountUsd) (JS.of_Z 3) = true.
Proof.
  intros Hnum.
  destruct (of_Z_small 3 ltac:(done)) as [Hf3 Hv3].
  destruct (ratio_value 1 10 (9 / 100) (21 / 200)) as [Hf01 Hv01]; [lra..|].
  assert (forall r, fin r -> (21 / 200 <= V r <= 29 / 10)%R ->
            JS.le (JS.of_ratio 1 10) r = true /\ JS.le r (JS.of_Z 3) = true) as Hcap.
  { intros r Hfr Hr. unfold JS.le. rewrite !SFleb_fin by done. rewrite Hv3. lra. }
  destruct amountUsd as [s|s| |s m e].
  - vm_compute. done.
  - destruct s; vm_compute; done.
  - vm_compute. done.
  - assert (fin (S754_finite s m e)) as Hfx by exact Hnum.
    set (x := S754_finite s m e) in *. clearbody x. unfold estimatePriceImpact.
    destruct (of_Z_small 1000 ltac:(done)) as [Hfa Hva].
    destruct (of_Z_small 10000 ltac:(done)) as [Hfb Hvb].
    destruct (of_Z_small 100000 ltac:(done)) as [Hfc Hvc].
    destruct (of_Z_small 1000000 ltac:(done)) as [Hfd Hvd].
    destruct (JS.lt x (JS.of_Z 1000)) eqn:H1.
    { unfold JS.le. rewrite !SFleb_fin by done. rewrite Hv3. lra. }
    apply (not_lt_ge x _ Hfx Hfa) in H1. rewrite Hva in H1.
    destruct (JS.lt x (JS.of_Z 10000)) eqn:H2.
    { unfold JS.lt in H2. apply (SFltb_fin x _ Hfx Hfb) in H2. rewrite Hvb in H2.
      destruct (ratio_value 2 10 (19 / 100) (21 / 100)) as [Hfk Hvk]; [lra..|].
      destruct (ratio_value 1 100000 0 (2 / 100000)) as [Hfq Hvq]; [lra..|].
      destruct (ramp (JS.of_ratio 2 10) (JS.of_ratio 1 100000) (JS.of_Z 1000) x 9000
                  Hfk Hfq Hfa Hfx)
        as [Hfr Hr]; rewrite ?Hva; try lra.
      by apply Hcap. }
    apply (not_lt_ge x _ Hfx Hfb) in H2. rewrite Hvb in H2.
    destruct (JS.lt x (JS.of_Z 100000)) eqn:H3.
    { unfold JS.lt in H3. apply (SFltb_fin x _ Hfx Hfc) in H3. rewrite Hvc in H3.
      destruct (ratio_value 3 10 (29 / 100) (31 / 100)) as [Hfk Hvk]; [lra..|].
      destruct (ratio_value 5 1000000 0 (6 / 1000000)) as [Hfq Hvq]; [lra..|].
      destruct (ramp (JS.of_ratio 3 10) (JS.of_ratio 5 1000000) (JS.of_Z 10000) x 90000
                  Hfk Hfq Hfb Hfx)
        as [Hfr Hr]; rewrite ?Hvb; try lra.
      by apply Hcap. }
    apply (not_lt_ge x _ Hfx Hfc) in H3. rewrite Hvc in H3.
    destruct (JS.lt x (JS.of_Z 1000000)) eqn:H4.
    { unfold JS.lt in H4. apply (SFltb_fin x _ Hfx Hfd) in H4. rewrite Hvd in H4.
      destruct (ratio_value 8 10 (79 / 100) (81 / 100)) as [Hfk Hvk]; [lra..|].
      destruct (ratio_value 2 1000000 0 (22 / 10000000)) as [Hfq Hvq]; [lra..|].
      destruct (ramp (JS.of_ratio 8 10) (JS.of_ratio 2 1000000) (JS.of_Z 100000) x 900000
                  Hfk Hfq Hfc Hfx)
        as [Hfr Hr]; rewrite ?Hvc; try lra.
      by apply Hcap. }
    unfold JS.le. rewrite !SFleb_fin by done. rewrite Hv3. lra.
Qed.

(** A trade of 50000 dollars. *)
Lemma estimatePriceImpact_capped_witness :
  JS.le (JS.of_ratio 1 10) (estimatePriceImpact (JS.of_Z 50000)) = true
  /\ JS.le (estimatePriceImpact (JS.of_Z 50000)) (JS.of_Z 3) = true.
Proof. apply estimatePriceImpact_capped. vm_compute. reflexivity. Defined.

End PriceImpactFacts.

(** ** The exact-input flow: which plan a request is answered from *)

Module FlowFacts.
Import FloatCore NumberFacts SplitFacts.
Import DexDataFacts(uint24, feeTierFits, encodable).
Import RouteOptimizerService(byAmountOutDesc, n100, splitGate, calculateDynamicSplit,
                             findOptimalRoute, createSingleRoute, createSplitRoute, first,
                             multiHopPath, truthyFeeTier).
Import QuoteService(routeSplits, normalizeSplits, optimizeRouteSplit, singleBest).
Import QuoteFlow.

(** Every amount the contracts answer with is an unsigned 256-bit
    integer, as their interfaces declare. *)
Definition uint256Provider (provider : Provider) : Prop :=
  (forall q tokenIn tokenOut amountIn fee out,
     quoteExactInputSingle provider q tokenIn tokenOut amountIn fee = Value out ->
     uint256 out)
  /\ (forall q path amountIn out,
        quoteExactInput provider q path amountIn = Value out -> uint256 out)
  /\ (forall r amountIn path amounts,
        getAmountsOut provider r amountIn path = Value amounts ->
        Forall uint256 amounts).

(** The largest of a list of quotes. *)
Definition largest {Q} (out : Q -> Z) (best : Q) (quotes : list Q) : Prop :=
  best ∈ quotes /\ forall q, q ∈ quotes -> out q <= out best.

Section Optimizers.
Variables (amountIn : Z) (fromDecimals toDecimals : nat).

Local Abbreviation sortedVenues venues :=
  (JS.sort (byAmountOutDesc DexQuoteService.amountOut) venues).
Local Abbreviation sortedRoutes routes :=
  (JS.sort (byAmountOutDesc RouteQuoteService.amountOut) routes).

(** A single quote whose fee tier cannot be encoded makes the per-venue
    optimizer throw. *)
Lemma findOptimalRoute_fee_tier q f :
  multiHopPath q = None -> truthyFeeTier q = Some f -> ~ uint24 f ->
  findOptimalRoute [q] amountIn fromDecimals toDecimals = Thrown.
Proof.
  intros Hp Hf Hbad.
  rewrite (findOptimalRoute_decision amountIn fromDecimals toDecimals [q] q [] eq_refl).
  cbn [length Nat.eqb orb]. unfold createSingleRoute. rewrite Hp.
  unfold RouteOptimizerService.feeTierDexData. rewrite Hf.
  by rewrite (proj2 (DexDataFacts.encodeV3DexData_uint24 f) Hbad).
Qed.

(** The per-route optimizer never throws, and answers [null] on an empty
    list only. *)
Lemma optimizeRouteSplit_answers routes :
  Forall (fun q => uint256 (RouteQuoteService.amountOut q)) routes ->
  match routes with
  | [] => optimizeRouteSplit routes amountIn fromDecimals toDecimals = Value None
  | _ :: _ =>
      exists plan,
        optimizeRouteSplit routes amountIn fromDecimals toDecimals = Value (Some plan)
  end.
Proof.
  intros Hra. destruct routes as [|r routes']; [done|].
  destruct (sorted_best _ (r :: routes') ltac:(done) Hra) as (best & rest & Hs & _ & _).
  rewrite (optimizeRouteSplit_decision amountIn fromDecimals toDecimals _ best rest Hs).
  destruct (_ || _ || (length (routeSplits (sortedRoutes (r :: routes'))) <=? 1)%nat)
    eqn:Hc; [by eexists|].
  apply orb_false_iff in Hc as [_ Hc]. apply Nat.leb_gt in Hc.
  destruct (optimizeRouteSplit_gate (r :: routes') ltac:(done) Hra) as (best' & _ & Htwo).
  destruct (Htwo ltac:(lia)) as (ks & gas & wpi & _ & _ & _ & Hfold).
  cbv zeta. rewrite Hfold. cbn [mbind result_bind]. by eexists.
Qed.

(** On quotes whose swap data can be encoded, the per-venue optimizer
    throws on an empty list of quotes and on nothing else; on a single
    quote whose fee tier does not fit 24 bits it throws. The per-route
    optimizer answers [null] on an empty list and on nothing else, and
    never throws. *)
Theorem optimizers_empty_input (venues : list DexQuoteService.DexQuote)
    (routes : list RouteQuoteService.RouteQuote) :
  Forall (fun q => uint256 (DexQuoteService.amountOut q)) venues ->
  Forall (fun q => uint256 (RouteQuoteService.amountOut q)) routes ->
  (Forall encodable venues ->
   (findOptimalRoute venues amountIn fromDecimals toDecimals = Thrown <-> venues = []))
  /\ (forall q f, venues = [q] -> multiHopPath q = None -> truthyFeeTier q = Some f ->
        ~ uint24 f ->
        findOptimalRoute venues amountIn fromDecimals toDecimals = Thrown)
  /\ (optimizeRouteSplit routes amountIn fromDecimals toDecimals = Value None
      <-> routes = [])
  /\ optimizeRouteSplit routes amountIn fromDecimals toDecimals <> Thrown.
Proof.
  intros Hva Hra. split; [|split; [|split]].
  - intros Henc. split; [|by intros ->].
    intros Hthrown. destruct venues as [|v venues']; [done|]. exfalso.
    destruct (findOptimalRoute_gate amountIn fromDecimals toDecimals (v :: venues')
                ltac:(done) Hva Henc)
      as (bv & singleRoute & plan & _ & _ & _ & _ & _ & _ & _ & _ & Hres).
    rewrite Hres in Hthrown. by destruct (_ || _).
  - intros q f -> Hp Hf Hbad. by eapply findOptimalRoute_fee_tier.
  - pose proof (optimizeRouteSplit_answers routes Hra) as Hans.
    destruct routes as [|r routes']; [done|].
    destruct Hans as [plan Hplan]. rewrite Hplan. split; discriminate.
  - pose proof (optimizeRouteSplit_answers routes Hra) as Hans.
    destruct routes as [|r routes']; [by rewrite Hans|].
    destruct Hans as [plan Hplan]. by rewrite Hplan.
Qed.

Hypothesis decimals_bound : (toDecimals <= 255)%nat.

Lemma sorted_largest {Q} (out : Q -> Z) quotes best rest :
  JS.sort (byAmountOutDesc out) quotes = best :: rest ->
  Forall (fun q => 0 <= out q <= out best) (best :: rest) ->
  largest out best quotes.
Proof.
  intros Hs Hle. split.
  - apply (sort_elem (byAmountOutDesc out)). rewrite Hs. left.
  - intros q Hq. apply (sort_elem (byAmountOutDesc out)) in Hq. rewrite Hs in Hq.
    rewrite Forall_forall in Hle. by apply Hle.
Qed.

(** The per-venue optimizer answers with the single plan of the best
    quote, and throws when that plan cannot be built. *)
Lemma findOptimalRoute_single venues :
  venues <> [] ->
  Forall (fun q => uint256 (DexQuoteService.amountOut q)) venues ->
  Forall feeTierFits venues ->
  exists best,
    largest DexQuoteService.amountOut best venues
    /\ findOptimalRoute venues amountIn fromDecimals toDecimals
       = createSingleRoute best amountIn fromDecimals toDecimals.
Proof.
  intros Hv Hva Hfee.
  destruct (sorted_best _ venues Hv Hva) as (best & rest & Hs & Hbu & Hle).
  exists best. split; [by eapply sorted_largest|].
  rewrite (findOptimalRoute_decision amountIn fromDecimals toDecimals venues best rest Hs).
  destruct (_ || _); [done|].
  destruct (createSingleRoute best amountIn fromDecimals toDecimals)
    as [singleRoute|] eqn:Hsingle; [|done].
  cbn [mbind result_bind].
  destruct (DexDataFacts.createSingleRoute_plan _ _ _ _ _ Hsingle) as (_ & Hstot & _).
  destruct (venue_legs best rest Hbu Hle) as (ks & Hks & Hsum).
  destruct (createSplitRoute_spec (calculateDynamicSplit (best :: rest)) ks
              amountIn fromDecimals toDecimals) as (plan & Hplan & _ & Htot & _).
  { eapply Forall2_impl; [exact Hks|]. intros leg k (? & _ & _ & Hin).
    split; [done|]. rewrite Forall_forall in Hfee. apply Hfee.
    apply (sort_elem (byAmountOutDesc DexQuoteService.amountOut)). by rewrite Hs. }
  rewrite Hs, Hplan. cbn [mbind result_bind]. rewrite Htot, Hstot.
  rewrite comparison_false; [done| |apply Hbu|done].
  assert (Forall2 (fun leg k => 0 <= DexQuoteService.amountOut leg.1
                                <= DexQuoteService.amountOut best /\ 0 <= k)
            (calculateDynamicSplit (best :: rest)) ks) as Hks'.
  { eapply Forall2_impl; [exact Hks|]. intros leg k (_ & ? & ? & _). done. }
  destruct (splitOut_le DexQuoteService.amountOut _ ks _ Hks') as [H0 Hle'].
  split; [done|]. destruct Hbu as [Hb0 _]. nia.
Qed.

(** The per-route optimizer answers with the best quote alone. *)
Lemma optimizeRouteSplit_single routes :
  routes <> [] ->
  Forall (fun q => uint256 (RouteQuoteService.amountOut q)) routes ->
  Forall (fun q => RouteQuoteService.amountOutFormatted q
                   = formatUnits (RouteQuoteService.amountOut q) toDecimals) routes ->
  exists best,
    largest RouteQuoteService.amountOut best routes
    /\ optimizeRouteSplit routes amountIn fromDecimals toDecimals
       = Value (Some (singleRoutePlan best)).
Proof.
  intros Hr Hra Hfmt.
  destruct (sorted_best _ routes Hr Hra) as (br & rrest & Hrs & Hru & Hle).
  exists br. split; [by eapply sorted_largest|].
  rewrite (optimizeRouteSplit_decision amountIn fromDecimals toDecimals routes br rrest Hrs).
  destruct (_ || _ || (length (routeSplits (sortedRoutes routes)) <=? 1)%nat) eqn:Hc;
    [done|].
  apply orb_false_iff in Hc as [_ Hc]. apply Nat.leb_gt in Hc.
  destruct (optimizeRouteSplit_gate routes Hr Hra) as (br' & Hbr & Htwo).
  rewrite Hrs in Hbr. injection Hbr as <-.
  destruct (Htwo ltac:(lia)) as (rks & gas & wpi & Hrks & Hrsum & _ & Hfold).
  cbv zeta. rewrite Hfold. cbn [mbind result_bind].
  assert (RouteQuoteService.amountOutFormatted br
          = formatUnits (RouteQuoteService.amountOut br) toDecimals) as ->.
  { rewrite Forall_forall in Hfmt. apply Hfmt.
    apply (sort_elem (byAmountOutDesc RouteQuoteService.amountOut)).
    rewrite Hrs. left. }
  rewrite comparison_false; [done| |apply Hru|done].
  assert (Forall2 (fun leg k => 0 <= RouteQuoteService.amountOut leg.1
                                <= RouteQuoteService.amountOut br /\ 0 <= k)
            (normalizeSplits (routeSplits (sortedRoutes routes))) rks) as Hrks'.
  { eapply Forall2_impl; [exact Hrks|]. intros leg k (_ & ? & _ & ?). split; [done|lia]. }
  destruct (splitOut_le RouteQuoteService.amountOut _ rks _ Hrks') as [H0 Hle'].
  split; [done|]. destruct Hru as [Hb0 _]. nia.
Qed.

End Optimizers.

(** *** The amounts of the quotes are contract answers *)

Section Answers.
Variable provider : Provider.
Hypothesis answers_uint256 : uint256Provider provider.

Lemma getHopQuote_uint256 chainId hop a hq :
  RouteQuoteService.getHopQuote chainId provider hop a = Value (Some hq) ->
  uint256 (RouteQuoteService.hq_amountOut hq).
Proof.
  destruct answers_uint256 as (Hsingle & _ & Hamounts).
  unfold RouteQuoteService.getHopQuote.
  destruct (Constants.DEX_INFO _) as [info|]; [|discriminate].
  destruct (Constants.DEX_CONTRACTS _ _) as [c|]; [|discriminate].
  destruct (Constants.type info).
  - unfold RouteQuoteService.getV2HopQuote.
    destruct (getAmountsOut _ _ _ _) as [amounts|] eqn:Ha; simpl; [|discriminate].
    destruct (last amounts) as [out|] eqn:Hl; simpl; [|discriminate].
    intros [= <-]. simpl.
    specialize (Hamounts _ _ _ _ Ha). rewrite Forall_forall in Hamounts.
    apply Hamounts. rewrite last_lookup in Hl. by eapply list_elem_of_lookup_2.
  - unfold RouteQuoteService.getV3HopQuote.
    destruct (Constants.quoter c) as [q|]; simpl; [|discriminate].
    destruct (quoteExactInputSingle _ _ _ _ _ _) as [out|] eqn:Hq; simpl; [|discriminate].
    intros [= <-]. simpl. by eapply Hsingle.
  - discriminate.
  - discriminate.
Qed.

Lemma quoteHops_uint256 chainId hs : forall a acc hds out,
  RouteQuoteService.quoteHops chainId provider hs a acc = Value (Some (hds, out)) ->
  hs <> [] \/ uint256 a -> uint256 out.
Proof.
  induction hs as [|hop hs IH]; intros a acc hds out; simpl.
  - intros [= _ <-] [?|?]; done.
  - destruct (RouteQuoteService.getHopQuote chainId provider hop a) as [[hq|]|] eqn:Hh;
      simpl; [|discriminate|discriminate].
    intros Hrec _. eapply IH; [exact Hrec|]. right. by eapply getHopQuote_uint256.
Qed.

Lemma getQuoteForRoute_uint256 chainId r a d q :
  Pathfinder.hops r <> [] ->
  RouteQuoteService.getQuoteForRoute chainId provider r a d = Value (Some q) ->
  uint256 (RouteQuoteService.amountOut q)
  /\ RouteQuoteService.amountOutFormatted q
     = formatUnits (RouteQuoteService.amountOut q) d.
Proof.
  intros Hne. unfold RouteQuoteService.getQuoteForRoute.
  destruct (RouteQuoteService.quoteHops chainId provider (Pathfinder.hops r) a [])
    as [[[hds out]|]|] eqn:Hq; simpl; [|discriminate|discriminate].
  intros [= <-]. simpl. split; [|done].
  eapply quoteHops_uint256; [exact Hq|by left].
Qed.

Section Venue.
Variable TOKEN_ADDRESSES : Z -> option (list (string * string)).
Variable chainId : Z.
Variables tokenIn tokenOut : string.
Variable amountIn : Z.

Lemma venueAnswers_uint256 dexId contracts out :
  out ∈ VenueFacts.venueAnswers TOKEN_ADDRESSES chainId provider tokenIn tokenOut
          amountIn dexId contracts ->
  uint256 out.
Proof.
  destruct answers_uint256 as (Hsingle & Hmulti & Hamounts).
  assert (forall r p o, VenueFacts.attemptV2 provider amountIn r p = Some o -> uint256 o)
    as Hv2.
  { intros r p o. unfold VenueFacts.attemptV2.
    destruct (getAmountsOut _ _ _ _) as [amounts|] eqn:Ha; [|discriminate].
    intros Hl. specialize (Hamounts _ _ _ _ Ha). rewrite Forall_forall in Hamounts.
    apply Hamounts. rewrite last_lookup in Hl. by eapply list_elem_of_lookup_2. }
  unfold VenueFacts.venueAnswers.
  destruct (Constants.DEX_INFO dexId) as [info|]; [|by intros ?%elem_of_nil].
  destruct (Constants.type info); try by intros ?%elem_of_nil.
  - unfold VenueFacts.answersV2.
    intros [Hin|Hin]%elem_of_app; apply list_elem_of_omap in Hin as (x & _ & Hx);
      by eapply Hv2.
  - destruct (Constants.quoter contracts) as [q|]; [|by intros ?%elem_of_nil].
    unfold VenueFacts.answersV3.
    intros [Hin|Hin]%elem_of_app; apply list_elem_of_omap in Hin as (x & _ & Hx).
    + unfold VenueFacts.singleAttemptV3 in Hx.
      destruct (quoteExactInputSingle _ _ _ _ _ _) as [o|] eqn:Ho; [|discriminate].
      destruct (0 <? o); [|discriminate]. injection Hx as <-. by eapply Hsingle.
    + unfold VenueFacts.multiAttemptV3 in Hx.
      destruct (VenueFacts.encoded _ _ _) as [p|]; [|discriminate].
      destruct (quoteExactInput _ _ _ _) as [o|] eqn:Ho; [|discriminate].
      injection Hx as <-. by eapply Hmulti.
Qed.

End Venue.

(** *** The swap data of the venues' quotes can be encoded *)

Section Encoding.
Variable TOKEN_ADDRESSES : Z -> option (list (string * string)).
Variable chainId : Z.
Variables tokenIn tokenOut : string.
Variable amountIn : Z.
Variable toDecimals : nat.

Lemma tier_uint24 f : f ∈ Constants.V3_FEE_TIERS -> uint24 f.
Proof.
  unfold Constants.V3_FEE_TIERS, uint24. intros Hf.
  repeat (apply elem_of_cons in Hf as [->|Hf]; [lia|]). by apply elem_of_nil in Hf.
Qed.

Lemma bestTier_fee q :
  snd (DexQuoteService.bestTier provider q tokenIn tokenOut amountIn)
  ∈ Constants.V3_FEE_TIERS.
Proof.
  unfold DexQuoteService.bestTier, Constants.V3_FEE_TIERS. cbn [foldl nth].
  unfold DexQuoteService.tryTier.
  repeat match goal with
         | |- context [quoteExactInputSingle ?p ?a ?b ?c ?d ?e] =>
             destruct (quoteExactInputSingle p a b c d e)
         | |- context [?x <? ?y] => destruct (x <? y)
         end; cbn [snd]; set_solver.
Qed.

Lemma single_tier dexId q quote :
  DexQuoteService.getV3SingleHopQuote dexId provider q tokenIn tokenOut amountIn
    toDecimals = Value (Some quote) ->
  feeTierFits quote /\ DexQuoteService.pathEncoded quote = None.
Proof.
  unfold DexQuoteService.getV3SingleHopQuote.
  pose proof (bestTier_fee q) as Hfee.
  destruct (DexQuoteService.bestTier _ _ _ _ _) as [out fee]. cbn [snd] in Hfee.
  destruct (out =? 0); [discriminate|].
  destruct (Constants.DEX_INFO dexId) as [info|]; [|discriminate].
  cbn. intros [= <-]. split; [|done].
  intros f [= <-]. by apply tier_uint24.
Qed.

Lemma kept_tier {A} (attempt : A -> option Z) (build : A -> Z -> DexQuoteService.DexQuote)
    l quote :
  (forall a out, DexQuoteService.feeTier (build a out) = None) ->
  foldl (VenueFacts.keepBest attempt build) None l = Some quote ->
  DexQuoteService.feeTier quote = None.
Proof.
  intros Hbuild.
  assert (forall best, (forall q0, best = Some q0 -> DexQuoteService.feeTier q0 = None) ->
            foldl (VenueFacts.keepBest attempt build) best l = Some quote ->
            DexQuoteService.feeTier quote = None) as Hgen; [|by apply Hgen].
  induction l as [|a l IH]; intros best Hb; cbn [foldl]; [by apply Hb|].
  apply IH. intros q0. unfold VenueFacts.keepBest.
  destruct (attempt a) as [out|]; [|by apply Hb].
  destruct (DexQuoteVenues.improves best out); [|by apply Hb].
  intros [= <-]. apply Hbuild.
Qed.

Lemma betterOf_elim (P : DexQuoteService.DexQuote -> Prop) s m quote :
  (forall q, s = Some q -> P q) -> (forall q, m = Some q -> P q) ->
  DexQuoteVenues.betterOf s m = Some quote -> P quote.
Proof.
  unfold DexQuoteVenues.betterOf. intros Hs Hm.
  destruct s as [qs|], m as [qm|]; [|by intros [= <-]; apply Hs
                                     |by intros [= <-]; apply Hm|done].
  destruct (_ <? _); intros [= <-]; [by apply Hm|by apply Hs].
Qed.

(** A quote of a venue: its fee tier, if any, is a configured one; its
    packed path, if any, starts with the source token in lower case. *)
Lemma getQuoteForDex_encodable entry quote :
  DexQuoteVenues.getQuoteForDex TOKEN_ADDRESSES (fst entry) chainId provider (snd entry)
    tokenIn tokenOut amountIn toDecimals = Value (Some quote) ->
  feeTierFits quote
  /\ (JS.startsWith "0x" (JS.toLowerCase tokenIn) = true ->
      forall p, multiHopPath quote = Some p -> JS.startsWith "0x" p = true).
Proof.
  intros Hv. split.
  - revert Hv. destruct entry as [dexId contracts]. cbn [fst snd].
    unfold DexQuoteVenues.getQuoteForDex.
    destruct (Constants.DEX_INFO dexId) as [info|] eqn:Hinfo; [|discriminate].
    assert (DexQuoteVenues.dexNameOf dexId = Value (Constants.name info)) as Hname
      by (unfold DexQuoteVenues.dexNameOf; by rewrite Hinfo).
    destruct (Constants.type info); try discriminate.
    + unfold DexQuoteVenues.getUniswapV2Quote.
      rewrite (VenueFacts.getV2MultiHopQuote_keepBest TOKEN_ADDRESSES chainId provider
                 tokenIn tokenOut amountIn toDecimals dexId _ Hname).
      destruct (DexQuoteVenues.getV2SingleHopQuote dexId provider
                  (Constants.router contracts) tokenIn tokenOut amountIn toDecimals)
        as [s|] eqn:Hs; cbn; [|discriminate].
      intros [= Hb]. revert Hb. apply betterOf_elim.
      * intros q ->. revert Hs. unfold DexQuoteVenues.getV2SingleHopQuote.
        destruct (getAmountsOut _ _ _ _) as [amounts|]; cbn; [|discriminate].
        rewrite Hname. cbn.
        destruct (last amounts) as [out|]; cbn; [|discriminate].
        intros [= <-]. intros f Hf. discriminate Hf.
      * intros q Hq. apply kept_tier in Hq; [|done]. intros f Hf. congruence.
    + destruct (Constants.quoter contracts) as [q|]; [|discriminate].
      unfold DexQuoteVenues.getUniswapV3Quote.
      rewrite (VenueFacts.getV3MultiHopQuote_keepBest TOKEN_ADDRESSES chainId provider
                 tokenIn tokenOut amountIn toDecimals dexId _ Hname).
      destruct (DexQuoteService.getV3SingleHopQuote dexId provider q tokenIn tokenOut
                  amountIn toDecimals) as [s|] eqn:Hs; cbn; [|discriminate].
      intros [= Hb]. revert Hb. apply betterOf_elim.
      * intros q0 ->. by apply single_tier in Hs as [? _].
      * intros q0 Hq. apply kept_tier in Hq; [|done]. intros f Hf. congruence.
  - intros Hprefix p Hp.
    assert (DexQuoteService.pathEncoded quote = Some p) as Hpe.
    { revert Hp. unfold multiHopPath.
      destruct (DexQuoteService.isMultiHop quote) as [[|]|]; try discriminate.
      destruct (DexQuoteService.pathEncoded quote) as [p'|]; [|discriminate].
      destruct (String.eqb p' ""); [discriminate|]. by intros [= <-]. }
    destruct (VenueFacts.answered_spec _ _ _ _ _ _ _ _ _ Hv) as [_ Hagree].
    destruct (Hagree p Hpe) as (c & q & _ & Henc & _).
    revert Henc. unfold VenueFacts.encoded, DexQuoteService.encodeV3Path. cbn.
    intros [= <-].
    destruct (DexDataFacts.startsWith_0x _ Hprefix) as [r ->]. reflexivity.
Qed.

End Encoding.

(** *** The plan *)

Section Plan.
Variable TOKEN_ADDRESSES : Z -> option (list (string * string)).
Variable graph : LiquidityGraph.Graph.
Variable chainId : Z.
Variables fromTokenAddress toTokenAddress : string.
Variable amountIn : Z.
Variables fromDecimals toDecimals : nat.
Hypothesis decimals_bound : (toDecimals <= 255)%nat.

Lemma legacyPlan_spec :
  exists venueQuotes,
    DexQuoteVenues.fetchAllQuotes TOKEN_ADDRESSES chainId provider fromTokenAddress
      toTokenAddress amountIn fromDecimals toDecimals = Value venueQuotes
    /\ match venueQuotes with
       | [] => legacyPlan TOKEN_ADDRESSES chainId provider fromTokenAddress
                 toTokenAddress amountIn fromDecimals toDecimals = NotFound
       | _ :: _ =>
           exists best,
             largest DexQuoteService.amountOut best venueQuotes
             /\ legacyPlan TOKEN_ADDRESSES chainId provider fromTokenAddress
                  toTokenAddress amountIn fromDecimals toDecimals
                = match createSingleRoute best amountIn fromDecimals toDecimals with
                  | Value optimalRoute => FromVenues optimalRoute
                  | Thrown => Failed
                  end
             /\ (JS.startsWith "0x" (JS.toLowerCase fromTokenAddress) = true ->
                 exists optimalRoute,
                   createSingleRoute best amountIn fromDecimals toDecimals
                   = Value optimalRoute)
       end.
Proof.
  destruct (VenueFacts.fetchAllQuotes_unfold TOKEN_ADDRESSES chainId provider
              fromTokenAddress toTokenAddress amountIn fromDecimals toDecimals)
    as (os & Hfetch & Hall).
  exists (omap Datatypes.id os). split; [done|].
  unfold legacyPlan. rewrite Hfetch.
  destruct (omap Datatypes.id os) as [|v vs] eqn:Hvs; [done|].
  cbn [length Nat.eqb].
  assert (forall quote, quote ∈ v :: vs ->
            exists entry,
              DexQuoteVenues.getQuoteForDex TOKEN_ADDRESSES (fst entry) chainId provider
                (snd entry) fromTokenAddress toTokenAddress amountIn toDecimals
              = Value (Some quote)) as Hfrom.
  { intros quote Hq. rewrite <- Hvs in Hq.
    destruct (VenueFacts.answered_elem _ _ _ _ _ _ _ _ _ _ Hall Hq) as (entry & _ & Hv).
    by exists entry. }
  destruct (findOptimalRoute_single amountIn fromDecimals toDecimals decimals_bound
              (v :: vs)) as (best & Hbest & ->); [done| | |].
  - rewrite Forall_forall. intros quote Hq.
    destruct (Hfrom quote Hq) as (entry & Hv).
    destruct (VenueFacts.answered_spec _ _ _ _ _ _ _ _ _ Hv) as [(_ & _ & Hans & _) _].
    by eapply venueAnswers_uint256.
  - rewrite Forall_forall. intros quote Hq.
    destruct (Hfrom quote Hq) as (entry & Hv).
    by eapply getQuoteForDex_encodable.
  - exists best. split; [done|]. split; [done|]. intros Hprefix.
    apply DexDataFacts.createSingleRoute_encodable.
    destruct (Hfrom best (proj1 Hbest)) as (entry & Hv).
    split; [by eapply getQuoteForDex_encodable|].
    eapply getQuoteForDex_encodable; [exact Hv|exact Hprefix].
Qed.

End Plan.
End Answers.

(** An exact-input request is answered from the best quote alone, never
    from a split and never with an exception of the route search, the
    quoting services or the split decision: from the largest of the
    quotes of the discovered routes when there is one, else from the
    largest of the venues' direct quotes, and with not-found when there
    is neither. The single plan of a venue quote is built, its swap data
    encoded, whenever the source token's address starts with 0x; were it
    not built, the request would fail. *)
Theorem getQuotePlan_best_quote
    (TOKEN_ADDRESSES : Z -> option (list (string * string)))
    (graph : LiquidityGraph.Graph) (chainId : Z) (provider : Provider)
    (fromTokenAddress toTokenAddress : string) (amountIn : Z)
    (fromDecimals toDecimals : nat) :
  uint256Provider provider -> (toDecimals <= 255)%nat ->
  exists discovered routeQuotes venueQuotes,
    Pathfinder.findRoutes graph fromTokenAddress toTokenAddress = Value discovered
    /\ RouteQuoteService.getQuotesForRoutes chainId provider discovered amountIn
         toDecimals = Value routeQuotes
    /\ DexQuoteVenues.fetchAllQuotes TOKEN_ADDRESSES chainId provider fromTokenAddress
         toTokenAddress amountIn fromDecimals toDecimals = Value venueQuotes
    /\ match routeQuotes, venueQuotes with
       | _ :: _, _ =>
           exists best,
             largest RouteQuoteService.amountOut best routeQuotes
             /\ RouteQuoteService.route best ∈ discovered
             /\ getQuotePlan TOKEN_ADDRESSES graph chainId provider fromTokenAddress
                  toTokenAddress amountIn fromDecimals toDecimals
                = FromRoutes (singleRoutePlan best)
       | [], _ :: _ =>
           exists best,
             largest DexQuoteService.amountOut best venueQuotes
             /\ getQuotePlan TOKEN_ADDRESSES graph chainId provider fromTokenAddress
                  toTokenAddress amountIn fromDecimals toDecimals
                = match createSingleRoute best amountIn fromDecimals toDecimals with
                  | Value optimalRoute => FromVenues optimalRoute
                  | Thrown => Failed
                  end
             /\ (JS.startsWith "0x" (JS.toLowerCase fromTokenAddress) = true ->
                 exists optimalRoute,
                   createSingleRoute best amountIn fromDecimals toDecimals
                   = Value optimalRoute)
       | [], [] =>
           getQuotePlan TOKEN_ADDRESSES graph chainId provider fromTokenAddress
             toTokenAddress amountIn fromDecimals toDecimals = NotFound
       end.
Proof.
  intros answers_uint256 decimals_bound.
  destruct (RouteSearchFacts.findRoutes_recorded graph fromTokenAddress toTokenAddress)
    as (discovered & Hfind & Hfound).
  destruct (RouteQuoteFacts.getQuotesForRoutes_unfold chainId provider discovered
              amountIn toDecimals) as (os & Hquotes & Hall).
  destruct (legacyPlan_spec provider answers_uint256 TOKEN_ADDRESSES chainId
              fromTokenAddress toTokenAddress amountIn fromDecimals toDecimals
              decimals_bound) as (venueQuotes & Hfetch & Hlegacy).
  exists discovered, (JS.sort RouteQuoteService.byOutputDesc (omap Datatypes.id os)),
    venueQuotes.
  split; [done|]. split; [done|]. split; [done|].
  unfold getQuotePlan. rewrite Hfind.
  destruct (JS.sort RouteQuoteService.byOutputDesc (omap Datatypes.id os))
    as [|q qs] eqn:Hqs.
  - assert (match RouteQuoteService.getQuotesForRoutes chainId provider discovered
                    amountIn toDecimals with
            | Value routeQuotes =>
                if (0 <? length routeQuotes)%nat
                then Failed
                else legacyPlan TOKEN_ADDRESSES chainId provider fromTokenAddress
                       toTokenAddress amountIn fromDecimals toDecimals
            | Thrown => Failed
            end
            = legacyPlan TOKEN_ADDRESSES chainId provider fromTokenAddress
                toTokenAddress amountIn fromDecimals toDecimals) as Hfall.
    { by rewrite Hquotes. }
    destruct (0 <? length discovered)%nat.
    + rewrite Hquotes. cbn [length Nat.ltb Nat.leb].
      destruct venueQuotes; [done|]. done.
    + destruct venueQuotes; done.
  - assert (Forall (fun quote =>
              (uint256 (RouteQuoteService.amountOut quote)
               /\ RouteQuoteService.amountOutFormatted quote
                  = formatUnits (RouteQuoteService.amountOut quote) toDecimals)
              /\ RouteQuoteService.route quote ∈ discovered) (q :: qs)) as Hqall.
    { rewrite Forall_forall. intros quote Hq. rewrite <- Hqs in Hq.
      apply -> (sort_elem RouteQuoteService.byOutputDesc) in Hq.
      destruct (RouteQuoteFacts.quoted_elem _ _ _ _ _ _ _ Hall Hq) as (r & Hr & Hqr).
      destruct (RouteQuoteFacts.getQuoteForRoute_spec chainId provider r amountIn
                  toDecimals) as (o & Ho & Hspec).
      rewrite Hqr in Ho. injection Ho as <-. destruct Hspec as (_ & Hroute & _).
      split; [|by rewrite Hroute].
      eapply getQuoteForRoute_uint256; [exact answers_uint256| |exact Hqr].
      rewrite Forall_forall in Hfound.
      destruct (RouteSearchFacts.found_routeShape _ _ _ _ (Hfound _ Hr))
        as (p & _ & _ & _ & _ & Hlen & _).
      destruct (Pathfinder.hops r); [simpl in Hlen; lia|done]. }
    assert (discovered <> []) as Hd.
    { intros ->. apply Forall2_nil_inv_l in Hall as ->. done. }
    assert ((0 <? length discovered)%nat = true) as ->.
    { destruct discovered; [done|done]. }
    rewrite Hquotes. cbn [length Nat.ltb Nat.leb].
    destruct (optimizeRouteSplit_single amountIn fromDecimals toDecimals decimals_bound
                (q :: qs)) as (best & Hbest & ->); [done| | |].
    + eapply Forall_impl; [exact Hqall|]. by intros ? [[? _] _].
    + eapply Forall_impl; [exact Hqall|]. by intros ? [[_ ?] _].
    + exists best. split; [done|]. split; [|done].
      rewrite Forall_forall in Hqall. apply Hqall, Hbest.
Qed.

(** One venue quote and no route quote; and a single venue quote with the
    fee tier 2^24. *)
Lemma optimizers_empty_input_witness :
  (findOptimalRoute [venueQuote "uniswap_v3" 1010000000] 1000000000000000000000 18 6
   = Thrown <-> [venueQuote "uniswap_v3" 1010000000] = [])
  /\ findOptimalRoute
       [{| DexQuoteService.dexId := "uniswap_v3"; DexQuoteService.dexName := "Uniswap V3";
           DexQuoteService.amountOut := 1010000000;
           DexQuoteService.amountOutFormatted := formatUnits 1010000000 6;
           DexQuoteService.estimatedGas := 150000;
           DexQuoteService.feeTier := Some 16777216; DexQuoteService.feeTiers := None;
           DexQuoteService.path := None; DexQuoteService.pathEncoded := None;
           DexQuoteService.isMultiHop := Some false;
           DexQuoteService.priceImpact := JS.of_ratio 1 10 |}]
       1000000000000000000000 18 6
     = Thrown
  /\ (optimizeRouteSplit [] 1000000000000000000000 18 6 = Value None
      <-> @nil RouteQuoteService.RouteQuote = [])
  /\ optimizeRouteSplit [] 1000000000000000000000 18 6 <> Thrown.
Proof.
  split; [|split].
  - apply (optimizers_empty_input 1000000000000000000000 18 6
             [venueQuote "uniswap_v3" 1010000000] []).
    + repeat constructor; vm_compute; congruence.
    + constructor.
    + repeat (constructor; [apply venueQuote_encodable|]); constructor.
  - eapply (optimizers_empty_input 1000000000000000000000 18 6 _ []).
    + repeat constructor; vm_compute; congruence.
    + constructor.
    + reflexivity.
    + reflexivity.
    + reflexivity.
    + unfold uint24. lia.
  - apply (optimizers_empty_input 1000000000000000000000 18 6 [] []); constructor.
Defined.

(** A quoter that answers 997 for every single-pool read, and nothing
    else answers. *)
Definition flatProvider : Provider :=
  {| quoteExactInputSingle := fun _ _ _ _ _ => Value 997;
     quoteExactInput := fun _ _ _ => Thrown;
     getAmountsOut := fun _ _ _ => Thrown |}.

(** With the pools A-B and A-C and that quoter, a request from A to C is
    not answered with an exception. *)
Lemma getQuotePlan_best_quote_witness :
  getQuotePlan VenueFacts.sampleTokens
    (LiquidityGraph.buildGraph [PathfinderFacts.poolAB; PathfinderFacts.poolAC])
    1 flatProvider PathfinderFacts.tokenA PathfinderFacts.tokenC 1000 18 6
  <> Failed.
Proof.
  destruct (getQuotePlan_best_quote VenueFacts.sampleTokens
              (LiquidityGraph.buildGraph [PathfinderFacts.poolAB; PathfinderFacts.poolAC])
              1 flatProvider PathfinderFacts.tokenA PathfinderFacts.tokenC 1000 18 6)
    as (discovered & routeQuotes & venueQuotes & _ & _ & _ & Hplan).
  - split; [|split]; [|discriminate|discriminate].
    intros q tokenIn tokenOut amountIn fee out [= <-]. vm_compute. split; congruence.
  - lia.
  - destruct routeQuotes as [|q qs], venueQuotes as [|v vs].
    + rewrite Hplan. discriminate.
    + destruct Hplan as (best & _ & -> & Hbuilt).
      destruct (Hbuilt eq_refl) as [optimalRoute ->]. discriminate.
    + destruct Hplan as (best & _ & _ & ->). discriminate.
    + destruct Hplan as (best & _ & _ & ->). discriminate.
Defined.

End FlowFacts.

(** ** Price impact of a route quote: by hop count and amount *)

Module HopImpactFacts.
Import FloatCore NumberFacts.
Import LiquidityGraph Pathfinder RouteQuoteService.

Local Abbreviation V := B2R.

Lemma Math_min_spec a b :
  fin a -> fin b ->
  fin (Math_min a b) /\ V (Math_min a b) = Rmin (V a) (V b).
Proof.
  intros Ha Hb.
  assert (fin (if JS.lt b a then b else a)
          /\ V (if JS.lt b a then b else a) = Rmin (V a) (V b)) as Hif.
  { destruct (JS.lt b a) eqn:Hlt.
    - split; [done|]. unfold JS.lt in Hlt. apply (SFltb_fin b a Hb Ha) in Hlt.
      rewrite Rmin_right; [done|lra].
    - split; [done|]. apply (PriceImpactFacts.not_lt_ge b a Hb Ha) in Hlt.
      by rewrite Rmin_left. }
  destruct a as [sa|sa| |sa ma ea], b as [sb|sb| |sb mb eb]; done.
Qed.

Lemma quotient_bound x y : (0 <= x)%R -> (1 <= y)%R -> (0 <= x / y <= x)%R.
Proof.
  intros Hx Hy. unfold Rdiv.
  assert (0 < / y)%R as Hi by (apply Rinv_0_lt_compat; lra).
  assert (y * / y = 1)%R as Hc by (apply Rinv_r; lra).
  split; [nra|]. nra.
Qed.

Lemma bpow_256 :
  (4000000000000000000 <= bpow 256)%R /\ (bpow 256 * 4 <= bpow 1000)%R.
Proof.
  split.
  - assert (4000000000000000000 <= bpow 62)%R
      by (rewrite bpow_IZR by lia; apply IZR_le; done).
    assert (bpow 62 <= bpow 256)%R by (apply bpow_le; lia). lra.
  - assert (bpow 256 * bpow 2 <= bpow 1000)%R
      by (rewrite <- bpow_add; apply bpow_le; lia).
    assert (bpow 2 = 4)%R as H4 by (rewrite bpow_IZR by lia; done).
    by rewrite H4 in H.
Qed.

(** The estimate for one to three hops and an amount of at most 256
    bits. *)
Lemma estimatePriceImpact_bounds (hops : nat) (amountIn : Z) :
  (1 <= hops <= 3)%nat -> 0 <= amountIn < 2 ^ 256 ->
  fin (estimatePriceImpact hops amountIn)
  /\ (3 / 10 * INR hops - 1 / 100 <= V (estimatePriceImpact hops amountIn)
      <= 3 / 10 * INR hops + 1 + 1 / 100)%R.
Proof.
  intros Hh Ha. pose proof u_bound as Hu. pose proof eta_bound as He.
  destruct bpow_256 as [Hb6 Hb1000].
  assert (0 <= IZR amountIn <= bpow 256)%R as HaR.
  { rewrite bpow_IZR by lia. split; apply IZR_le; lia. }
  assert (0 <= u * bpow 256 <= bpow 256)%R as Hub by nra.
  unfold estimatePriceImpact. cbv zeta.
  (* Number(amountIn) *)
  pose proof (Number_of_bigint_spec amountIn
                ltac:(apply fits; apply Rabs_le; lra)) as Hn.
  destruct (rounded_facts _ _ (bpow 256) Hn ltac:(apply Rabs_le; lra)) as [Hfn Hbn].
  pose proof (rounded_nonneg _ _ Hn ltac:(lra)) as Hn0.
  change (JS.Number_of_bigint amountIn) with (JS.of_Z amountIn) in *.
  set (n := JS.of_Z amountIn) in *.
  (* 1e18 *)
  assert (IZR (10 ^ 18) = 1000000000000000000)%R as H18 by done.
  pose proof (Number_of_bigint_spec (10 ^ 18)
                ltac:(apply fits; apply Rabs_le; rewrite H18; lra)) as Hden.
  destruct (rounded_facts _ _ (bpow 256) Hden ltac:(apply Rabs_le; rewrite H18; lra))
    as [Hfd Hbd].
  rewrite H18 in Hbd.
  pose proof (rounded_ge _ _ (JS.of_Z 1) Hden) as Hd1.
  destruct (of_Z_small 1 ltac:(done)) as [Hf1 Hv1].
  specialize (Hd1 Hf1 ltac:(rewrite Hv1, H18; lra)). rewrite Hv1 in Hd1.
  change (JS.Number_of_bigint (10 ^ 18)) with (JS.of_Z (10 ^ 18)) in *.
  set (den := JS.of_Z (10 ^ 18)) in *.
  (* amountFactor *)
  pose proof (quotient_bound (V n) (V den) Hn0 Hd1) as Hq.
  pose proof (div_spec n den Hfn Hfd ltac:(lra)
                ltac:(apply fits; apply Rabs_le; lra)) as Hf.
  destruct (rounded_facts _ _ (3 * bpow 256) Hf ltac:(apply Rabs_le; lra)) as [Hff Hbf].
  pose proof (rounded_nonneg _ _ Hf ltac:(lra)) as Hf0.
  set (amountFactor := JS.div n den) in *.
  (* amountFactor * 0.001 *)
  destruct (PriceImpactFacts.ratio_value 1 1000 0 (2 / 1000)) as [Hfk Hvk]; [lra..|].
  assert (0 <= V amountFactor * V (JS.of_ratio 1 1000) <= bpow 256)%R as Hprod.
  { split; [apply Rmult_le_pos; lra|].
    assert (V amountFactor <= 7 * bpow 256)%R as H7 by lra.
    assert (V amountFactor * V (JS.of_ratio 1 1000) <= 7 * bpow 256 * (2 / 1000))%R
      by (apply Rmult_le_compat; lra).
    lra. }
  pose proof (mul_spec amountFactor _ Hff Hfk
                ltac:(apply fits; apply Rabs_le; lra)) as Hm.
  pose proof (proj1 Hm) as Hfm.
  pose proof (rounded_nonneg _ _ Hm ltac:(lra)) as Hm0.
  set (scaled := JS.mul amountFactor (JS.of_ratio 1 1000)) in *.
  (* Math.min *)
  destruct (Math_min_spec scaled (JS.of_Z 1) Hfm Hf1) as [Hfmin Hvmin].
  rewrite Hv1 in Hvmin.
  assert (0 <= V (Math_min scaled (JS.of_Z 1)) <= 1)%R as Hmin.
  { rewrite Hvmin. split; [apply Rmin_glb; lra|apply Rmin_r]. }
  set (amountImpact := Math_min scaled (JS.of_Z 1)) in *.
  (* baseImpact * hops *)
  destruct (PriceImpactFacts.ratio_value 3 10 (3 / 10 - 1 / 1000) (3 / 10 + 1 / 1000))
    as [Hfb Hvb]; [lra..|].
  destruct (of_Z_small (Z.of_nat hops) ltac:(unfold prec; lia)) as [Hfh Hvh].
  rewrite <- INR_IZR_INZ in Hvh.
  assert (1 <= INR hops <= 3)%R as HhR.
  { pose proof (le_INR 1 hops ltac:(lia)) as Hlo.
    pose proof (le_INR hops 3 ltac:(lia)) as Hhi. simpl in Hlo, Hhi. lra. }
  pose proof (mul_spec _ _ Hfb Hfh
                ltac:(apply fits_small; apply Rabs_le; rewrite Hvh; nra)) as Hbh.
  destruct (rounded_facts _ _ 1 Hbh ltac:(apply Rabs_le; rewrite Hvh; nra))
    as [Hfbh Hbbh].
  rewrite Hvh in Hbbh.
  set (perHops := JS.mul (JS.of_ratio 3 10) (JS.of_Z (Z.of_nat hops))) in *.
  (* the sum *)
  assert (3 / 10 * INR hops - 4 / 1000 <= V perHops <= 3 / 10 * INR hops + 4 / 1000)%R
    as Hper by nra.
  pose proof (add_spec perHops amountImpact Hfbh Hfmin
                ltac:(apply fits_small; apply Rabs_le; lra)) as Hs.
  destruct (rounded_facts _ _ 3 Hs ltac:(apply Rabs_le; lra)) as [Hfs Hbs].
  split; [done|]. lra.
Qed.

(** Every quote of a discovered route reports a price impact that is a
    finite number between 0.3 per hop and 0.3 per hop plus 1, up to 0.01:
    between 0.29 and 1.91 for the one to three hops of a route, whatever
    the contracts answered. *)
Theorem route_quote_priceImpact (graph : Graph) (tokenIn tokenOut : string)
    (chainId : Z) (provider : Provider) (amountIn : Z) (toDecimals : nat) :
  0 <= amountIn < 2 ^ 256 ->
  exists routes quotes,
    findRoutes graph tokenIn tokenOut = Value routes
    /\ getQuotesForRoutes chainId provider routes amountIn toDecimals = Value quotes
    /\ Forall (fun q =>
         let n := totalHops (route q) in
         (1 <= n <= 3)%nat
         /\ fin (priceImpact q)
         /\ (3 / 10 * INR n - 1 / 100 <= V (priceImpact q)
             <= 3 / 10 * INR n + 1 + 1 / 100)%R)
       quotes.
Proof.
  intros Ha.
  destruct (RouteSearchFacts.findRoutes_recorded graph tokenIn tokenOut)
    as (routes & Hfind & Hfound).
  destruct (RouteQuoteFacts.getQuotesForRoutes_unfold chainId provider routes
              amountIn toDecimals) as (os & Hquotes & Hall).
  exists routes. eexists. split; [done|]. split; [done|].
  rewrite Forall_forall. intros q Hq.
  apply -> (sort_elem byOutputDesc) in Hq.
  destruct (RouteQuoteFacts.quoted_elem _ _ _ _ _ _ _ Hall Hq) as (r & Hr & Hqr).
  rewrite Forall_forall in Hfound.
  destruct (RouteSearchFacts.found_routeShape _ _ _ _ (Hfound _ Hr))
    as (p & _ & _ & _ & _ & Hlen & Hth & _).
  unfold getQuoteForRoute in Hqr.
  destruct (quoteHops chainId provider (hops r) amountIn [])
    as [[[hds out]|]|]; simpl in Hqr; [|discriminate|discriminate].
  injection Hqr as <-. cbn [route priceImpact]. cbv zeta.
  assert (1 <= totalHops r <= 3)%nat as Hn.
  { rewrite Hth. unfold MAX_HOPS in Hlen. lia. }
  split; [done|]. by apply estimatePriceImpact_bounds.
Qed.

(** A request of a thousand units through the pools A-B and A-C. *)
Lemma route_quote_priceImpact_witness :
  exists routes quotes,
    findRoutes (buildGraph [PathfinderFacts.poolAB; PathfinderFacts.poolAC])
      PathfinderFacts.tokenA PathfinderFacts.tokenC = Value routes
    /\ getQuotesForRoutes 1 TierFacts.tieProvider routes 1000 6 = Value quotes
    /\ Forall (fun q => fin (priceImpact q)) quotes.
Proof.
  destruct (route_quote_priceImpact
              (buildGraph [PathfinderFacts.poolAB; PathfinderFacts.poolAC])
              PathfinderFacts.tokenA PathfinderFacts.tokenC 1 TierFacts.tieProvider
              1000 6) as (routes & quotes & Hfind & Hquotes & Hall).
  - lia.
  - exists routes, quotes. split; [exact Hfind|]. split; [exact Hquotes|].
    eapply Forall_impl; [exact Hall|]. intros q (_ & Hf & _). exact Hf.
Defined.

End HopImpactFacts.

(** ** Prices: one cache for every chain *)

Module PriceFacts.
Import Constants PriceService.

(** The price cache is not per chain. Once a feed has answered, every
    request of the following minute, for the native token of any chain
    and through any provider, is answered with that price from the cache,
    which it leaves as it is. A request that fails (no feed for the chain,
    or a rejected read) is answered 0 and stores nothing. *)
Theorem price_cache_shared (latestRoundData : string -> result RoundData)
    (ethPriceCache : option PriceCache) (now stored chainId : Z)
    (feed : string) (round answer started updated answeredIn : Z) :
  match ethPriceCache with
  | Some cache => CACHE_TTL <= now - timestamp cache
  | None => True
  end ->
  assocZ chainId CHAINLINK_PRICE_FEEDS = Some feed ->
  latestRoundData feed = Value (round, answer, started, updated, answeredIn) ->
  let fetched := JS.div (JS.Number_of_bigint answer) (JS.of_Z (10 ^ 8)) in
  exists cache',
    getNativeTokenPrice latestRoundData ethPriceCache now stored chainId
    = (fetched, Some cache')
    /\ (forall latestRoundData' now' stored' chainId' tokenSymbol,
          now' - stored < CACHE_TTL ->
          tokenSymbol ∈ ["ETH"; "WETH"; "BNB"; "WBNB"; "MATIC"; "WMATIC"]%string ->
          getTokenPrice latestRoundData' (Some cache') now' stored' chainId' tokenSymbol
          = (fetched, Some cache'))
    /\ (forall latestRoundData' chainId',
          (assocZ chainId' CHAINLINK_PRICE_FEEDS = None
           \/ exists feed', assocZ chainId' CHAINLINK_PRICE_FEEDS = Some feed'
                            /\ latestRoundData' feed' = Thrown) ->
          getNativeTokenPrice latestRoundData' ethPriceCache now stored chainId'
          = (JS.zero, ethPriceCache)).
Proof.
  intros Hold Hfeed Hread fetched.
  exists {| price := fetched; timestamp := stored |}.
  assert (forall (read : string -> result RoundData) c,
            getNativeTokenPrice read ethPriceCache now stored c
            = match assocZ c CHAINLINK_PRICE_FEEDS with
              | None => (JS.zero, ethPriceCache)
              | Some priceFeedAddress =>
                  match read priceFeedAddress with
                  | Value (_, answer, _, _, _) =>
                      let price :=
                        JS.div (JS.Number_of_bigint answer) (JS.of_Z (10 ^ 8)) in
                      (price, Some {| price := price; timestamp := stored |})
                  | Thrown => (JS.zero, ethPriceCache)
                  end
              end) as Hfetch.
  { intros read c. unfold getNativeTokenPrice. cbv zeta.
    destruct ethPriceCache as [cache|]; [|done].
    assert ((now - timestamp cache <? CACHE_TTL) = false) as -> by (apply Z.ltb_ge; lia).
    done. }
  split; [|split].
  - by rewrite Hfetch, Hfeed, Hread.
  - intros read' now' stored' chainId' tokenSymbol Hfresh Hnative.
    unfold getTokenPrice. rewrite bool_decide_eq_true_2 by done.
    unfold getNativeTokenPrice. cbn [timestamp price].
    by assert ((now' - stored <? CACHE_TTL) = true) as -> by (apply Z.ltb_lt; lia).
  - intros read' chainId' [Hnone|(feed' & Hsome & Hthrown)]; rewrite Hfetch.
    + by rewrite Hnone.
    + by rewrite Hsome, Hthrown.
Qed.

(** A feed that answers 3000 dollars. *)
Definition steadyFeed (address : string) : result RoundData :=
  Value (1, 300000000000, 0, 0, 1).

(** The Ethereum feed answers 3000 dollars; half a minute later the price
    of BNB on chain 56 is asked for, through a provider that rejects. *)
Lemma price_cache_shared_witness :
  exists cache',
    getNativeTokenPrice steadyFeed None 1000000 1000001 1 = (JS.of_Z 3000, Some cache')
    /\ getTokenPrice (fun _ => Thrown) (Some cache') 1030000 1030001 56 "BNB"
       = (JS.of_Z 3000, Some cache').
Proof.
  destruct (price_cache_shared steadyFeed None 1000000 1000001 1
              "0x5f4eC3Df9cbd43714FE2740f5E3616155c5b8419" 1 300000000000 0 0 1)
    as (cache' & Hfirst & Hlater & _).
  - exact I.
  - reflexivity.
  - reflexivity.
  - exists cache'. split.
    + rewrite Hfirst. vm_compute. reflexivity.
    + rewrite (Hlater (fun _ => Thrown) 1030000 1030001 56 "BNB").
      * vm_compute. reflexivity.
      * unfold CACHE_TTL. lia.
      * apply (bool_decide_unpack _). vm_compute. exact I.
Defined.

End PriceFacts.

(** ** Exact-output search *)

Module ExactOutputFacts.
Import DexQuoteService RouteOptimizerService QuoteService QuoteFlow.

(** *** The order of the numbers *)

(** Where a number that is not NaN stands among the numbers: by sign,
    then exponent, then mantissa. *)
Definition rank (x : JS.number) : Z * Z * Z :=
  match x with
  | S754_zero _ => (0, 0, 0)
  | S754_infinity s => (if s then -2 else 2, 0, 0)
  | S754_nan => (0, 0, 0)
  | S754_finite s m e => if s then (-1, - e, Z.neg m) else (1, e, Z.pos m)
  end.

Definition below (a b : Z * Z * Z) : Prop :=
  a.1.1 < b.1.1
  \/ (a.1.1 = b.1.1 /\ (a.1.2 < b.1.2 \/ (a.1.2 = b.1.2 /\ a.2 < b.2))).

Lemma SFltb_rank x y :
  SFltb x y = true <-> x <> S754_nan /\ y <> S754_nan /\ below (rank x) (rank y).
Proof.
  unfold SFltb, below.
  destruct x as [sx|sx| |sx mx ex], y as [sy|sy| |sy my ey]; cbn [SFcompare rank fst snd].
  16:{ change (PosDef.Pos.compare_cont Eq mx my) with (mx ?= my)%positive.
       destruct sx, sy, (Z.compare_spec ex ey) as [He|He|He],
         (Pos.compare_spec mx my) as [Hm|Hm|Hm]; cbn [CompOpp fst snd];
         (split; [intros H; try discriminate H; (split; [done|split; [done|lia]])
                 |intros (H1 & H2 & H3); try done; lia]). }
  all: try destruct sx; try destruct sy; cbn [fst snd];
    (split; [intros H; try discriminate H; (split; [done|split; [done|lia]])
            |intros (H1 & H2 & H3); try done; lia]).
Qed.

Lemma SFltb_trans x y z : SFltb x y = true -> SFltb y z = true -> SFltb x z = true.
Proof.
  rewrite !SFltb_rank. unfold below. intros (Hx & _ & H1) (_ & Hz & H2).
  split; [done|]. split; [done|]. lia.
Qed.

Lemma SFltb_irrefl x : SFltb x x = false.
Proof.
  destruct (SFltb x x) eqn:H; [|done].
  apply SFltb_rank in H as (_ & _ & H). unfold below in H. lia.
Qed.

(** *** What the solver records *)

(** [Math.abs(output - targetOutput) / targetOutput < 0.001] *)
Definition withinTolerance (targetOutput out : JS.number) : bool :=
  JS.lt (JS.div (JS.Math_abs (JS.sub out targetOutput)) targetOutput)
        (JS.of_ratio 1 1000).

(** [Math.abs(output - targetOutput)]: how far an output is from the
    target, as the solver measures it. *)
Definition distance (targetOutput out : JS.number) : JS.number :=
  JS.Math_abs (JS.sub out targetOutput).

(** The route a round found, and its output as a number. *)
Definition quotedRoute (it : Iteration) : option OptimalRoute :=
  match it_outcome it with
  | Quoted _ r => Some r
  | _ => None
  end.

Definition routeOutput (r : OptimalRoute) : JS.number :=
  parseFloat (RouteOptimizerService.totalOutput r).

Definition roundDistance (targetOutput : JS.number) (it : Iteration)
    : option JS.number :=
  option_map (fun r => distance targetOutput (routeOutput r)) (quotedRoute it).

(** The bracket a round leaves to the next one: below the target the
    lower bound is raised to the midpoint, else the upper bound is
    lowered to it; when no venue answered the bracket stays; when the
    quote threw, the midpoint is compared with the guess instead. *)
Definition nextBracket (guess targetOutput : JS.number) (it : Iteration)
    : JS.number * JS.number :=
  match it_outcome it with
  | Quoted _ r =>
      if JS.lt (routeOutput r) targetOutput then (it_mid it, it_high it)
      else (it_low it, it_mid it)
  | NoQuotes _ => (it_low it, it_high it)
  | QuoteThrew _ =>
      if JS.lt (it_mid it) guess then (it_mid it, it_high it)
      else (it_low it, it_mid it)
  | Unparsed => (it_low it, it_high it)
  end.

(** Each round starts from the bracket the round before it left. *)
Fixpoint chained (guess targetOutput low high : JS.number) (its : list Iteration)
    : Prop :=
  match its with
  | [] => True
  | it :: its' =>
      it_low it = low /\ it_high it = high
      /\ chained guess targetOutput (nextBracket guess targetOutput it).1
           (nextBracket guess targetOutput it).2 its'
  end.

(** The rounds after which the loop is left: a route within the
    tolerance, and a midpoint that cannot be rendered and parsed. *)
Definition stops (targetOutput : JS.number) (it : Iteration) : bool :=
  match it_outcome it with
  | Quoted _ r => withinTolerance targetOutput (routeOutput r)
  | Unparsed => true
  | _ => false
  end.

(** The best quote comes from the round [it]. *)
Definition fromRound (it : Iteration) (b : BestQuote) : Prop :=
  quotedRoute it = Some (bq_route b) /\ it_mid it = input b
  /\ output b = routeOutput (bq_route b).

Section Search.
Variable fetchAllQuotes : Z -> result (list DexQuote).
Variables fromDecimals toDecimals : nat.
Variable targetOutput : JS.number.

Local Abbreviation search := (search fetchAllQuotes fromDecimals toDecimals targetOutput).
Local Abbreviation attempt := (attempt fetchAllQuotes fromDecimals toDecimals).

(** A round quotes the midpoint of its bracket, rendered with the source
    token's decimals, and records what the venues and the optimizer
    made of it. *)
Definition roundOK (it : Iteration) : Prop :=
  it_mid it = JS.div (JS.add (it_low it) (it_high it)) (JS.of_Z 2)
  /\ match it_outcome it with
     | Quoted amountIn r =>
         toFixed_parseUnits (it_mid it) fromDecimals = Value amountIn
         /\ attempt amountIn = Value (Some r)
     | NoQuotes amountIn =>
         toFixed_parseUnits (it_mid it) fromDecimals = Value amountIn
         /\ attempt amountIn = Value None
     | QuoteThrew amountIn =>
         toFixed_parseUnits (it_mid it) fromDecimals = Value amountIn
         /\ attempt amountIn = Thrown
     | Unparsed => toFixed_parseUnits (it_mid it) fromDecimals = Thrown
     end.

Local Abbreviation farther b :=
  (fun d => JS.lt d (distance targetOutput (output b)) = false).

(** What the search loop does, [n] rounds left, from the state [st];
    [seen] are the distances of the routes found before. *)
Definition searched (guess : JS.number) (n : nat) (st : SearchState)
    (seen : list JS.number) (its : list Iteration) (final : result SearchState)
    : Prop :=
  (length its <= n)%nat
  /\ (n <> 0%nat -> its <> [])
  /\ Forall roundOK its
  /\ chained guess targetOutput (low st) (high st) its
  /\ (forall i it, its !! i = Some it -> (S i < length its)%nat ->
        stops targetOutput it = false)
  /\ ((length its < n)%nat ->
      exists it, last its = Some it /\ stops targetOutput it = true)
  /\ (final = Thrown <-> exists it, last its = Some it /\ it_outcome it = Unparsed)
  /\ (forall st', final = Value st' ->
        (bestQuote st' = None
         <-> bestQuote st = None /\ Forall (fun it => quotedRoute it = None) its)
        /\ forall b, bestQuote st' = Some b ->
             (bestQuote st = Some b \/ exists it, it ∈ its /\ fromRound it b)
             /\ Forall (farther b) (seen ++ omap (roundDistance targetOutput) its)).

Lemma chained_cons guess low high it its :
  it_low it = low -> it_high it = high ->
  chained guess targetOutput (nextBracket guess targetOutput it).1
    (nextBracket guess targetOutput it).2 its ->
  chained guess targetOutput low high (it :: its).
Proof. by intros; cbn [chained]. Qed.

(** Prepending a round that does not end the loop. *)
Lemma searched_cons guess n st st1 seen seen1 it its final :
  roundOK it -> it_low it = low st -> it_high it = high st ->
  stops targetOutput it = false ->
  low st1 = (nextBracket guess targetOutput it).1 ->
  high st1 = (nextBracket guess targetOutput it).2 ->
  seen1 = seen ++ from_option (fun d => [d]) [] (roundDistance targetOutput it) ->
  (bestQuote st1 = None <-> bestQuote st = None /\ quotedRoute it = None) ->
  (forall b, bestQuote st1 = Some b -> bestQuote st = Some b \/ fromRound it b) ->
  searched guess n st1 seen1 its final ->
  searched guess (S n) st seen (it :: its) final.
Proof.
  intros Hok Hlo Hhi Hstop Hl1 Hh1 Hseen Hnone Hsome
    (Hlen & Hne & Hall & Hch & Hmid & Hearly & Hthrown & Hfinal).
  split; [simpl; lia|]. split; [done|]. split; [by constructor|].
  split; [apply chained_cons; [done..|by rewrite <- Hl1, <- Hh1]|].
  split; [|split; [|split]].
  - intros [|i] it' Hi Hlt; simpl in *.
    + by injection Hi as <-.
    + apply (Hmid i it' Hi). lia.
  - intros Hlt. destruct Hearly as (it' & Hlast & Hs); [simpl in Hlt; lia|].
    exists it'. split; [|done]. destruct its; [done|]. done.
  - rewrite Hthrown. destruct its as [|it0 its0].
    + split; [by intros (it' & [=] & _)|].
      intros (it' & [= <-] & Hu). unfold stops in Hstop. by rewrite Hu in Hstop.
    + done.
  - intros st' Hst'. destruct (Hfinal st' Hst') as [Hn Hb]. split.
    + rewrite Hn, Hnone. split.
      * intros [[H1 H2] H3]. split; [done|by constructor].
      * intros [H1 H2]. apply Forall_cons in H2 as [H2 H3]. done.
    + intros b Hbest. destruct (Hb b Hbest) as [Hfrom Hfar]. split.
      * destruct Hfrom as [Hb1|(it' & Hin & Hf)].
        -- destruct (Hsome b Hb1) as [?|Hf]; [by left|].
           right. exists it. split; [left|done].
        -- right. exists it'. split; [by right|done].
      * subst seen1.
        change (omap (roundDistance targetOutput) (it :: its))
          with (match roundDistance targetOutput it with
                | Some d => d :: omap (roundDistance targetOutput) its
                | None => omap (roundDistance targetOutput) its
                end).
        destruct (roundDistance targetOutput it) as [d|]; cbn [from_option] in Hfar.
        -- by rewrite <- app_assoc in Hfar.
        -- by rewrite app_nil_r in Hfar.
Qed.

Lemma search_spec guess n : forall st seen,
  match bestQuote st with
  | Some b0 => Forall (farther b0) seen
  | None => seen = []
  end ->
  searched guess n st seen (search guess n st).1 (search guess n st).2.
Proof.
  induction n as [|n IH]; intros st seen Hseen.
  - cbn [QuoteService.search fst snd]. split; [simpl; lia|]. split; [done|].
    split; [constructor|]. split; [done|]. split; [by intros i it [=]|].
    split; [simpl; lia|]. split; [split; [done|by intros (it & [=] & _)]|].
    intros st' [= <-]. split.
    + split; [by intros ->|by intros [-> _]].
    + intros b Hb. split; [by left|]. rewrite Hb in Hseen. by rewrite app_nil_r.
  - cbn [QuoteService.search].
    set (mid := JS.div (JS.add (low st) (high st)) (JS.of_Z 2)).
    destruct (toFixed_parseUnits mid fromDecimals) as [amountIn|] eqn:Hfix.
    2:{ (* the midpoint cannot be rendered and parsed *)
      cbn [fst snd].
      set (it := {| it_low := low st; it_high := high st; it_mid := mid;
                    it_outcome := Unparsed |}).
      split; [simpl; lia|]. split; [done|].
      split; [constructor; [by split|constructor]|]. split; [done|].
      split; [intros [|i] it' Hi Hlt; simpl in *; [lia|done]|].
      split; [intros _; by exists it|].
      split; [split; [intros _; by exists it|done]|]. intros st' Hst'. discriminate Hst'. }
    destruct (attempt amountIn) as [[r|]|] eqn:Hatt.
    + (* a route was found *)
      set (out := parseFloat (RouteOptimizerService.totalOutput r)).
      set (best := if closer targetOutput out (bestQuote st)
                   then Some {| input := mid; output := out; bq_route := r |}
                   else bestQuote st).
      set (st1 := if JS.lt out targetOutput
                  then {| low := mid; high := high st; bestQuote := best |}
                  else {| low := low st; high := mid; bestQuote := best |}).
      set (it := {| it_low := low st; it_high := high st; it_mid := mid;
                    it_outcome := Quoted amountIn r |}).
      assert (bestQuote st1 = best) as Hbest1 by (unfold st1; by destruct (JS.lt _ _)).
      assert (low st1 = (nextBracket guess targetOutput it).1
              /\ high st1 = (nextBracket guess targetOutput it).2) as [Hl1 Hh1].
      { unfold st1, nextBracket. cbn [it_outcome it]. fold out.
        unfold routeOutput. fold out. by destruct (JS.lt out targetOutput). }
      assert (roundOK it) as Hok by (by split).
      assert (best <> None) as Hsome.
      { unfold best. destruct (bestQuote st); [by destruct (closer _ _ _)|done]. }
      assert (forall b, best = Some b -> bestQuote st = Some b \/ fromRound it b) as Hfrom.
      { intros b Hb. unfold best in Hb.
        destruct (closer _ _ _); [|by left]. injection Hb as <-. by right. }
      assert (match best with
              | Some b0 => Forall (farther b0) (seen ++ [distance targetOutput out])
              | None => seen ++ [distance targetOutput out] = []
              end) as Hseen1.
      { unfold best, closer. destruct (bestQuote st) as [b|] eqn:Hb.
        - fold (distance targetOutput out) (distance targetOutput (output b)).
          destruct (JS.lt (distance targetOutput out) (distance targetOutput (output b)))
            eqn:Hlt; cbn [output].
          + apply Forall_app. split; [|constructor; [apply SFltb_irrefl|constructor]].
            eapply Forall_impl; [exact Hseen|]. intros d Hd. cbv beta in *.
            destruct (JS.lt d (distance targetOutput out)) eqn:Hd'; [|done].
            unfold JS.lt in *. by rewrite (SFltb_trans _ _ _ Hd' Hlt) in Hd.
          + apply Forall_app. split; [done|]. constructor; [done|constructor].
        - subst seen. cbn [output app]. constructor; [apply SFltb_irrefl|constructor]. }
      fold (withinTolerance targetOutput out).
      destruct (withinTolerance targetOutput out) eqn:Htol.
      * (* within the tolerance: the loop is left *)
        cbn [fst snd]. fold it.
        split; [simpl; lia|]. split; [done|].
        split; [constructor; [done|constructor]|]. split; [done|].
        split; [intros [|i] it' Hi Hlt; simpl in *; [lia|done]|].
        split; [intros _; exists it; split; [done|]; unfold stops; cbn; done|].
        split; [split; [done|by intros (it' & [= <-] & ?)]|].
        intros st' [= <-]. rewrite Hbest1. split.
        -- split; [done|]. intros [_ Hn]. apply Forall_cons in Hn as [Hn _].
           discriminate Hn.
        -- intros b Hb. split.
           ++ destruct (Hfrom b Hb) as [?|?]; [by left|].
              right. exists it. split; [left|done].
           ++ rewrite Hb in Hseen1. exact Hseen1.
      * destruct (search guess n st1) as [its final] eqn:Hrest. cbn [fst snd]. fold it.
        apply (searched_cons guess n st st1 seen (seen ++ [distance targetOutput out])
                 it its final).
        -- exact Hok.
        -- reflexivity.
        -- reflexivity.
        -- unfold stops. cbn. unfold routeOutput. fold out. exact Htol.
        -- exact Hl1.
        -- exact Hh1.
        -- reflexivity.
        -- rewrite Hbest1. split; [done|]. intros [_ Hq]. discriminate Hq.
        -- by rewrite Hbest1.
        -- pose proof (IH st1 (seen ++ [distance targetOutput out])) as H.
           rewrite Hrest, Hbest1 in H. by apply H.
    + (* no venue answered: the bracket and the best quote stay *)
      set (it := {| it_low := low st; it_high := high st; it_mid := mid;
                    it_outcome := NoQuotes amountIn |}).
      destruct (search guess n st) as [its final] eqn:Hrest. cbn [fst snd]. fold it.
      apply (searched_cons guess n st st seen seen it its final).
      * by split.
      * reflexivity.
      * reflexivity.
      * reflexivity.
      * reflexivity.
      * reflexivity.
      * cbn. by rewrite app_nil_r.
      * split; [by intros ->|by intros [? _]].
      * by left.
      * pose proof (IH st seen Hseen) as H. by rewrite Hrest in H.
    + (* the quote threw: the bracket moves, the best quote stays *)
      set (st1 := if JS.lt mid guess
                  then {| low := mid; high := high st; bestQuote := bestQuote st |}
                  else {| low := low st; high := mid; bestQuote := bestQuote st |}).
      set (it := {| it_low := low st; it_high := high st; it_mid := mid;
                    it_outcome := QuoteThrew amountIn |}).
      assert (bestQuote st1 = bestQuote st) as Hbest1
        by (unfold st1; by destruct (JS.lt _ _)).
      destruct (search guess n st1) as [its final] eqn:Hrest. cbn [fst snd]. fold it.
      apply (searched_cons guess n st st1 seen seen it its final).
      * by split.
      * reflexivity.
      * reflexivity.
      * reflexivity.
      * unfold st1, nextBracket. cbn. by destruct (JS.lt mid guess).
      * unfold st1, nextBracket. cbn. by destruct (JS.lt mid guess).
      * cbn. by rewrite app_nil_r.
      * rewrite Hbest1. split; [by intros ->|by intros [? _]].
      * rewrite Hbest1. by left.
      * pose proof (IH st1 seen) as H. rewrite Hrest, Hbest1 in H. by apply H.
Qed.

End Search.

(** *** The request *)

(** What the response of an exact-input request reports as its output. *)
Definition planOutput (p : Plan) : option DecimalText :=
  match p with
  | FromRoutes splitResult => Some (QuoteService.totalOutput splitResult)
  | FromVenues optimalRoute => Some (RouteOptimizerService.totalOutput optimalRoute)
  | NotFound | Failed => None
  end.

Section Request.
Variable TOKEN_ADDRESSES : Z -> option (list (string * string)).
Variable graph : LiquidityGraph.Graph.
Variable chainId : Z.
Variable provider : Provider.
Variables fromTokenAddress toTokenAddress : string.
Variables fromDecimals toDecimals : nat.
Variable targetOutput : JS.number.

(** What the solver asks at an amount: the direct quotes of the venues. *)
Definition venueQuotes (amountIn : Z) : result (list DexQuote) :=
  DexQuoteVenues.fetchAllQuotes TOKEN_ADDRESSES chainId provider fromTokenAddress
    toTokenAddress amountIn fromDecimals toDecimals.

Definition solve : Solved :=
  getExactOutputQuote venueQuotes fromDecimals toDecimals targetOutput.

Definition rounds : list Iteration :=
  (runSearch venueQuotes fromDecimals toDecimals targetOutput).1.

Definition guess : JS.number :=
  estimateInput venueQuotes fromDecimals toDecimals targetOutput.

(** The exact-input pipeline of [getQuote] at an amount. *)
Definition exactInput (amountIn : Z) : Plan :=
  getQuotePlan TOKEN_ADDRESSES graph chainId provider fromTokenAddress toTokenAddress
    amountIn fromDecimals toDecimals.

(** The fallback of that pipeline: the direct quotes of the venues. *)
Definition fallback (amountIn : Z) : Plan :=
  legacyPlan TOKEN_ADDRESSES chainId provider fromTokenAddress toTokenAddress
    amountIn fromDecimals toDecimals.

(** The pipeline falls back at an amount when the route search finds no
    route, or none of the routes it finds is quoted. *)
Definition noRouteQuoted (amountIn : Z) : Prop :=
  exists discovered,
    Pathfinder.findRoutes graph fromTokenAddress toTokenAddress = Value discovered
    /\ (discovered = []
        \/ RouteQuoteService.getQuotesForRoutes chainId provider discovered amountIn
             toDecimals = Value []).

(** [parseUnits(x.toFixed(6), fromDecimals)]: the amount the response
    reports as [fromAmount], as an exact-input request parses it. Digits
    beyond [fromDecimals] are rounded off, half up in magnitude. *)
Definition returnedAmount (x : JS.number) : result Z :=
  n ← toFixed_parseUnits x 6;
  Value (if (6 <=? fromDecimals)%nat then n * 10 ^ Z.of_nat (fromDecimals - 6)
         else Z.sgn n * ((Z.abs n + 5 * 10 ^ Z.of_nat (5 - fromDecimals))
                         / 10 ^ Z.of_nat (6 - fromDecimals))).

(** Quoting the returned input again through the exact-input pipeline:
    the output reported, as a number. *)
Definition requote (x : JS.number) : option JS.number :=
  match returnedAmount x with
  | Value amountIn => option_map parseFloat (planOutput (exactInput amountIn))
  | Thrown => None
  end.

(** The output of the exact-input pipeline in units of the target token. *)
Definition quoteUnits (amountIn : Z) : option Z :=
  option_map units (planOutput (exactInput amountIn)).

(** The exact-input pipeline answers a larger input with an output at
    least as large. *)
Definition monotoneQuotes : Prop :=
  forall a a' o o', a <= a' ->
    quoteUnits a = Some o -> quoteUnits a' = Some o' -> o <= o'.

(** What the specification promises of the solver. *)
Definition hitsTarget : Prop :=
  monotoneQuotes ->
  forall b, solve = Found b ->
    exists out, requote (input b) = Some out
                /\ withinTolerance targetOutput out = true.

Lemma fallback_attempt amountIn :
  fallback amountIn
  = match attempt venueQuotes fromDecimals toDecimals amountIn with
    | Value (Some r) => FromVenues r
    | Value None => NotFound
    | Thrown => Failed
    end.
Proof.
  unfold fallback, legacyPlan, attempt, venueQuotes.
  destruct (DexQuoteVenues.fetchAllQuotes _ _ _ _ _ _ _ _) as [dexQuotes|]; [|done].
  cbn [mbind result_bind]. destruct (length dexQuotes =? 0)%nat; [done|].
  by destruct (findOptimalRoute _ _ _ _).
Qed.

Lemma exactInput_fallback amountIn :
  noRouteQuoted amountIn -> exactInput amountIn = fallback amountIn.
Proof.
  intros (discovered & Hfind & Hnone). unfold exactInput, getQuotePlan, fallback.
  rewrite Hfind. destruct Hnone as [->|Hq]; [done|].
  rewrite Hq. by destruct (0 <? length discovered)%nat.
Qed.

Lemma returnedAmount_six x :
  fromDecimals = 6%nat -> returnedAmount x = toFixed_parseUnits x fromDecimals.
Proof.
  intros H. unfold returnedAmount. rewrite H.
  destruct (toFixed_parseUnits x 6) as [n|]; [|done].
  change (Value (n * 1) = Value n). by rewrite Z.mul_1_r.
Qed.

(** The solver's result comes from the round [it], closest to the target
    of all rounds. *)
Definition closestRound (its : list Iteration) (b : BestQuote) : Prop :=
  (exists it amountIn,
     it ∈ its
     /\ it_outcome it = Quoted amountIn (bq_route b)
     /\ input b = it_mid it
     /\ output b = routeOutput (bq_route b)
     /\ fallback amountIn = FromVenues (bq_route b)
     /\ (noRouteQuoted amountIn -> exactInput amountIn = FromVenues (bq_route b))
     /\ (fromDecimals = 6%nat -> noRouteQuoted amountIn ->
         requote (input b) = Some (output b)))
  /\ Forall (fun it => forall r, quotedRoute it = Some r ->
               JS.lt (distance targetOutput (routeOutput r))
                     (distance targetOutput (output b)) = false) its.

Lemma searched_result g its final :
  searched venueQuotes fromDecimals toDecimals targetOutput g 5 (initialState g) []
    its final ->
  (1 <= length its <= 5)%nat
  /\ Forall (roundOK venueQuotes fromDecimals toDecimals) its
  /\ chained g targetOutput (JS.mul g (JS.of_ratio 1 2)) (JS.mul g (JS.of_Z 2)) its
  /\ (forall i it, its !! i = Some it -> (S i < length its)%nat ->
        stops targetOutput it = false)
  /\ ((length its < 5)%nat ->
      exists it, last its = Some it /\ stops targetOutput it = true)
  /\ match
       match final with
       | Thrown => Crashed
       | Value st =>
           match bestQuote st with
           | None => NoLiquidity
           | Some b => Found b
           end
       end
     with
     | Crashed => exists it, last its = Some it /\ it_outcome it = Unparsed
     | NoLiquidity =>
         Forall (fun it => quotedRoute it = None /\ it_outcome it <> Unparsed) its
     | Found b =>
         Forall (fun it => it_outcome it <> Unparsed) its
         /\ closestRound its b
     end.
Proof.
  intros (Hlen & Hne & Hall & Hch & Hmid & Hearly & Hthrown & Hfinal).
  assert (final <> Thrown -> Forall (fun it => it_outcome it <> Unparsed) its) as Hparsed.
  { intros Hfin. rewrite Forall_forall. intros it Hin Hu.
    apply list_elem_of_lookup in Hin as [i Hi].
    destruct (decide (S i < length its)%nat) as [Hlt|Hge].
    - specialize (Hmid i it Hi Hlt). unfold stops in Hmid. by rewrite Hu in Hmid.
    - apply Hfin, Hthrown. exists it. split; [|exact Hu].
      rewrite last_lookup. pose proof (lookup_lt_Some _ _ _ Hi).
      replace (Nat.pred (length its)) with i by lia. exact Hi. }
  split.
  { split; [|exact Hlen]. assert (its <> []) as Hits by (apply Hne; lia).
    destruct its; [congruence|simpl; lia]. }
  split; [exact Hall|]. split; [exact Hch|]. split; [exact Hmid|].
  split; [exact Hearly|].
  destruct final as [st|].
  2:{ apply Hthrown. reflexivity. }
  assert (Forall (fun it => it_outcome it <> Unparsed) its) as Hp
    by (apply Hparsed; discriminate).
  destruct (Hfinal st eq_refl) as [Hnone Hsome].
  destruct (bestQuote st) as [b|] eqn:Hbest.
  - split; [exact Hp|]. destruct (Hsome b eq_refl) as [Hfrom Hfar].
    destruct Hfrom as [Habs|(it & Hin & Hroute & Hin' & Hout)]; [discriminate Habs|].
    split.
    + rewrite Forall_forall in Hall. destruct (Hall it Hin) as [_ Hrec].
      unfold quotedRoute in Hroute.
      destruct (it_outcome it) as [amountIn r| | |] eqn:Ho; try discriminate Hroute.
      injection Hroute as ->. destruct Hrec as [Hfix Hatt].
      assert (fallback amountIn = FromVenues (bq_route b)) as Hfb
        by (by rewrite fallback_attempt, Hatt).
      exists it, amountIn. split; [exact Hin|]. split; [exact Ho|].
      split; [by symmetry|]. split; [exact Hout|]. split; [exact Hfb|]. split.
      * intros Hno. by rewrite exactInput_fallback.
      * intros Hsix Hno. unfold requote.
        rewrite returnedAmount_six, <- Hin', Hfix by exact Hsix.
        rewrite exactInput_fallback, Hfb by exact Hno.
        cbn [planOutput option_map]. by rewrite Hout.
    + cbn [app] in Hfar. rewrite Forall_forall in Hfar. rewrite Forall_forall.
      intros it' Hin'' r Hr. apply Hfar. apply list_elem_of_omap.
      exists it'. split; [exact Hin''|]. unfold roundDistance. by rewrite Hr.
  - destruct (proj1 Hnone eq_refl) as [_ Hq].
    rewrite Forall_forall in Hq, Hp. rewrite Forall_forall.
    intros it Hin. split; [by apply Hq|by apply Hp].
Qed.

(** C8, amended. The solver runs one to five rounds. Each quotes the
    midpoint of its bracket through the venues, the first bracket being
    0.5 to 2.0 times the guess; a round whose output is below the target
    raises the lower bound to its midpoint and any other round that found
    a route lowers the upper bound to it, a round in which no venue
    answered leaves the bracket as it is, and a round whose quote threw
    moves the bound on the midpoint's side of the guess. The loop is left
    before the fifth round only on a round whose output is within 0.1% of
    the target, or whose midpoint cannot be rendered and parsed, in which
    case the solver throws. Otherwise it reports no liquidity exactly
    when no round found a route, and else returns the round it tracked:
    no round's output is closer to the target, and re-quoting that
    round's amount through the exact-input pipeline gives its plan and
    output again whenever the pipeline falls back to the venues. *)
Theorem exact_output_search :
  (1 <= length rounds <= 5)%nat
  /\ Forall (roundOK venueQuotes fromDecimals toDecimals) rounds
  /\ chained guess targetOutput (JS.mul guess (JS.of_ratio 1 2))
       (JS.mul guess (JS.of_Z 2)) rounds
  /\ (forall i it, rounds !! i = Some it -> (S i < length rounds)%nat ->
        stops targetOutput it = false)
  /\ ((length rounds < 5)%nat ->
      exists it, last rounds = Some it /\ stops targetOutput it = true)
  /\ match solve with
     | Crashed => exists it, last rounds = Some it /\ it_outcome it = Unparsed
     | NoLiquidity =>
         Forall (fun it => quotedRoute it = None /\ it_outcome it <> Unparsed) rounds
     | Found b =>
         Forall (fun it => it_outcome it <> Unparsed) rounds
         /\ closestRound rounds b
     end.
Proof.
  unfold rounds, solve, getExactOutputQuote, runSearch. fold guess.
  apply searched_result, search_spec. reflexivity.
Qed.

End Request.

(** *** The solver misses the target *)

(** One venue, the first constant-product venue of chain 1, pays out
    exactly what it takes in on a direct pair; no pool is known to the
    route search and no bridge token has an address. *)
Definition parProvider : Provider :=
  {| quoteExactInputSingle := fun _ _ _ _ _ => Thrown;
     quoteExactInput := fun _ _ _ => Thrown;
     getAmountsOut := fun routerAddress amountIn path =>
       if String.eqb routerAddress "0x7a250d5630B4cF539739dF2C5dAcb4c659F2488D"
       then match path with
            | [_; _] => Value [amountIn; amountIn]
            | _ => Thrown
            end
       else Thrown |}.

Definition noTokens (chainId : Z) : option (list (string * string)) := None.

Definition noPools : LiquidityGraph.Graph := LiquidityGraph.buildGraph [].

Lemma par_quoteUnits a :
  quoteUnits noTokens noPools 1 parProvider PathfinderFacts.tokenA PathfinderFacts.tokenB
    6 6 a = Some a.
Proof. vm_compute. reflexivity. Qed.

(** C8 as stated fails. With that venue, six decimals on both sides and
    a target of 100, the guess is 100 and the five midpoints are 125,
    87.5, 106.25, 96.875 and 101.5625; the solver returns 101.5625, which
    the exact-input pipeline quotes at 101.5625: off the target by 1.56%,
    not within 0.1%. *)
Lemma five_rounds_miss_target :
  ~ hitsTarget noTokens noPools 1 parProvider PathfinderFacts.tokenA
      PathfinderFacts.tokenB 6 6 (JS.of_Z 100).
Proof.
  intros H.
  assert (monotoneQuotes noTokens noPools 1 parProvider PathfinderFacts.tokenA
            PathfinderFacts.tokenB 6 6) as Hmono.
  { intros a a' o o' Hle. rewrite !par_quoteUnits. intros [= <-] [= <-]. done. }
  destruct (solve noTokens 1 parProvider PathfinderFacts.tokenA PathfinderFacts.tokenB
              6 6 (JS.of_Z 100)) as [b| |] eqn:Hb;
    [|vm_compute in Hb; discriminate Hb..].
  destruct (H Hmono b Hb) as (out & Hre & Htol).
  vm_compute in Hb. injection Hb as <-.
  vm_compute in Hre. injection Hre as <-.
  vm_compute in Htol. discriminate Htol.
Qed.

End ExactOutputFacts.
